(** * ASCII-Text-viewer: a shallow embedding of [main.go] and its properties

    The program is a Bubble Tea terminal application that renders a text as
    FIGlet banner art, coloured by a horizontal gradient with optional hue
    animation.  This file embeds the colour model ([colorRGB], [Hex], [lerp],
    [parseHexColor], [rgbToHsv], [hsvToRgb], [rotateHue]), the banner cache
    ([rebuildArt]), the transition function ([Update]) and the compositor
    ([View]), together with the parts of the Go standard library they call
    ([strings.TrimSpace], [fmt.Sscanf], [fmt.Sprintf], [math.Mod], ...).

    Conventions:
    - a Go [string] is its byte sequence, [list ascii];
    - a Go [int] is a [Z]; arithmetic that can leave the 64-bit range is
      wrapped with [wrap64];
    - a Go [float64] is a primitive binary64 [float];
    - a panic (index out of range) is [None]. *)

From Stdlib Require Import String.
From Stdlib Require Import ZArith QArith Qround List Ascii Bool Lia Floats.
Import ListNotations.
Local Open Scope Z_scope.

Set Implicit Arguments.

(** ** Go strings as byte sequences *)

Definition gostring := list ascii.

Definition go (s : String.string) : gostring := String.list_ascii_of_string s.
Arguments go s%_string.

Definition bv (c : ascii) : Z := Z.of_N (N_of_ascii c).

Definition byte_of (z : Z) : ascii := ascii_of_N (Z.to_N z).

Definition len (s : gostring) : Z := Z.of_nat (length s).

(** [s[i]] on a string, [None] when the index is out of range. *)
Definition index (s : gostring) (i : Z) : option ascii :=
  if i <? 0 then None else nth_error s (Z.to_nat i).

Definition gostring_eqb (a b : gostring) : bool :=
  if list_eq_dec ascii_dec a b then true else false.

(** [strings.Repeat(" ", n)] for a count that is not negative; a negative
    count panics. *)
Definition Repeat (c : ascii) (n : Z) : option gostring :=
  if n <? 0 then None else Some (repeat c (Z.to_nat n)).

Module utf8.

Definition RuneError : Z := 65533.
Definition RuneSelf : Z := 128.

Definition isCont (b : Z) : bool := (128 <=? b) && (b <=? 191).

(** [utf8.DecodeRune]: the first rune of [s] and its width in bytes; an
    invalid or truncated encoding is [(RuneError, 1)], the empty string
    [(RuneError, 0)]. *)
Definition DecodeRune (s : gostring) : Z * nat :=
  match s with
  | [] => (RuneError, 0%nat)
  | c0 :: s1 =>
    let b0 := bv c0 in
    if b0 <? RuneSelf then (b0, 1%nat)
    else if (194 <=? b0) && (b0 <=? 223) then
      match s1 with
      | c1 :: _ =>
        if isCont (bv c1)
        then ((b0 - 192) * 64 + (bv c1 - 128), 2%nat)
        else (RuneError, 1%nat)
      | [] => (RuneError, 1%nat)
      end
    else if (224 <=? b0) && (b0 <=? 239) then
      match s1 with
      | c1 :: c2 :: _ =>
        let lo := if b0 =? 224 then 160 else 128 in
        let hi := if b0 =? 237 then 159 else 191 in
        if (lo <=? bv c1) && (bv c1 <=? hi) && isCont (bv c2)
        then (((b0 - 224) * 64 + (bv c1 - 128)) * 64 + (bv c2 - 128), 3%nat)
        else (RuneError, 1%nat)
      | _ => (RuneError, 1%nat)
      end
    else if (240 <=? b0) && (b0 <=? 244) then
      match s1 with
      | c1 :: c2 :: c3 :: _ =>
        let lo := if b0 =? 240 then 144 else 128 in
        let hi := if b0 =? 244 then 143 else 191 in
        if (lo <=? bv c1) && (bv c1 <=? hi) && isCont (bv c2) && isCont (bv c3)
        then ((((b0 - 240) * 64 + (bv c1 - 128)) * 64 + (bv c2 - 128)) * 64
              + (bv c3 - 128), 4%nat)
        else (RuneError, 1%nat)
      | _ => (RuneError, 1%nat)
      end
    else (RuneError, 1%nat)
  end.

(** [utf8.RuneStart]: the byte is not a continuation byte. *)
Definition RuneStart (b : Z) : bool := negb (isCont b).

(** [utf8.DecodeLastRune]: the loop that looks for the start of the last
    rune runs at most three times, over [end-2], [end-3] and [end-4]. *)
Definition DecodeLastRune (s : gostring) : Z * nat :=
  let e := len s in
  match index s (e - 1) with
  | None => (RuneError, 0%nat)
  | Some c =>
    if bv c <? RuneSelf then (bv c, 1%nat)
    else
      let lim := Z.max 0 (e - 4) in
      let isStart i :=
        match index s i with Some b => RuneStart (bv b) | None => false end in
      let start :=
        if e - 2 <? lim then e - 2
        else if isStart (e - 2) then e - 2
        else if e - 3 <? lim then e - 3
        else if isStart (e - 3) then e - 3
        else if e - 4 <? lim then e - 4
        else if isStart (e - 4) then e - 4
        else e - 5 in
      let start := if start <? 0 then 0 else start in
      let (r, size) := DecodeRune (skipn (Z.to_nat start) s) in
      if start + Z.of_nat size =? e then (r, size) else (RuneError, 1%nat)
  end.

(** The runes of a string, as [for _, r := range s] and a rune reader
    deliver them.  Every step consumes at least one byte, so the length of
    the string is enough fuel. *)
Fixpoint runes_fuel (fuel : nat) (s : gostring) : list Z :=
  match fuel with
  | O => []
  | S f =>
    match s with
    | [] => []
    | _ :: _ =>
      let (r, size) := DecodeRune s in r :: runes_fuel f (skipn size s)
    end
  end.

Definition runes (s : gostring) : list Z := runes_fuel (length s) s.

(** [string(rune(b))] for a byte [b]: the UTF-8 encoding of the code point
    with the value of the byte. *)
Definition string_of_byte (c : ascii) : gostring :=
  let b := bv c in
  if b <? RuneSelf then [c]
  else [byte_of (192 + b / 64); byte_of (128 + b mod 64)].

End utf8.

Module unicode.

(** [unicode.IsSpace], which is also the table [space] of package [fmt]. *)
Definition IsSpace (r : Z) : bool :=
  ((9 <=? r) && (r <=? 13)) || (r =? 32) || (r =? 133) || (r =? 160)
  || (r =? 5760) || ((8192 <=? r) && (r <=? 8202))
  || (r =? 8232) || (r =? 8233) || (r =? 8239) || (r =? 8287) || (r =? 12288).

End unicode.

Module strings.

(** The table [asciiSpace]: tab, newline, vertical tab, form feed, carriage
    return and space. *)
Definition asciiSpace (c : ascii) : bool :=
  let b := bv c in ((9 <=? b) && (b <=? 13)) || (b =? 32).

(** [strings.TrimLeftFunc(s, f)]. *)
Fixpoint TrimLeftFunc_fuel (fuel : nat) (f : Z -> bool) (s : gostring) : gostring :=
  match fuel with
  | O => []
  | S n =>
    match s with
    | [] => []
    | _ :: _ =>
      let (r, size) := utf8.DecodeRune s in
      if f r then TrimLeftFunc_fuel n f (skipn size s) else s
    end
  end.

Definition TrimLeftFunc (s : gostring) (f : Z -> bool) : gostring :=
  TrimLeftFunc_fuel (length s) f s.

(** [strings.TrimRightFunc(s, f)]: [lastIndexFunc] walks back rune by rune
    with [utf8.DecodeLastRune]; the rune it stops at is kept whole. *)
Fixpoint TrimRightFunc_fuel (fuel : nat) (f : Z -> bool) (s : gostring) : gostring :=
  match fuel with
  | O => []
  | S n =>
    match s with
    | [] => []
    | _ :: _ =>
      let (r, size) := utf8.DecodeLastRune s in
      if f r then TrimRightFunc_fuel n f (firstn (length s - size) s) else s
    end
  end.

Definition TrimRightFunc (s : gostring) (f : Z -> bool) : gostring :=
  TrimRightFunc_fuel (length s) f s.

Definition TrimFunc (s : gostring) (f : Z -> bool) : gostring :=
  TrimRightFunc (TrimLeftFunc s f) f.

(** The second loop of [strings.TrimSpace], on the reversed string: ASCII
    spaces are dropped from the end; a byte that is not ASCII hands over to
    [TrimRightFunc]. *)
Fixpoint trimStop (r : list ascii) : gostring :=
  match r with
  | [] => []
  | c :: r' =>
    if utf8.RuneSelf <=? bv c then TrimRightFunc (rev r) unicode.IsSpace
    else if asciiSpace c then trimStop r'
    else rev r
  end.

(** [strings.TrimSpace]: the first loop drops ASCII spaces from the start
    and hands over to [TrimFunc] at a byte that is not ASCII. *)
Fixpoint TrimSpace (s : gostring) : gostring :=
  match s with
  | [] => []
  | c :: s' =>
    if utf8.RuneSelf <=? bv c then TrimFunc s unicode.IsSpace
    else if asciiSpace c then TrimSpace s'
    else trimStop (rev s)
  end.

Definition HasPrefix (s prefix : gostring) : bool :=
  gostring_eqb (firstn (length prefix) s) prefix.

(** [strings.TrimRight(s, "\n")]: the cutset is the one ASCII byte, so the
    bytes are compared one by one from the end. *)
Fixpoint trimRightByte_rev (c : ascii) (r : list ascii) : list ascii :=
  match r with
  | [] => []
  | x :: r' => if Ascii.eqb x c then trimRightByte_rev c r' else r
  end.

Definition TrimRight (s : gostring) (c : ascii) : gostring :=
  rev (trimRightByte_rev c (rev s)).

(** [strings.Split(s, "\n")]: the pieces between the separators; a string
    with [n] separators gives [n + 1] pieces, the empty string gives one
    empty piece. *)
Fixpoint Split_acc (c : ascii) (cur : list ascii) (s : gostring) : list gostring :=
  match s with
  | [] => [rev cur]
  | x :: s' =>
    if Ascii.eqb x c then rev cur :: Split_acc c [] s'
    else Split_acc c (x :: cur) s'
  end.

Definition Split (s : gostring) (c : ascii) : list gostring := Split_acc c [] s.

End strings.

(** ** Package [fmt]: the scanner behind [Sscanf] and the integer verbs of
    [Sprintf] *)

Module fmt.

Definition hugeWid : Z := 2 ^ 30.

(** The digit strings ["0123456789aAbBcCdDeEfF"] and ["+-"] of the scanner,
    as predicates on runes. *)
Definition hexadecimalDigit (r : Z) : bool :=
  ((48 <=? r) && (r <=? 57)) || ((97 <=? r) && (r <=? 102))
  || ((65 <=? r) && (r <=? 70)).

Definition sign (r : Z) : bool := (r =? 43) || (r =? 45).

Definition hexval (r : Z) : Z :=
  if (48 <=? r) && (r <=? 57) then r - 48
  else if (97 <=? r) && (r <=? 102) then r - 87
  else r - 55.

(** The scan state [ss] is the rest of the input (in runes), [count], the
    number of runes consumed so far, and [argLimit], the value of [count]
    at which the current operand ends.  [ReadRune] reports end of input
    when [count >= argLimit]. *)

(** [ss.SkipSpace] of a scan where a newline is not a space ([Sscanf]): a
    newline is the error "unexpected newline"; a carriage return is a space
    whether or not a newline follows, and the newline is then the error. *)
Fixpoint SkipSpace (rs : list Z) (count argLimit : Z) : option (list Z * Z) :=
  match rs with
  | [] => Some ([], count)
  | r :: rest =>
    if argLimit <=? count then Some (rs, count)
    else if r =? 10 then None
    else if unicode.IsSpace r then SkipSpace rest (count + 1) argLimit
    else Some (rs, count)
  end.

(** [ss.notEOF]: [true] when a rune can be read. *)
Definition notEOF (rs : list Z) (count argLimit : Z) : bool :=
  negb (argLimit <=? count) && match rs with [] => false | _ => true end.

(** [ss.accept(ok)]: consumes the next rune into the token buffer when it
    is one of [ok]. *)
Definition accept (ok : Z -> bool) (rs : list Z) (count argLimit : Z)
  : option (Z * list Z * Z) :=
  match rs with
  | [] => None
  | r :: rest =>
    if argLimit <=? count then None
    else if ok r then Some (r, rest, count + 1) else None
  end.

(** The loop [for s.accept(digits) {}]. *)
Fixpoint acceptAll (ok : Z -> bool) (rs : list Z) (count argLimit : Z)
  : list Z * list Z * Z :=
  match rs with
  | [] => ([], [], count)
  | r :: rest =>
    if argLimit <=? count then ([], rs, count)
    else if ok r then
      let '(tok, rs', count') := acceptAll ok rest (count + 1) argLimit in
      (r :: tok, rs', count')
    else ([], rs, count)
  end.

(** [ss.scanNumber(digits, false)]: at least one digit, then all that
    follow within the width. *)
Definition scanNumber (rs : list Z) (count argLimit : Z)
  : option (list Z * list Z * Z) :=
  if notEOF rs count argLimit then
    match accept hexadecimalDigit rs count argLimit with
    | None => None
    | Some (d, rs1, count1) =>
      let '(tok, rs2, count2) := acceptAll hexadecimalDigit rs1 count1 argLimit in
      Some (d :: tok, rs2, count2)
    end
  else None.

(** The value of a token of hexadecimal digits ([strconv.ParseUint] in
    base 16, before its range check). *)
Definition hexvalue (tok : list Z) : Z :=
  fold_left (fun acc d => acc * 16 + hexval d) tok 0.

(** [ss.scanInt('x', 64)]: optional sign, digits, [strconv.ParseInt(tok,
    16, 64)] with its range error. *)
Definition scanInt (rs : list Z) (count argLimit : Z) : option (Z * list Z * Z) :=
  match SkipSpace rs count argLimit with
  | None => None
  | Some (rs0, count0) =>
    if notEOF rs0 count0 argLimit then
      let '(sg, rs1, count1) :=
        match accept sign rs0 count0 argLimit with
        | Some (r, rs1, count1) => (Some r, rs1, count1)
        | None => (None, rs0, count0)
        end in
      match scanNumber rs1 count1 argLimit with
      | None => None
      | Some (tok, rs2, count2) =>
        let u := hexvalue tok in
        let i := match sg with Some 45 => - u | _ => u end in
        if (- 2 ^ 63 <=? i) && (i <? 2 ^ 63) then Some (i, rs2, count2) else None
      end
    else None
  end.

(** [ss.scanUint('x', 8)]: no sign; [strconv.ParseUint(tok, 16, 64)], then
    the overflow check for the 8-bit operand. *)
Definition scanUint8 (rs : list Z) (count argLimit : Z) : option (Z * list Z * Z) :=
  match SkipSpace rs count argLimit with
  | None => None
  | Some (rs0, count0) =>
    if notEOF rs0 count0 argLimit then
      match scanNumber rs0 count0 argLimit with
      | None => None
      | Some (tok, rs2, count2) =>
        let u := hexvalue tok in
        if (u <? 2 ^ 64) && (u <? 2 ^ 8) then Some (u, rs2, count2) else None
      end
    else None
  end.

(** One directive [%<wid>x] of [doScanf]: leading space is skipped before
    the width starts to count, then the operand is scanned within
    [argLimit = min(limit, count + wid)]. *)
Definition scanVerb (scan : list Z -> Z -> Z -> option (Z * list Z * Z))
           (wid : Z) (rs : list Z) (count : Z) : option (Z * list Z * Z) :=
  match SkipSpace rs count hugeWid with
  | None => None
  | Some (rs0, count0) => scan rs0 count0 (Z.min hugeWid (count0 + wid))
  end.

(** [Sscanf(s, "%<wid>x%<wid>x%<wid>x", &a, &b, &c)]: the three operands
    as they are left (an operand that was not reached keeps its zero) and
    whether [err == nil].  Input left over after the third operand is not
    an error. *)
Definition Sscanf3 (scan : list Z -> Z -> Z -> option (Z * list Z * Z))
           (wid : Z) (s : gostring) : Z * Z * Z * bool :=
  match scanVerb scan wid (utf8.runes s) 0 with
  | None => (0, 0, 0, false)
  | Some (a, rs1, c1) =>
    match scanVerb scan wid rs1 c1 with
    | None => (a, 0, 0, false)
    | Some (b, rs2, c2) =>
      match scanVerb scan wid rs2 c2 with
      | None => (a, b, 0, false)
      | Some (c, _, _) => (a, b, c, true)
      end
    end
  end.

(** Lowercase hexadecimal digits of a number that is not negative, most
    significant first, at least one; 16 digits cover 64 bits. *)
Definition hexdigit (d : Z) : ascii :=
  if d <? 10 then byte_of (48 + d) else byte_of (87 + d).

Fixpoint hexdigits (fuel : nat) (u : Z) (acc : gostring) : gostring :=
  match fuel with
  | O => acc
  | S f =>
    if u <? 16 then hexdigit u :: acc
    else hexdigits f (u / 16) (hexdigit (u mod 16) :: acc)
  end.

(** The verb [%02x] on an [int]: with the zero flag the width becomes the
    precision, less one for the sign of a negative number; the digits are
    those of the absolute value, zero-padded to the precision. *)
Definition fmt_02x (v : Z) : gostring :=
  let negative := v <? 0 in
  let prec := if negative then 1%nat else 2%nat in
  let ds := hexdigits 16 (Z.abs v) [] in
  let padded := repeat "0"%char (prec - length ds) ++ ds in
  if negative then "-"%char :: padded else padded.

End fmt.

(** ** The colour model *)

Record colorRGB := mkColor { R : Z; G : Z; B : Z }.

(** [func (c colorRGB) Hex() string]:
    [fmt.Sprintf("#%02x%02x%02x", c.R, c.G, c.B)]. *)
Definition Hex (c : colorRGB) : gostring :=
  "#"%char :: fmt.fmt_02x (R c) ++ fmt.fmt_02x (G c) ++ fmt.fmt_02x (B c).

(** [parseHexColor]: the colour returned and the flag [ok]. *)
Definition parseHexColor (s : gostring) : colorRGB * bool :=
  let s := strings.TrimSpace s in
  if negb (strings.HasPrefix s (go "#")) then (mkColor 0 0 0, false)
  else
    let s := skipn 1 s in
    if len s =? 6 then
      let '(r, g, b, ok) := fmt.Sscanf3 fmt.scanInt 2 s in
      (mkColor r g b, ok)
    else if len s =? 3 then
      let '(r1, g1, b1, ok) := fmt.Sscanf3 fmt.scanUint8 1 s in
      (mkColor (r1 * 17) (g1 * 17) (b1 * 17), ok)
    else (mkColor 0 0 0, false).

(** ** [float64]: conversions and package [math] *)

Module math.

Local Open Scope float_scope.

(** [float64(n)] for an [int]: the nearest binary64 number, ties to even;
    exact below [2^53]. *)
Definition float64 (n : Z) : float :=
  SF2Prim (binary_normalize prec emax n 0 false).

(** The integer part of a finite number, towards zero. *)
Definition trunc_SF (x : spec_float) : option Z :=
  match x with
  | S754_zero _ => Some 0%Z
  | S754_finite s m e =>
    let v := if (0 <=? e)%Z then (Zpos m * 2 ^ e)%Z
             else (Zpos m / 2 ^ (- e))%Z in
    Some (if s then (- v)%Z else v)
  | _ => None
  end.

(** [int(x)] for a [float64]: the fraction is discarded (truncation
    towards zero).  When the value does not fit a 64-bit [int] (or is not a
    number) the result depends on the implementation; amd64 gives
    [-2^63], which is what is modelled. *)
Definition int (x : float) : Z :=
  match trunc_SF (Prim2SF x) with
  | Some i => if ((- 2 ^ 63 <=? i) && (i <? 2 ^ 63))%Z then i else (- 2 ^ 63)%Z
  | None => (- 2 ^ 63)%Z
  end.

Definition IsNaN (x : float) : bool := negb (x =? x).

(** [math.Max] and [math.Min] with their special cases. *)
Definition Max (x y : float) : float :=
  if (x =? infinity) || (y =? infinity) then infinity
  else if IsNaN x || IsNaN y then nan
  else if (x =? 0) && (x =? y) then (if get_sign x then y else x)
  else if y <? x then x else y.

Definition Min (x y : float) : float :=
  if (x =? neg_infinity) || (y =? neg_infinity) then neg_infinity
  else if IsNaN x || IsNaN y then nan
  else if (x =? 0) && (x =? y) then (if get_sign x then x else y)
  else if x <? y then x else y.

Definition Abs (x : float) : float := abs x.

(** [math.Mod(x, y)]: the floating-point remainder of [x/y], exact, with
    the sign of [x] and a magnitude below that of [y]; not a number when
    [x] is infinite or [y] is zero, [x] when [y] is infinite. *)
Definition Mod (x y : float) : float :=
  match Prim2SF x, Prim2SF y with
  | S754_nan, _ | _, S754_nan => nan
  | S754_infinity _, _ => nan
  | _, S754_zero _ => nan
  | S754_zero _, _ => x
  | _, S754_infinity _ => x
  | S754_finite sx mx ex, S754_finite _ my ey =>
    let e := Z.min ex ey in
    let r := ((Zpos mx * 2 ^ (ex - e)) mod (Zpos my * 2 ^ (ey - e)))%Z in
    SF2Prim (binary_normalize prec emax (if sx then (- r)%Z else r) e sx)
  end.

End math.

Section ColorFloat.

Local Open Scope float_scope.
Import math.

(** [lerp]: each operation is rounded on its own (no fused multiply-add,
    as on amd64). *)
Definition lerp (a b : colorRGB) (t : float) : colorRGB :=
  mkColor
    (int (float64 (R a) + (float64 (R b) - float64 (R a)) * t))
    (int (float64 (G a) + (float64 (G b) - float64 (G a)) * t))
    (int (float64 (B a) + (float64 (B b) - float64 (B a)) * t)).

Definition clamp01 (x : float) : float := Max 0 (Min 1 x).

Definition rgbToHsv (c : colorRGB) : float * float * float :=
  let r := float64 (R c) / 255 in
  let g := float64 (G c) / 255 in
  let b := float64 (B c) / 255 in
  let maxv := Max r (Max g b) in
  let minv := Min r (Min g b) in
  let d := maxv - minv in
  let v := maxv in
  if maxv =? 0 then (0, 0, 0)
  else
    let s := if negb (maxv =? 0) then d / maxv else 0 in
    let h :=
      if d =? 0 then 0
      else
        let h :=
          if maxv =? r then
            let h := (g - b) / d in
            if g <? b then h + 6 else h
          else if maxv =? g then (b - r) / d + 2
          else if maxv =? b then (r - g) / d + 4
          else 0 in
        h * 60 in
    (h, s, v).

Definition hsvToRgb (h s v : float) : colorRGB :=
  let h := Mod h 360 in
  let h := if h <? 0 then h + 360 else h in
  let c := v * s in
  let x := c * (1 - Abs (Mod (h / 60) 2 - 1)) in
  let m := v - c in
  let '(r1, g1, b1) :=
    if h <? 60 then (c, x, 0)
    else if h <? 120 then (x, c, 0)
    else if h <? 180 then (0, c, x)
    else if h <? 240 then (0, x, c)
    else if h <? 300 then (x, 0, c)
    else (c, 0, x) in
  mkColor (int ((r1 + m) * 255)) (int ((g1 + m) * 255)) (int ((b1 + m) * 255)).

Definition rotateHue (c : colorRGB) (delta : float) : colorRGB :=
  let '(h, s, v) := rgbToHsv c in
  hsvToRgb (h + delta) s v.

End ColorFloat.

(** ** Render modes and the font catalogue *)

Definition modeBlock : Z := 0.
Definition modeGlyph : Z := 1.
Definition modeLight : Z := 2.
Definition modeDots : Z := 3.

Definition modeNames : list gostring :=
  [go "BLOCK █"; go "GLYPH"; go "LIGHT ▓"; go "DOTS ·"].

Definition figFonts : list gostring :=
  [go "standard"; go "big"; go "doom"; go "slant"; go "shadow"; go "block";
   go "banner"; go "larry3d"; go "speed"; go "smslant"; go "small";
   go "isometric1"; go "3-d"; go "3x5"; go "5lineoblique"; go "acrobatic";
   go "alligator"; go "alligator2"; go "alphabet"; go "avatar";
   go "banner3-D"; go "banner3"; go "banner4"; go "barbwire"; go "basic";
   go "bell"; go "bigchief"; go "binary"; go "bubble"; go "bulbhead";
   go "calgphy2"; go "caligraphy"; go "catwalk"; go "chunky"; go "coinstak";
   go "colossal"; go "computer"; go "contessa"; go "contrast"; go "cosmic";
   go "cosmike"; go "cricket"; go "cursive"; go "cyberlarge";
   go "cybermedium"; go "cybersmall"; go "diamond"; go "digital"; go "doh";
   go "dotmatrix"; go "drpepper"; go "eftichess"; go "eftifont";
   go "eftipiti"; go "eftirobot"; go "eftitalic"; go "eftiwall";
   go "eftiwater"; go "epic"; go "fender"; go "fourtops"; go "fuzzy";
   go "goofy"; go "gothic"; go "graffiti"; go "hollywood"; go "invita";
   go "isometric2"; go "isometric3"; go "isometric4"; go "italic"; go "ivrit";
   go "jazmine"; go "jerusalem"; go "katakana"; go "kban"; go "lcd";
   go "lean"; go "letters"; go "linux"; go "lockergnome"; go "madrid";
   go "marquee"; go "maxfour"; go "mike"; go "mini"; go "mirror";
   go "mnemonic"; go "morse"; go "moscow"; go "nancyj-fancy";
   go "nancyj-underlined"; go "nancyj"; go "nipples"; go "ntgreek"; go "o8";
   go "ogre"; go "pawp"; go "peaks"; go "pebbles"; go "pepper"; go "poison";
   go "puffy"; go "pyramid"; go "rectangles"; go "relief"; go "relief2";
   go "rev"; go "roman"; go "rot13"; go "rounded"; go "rowancap"; go "rozzo";
   go "runic"; go "runyc"; go "sblood"; go "script"; go "serifcap";
   go "short"; go "slide"; go "slscript"; go "smisome1"; go "smkeyboard";
   go "smscript"; go "smshadow"; go "smtengwar"; go "stampatello";
   go "starwars"; go "stellar"; go "stop"; go "straight"; go "tanja";
   go "tengwar"; go "term"; go "thick"; go "thin"; go "threepoint";
   go "ticks"; go "ticksslant"; go "tinker-toy"; go "tombstone"; go "trek";
   go "tsalagi"; go "twopoint"; go "univers"; go "usaflag"; go "wavy";
   go "weird"].

(** ** Go's [int] *)

(** Two's-complement wrap-around of a 64-bit [int]. *)
Definition wrap64 (z : Z) : Z := (z + 2 ^ 63) mod 2 ^ 64 - 2 ^ 63.

(** [xs[i]] on a slice, [None] when the index is out of range (a panic). *)
Definition at_index {A : Type} (xs : list A) (i : Z) : option A :=
  if i <? 0 then None else nth_error xs (Z.to_nat i).

Definition llen {A : Type} (xs : list A) : Z := Z.of_nat (length xs).

(** [a % b] on [int]: the remainder has the sign of [a]; a zero divisor
    panics. *)
Definition go_rem (a b : Z) : option Z :=
  if b =? 0 then None else Some (Z.rem a b).

Definition newline : ascii := "010"%char.
Definition space : ascii := " "%char.

(** ** The application: model, [Update] and [View]

    The collaborators are parameters: the key message of Bubble Tea with its
    [String()], any message the program does not know, the text input widget
    of Bubbles ([Value], [Focus], [Blur], [Update]) and the FIGlet renderer
    ([figure.NewFigure(txt, font, true).String()]). *)

Inductive Msg (Key Other : Type) :=
| WindowSizeMsg (Width Height : Z)
| KeyMsg (k : Key)
| tickMsg
| OtherMsg (o : Other).

Arguments WindowSizeMsg {Key Other} Width Height.
Arguments KeyMsg {Key Other} k.
Arguments tickMsg {Key Other}.
Arguments OtherMsg {Key Other} o.

Record Collaborators := mkCollaborators {
  Key : Type;
  Key_String : Key -> gostring;
  Other : Type;
  TI : Type;
  TICmd : Type;
  ti_Value : TI -> gostring;
  ti_Focus : TI -> TI;
  ti_Blur : TI -> TI;
  ti_Update : TI -> Msg Key Other -> TI * TICmd;
  newTextInput : gostring -> gostring -> TI;
  figure_String : gostring -> gostring -> gostring
}.

Section App.

Variable C : Collaborators.

Definition msg : Type := Msg (Key C) (Other C).

(** What [Update] returns next to the model: nothing, [tea.Quit], one tick
    after the interval, or the batch of the widgets' commands. *)
Inductive Cmd :=
| nil_cmd
| Quit
| tickEvery (d : Z)
| Batch (cmds : list (TICmd C)).

Record model := mkModel {
  w : Z; h : Z;
  inputs : list (TI C);
  focusIndex : Z;
  fonts : list gostring;
  fontIndex : Z;
  artLines : list gostring;
  maxWidth : Z;
  baseStart : colorRGB;
  baseEnd : colorRGB;
  mode : Z;
  animate : bool;
  hueShift : float;
  stepDeg : float;
  interval : Z
}.

Definition set_size (m : model) (W H : Z) : model :=
  mkModel W H (inputs m) (focusIndex m) (fonts m) (fontIndex m) (artLines m)
          (maxWidth m) (baseStart m) (baseEnd m) (mode m) (animate m)
          (hueShift m) (stepDeg m) (interval m).

Definition set_inputs (m : model) (v : list (TI C)) : model :=
  mkModel (w m) (h m) v (focusIndex m) (fonts m) (fontIndex m) (artLines m)
          (maxWidth m) (baseStart m) (baseEnd m) (mode m) (animate m)
          (hueShift m) (stepDeg m) (interval m).

Definition set_focusIndex (m : model) (v : Z) : model :=
  mkModel (w m) (h m) (inputs m) v (fonts m) (fontIndex m) (artLines m)
          (maxWidth m) (baseStart m) (baseEnd m) (mode m) (animate m)
          (hueShift m) (stepDeg m) (interval m).

Definition set_fontIndex (m : model) (v : Z) : model :=
  mkModel (w m) (h m) (inputs m) (focusIndex m) (fonts m) v (artLines m)
          (maxWidth m) (baseStart m) (baseEnd m) (mode m) (animate m)
          (hueShift m) (stepDeg m) (interval m).

Definition set_art (m : model) (lines : list gostring) (maxW : Z) : model :=
  mkModel (w m) (h m) (inputs m) (focusIndex m) (fonts m) (fontIndex m) lines
          maxW (baseStart m) (baseEnd m) (mode m) (animate m)
          (hueShift m) (stepDeg m) (interval m).

Definition set_baseStart (m : model) (c : colorRGB) : model :=
  mkModel (w m) (h m) (inputs m) (focusIndex m) (fonts m) (fontIndex m)
          (artLines m) (maxWidth m) c (baseEnd m) (mode m) (animate m)
          (hueShift m) (stepDeg m) (interval m).

Definition set_baseEnd (m : model) (c : colorRGB) : model :=
  mkModel (w m) (h m) (inputs m) (focusIndex m) (fonts m) (fontIndex m)
          (artLines m) (maxWidth m) (baseStart m) c (mode m) (animate m)
          (hueShift m) (stepDeg m) (interval m).

Definition set_mode (m : model) (v : Z) : model :=
  mkModel (w m) (h m) (inputs m) (focusIndex m) (fonts m) (fontIndex m)
          (artLines m) (maxWidth m) (baseStart m) (baseEnd m) v (animate m)
          (hueShift m) (stepDeg m) (interval m).

Definition set_animate (m : model) (v : bool) : model :=
  mkModel (w m) (h m) (inputs m) (focusIndex m) (fonts m) (fontIndex m)
          (artLines m) (maxWidth m) (baseStart m) (baseEnd m) (mode m) v
          (hueShift m) (stepDeg m) (interval m).

Definition set_hueShift (m : model) (v : float) : model :=
  mkModel (w m) (h m) (inputs m) (focusIndex m) (fonts m) (fontIndex m)
          (artLines m) (maxWidth m) (baseStart m) (baseEnd m) (mode m)
          (animate m) v (stepDeg m) (interval m).

Definition set_stepDeg (m : model) (v : float) : model :=
  mkModel (w m) (h m) (inputs m) (focusIndex m) (fonts m) (fontIndex m)
          (artLines m) (maxWidth m) (baseStart m) (baseEnd m) (mode m)
          (animate m) (hueShift m) v (interval m).

(** The loop of [rebuildArt] that finds the longest line, and its body. *)
Definition maxStep (maxW : Z) (l : gostring) : Z :=
  if len l >? maxW then len l else maxW.

Definition maxLen (lines : list gostring) : Z := fold_left maxStep lines 0.

(** [func (m *model) rebuildArt()]. *)
Definition rebuildArt (m : model) : option model :=
  match at_index (inputs m) 0 with
  | None => None
  | Some ti =>
    let txt := ti_Value C ti in
    match at_index (fonts m) (fontIndex m) with
    | None => None
    | Some font =>
      let lines :=
        strings.Split (strings.TrimRight (figure_String C txt font) newline)
                      newline in
      Some (set_art m lines (maxLen lines))
    end
  end.

(** [newModel]: 60 ms is the tick interval, in nanoseconds. *)
Definition newModel : option model :=
  let ins := [newTextInput C (go "text") (go "glam dm");
              newTextInput C (go "start hex") (go "#8A2BE2");
              newTextInput C (go "end hex") (go "#00FFFF")] in
  let ins := match ins with
             | i0 :: rest => ti_Focus C i0 :: rest
             | [] => []
             end in
  rebuildArt
    (mkModel 0 0 ins 0 figFonts 0 [] 0 (mkColor 138 43 226) (mkColor 0 255 255)
             modeGlyph true 0%float 3%float 60000000).

(** [func (m model) Init() tea.Cmd]. *)
Definition Init (m : model) : Cmd :=
  if animate m then tickEvery (interval m) else nil_cmd.

Definition key_in (s : gostring) (keys : list gostring) : bool :=
  existsb (gostring_eqb s) keys.

(** The loop [for i := range m.inputs] of the focus keys. *)
Fixpoint refocus (i focus : Z) (ins : list (TI C)) : list (TI C) :=
  match ins with
  | [] => []
  | ti :: rest =>
    (if i =? focus then ti_Focus C ti else ti_Blur C ti)
      :: refocus (i + 1) focus rest
  end.

(** The part of [Update] after the [switch]: every widget sees the
    message, the art is rebuilt and the colour fields are parsed. *)
Definition fieldEdit (m : model) (e : msg) : option (model * Cmd) :=
  let results := map (fun ti => ti_Update C ti e) (inputs m) in
  let cmds := map snd results in
  let m := set_inputs m (map fst results) in
  match rebuildArt m with
  | None => None
  | Some m =>
    match at_index (inputs m) 1 with
    | None => None
    | Some i1 =>
      let m := let '(c, ok) := parseHexColor (ti_Value C i1) in
               if ok then set_baseStart m c else m in
      match at_index (inputs m) 2 with
      | None => None
      | Some i2 =>
        let m := let '(c, ok) := parseHexColor (ti_Value C i2) in
                 if ok then set_baseEnd m c else m in
        Some (m, Batch cmds)
      end
    end
  end.

(** [func (m model) Update(msg tea.Msg) (tea.Model, tea.Cmd)]. *)
Definition Update (m : model) (e : msg) : option (model * Cmd) :=
  match e with
  | WindowSizeMsg W H => Some (set_size m W H, nil_cmd)
  | KeyMsg k =>
    let s := Key_String C k in
    if key_in s [go "q"; go "esc"; go "ctrl+c"] then Some (m, Quit)
    else if key_in s [go "tab"; go "shift+tab"] then
      let f := if gostring_eqb s (go "shift+tab")
               then wrap64 (focusIndex m - 1)
               else wrap64 (focusIndex m + 1) in
      let f := if f <? 0 then llen (inputs m) - 1 else f in
      let f := if f >=? llen (inputs m) then 0 else f in
      let m := set_focusIndex m f in
      Some (set_inputs m (refocus 0 f (inputs m)), nil_cmd)
    else if key_in s [go "left"; go "["] then
      match go_rem (wrap64 (wrap64 (fontIndex m - 1) + llen (fonts m)))
                   (llen (fonts m)) with
      | None => None
      | Some i =>
        match rebuildArt (set_fontIndex m i) with
        | None => None
        | Some m => Some (m, nil_cmd)
        end
      end
    else if key_in s [go "right"; go "]"] then
      match go_rem (wrap64 (fontIndex m + 1)) (llen (fonts m)) with
      | None => None
      | Some i =>
        match rebuildArt (set_fontIndex m i) with
        | None => None
        | Some m => Some (m, nil_cmd)
        end
      end
    else if key_in s [go "m"] then
      match go_rem (wrap64 (mode m + 1)) (llen modeNames) with
      | None => None
      | Some i => Some (set_mode m i, nil_cmd)
      end
    else if key_in s [go "a"] then
      let m := set_animate m (negb (animate m)) in
      if animate m then Some (m, tickEvery (interval m)) else Some (m, nil_cmd)
    else if key_in s [go "+"; go "="] then
      Some (set_stepDeg m (math.Min 30 (stepDeg m + 0.5)), nil_cmd)
    else if key_in s [go "-"; go "_"] then
      Some (set_stepDeg m (math.Max 0.5 (stepDeg m - 0.5)), nil_cmd)
    else fieldEdit m e
  | tickMsg =>
    if animate m then
      Some (set_hueShift m (math.Mod (hueShift m + stepDeg m) 360),
            tickEvery (interval m))
    else Some (m, nil_cmd)
  | OtherMsg _ => fieldEdit m e
  end.

(** *** The compositor

    What [View] writes into the [strings.Builder] of a row: a plain byte,
    or a string rendered by a Lip Gloss style whose foreground is the
    colour with the given hex text. *)
Inductive Piece :=
| WriteByte (b : ascii)
| WriteStyled (fg : gostring) (s : gostring).

(** The [switch m.mode] of the render loop; a mode outside the four cases
    writes nothing. *)
Definition glyphFor (md : Z) (ch : ascii) : option gostring :=
  if md =? modeBlock then Some (go "█")
  else if md =? modeLight then Some (go "▓")
  else if md =? modeDots then Some (go "·")
  else if md =? modeGlyph then Some (utf8.string_of_byte ch)
  else None.

(** The gradient position of column [x]. *)
Definition gradientT (maxW x : Z) : float :=
  if maxW >? 1
  then (math.float64 x / math.float64 (maxW - 1))%float
  else 0%float.

(** The body of the loop over the columns, [None] when [line[x]] is out of
    range. *)
Definition renderCell (maxW md : Z) (effStart effEnd : colorRGB)
           (line : gostring) (x : Z) : option (list Piece) :=
  match index line x with
  | None => None
  | Some ch =>
    if Ascii.eqb ch space then Some [WriteByte space]
    else
      let c := lerp effStart effEnd (gradientT maxW x) in
      match glyphFor md ch with
      | Some g => Some [WriteStyled (Hex c) g]
      | None => Some []
      end
  end.

(** [for x := 0; x < m.maxWidth; x++], with [n] iterations left. *)
Fixpoint renderCols (n : nat) (maxW md : Z) (effStart effEnd : colorRGB)
         (line : gostring) (x : Z) : option (list Piece) :=
  match n with
  | O => Some []
  | S n' =>
    match renderCell maxW md effStart effEnd line x with
    | None => None
    | Some ps =>
      match renderCols n' maxW md effStart effEnd line (x + 1) with
      | None => None
      | Some rest => Some (ps ++ rest)
      end
    end
  end.

(** The padding of a row to [maxWidth]. *)
Definition padLine (maxW : Z) (line : gostring) : option gostring :=
  if len line <? maxW then
    match Repeat space (maxW - len line) with
    | None => None
    | Some pad => Some (line ++ pad)
    end
  else Some line.

Definition renderLine (maxW md : Z) (effStart effEnd : colorRGB)
           (line : gostring) : option (list Piece) :=
  match padLine maxW line with
  | None => None
  | Some line => renderCols (Z.to_nat maxW) maxW md effStart effEnd line 0
  end.

(** [for y, line := range m.artLines]. *)
Fixpoint renderRows (maxW md : Z) (effStart effEnd : colorRGB)
         (lines : list gostring) : option (list (list Piece)) :=
  match lines with
  | [] => Some []
  | line :: rest =>
    match renderLine maxW md effStart effEnd line with
    | None => None
    | Some row =>
      match renderRows maxW md effStart effEnd rest with
      | None => None
      | Some rows => Some (row :: rows)
      end
    end
  end.

(** The effective colours of [View]. *)
Definition effStart (m : model) : colorRGB :=
  if animate m then rotateHue (baseStart m) (hueShift m) else baseStart m.

Definition effEnd (m : model) : colorRGB :=
  if animate m then rotateHue (baseEnd m) (hueShift m) else baseEnd m.

(** The coloured art of [View]. *)
Definition viewArt (m : model) : option (list (list Piece)) :=
  renderRows (maxWidth m) (mode m) (effStart m) (effEnd m) (artLines m).

(** What the controls panel shows: the three widgets, the font name, the
    mode name and the step when the animation is on. *)
Record Controls := mkControls {
  ctlText : TI C; ctlStart : TI C; ctlEnd : TI C;
  ctlFont : gostring; ctlMode : gostring; ctlAnim : option float
}.

(** The screen: the loading text, or the controls above the art, placed
    in the centre of the terminal. *)
Inductive Screen :=
| Loading
| Placed (W H : Z) (controls : Controls) (art : list (list Piece)).

(** [func (m model) View() string]. *)
Definition View (m : model) : option Screen :=
  if (w m =? 0) || (h m =? 0) then Some Loading
  else
    match at_index (inputs m) 0, at_index (inputs m) 1, at_index (inputs m) 2,
          at_index (fonts m) (fontIndex m), at_index modeNames (mode m),
          viewArt m with
    | Some i0, Some i1, Some i2, Some font, Some mname, Some art =>
      Some (Placed (w m) (h m)
              (mkControls i0 i1 i2 font mname
                 (if animate m then Some (stepDeg m) else None))
              art)
    | _, _, _, _, _, _ => None
    end.

End App.

Arguments nil_cmd {C}.
Arguments Quit {C}.
Arguments tickEvery {C} d.
Arguments Loading {C}.

(** The events that reach the part of [Update] after the [switch]: a key
    with no binding of its own, or a message the program does not know. *)
Definition boundKeys : list gostring :=
  [go "q"; go "esc"; go "ctrl+c"; go "tab"; go "shift+tab"; go "left"; go "[";
   go "right"; go "]"; go "m"; go "a"; go "+"; go "="; go "-"; go "_"].

Definition isFieldEdit (C : Collaborators) (e : msg C) : bool :=
  match e with
  | KeyMsg k => negb (key_in (Key_String C k) boundKeys)
  | OtherMsg _ => true
  | _ => false
  end.

Arguments isFieldEdit C e : clear implicits.

(** The states the program can be in: the initial model and what [Update]
    makes of a state after any message. *)
Inductive reachable (C : Collaborators) : model C -> Prop :=
| reach_init : forall m, newModel C = Some m -> reachable m
| reach_step : forall m e m' c,
    reachable m -> Update m e = Some (m', c) -> reachable m'.

(** [n] ticks in a row. *)
Fixpoint ticks (C : Collaborators) (n : nat) (m : model C) : option (model C) :=
  match n with
  | O => Some m
  | S k =>
    match Update m tickMsg with
    | Some (m', _) => ticks k m'
    | None => None
    end
  end.

(** Lowercase hexadecimal digits, the alphabet of [Hex]. *)
Definition lowerHex (c : ascii) : bool :=
  let b := bv c in ((48 <=? b) && (b <=? 57)) || ((97 <=? b) && (b <=? 102)).

(** A bounded universal quantifier that computes. *)
Fixpoint range_all (n : nat) (P : Z -> bool) : bool :=
  match n with
  | O => true
  | S k => P (Z.of_nat k) && range_all k P
  end.

(** The cell the specification asks for at column [x] of a row whose byte
    there is [ch]: a blank stays a blank without colour; any other byte gets
    the colour of its column, interpolated between the effective end points
    at [x / (maxWidth - 1)] (at 0 when [maxWidth <= 1]), and the glyph of
    the mode. *)
Definition columnColor (cs ce : colorRGB) (maxW x : Z) : colorRGB :=
  lerp cs ce
       (if maxW <=? 1 then 0%float
        else (math.float64 x / math.float64 (maxW - 1))%float).

Definition modeGlyphOf (md : Z) (ch : ascii) : gostring :=
  if md =? modeBlock then go "█"
  else if md =? modeLight then go "▓"
  else if md =? modeDots then go "·"
  else utf8.string_of_byte ch.

Definition specCell (C : Collaborators) (m : model C) (x : Z) (ch : ascii)
  : Piece :=
  if Ascii.eqb ch space then WriteByte space
  else
    WriteStyled
      (Hex (columnColor
              (if animate m then rotateHue (baseStart m) (hueShift m)
               else baseStart m)
              (if animate m then rotateHue (baseEnd m) (hueShift m)
               else baseEnd m)
              (maxWidth m) x))
      (modeGlyphOf (mode m) ch).

(** One channel of [lerp]. *)
Definition lerp1 (a b : Z) (t : float) : Z :=
  math.int (math.float64 a + (math.float64 b - math.float64 a) * t)%float.

(** The exact value of a finite binary64 number, as a rational. *)
Definition SF2Q (x : spec_float) : option Q :=
  match x with
  | S754_zero _ => Some (inject_Z 0)
  | S754_finite s m e =>
    let n := if s then Z.neg m else Z.pos m in
    Some (if 0 <=? e then inject_Z (n * 2 ^ e)
          else Qmake n (Z.to_pos (2 ^ (- e))))
  | _ => None
  end.

(** Truncation of a rational towards zero. *)
Definition Qtrunc (q : Q) : Z :=
  if Qle_bool 0 q then Qfloor q else Qceiling q.

(** The animation values the program can reach are multiples of one half:
    [half k] is [k/2] as a [float64]. *)
Definition half (k : Z) : float := (math.float64 k * 0.5)%float.

(** A two-dimensional bounded check of an equation between floats. *)
Definition feq (x y : float) : bool := PrimFloat.Leibniz.eqb x y.

(** The invariant of the reachable states: three text fields, the font
    catalogue, the three indices inside their ranges, and the hue shift and
    the step on the grid of halves, in [[0, 360)] and [[0.5, 30]]. *)
Record Inv (C : Collaborators) (m : model C) : Prop := mkInv {
  inv_inputs : llen (inputs m) = 3;
  inv_fonts : fonts m = figFonts;
  inv_fontIndex : 0 <= fontIndex m < llen figFonts;
  inv_mode : 0 <= mode m < 4;
  inv_focus : 0 <= focusIndex m < 3;
  inv_hue : exists k, 0 <= k < 720 /\ hueShift m = half k;
  inv_step : exists j, 1 <= j <= 60 /\ stepDeg m = half j
}.

(** ** A small instance of the collaborators

    Keys are their own [String()]; a text field is its value and its focus
    flag, a focused field appends the bytes of a key and drops its last byte
    on ["backspace"]; the banner of a text has two rows, one [#] per byte of
    the text and a single [#], each ended by a newline. *)

Module Demo.

Record field := mkField { value : gostring; focused : bool }.

Definition update (f : field) (e : Msg gostring unit) : field * unit :=
  match e with
  | KeyMsg k =>
    if focused f then
      (if gostring_eqb k (go "backspace")
       then mkField (removelast (value f)) true
       else mkField (value f ++ k) true, tt)
    else (f, tt)
  | _ => (f, tt)
  end.

Definition banner (txt font : gostring) : gostring :=
  map (fun _ => "#"%char) txt ++ [newline] ++ go "#" ++ [newline].

Definition env : Collaborators :=
  mkCollaborators
    (fun k : gostring => k)
    value
    (fun f => mkField (value f) true)
    (fun f => mkField (value f) false)
    update
    (fun _ v => mkField v false)
    banner.

(** The state after start-up in this instance. *)
Definition start : model env :=
  @mkModel env 0 0
    [mkField (go "glam dm") true; mkField (go "#8A2BE2") false;
     mkField (go "#00FFFF") false]
    0 figFonts 0 [go "#######"; go "#"] 7
    (mkColor 138 43 226) (mkColor 0 255 255) modeGlyph true 0%float 3%float
    60000000.

(** A state whose start colour field is being edited. *)
Definition editing (txt : gostring) : model env :=
  set_inputs start
    [mkField (go "glam dm") false; mkField txt true;
     mkField (go "#00FFFF") false].

End Demo.

(** ** Sequences of messages *)

(** A sequence of messages, handled by [Update] one after the other; the
    commands are dropped. *)
Fixpoint run (C : Collaborators) (es : list (msg C)) (m : model C)
  : option (model C) :=
  match es with
  | [] => Some m
  | e :: rest =>
    match Update m e with
    | Some (m', _) => run rest m'
    | None => None
    end
  end.

(** The widget of index [j] after a focus key moved the focus to [f]. *)
Definition focusAt (C : Collaborators) (f j : Z) (ti : TI C) : TI C :=
  if j =? f then ti_Focus C ti else ti_Blur C ti.

(** The channels [parseHexColor] can return: a hex field read with a sign
    goes down to [- 15]. *)
Definition parsedRange (c : colorRGB) : Prop :=
  - 15 <= R c <= 255 /\ - 15 <= G c <= 255 /\ - 15 <= B c <= 255.

(** ** The values of binary64 numbers

    The definitions behind the bounds on [lerp], [rgbToHsv], [hsvToRgb] and
    [rotateHue]: the numbers of the format as integers in units of
    [2^-1074], and the candidates of a rounding. *)

Unset Implicit Arguments.

(** The exponent of the format for a number of [e] binary digits. *)
Definition fexp64 (e : Z) : Z := Z.max (e - 53) (-1074).

(** Locating a rational [n/d] against the record of a right shift: the
    value lies in [[m, m+1)], and the two bits say where. *)
Definition locates (m : Z) (r s : bool) (n d : Z) : Prop :=
  0 < d /\
  match r, s with
  | false, false => n = m * d
  | false, true => m * d < n /\ 2 * n < (2 * m + 1) * d
  | true, false => 2 * n = (2 * m + 1) * d
  | true, true => (2 * m + 1) * d < 2 * n /\ n < (m + 1) * d
  end.

(** The two candidates of a rounding: the mantissa after the shift to the
    exponent of the format, and its successor. *)
Record rounded (mx ex n d : Z) (Rm e1 : Z) : Prop := mkRounded {
  rd_exp : e1 = fexp64 (Zdigits2 mx + ex);
  rd_cand : Rm = mx / 2 ^ (e1 - ex) \/ Rm = mx / 2 ^ (e1 - ex) + 1;
  rd_near_up : 2 * (Rm * (2 ^ (e1 - ex) * d) - n) <= 2 ^ (e1 - ex) * d;
  rd_near_down : 2 * (n - Rm * (2 ^ (e1 - ex) * d)) <= 2 ^ (e1 - ex) * d;
  rd_floor : mx / 2 ^ (e1 - ex) * (2 ^ (e1 - ex) * d) <= n
             < (mx / 2 ^ (e1 - ex) + 1) * (2 ^ (e1 - ex) * d);
  rd_up : Rm = mx / 2 ^ (e1 - ex) + 1 ->
          mx / 2 ^ (e1 - ex) * (2 ^ (e1 - ex) * d) < n;
  rd_normal : 2 ^ 52 <= mx / 2 ^ (e1 - ex) \/ e1 = (-1074);
  rd_digits : mx / 2 ^ (e1 - ex) < 2 ^ 53
}.

(** The float a rounding returns for the candidate [Rm] at exponent [e1]. *)
Definition pack (sx : bool) (Rm e1 : Z) : spec_float :=
  if Rm =? 0 then S754_zero sx
  else if Rm =? 2 ^ 53 then
    (if e1 + 1 <=? 971 then S754_finite sx (Z.to_pos (2 ^ 52)) (e1 + 1)
     else S754_infinity sx)
  else
    (if e1 <=? 971 then S754_finite sx (Z.to_pos Rm) e1 else S754_infinity sx).

(** ** The numbers of the format *)

(** Canonical mantissa and exponent of a finite binary64 number. *)
Definition canon (m0 e0 : Z) : Prop :=
  0 < m0 /\ fexp64 (Zdigits2 m0 + e0) = e0 /\ e0 <= 971.

(** The values of the format, scaled by [2^O]: zero and the canonical
    numbers. *)
Definition gridval (O M0 : Z) : Prop :=
  M0 = 0 \/ exists m0 e0, canon m0 e0 /\ M0 = m0 * 2 ^ (e0 + O).

(** The magnitude of a finite number scaled by [2^O]. *)
Definition magO (O : Z) (x : spec_float) : Z :=
  match x with
  | S754_finite _ m e => Z.pos m * 2 ^ (e + O)
  | _ => 0
  end.

(** Zeros and finite numbers; infinities. *)
Definition is_fin (x : spec_float) : bool :=
  match x with
  | S754_zero _ | S754_finite _ _ _ => true
  | _ => false
  end.

Definition is_inf (x : spec_float) : bool :=
  match x with
  | S754_infinity _ => true
  | _ => false
  end.

(** ** Signed values *)

(** The sign bit. *)
Definition sgn (x : spec_float) : bool :=
  match x with
  | S754_zero s | S754_infinity s | S754_finite s _ _ => s
  | S754_nan => false
  end.

(** The value of a finite number scaled by [2^O], with its sign. *)
Definition svalO (O : Z) (x : spec_float) : Z :=
  if sgn x then - magO O x else magO O x.

(** The exponent of a finite number. *)
Definition expo (x : spec_float) : Z :=
  match x with
  | S754_finite _ _ e => e
  | _ => 0
  end.

(** ** Values in units of [2^-1074] *)

(** The unit of the values: every finite binary64 number is an integer
    multiple of [2^-1074]. *)
Definition Sc : Z := 2 ^ 1074.

(** The value of a finite number in units of [2^-1074]. *)
Definition sval (x : spec_float) : Z := svalO 1074 x.

(** A finite number of the format. *)
Definition fin64 (x : spec_float) : Prop :=
  is_fin x = true /\ valid_binary x = true.

(** The value of a [float64] in units of [2^-1074] (zero when it is not
    finite), and the finite numbers. *)
Definition fval (x : float) : Z := sval (Prim2SF x).

Definition finite (x : float) : Prop := is_fin (Prim2SF x) = true.

(** A finite number between two bounds, in units of [2^-1074]. *)
Definition between (x : float) (lo hi : Z) : Prop :=
  finite x /\ lo <= fval x <= hi.

(** The bound on the sum of chroma and offset: one and four units in the
    last place. *)
Definition chromaTop : float := 0x1.0000000000004p+0%float.

(** A channel as a fraction of 255, as [rgbToHsv] computes it. *)
Definition unit255 (n : Z) : float := (math.float64 n / 255)%float.

(** The 256 fractions a channel can be. *)
Definition unitTable : list float :=
  map (fun k => unit255 (Z.of_nat k)) (seq 0 256).

(** The check of a largest and a smallest channel: the sum of chroma and
    offset stays below [chromaTop], and a difference that is not zero is at
    least [2^-9]. *)
Definition hsvPairOk (v w : float) : bool :=
  let d := (v - w)%float in
  let s := (d / v)%float in
  let c := (v * s)%float in
  let m := (v - c)%float in
  negb (w <=? v)%float || (v =? 0)%float
  || (((c + m) <? chromaTop)%float
      && ((d =? 0)%float || (0x1p-9 <=? d)%float)).

(** What [hsvToRgb] needs of a saturation and a value. *)
Definition chromaOk (s v : float) : Prop :=
  finite (v * s) /\ finite (v - v * s)
  /\ 0 <= fval (v * s) /\ 0 <= fval (v - v * s)
  /\ fval (v * s) + fval (v - v * s) < fval chromaTop.

(** The difference of two channel fractions changes its sign with the
    order of the operands. *)
Definition hsvPairSym (v w : float) : bool := ((w - v) =? - (v - w))%float.

(** ** The colours of the cells *)

(** A colour with its three channels in [[0, 255]]. *)
Definition inRange (c : colorRGB) : Prop :=
  0 <= R c <= 255 /\ 0 <= G c <= 255 /\ 0 <= B c <= 255.

Set Implicit Arguments.

(** * Properties *)

Unset Implicit Arguments.

(** ** Tactics and small facts *)

(** Case analysis on every integer comparison in sight. *)
Ltac zcmp :=
  repeat match goal with
         | |- context [?a <=? ?b] => destruct (Z.leb_spec a b)
         | |- context [?a <? ?b] => destruct (Z.ltb_spec a b)
         | |- context [?a =? ?b] => destruct (Z.eqb_spec a b)
         | |- context [?a >? ?b] => rewrite (Z.gtb_ltb a b)
         | |- context [?a >=? ?b] => rewrite (Z.geb_leb a b)
         end; cbn [andb orb negb]; try reflexivity; try discriminate; try lia.

(** Boolean comparisons in a hypothesis as propositions. *)
Ltac zprop H :=
  repeat first
    [ rewrite andb_true_iff in H | rewrite orb_true_iff in H
    | rewrite negb_true_iff in H | rewrite andb_false_iff in H
    | rewrite orb_false_iff in H
    | rewrite Z.leb_le in H | rewrite Z.ltb_lt in H | rewrite Z.eqb_eq in H
    | rewrite Z.leb_gt in H | rewrite Z.ltb_ge in H | rewrite Z.eqb_neq in H ].

(** A boolean combination of integer comparisons is [false]. *)
Ltac zfalse :=
  apply not_true_iff_false;
  let H := fresh "H" in intro H; zprop H; lia.

Lemma range_all_spec (n : nat) (P : Z -> bool) :
  range_all n P = true -> forall z, 0 <= z < Z.of_nat n -> P z = true.
Proof.
  induction n as [|k IH]; intros Hall z Hz.
  - simpl in Hz. lia.
  - cbn [range_all] in Hall. apply andb_true_iff in Hall as [Hk Hrest].
    destruct (Z.eq_dec z (Z.of_nat k)) as [->|Hne]; [exact Hk|].
    apply IH; [exact Hrest|lia].
Qed.

Lemma bv_range (c : ascii) : 0 <= bv c < 256.
Proof.
  unfold bv. pose proof (N_ascii_bounded c) as Hb. lia.
Qed.

Lemma bv_byte_of (z : Z) : 0 <= z < 256 -> bv (byte_of z) = z.
Proof.
  intros Hz. unfold bv, byte_of.
  rewrite N_ascii_embedding by lia. lia.
Qed.

Lemma gostring_eqb_eq (a b : gostring) : gostring_eqb a b = true <-> a = b.
Proof.
  unfold gostring_eqb. destruct (list_eq_dec ascii_dec a b); split; congruence.
Qed.

Lemma gostring_eqb_refl (a : gostring) : gostring_eqb a a = true.
Proof. now apply gostring_eqb_eq. Qed.

(** ** Strings: the runes of ASCII text, trimming *)

Lemma runes_fuel_ascii (s : gostring) :
  Forall (fun c => bv c < 128) s ->
  forall fuel, (length s <= fuel)%nat -> utf8.runes_fuel fuel s = map bv s.
Proof.
  induction 1 as [|c s Hc Hs IH]; intros fuel Hfuel.
  - destruct fuel; reflexivity.
  - destruct fuel as [|f]; [simpl in Hfuel; lia|].
    cbn [utf8.runes_fuel utf8.DecodeRune map]. unfold utf8.RuneSelf.
    destruct (Z.ltb_spec (bv c) 128); [|lia].
    cbn [skipn]. rewrite IH; [reflexivity|simpl in Hfuel; lia].
Qed.

Lemma runes_ascii (s : gostring) :
  Forall (fun c => bv c < 128) s -> utf8.runes s = map bv s.
Proof.
  intros Hs. unfold utf8.runes. now apply runes_fuel_ascii.
Qed.

(** A string that starts and ends with ASCII bytes that are not spaces is
    left as it is by [TrimSpace]. *)
Lemma TrimSpace_id (c d : ascii) (t : gostring) :
  bv c < 128 -> strings.asciiSpace c = false ->
  bv d < 128 -> strings.asciiSpace d = false ->
  strings.TrimSpace (c :: t ++ [d]) = c :: t ++ [d].
Proof.
  intros Hc Hcs Hd Hds. cbn [strings.TrimSpace]. unfold utf8.RuneSelf.
  destruct (Z.leb_spec 128 (bv c)); [lia|]. rewrite Hcs.
  assert (Hrev : rev (c :: t ++ [d]) = d :: rev (c :: t)).
  { change (c :: t ++ [d]) with ((c :: t) ++ [d]). now rewrite rev_unit. }
  rewrite Hrev. cbn [strings.trimStop]. unfold utf8.RuneSelf.
  destruct (Z.leb_spec 128 (bv d)); [lia|]. rewrite Hds.
  rewrite <- Hrev. apply rev_involutive.
Qed.

(** ** The scanner on hexadecimal digits *)

Lemma hexdigit_rune_facts (r : Z) :
  fmt.hexadecimalDigit r = true ->
  r <> 10 /\ unicode.IsSpace r = false /\ fmt.sign r = false
  /\ 0 <= fmt.hexval r < 16 /\ r < 128.
Proof.
  unfold fmt.hexadecimalDigit, unicode.IsSpace, fmt.sign, fmt.hexval.
  intros Hr. zprop Hr.
  split; [lia|]. split; [zfalse|]. split; [zfalse|]. split; [|lia].
  destruct ((48 <=? r) && (r <=? 57)) eqn:E1;
    [zprop E1; lia|].
  destruct ((97 <=? r) && (r <=? 102)) eqn:E2;
    [zprop E2; lia|].
  zprop E1. zprop E2. lia.
Qed.

Lemma acceptAll_stop (ok : Z -> bool) (rs : list Z) (n : Z) :
  fmt.acceptAll ok rs n n = ([], rs, n).
Proof.
  destruct rs as [|r rest]; [reflexivity|].
  cbn [fmt.acceptAll]. now rewrite Z.leb_refl.
Qed.

(** [%02x] into an [int] on two hexadecimal digits: both are consumed. *)
Lemma scanVerb_int_two (a b : Z) (rest : list Z) (count : Z) :
  fmt.hexadecimalDigit a = true -> fmt.hexadecimalDigit b = true ->
  0 <= count <= 100 ->
  fmt.scanVerb fmt.scanInt 2 (a :: b :: rest) count
  = Some (fmt.hexval a * 16 + fmt.hexval b, rest, count + 2).
Proof.
  intros Ha Hb Hc.
  destruct (hexdigit_rune_facts _ Ha) as (Ha10 & Has & Hasg & Hav & _).
  destruct (hexdigit_rune_facts _ Hb) as (_ & _ & _ & Hbv & _).
  unfold fmt.scanVerb, fmt.hugeWid.
  assert (Hmin : Z.min (2 ^ 30) (count + 2) = count + 2) by lia.
  assert (Hskip : forall lim, count < lim ->
            fmt.SkipSpace (a :: b :: rest) count lim = Some (a :: b :: rest, count)).
  { intros lim Hlim. cbn [fmt.SkipSpace].
    destruct (Z.leb_spec lim count); [lia|].
    destruct (Z.eqb_spec a 10); [contradiction|]. now rewrite Has. }
  rewrite Hskip by lia. rewrite Hmin.
  unfold fmt.scanInt. rewrite Hskip by lia.
  unfold fmt.notEOF, fmt.accept, fmt.scanNumber, fmt.notEOF, fmt.accept.
  destruct (Z.leb_spec (count + 2) count); [lia|]. cbn [negb andb].
  rewrite Hasg. cbv iota beta.
  destruct (Z.leb_spec (count + 2) count); [lia|]. cbn [negb andb].
  rewrite Ha. cbn [fmt.acceptAll].
  destruct (Z.leb_spec (count + 2) (count + 1)); [lia|]. rewrite Hb.
  replace (count + 1 + 1) with (count + 2) by lia.
  rewrite acceptAll_stop. unfold fmt.hexvalue. cbn [fold_left].
  replace ((0 * 16 + fmt.hexval a) * 16 + fmt.hexval b)
    with (fmt.hexval a * 16 + fmt.hexval b) by lia.
  destruct (Z.leb_spec (- 2 ^ 63) (fmt.hexval a * 16 + fmt.hexval b)); [|lia].
  destruct (Z.ltb_spec (fmt.hexval a * 16 + fmt.hexval b) (2 ^ 63)); [|lia].
  reflexivity.
Qed.

(** [%1x] into a [byte] on a hexadecimal digit. *)
Lemma scanVerb_uint8_one (a : Z) (rest : list Z) (count : Z) :
  fmt.hexadecimalDigit a = true -> 0 <= count <= 100 ->
  fmt.scanVerb fmt.scanUint8 1 (a :: rest) count
  = Some (fmt.hexval a, rest, count + 1).
Proof.
  intros Ha Hc.
  destruct (hexdigit_rune_facts _ Ha) as (Ha10 & Has & Hasg & Hav & _).
  unfold fmt.scanVerb, fmt.hugeWid.
  assert (Hmin : Z.min (2 ^ 30) (count + 1) = count + 1) by lia.
  assert (Hskip : forall lim, count < lim ->
            fmt.SkipSpace (a :: rest) count lim = Some (a :: rest, count)).
  { intros lim Hlim. cbn [fmt.SkipSpace].
    destruct (Z.leb_spec lim count); [lia|].
    destruct (Z.eqb_spec a 10); [contradiction|]. now rewrite Has. }
  rewrite Hskip by lia. rewrite Hmin.
  unfold fmt.scanUint8. rewrite Hskip by lia.
  unfold fmt.notEOF, fmt.scanNumber, fmt.notEOF, fmt.accept.
  destruct (Z.leb_spec (count + 1) count); [lia|]. cbn [negb andb].
  rewrite Ha. rewrite acceptAll_stop. unfold fmt.hexvalue. cbn [fold_left].
  replace (0 * 16 + fmt.hexval a) with (fmt.hexval a) by lia.
  destruct (Z.ltb_spec (fmt.hexval a) (2 ^ 64)); [|lia].
  destruct (Z.ltb_spec (fmt.hexval a) (2 ^ 8)); [|lia].
  reflexivity.
Qed.

Lemma hexdigit_byte_facts (c : ascii) :
  fmt.hexadecimalDigit (bv c) = true ->
  bv c < 128 /\ strings.asciiSpace c = false.
Proof.
  intros Hc. destruct (hexdigit_rune_facts _ Hc) as (_ & _ & _ & _ & H128).
  split; [exact H128|].
  unfold fmt.hexadecimalDigit in Hc. zprop Hc.
  unfold strings.asciiSpace. cbv zeta. zfalse.
Qed.

(** The form [#RRGGBB]: six hexadecimal digits of either case are accepted,
    two per channel. *)
Lemma parseHexColor_RRGGBB (d1 d2 d3 d4 d5 d6 : ascii) :
  Forall (fun d => fmt.hexadecimalDigit (bv d) = true) [d1; d2; d3; d4; d5; d6] ->
  parseHexColor ("#"%char :: [d1; d2; d3; d4; d5; d6])
  = (mkColor (fmt.hexval (bv d1) * 16 + fmt.hexval (bv d2))
             (fmt.hexval (bv d3) * 16 + fmt.hexval (bv d4))
             (fmt.hexval (bv d5) * 16 + fmt.hexval (bv d6)), true).
Proof.
  intros Hall.
  assert (H128 : Forall (fun c => bv c < 128) [d1; d2; d3; d4; d5; d6]).
  { eapply Forall_impl; [|exact Hall]. intros c Hc.
    now destruct (hexdigit_byte_facts c Hc). }
  repeat match goal with
         | H : Forall _ (_ :: _) |- _ => inversion H; subst; clear H
         end.
  unfold parseHexColor.
  change ("#"%char :: [d1; d2; d3; d4; d5; d6])
    with ("#"%char :: [d1; d2; d3; d4; d5] ++ [d6]).
  rewrite TrimSpace_id;
    try reflexivity; try (now apply hexdigit_byte_facts).
  cbn [app]. change (strings.HasPrefix _ (go "#")) with true.
  cbn [negb skipn]. change (len [d1; d2; d3; d4; d5; d6] =? 6) with true.
  cbv iota. unfold fmt.Sscanf3.
  rewrite runes_ascii by (repeat constructor; assumption).
  cbn [map].
  rewrite scanVerb_int_two by (assumption || lia).
  rewrite scanVerb_int_two by (assumption || lia).
  rewrite scanVerb_int_two by (assumption || lia).
  reflexivity.
Qed.

(** The form [#RGB]: three hexadecimal digits, each nibble duplicated. *)
Lemma parseHexColor_RGB (d1 d2 d3 : ascii) :
  Forall (fun d => fmt.hexadecimalDigit (bv d) = true) [d1; d2; d3] ->
  parseHexColor ("#"%char :: [d1; d2; d3])
  = (mkColor (fmt.hexval (bv d1) * 17) (fmt.hexval (bv d2) * 17)
             (fmt.hexval (bv d3) * 17), true).
Proof.
  intros Hall.
  assert (H128 : Forall (fun c => bv c < 128) [d1; d2; d3]).
  { eapply Forall_impl; [|exact Hall]. intros c Hc.
    now destruct (hexdigit_byte_facts c Hc). }
  repeat match goal with
         | H : Forall _ (_ :: _) |- _ => inversion H; subst; clear H
         end.
  unfold parseHexColor.
  change ("#"%char :: [d1; d2; d3]) with ("#"%char :: [d1; d2] ++ [d3]).
  rewrite TrimSpace_id;
    try reflexivity; try (now apply hexdigit_byte_facts).
  cbn [app]. change (strings.HasPrefix _ (go "#")) with true.
  cbn [negb skipn]. change (len [d1; d2; d3] =? 6) with false.
  change (len [d1; d2; d3] =? 3) with true.
  cbv iota. unfold fmt.Sscanf3.
  rewrite runes_ascii by (repeat constructor; assumption).
  cbn [map].
  rewrite scanVerb_uint8_one by (assumption || lia).
  rewrite scanVerb_uint8_one by (assumption || lia).
  rewrite scanVerb_uint8_one by (assumption || lia).
  reflexivity.
Qed.

(** The shorthand and the long form agree: [#abc] is [#aabbcc]. *)
Lemma parseHexColor_shorthand (d1 d2 d3 : ascii) :
  Forall (fun d => fmt.hexadecimalDigit (bv d) = true) [d1; d2; d3] ->
  parseHexColor ("#"%char :: [d1; d2; d3])
  = parseHexColor ("#"%char :: [d1; d1; d2; d2; d3; d3]).
Proof.
  intros Hall. rewrite parseHexColor_RGB by exact Hall.
  rewrite parseHexColor_RRGGBB.
  - f_equal. f_equal; lia.
  - inversion Hall as [|? ? H1 Hall1]; subst.
    inversion Hall1 as [|? ? H2 Hall2]; subst.
    inversion Hall2 as [|? ? H3 _]; subst.
    repeat constructor; assumption.
Qed.

(** ** Formatting and the round trip *)

Lemma fmt_02x_byte (v : Z) :
  0 <= v <= 255 ->
  fmt.fmt_02x v = [fmt.hexdigit (v / 16); fmt.hexdigit (v mod 16)].
Proof.
  intros Hv. apply gostring_eqb_eq.
  apply (range_all_spec 256
           (fun v => gostring_eqb (fmt.fmt_02x v)
                       [fmt.hexdigit (v / 16); fmt.hexdigit (v mod 16)])).
  - vm_compute. reflexivity.
  - simpl. lia.
Qed.

Lemma hexdigit_facts (d : Z) :
  0 <= d < 16 ->
  lowerHex (fmt.hexdigit d) = true
  /\ fmt.hexadecimalDigit (bv (fmt.hexdigit d)) = true
  /\ fmt.hexval (bv (fmt.hexdigit d)) = d.
Proof.
  intros Hd.
  assert (Hall : (lowerHex (fmt.hexdigit d)
                  && fmt.hexadecimalDigit (bv (fmt.hexdigit d))
                  && (fmt.hexval (bv (fmt.hexdigit d)) =? d)) = true).
  { apply (range_all_spec 16
             (fun d => lowerHex (fmt.hexdigit d)
                       && fmt.hexadecimalDigit (bv (fmt.hexdigit d))
                       && (fmt.hexval (bv (fmt.hexdigit d)) =? d))).
    - vm_compute. reflexivity.
    - simpl. lia. }
  apply andb_true_iff in Hall as [Hall H3].
  apply andb_true_iff in Hall as [H1 H2].
  apply Z.eqb_eq in H3. auto.
Qed.

(** The six digits of [Hex c]. *)
Lemma Hex_digits (c : colorRGB) :
  0 <= R c <= 255 -> 0 <= G c <= 255 -> 0 <= B c <= 255 ->
  Hex c = "#"%char ::
          [fmt.hexdigit (R c / 16); fmt.hexdigit (R c mod 16);
           fmt.hexdigit (G c / 16); fmt.hexdigit (G c mod 16);
           fmt.hexdigit (B c / 16); fmt.hexdigit (B c mod 16)].
Proof.
  intros HR HG HB. unfold Hex.
  now rewrite !fmt_02x_byte by assumption.
Qed.

(** C7.  For every colour [c] with all components in [0,255], [Hex c] is
    [#] followed by six lowercase hexadecimal digits, two per channel
    (zero-padded), and [parseHexColor] applied to it succeeds and returns
    exactly [c]. *)
Theorem Hex_parseHexColor_roundtrip (c : colorRGB) :
  0 <= R c <= 255 -> 0 <= G c <= 255 -> 0 <= B c <= 255 ->
  parseHexColor (Hex c) = (c, true)
  /\ exists d1 d2 d3 d4 d5 d6,
       Hex c = "#"%char :: [d1; d2; d3; d4; d5; d6]
       /\ Forall (fun d => lowerHex d = true) [d1; d2; d3; d4; d5; d6].
Proof.
  intros HR HG HB.
  assert (Hq : forall v, 0 <= v <= 255 -> 0 <= v / 16 < 16).
  { intros v Hv. split; [apply Z.div_pos; lia|].
    apply Z.div_lt_upper_bound; lia. }
  assert (Hm : forall v, 0 <= v mod 16 < 16).
  { intros v. apply Z.mod_pos_bound. lia. }
  rewrite (Hex_digits c HR HG HB). split.
  - rewrite parseHexColor_RRGGBB.
    + destruct c as [r g b]. cbn [R G B] in *.
      rewrite !(proj2 (proj2 (hexdigit_facts _ (Hq _ HR)))).
      rewrite !(proj2 (proj2 (hexdigit_facts _ (Hq _ HG)))).
      rewrite !(proj2 (proj2 (hexdigit_facts _ (Hq _ HB)))).
      rewrite !(proj2 (proj2 (hexdigit_facts _ (Hm _)))).
      f_equal. f_equal.
      * rewrite (Z.div_mod r 16) at 3 by lia. lia.
      * rewrite (Z.div_mod g 16) at 3 by lia. lia.
      * rewrite (Z.div_mod b 16) at 3 by lia. lia.
    + repeat constructor;
        first [ apply (hexdigit_facts _ (Hq _ HR))
              | apply (hexdigit_facts _ (Hq _ HG))
              | apply (hexdigit_facts _ (Hq _ HB))
              | apply (hexdigit_facts _ (Hm _)) ].
  - do 6 eexists. split; [reflexivity|].
    repeat constructor;
      first [ apply (hexdigit_facts _ (Hq _ HR))
            | apply (hexdigit_facts _ (Hq _ HG))
            | apply (hexdigit_facts _ (Hq _ HB))
            | apply (hexdigit_facts _ (Hm _)) ].
Qed.

Lemma Hex_parseHexColor_roundtrip_witness :
  parseHexColor (Hex (mkColor 138 43 226)) = (mkColor 138 43 226, true)
  /\ exists d1 d2 d3 d4 d5 d6,
       Hex (mkColor 138 43 226) = "#"%char :: [d1; d2; d3; d4; d5; d6]
       /\ Forall (fun d => lowerHex d = true) [d1; d2; d3; d4; d5; d6].
Proof.
  apply (Hex_parseHexColor_roundtrip (mkColor 138 43 226)); simpl; lia.
Defined.

(** ** What [parseHexColor] accepts and rejects *)

(** The four rejections of the specification, and the shorthand. *)
Lemma parseHexColor_examples :
  snd (parseHexColor (go "abc")) = false
  /\ snd (parseHexColor (go "#ab")) = false
  /\ snd (parseHexColor (go "#abcd")) = false
  /\ snd (parseHexColor (go "#xyz123")) = false
  /\ parseHexColor (go "#abc") = parseHexColor (go "#aabbcc")
  /\ parseHexColor (go "  #8A2BE2 ") = (mkColor 138 43 226, true).
Proof. vm_compute. repeat split; reflexivity. Qed.

(** A string that does not start with [#] after trimming is invalid, and so
    is one whose body has neither three nor six bytes. *)
Lemma parseHexColor_no_hash (s : gostring) :
  strings.HasPrefix (strings.TrimSpace s) (go "#") = false ->
  parseHexColor s = (mkColor 0 0 0, false).
Proof.
  intros Hp. unfold parseHexColor. now rewrite Hp.
Qed.

Lemma parseHexColor_wrong_length (s : gostring) :
  len (skipn 1 (strings.TrimSpace s)) <> 6 ->
  len (skipn 1 (strings.TrimSpace s)) <> 3 ->
  snd (parseHexColor s) = false.
Proof.
  intros H6 H3. unfold parseHexColor.
  destruct (strings.HasPrefix (strings.TrimSpace s) (go "#")); [|reflexivity].
  cbn [negb].
  destruct (Z.eqb_spec (len (skipn 1 (strings.TrimSpace s))) 6); [contradiction|].
  destruct (Z.eqb_spec (len (skipn 1 (strings.TrimSpace s))) 3); [contradiction|].
  reflexivity.
Qed.

(** C1 (the code departs from the claim).  With a body of six bytes the
    scanner behind [%02x] takes an optional sign as part of each two-rune
    field and skips blanks before each field, so bodies that are not six
    hexadecimal digits are accepted, and a channel can come out negative. *)
Theorem parseHexColor_accepts_signs_and_blanks :
  parseHexColor (go "#-1-2-3") = (mkColor (-1) (-2) (-3), true)
  /\ parseHexColor (go "#+1+2+3") = (mkColor 1 2 3, true)
  /\ parseHexColor (go "# 1 2 3") = (mkColor 1 2 3, true)
  /\ parseHexColor (go "#a b c1") = (mkColor 10 11 193, true).
Proof. vm_compute. repeat split; reflexivity. Qed.

(** ** The banner grid: [rebuildArt] and the padding of [View] *)

Lemma len_nonneg (s : gostring) : 0 <= len s.
Proof. unfold len. lia. Qed.

Lemma len_app (s t : gostring) : len (s ++ t) = len s + len t.
Proof. unfold len. rewrite length_app. lia. Qed.

Lemma maxStep_ge (init : Z) (l : gostring) :
  init <= maxStep init l /\ len l <= maxStep init l
  /\ (maxStep init l = init \/ maxStep init l = len l).
Proof.
  unfold maxStep. destruct (Z.gtb_spec (len l) init); lia.
Qed.

Lemma fold_max_ge (lines : list gostring) (init : Z) :
  init <= fold_left maxStep lines init.
Proof.
  revert init. induction lines as [|l lines IH]; intros init; cbn [fold_left].
  - lia.
  - specialize (IH (maxStep init l)).
    pose proof (maxStep_ge init l). lia.
Qed.

Lemma fold_max_bound (lines : list gostring) (init : Z) :
  Forall (fun l => len l <= fold_left maxStep lines init) lines.
Proof.
  revert init. induction lines as [|l lines IH]; intros init; cbn [fold_left].
  - constructor.
  - constructor; [|apply IH].
    pose proof (fold_max_ge lines (maxStep init l)) as Hge.
    pose proof (maxStep_ge init l). lia.
Qed.

Lemma fold_max_attained (lines : list gostring) (init : Z) :
  fold_left maxStep lines init = init
  \/ exists l, In l lines /\ len l = fold_left maxStep lines init.
Proof.
  revert init. induction lines as [|l lines IH]; intros init; cbn [fold_left].
  - now left.
  - destruct (IH (maxStep init l)) as [Heq|[l' [Hin Hl']]].
    + rewrite Heq.
      destruct (maxStep_ge init l) as (_ & _ & [Hi|Hl]).
      * now left.
      * right. exists l. split; [now left|now symmetry].
    + right. exists l'. split; [now right|exact Hl'].
Qed.

Lemma maxLen_bound (lines : list gostring) :
  Forall (fun l => len l <= maxLen lines) lines.
Proof. apply fold_max_bound. Qed.

Lemma maxLen_nonneg (lines : list gostring) : 0 <= maxLen lines.
Proof. apply fold_max_ge. Qed.

(** [maxLen] is the length of a longest line (a grid always has a line). *)
Lemma maxLen_attained (lines : list gostring) :
  lines <> [] -> exists l, In l lines /\ len l = maxLen lines.
Proof.
  intros Hne. destruct (fold_max_attained lines 0) as [H0|Hex]; [|exact Hex].
  destruct lines as [|l lines]; [contradiction|].
  exists l. split; [now left|].
  pose proof (maxLen_bound (l :: lines)) as Hb.
  inversion Hb as [|? ? Hl _]; subst.
  unfold maxLen in *. rewrite H0 in *. pose proof (len_nonneg l). lia.
Qed.

Lemma Split_acc_nonempty (c : ascii) (s cur : gostring) :
  strings.Split_acc c cur s <> [].
Proof.
  revert cur. induction s as [|x s IH]; intros cur; cbn [strings.Split_acc].
  - discriminate.
  - destruct (Ascii.eqb x c); [discriminate|apply IH].
Qed.

(** The last piece of a string that ends with a byte other than the
    separator is not empty. *)
Lemma Split_acc_last (c x : ascii) (s cur : gostring) :
  x <> c -> last (strings.Split_acc c cur (s ++ [x])) [] <> [].
Proof.
  intros Hx. revert cur.
  induction s as [|y s IH]; intros cur; cbn [app strings.Split_acc].
  - destruct (Ascii.eqb_spec x c); [contradiction|].
    cbn [strings.Split_acc last rev]. intros Habs.
    apply app_eq_nil in Habs as [_ Habs]. discriminate.
  - destruct (Ascii.eqb y c).
    + pose proof (Split_acc_nonempty c (s ++ [x]) []) as Hne.
      pose proof (IH []) as Hl.
      destruct (strings.Split_acc c [] (s ++ [x])); [contradiction|exact Hl].
    + apply IH.
Qed.

Lemma trimRightByte_rev_shape (c : ascii) (r : list ascii) :
  strings.trimRightByte_rev c r = []
  \/ exists x r', strings.trimRightByte_rev c r = x :: r' /\ x <> c.
Proof.
  induction r as [|y r IH]; cbn [strings.trimRightByte_rev].
  - now left.
  - destruct (Ascii.eqb_spec y c) as [->|Hne]; [exact IH|].
    right. exists y, r. split; [reflexivity|exact Hne].
Qed.

(** The lines [rebuildArt] stores: at least one, and the last one is empty
    only when it is the only one. *)
Lemma Split_TrimRight_lines (s : gostring) (c : ascii) :
  let lines := strings.Split (strings.TrimRight s c) c in
  lines = [[]] \/ (lines <> [] /\ last lines [] <> []).
Proof.
  intros lines. subst lines. unfold strings.Split, strings.TrimRight.
  destruct (trimRightByte_rev_shape c (rev s)) as [Hnil|[x [r' [Hcons Hx]]]].
  - left. now rewrite Hnil.
  - right. rewrite Hcons. cbn [rev]. split.
    + apply Split_acc_nonempty.
    + now apply Split_acc_last.
Qed.

(** Padding: a line no longer than [maxW] is padded with spaces to exactly
    [maxW] bytes and keeps its own bytes in front. *)
Lemma padLine_len (maxW : Z) (line : gostring) :
  len line <= maxW ->
  exists p, padLine maxW line = Some p /\ len p = maxW
            /\ exists pad, p = line ++ pad /\ Forall (fun b => b = space) pad.
Proof.
  intros Hle. unfold padLine, Repeat.
  destruct (Z.ltb_spec (len line) maxW) as [Hlt|Hge].
  - destruct (Z.ltb_spec (maxW - len line) 0); [lia|].
    eexists. split; [reflexivity|]. split.
    + rewrite len_app. unfold len at 2. rewrite repeat_length. lia.
    + eexists. split; [reflexivity|].
      apply Forall_forall. intros b Hb. now apply repeat_spec in Hb.
  - exists line. split; [reflexivity|]. split; [lia|].
    exists []. split; [now rewrite app_nil_r|constructor].
Qed.

Lemma index_in_range (s : gostring) (x : Z) :
  0 <= x < len s -> exists ch, index s x = Some ch.
Proof.
  intros Hx. unfold index. destruct (Z.ltb_spec x 0); [lia|].
  destruct (nth_error s (Z.to_nat x)) as [ch|] eqn:E; [now exists ch|].
  apply nth_error_None in E. unfold len in Hx. lia.
Qed.

Lemma renderCell_ok (maxW md : Z) (cs ce : colorRGB) (line : gostring) (x : Z) :
  0 <= x < len line -> exists ps, renderCell maxW md cs ce line x = Some ps.
Proof.
  intros Hx. unfold renderCell.
  destruct (index_in_range line x Hx) as [ch ->].
  destruct (Ascii.eqb ch space); [eauto|].
  destruct (glyphFor md ch); eauto.
Qed.

Lemma renderCols_ok (maxW md : Z) (cs ce : colorRGB) (line : gostring) (n : nat) :
  forall x, 0 <= x -> x + Z.of_nat n <= len line ->
            exists ps, renderCols n maxW md cs ce line x = Some ps.
Proof.
  induction n as [|n IH]; intros x Hx Hn; cbn [renderCols].
  - eauto.
  - destruct (renderCell_ok maxW md cs ce line x) as [ps ->]; [lia|].
    destruct (IH (x + 1)) as [rest ->]; [lia|lia|]. eauto.
Qed.

Lemma renderLine_ok (maxW md : Z) (cs ce : colorRGB) (line : gostring) :
  len line <= maxW -> exists row, renderLine maxW md cs ce line = Some row.
Proof.
  intros Hle. unfold renderLine.
  destruct (padLine_len maxW line Hle) as [p [-> [Hp _]]].
  apply renderCols_ok; [lia|]. pose proof (len_nonneg line). lia.
Qed.

Lemma renderRows_ok (maxW md : Z) (cs ce : colorRGB) (lines : list gostring) :
  Forall (fun l => len l <= maxW) lines ->
  exists rows, renderRows maxW md cs ce lines = Some rows.
Proof.
  induction 1 as [|l lines Hl _ IH]; cbn [renderRows].
  - eauto.
  - destruct (renderLine_ok maxW md cs ce l Hl) as [row ->].
    destruct IH as [rows ->]. eauto.
Qed.

(** What [rebuildArt] does to the model: only the cache changes. *)
Lemma rebuildArt_spec (C : Collaborators) (m m' : model C) :
  rebuildArt m = Some m' ->
  exists ti font,
    at_index (inputs m) 0 = Some ti
    /\ at_index (fonts m) (fontIndex m) = Some font
    /\ m' = set_art m
              (strings.Split
                 (strings.TrimRight (figure_String C (ti_Value C ti) font) newline)
                 newline)
              (maxLen (strings.Split
                 (strings.TrimRight (figure_String C (ti_Value C ti) font) newline)
                 newline)).
Proof.
  unfold rebuildArt. intros H.
  destruct (at_index (inputs m) 0) as [ti|]; [|discriminate].
  destruct (at_index (fonts m) (fontIndex m)) as [font|]; [|discriminate].
  inversion H. eauto.
Qed.

Lemma at_index_in_range {A : Type} (xs : list A) (i : Z) :
  0 <= i < llen xs -> exists x, at_index xs i = Some x.
Proof.
  intros Hi. unfold at_index. destruct (Z.ltb_spec i 0); [lia|].
  destruct (nth_error xs (Z.to_nat i)) as [x|] eqn:E; [now exists x|].
  apply nth_error_None in E. unfold llen in Hi. lia.
Qed.

Lemma at_index_Some_range {A : Type} (xs : list A) (i : Z) (x : A) :
  at_index xs i = Some x -> 0 <= i < llen xs.
Proof.
  unfold at_index. destruct (Z.ltb_spec i 0); [discriminate|].
  intros E. assert (Hn : nth_error xs (Z.to_nat i) <> None) by congruence.
  apply nth_error_Some in Hn. unfold llen. lia.
Qed.

(** The facts about a grid with its [maxLen] that both [rebuildArt] and
    [View] rest on. *)
Lemma rebuildArt_maxWidth_grid_aux (lines : list gostring) :
  lines <> [] ->
  Forall (fun l => len l <= maxLen lines) lines
  /\ (exists l, In l lines /\ len l = maxLen lines)
  /\ (forall l, In l lines ->
        exists p pad, padLine (maxLen lines) l = Some p
                      /\ p = l ++ pad /\ Forall (fun b => b = space) pad
                      /\ len p = maxLen lines).
Proof.
  intros Hne.
  assert (Hb : Forall (fun l => len l <= maxLen lines) lines)
    by apply maxLen_bound.
  split; [exact Hb|]. split; [now apply maxLen_attained|].
  intros l Hin. rewrite Forall_forall in Hb. specialize (Hb l Hin).
  destruct (padLine_len (maxLen lines) l Hb) as [p [Hp [Hlen [pad [Hpad Hsp]]]]].
  exists p, pad. auto.
Qed.

(** C10.  After every call to [rebuildArt], [maxWidth] is the largest byte
    length among the stored lines, so for every stored line the repeat count
    [maxWidth - len line] of the padding is not negative, the padded line has
    exactly [maxWidth] bytes, [line[x]] is in range for every [x] in
    [[0, maxWidth)], and the render loop of [View] completes. *)
Theorem rebuildArt_maxWidth_safe (C : Collaborators) (m m' : model C) :
  rebuildArt m = Some m' ->
  Forall (fun l => len l <= maxWidth m') (artLines m')
  /\ (exists l, In l (artLines m') /\ len l = maxWidth m')
  /\ (forall l, In l (artLines m') ->
        0 <= maxWidth m' - len l
        /\ exists p, padLine (maxWidth m') l = Some p
                     /\ len p = maxWidth m'
                     /\ forall x, 0 <= x < maxWidth m' ->
                                  exists ch, index p x = Some ch)
  /\ exists rows, viewArt m' = Some rows.
Proof.
  intros Hre. destruct (rebuildArt_spec C m m' Hre) as (ti & font & _ & _ & ->).
  cbn [set_art artLines maxWidth].
  set (lines := strings.Split _ _).
  assert (Hb : Forall (fun l => len l <= maxLen lines) lines)
    by apply maxLen_bound.
  split; [exact Hb|]. split.
  { apply maxLen_attained. apply Split_acc_nonempty. }
  split.
  - intros l Hin. rewrite Forall_forall in Hb. specialize (Hb l Hin).
    split; [lia|].
    destruct (padLine_len (maxLen lines) l Hb) as [p [Hp [Hlen _]]].
    exists p. split; [exact Hp|]. split; [exact Hlen|].
    intros x Hx. apply index_in_range. lia.
  - unfold viewArt. cbn [set_art artLines maxWidth mode].
    now apply renderRows_ok.
Qed.

Lemma rebuildArt_maxWidth_safe_witness :
  Forall (fun l => len l <= 7) [go "#######"; go "#"]
  /\ exists rows, viewArt Demo.start = Some rows.
Proof.
  destruct (rebuildArt_maxWidth_safe Demo.env Demo.start Demo.start eq_refl)
    as (Hb & _ & _ & Hrows).
  split; [exact Hb|exact Hrows].
Defined.

(** C2 (as the code has it).  For every model with a text field and a font
    index inside the catalogue, [rebuildArt] succeeds; it stores the lines of
    the renderer's output with the trailing newlines removed, so the grid has
    at least one line and its last line is empty only when it is the only
    line; [maxWidth] is the length of a longest line and no stored line is
    longer.  The stored lines are not padded: [View] pads each of them with
    spaces to exactly [maxWidth] when it renders.  An empty output of the
    renderer gives the single empty line. *)
Theorem rebuildArt_grid (C : Collaborators) (m : model C) (ti : TI C)
        (font : gostring) :
  at_index (inputs m) 0 = Some ti ->
  at_index (fonts m) (fontIndex m) = Some font ->
  exists m',
    rebuildArt m = Some m'
    /\ artLines m'
       = strings.Split
           (strings.TrimRight (figure_String C (ti_Value C ti) font) newline)
           newline
    /\ (artLines m' = [[]]
        \/ (artLines m' <> [] /\ last (artLines m') [] <> []))
    /\ Forall (fun l => len l <= maxWidth m') (artLines m')
    /\ (exists l, In l (artLines m') /\ len l = maxWidth m')
    /\ (forall l, In l (artLines m') ->
          exists p pad, padLine (maxWidth m') l = Some p
                        /\ p = l ++ pad /\ Forall (fun b => b = space) pad
                        /\ len p = maxWidth m')
    /\ (figure_String C (ti_Value C ti) font = [] ->
        artLines m' = [[]] /\ maxWidth m' = 0).
Proof.
  intros Hti Hfont.
  set (lines := strings.Split
           (strings.TrimRight (figure_String C (ti_Value C ti) font) newline)
           newline).
  exists (set_art m lines (maxLen lines)).
  assert (Hre : rebuildArt m = Some (set_art m lines (maxLen lines))).
  { unfold rebuildArt. now rewrite Hti, Hfont. }
  destruct (rebuildArt_maxWidth_grid_aux lines) as (Hb & Hmax & Hpad).
  { apply Split_acc_nonempty. }
  cbn [set_art artLines maxWidth].
  split; [exact Hre|]. split; [reflexivity|].
  split; [apply Split_TrimRight_lines|].
  split; [exact Hb|]. split; [exact Hmax|]. split; [exact Hpad|].
  intros Hempty. subst lines. rewrite Hempty. split; reflexivity.
Qed.

Lemma rebuildArt_grid_witness :
  exists m',
    rebuildArt Demo.start = Some m'
    /\ Forall (fun l => len l <= maxWidth m') (artLines m').
Proof.
  destruct (rebuildArt_grid Demo.env Demo.start
              (Demo.mkField (go "glam dm") true) (go "standard")
              eq_refl eq_refl)
    as (m' & Hre & _ & _ & Hb & _).
  exists m'. split; [exact Hre|exact Hb].
Defined.

(** C2 (as stated) fails: the lines [rebuildArt] stores are not padded.
    With a renderer whose rows have different lengths the second stored
    line has one byte while [maxWidth] is seven. *)
Lemma rebuildArt_stores_ragged_lines :
  exists m',
    rebuildArt Demo.start = Some m'
    /\ artLines m' = [go "#######"; go "#"]
    /\ maxWidth m' = 7
    /\ ~ Forall (fun l => len l = maxWidth m') (artLines m').
Proof.
  exists Demo.start. split; [reflexivity|]. split; [reflexivity|].
  split; [reflexivity|].
  intros Hall. inversion Hall as [|? ? _ Hrest]; subst.
  inversion Hrest as [|? ? Hlen _]; subst. discriminate Hlen.
Qed.

(** ** The transition function: invariants of the reachable states *)

Lemma wrap64_small (z : Z) : - 2 ^ 63 <= z < 2 ^ 63 -> wrap64 z = z.
Proof.
  intros Hz. unfold wrap64. rewrite Z.mod_small; lia.
Qed.

Lemma feq_eq (x y : float) : feq x y = true -> x = y.
Proof. apply FloatAxioms.Leibniz.eqb_spec. Qed.

(** The arithmetic of the animation on the grid of halves, checked on every
    point of the grid. *)
Lemma half_tick (k j : Z) :
  0 <= k < 720 -> 1 <= j <= 60 ->
  math.Mod (half k + half j) 360 = half ((k + j) mod 720).
Proof.
  intros Hk Hj. apply feq_eq.
  apply (range_all_spec 61
           (fun j => feq (math.Mod (half k + half j) 360)
                         (half ((k + j) mod 720)))); [|simpl; lia].
  revert k Hk.
  apply (range_all_spec 720
           (fun k => range_all 61
              (fun j => feq (math.Mod (half k + half j) 360)
                            (half ((k + j) mod 720))))).
  vm_compute. reflexivity.
Qed.

Lemma half_speed (j : Z) :
  1 <= j <= 60 ->
  math.Min 30 (half j + 0.5) = half (Z.min 60 (j + 1))
  /\ math.Max 0.5 (half j - 0.5) = half (Z.max 1 (j - 1)).
Proof.
  intros Hj.
  assert (Hb : feq (math.Min 30 (half j + 0.5)) (half (Z.min 60 (j + 1)))
               && feq (math.Max 0.5 (half j - 0.5)) (half (Z.max 1 (j - 1)))
               = true).
  { assert (Hall : range_all 61
             (fun j => (j =? 0)
                       || feq (math.Min 30 (half j + 0.5)) (half (Z.min 60 (j + 1)))
                          && feq (math.Max 0.5 (half j - 0.5))
                                 (half (Z.max 1 (j - 1)))) = true)
      by (vm_compute; reflexivity).
    pose proof (range_all_spec 61 _ Hall j ltac:(simpl; lia)) as Hj'.
    cbv beta in Hj'. destruct (Z.eqb_spec j 0); [lia|exact Hj']. }
  apply andb_true_iff in Hb as [H1 H2]. split; now apply feq_eq.
Qed.

Lemma half_range (k : Z) :
  0 <= k < 720 ->
  (0 <=? half k)%float = true /\ (half k <? 360)%float = true.
Proof.
  intros Hk.
  assert (Hb : ((0 <=? half k)%float && (half k <? 360)%float) = true).
  { apply (range_all_spec 720
             (fun k => (0 <=? half k)%float && (half k <? 360)%float)).
    - vm_compute. reflexivity.
    - simpl. lia. }
  now apply andb_true_iff in Hb.
Qed.

Lemma half_step_range (j : Z) :
  1 <= j <= 60 ->
  (0.5 <=? half j)%float = true /\ (half j <=? 30)%float = true.
Proof.
  intros Hj.
  assert (Hb : ((0.5 <=? half j)%float && (half j <=? 30)%float) = true).
  { assert (Hall : range_all 61
             (fun j => (j =? 0) || (0.5 <=? half j)%float && (half j <=? 30)%float)
             = true) by (vm_compute; reflexivity).
    pose proof (range_all_spec 61 _ Hall j ltac:(simpl; lia)) as Hj'.
    cbv beta in Hj'. destruct (Z.eqb_spec j 0); [lia|exact Hj']. }
  now apply andb_true_iff in Hb.
Qed.

Section Transitions.

Variable C : Collaborators.

Lemma rebuildArt_Inv (m : model C) :
  Inv m -> exists m', rebuildArt m = Some m' /\ Inv m'
                        /\ baseStart m' = baseStart m
                        /\ baseEnd m' = baseEnd m
                        /\ inputs m' = inputs m
                        /\ fontIndex m' = fontIndex m
                        /\ mode m' = mode m
                        /\ focusIndex m' = focusIndex m.
Proof.
  intros [Hin Hf Hfi Hmo Hfo Hh Hs]. unfold rebuildArt.
  destruct (at_index_in_range (inputs m) 0) as [ti ->]; [lia|].
  destruct (at_index_in_range (fonts m) (fontIndex m)) as [font ->];
    [now rewrite Hf|].
  eexists. split; [reflexivity|].
  cbn [set_art baseStart baseEnd inputs fontIndex mode focusIndex].
  split; [|auto 10]. constructor; assumption.
Qed.

Lemma fieldEdit_Inv (m : model C) (e : msg C) :
  Inv m -> exists m' c, fieldEdit m e = Some (m', c) /\ Inv m'
                          /\ fontIndex m' = fontIndex m
                          /\ mode m' = mode m
                          /\ focusIndex m' = focusIndex m.
Proof.
  intros Hinv. unfold fieldEdit.
  set (m1 := set_inputs m _).
  assert (Hinv1 : Inv m1).
  { destruct Hinv as [Hin Hf Hfi Hmo Hfo Hh Hs].
    constructor; try assumption.
    subst m1. cbn [set_inputs inputs]. unfold llen in *.
    now rewrite !length_map. }
  destruct (rebuildArt_Inv m1 Hinv1)
    as (m2 & -> & Hinv2 & _ & _ & Hi2 & Hfi2 & Hmo2 & Hfo2).
  destruct (at_index_in_range (inputs m2) 1) as [i1 Hi1];
    [rewrite (inv_inputs Hinv2); lia|].
  rewrite Hi1.
  destruct (parseHexColor (ti_Value C i1)) as [c1 ok1].
  set (m3 := if ok1 then set_baseStart m2 c1 else m2).
  assert (Hinv3 : Inv m3 /\ inputs m3 = inputs m2
                  /\ fontIndex m3 = fontIndex m2 /\ mode m3 = mode m2
                  /\ focusIndex m3 = focusIndex m2).
  { subst m3. destruct ok1; [|auto].
    split; [|auto]. destruct Hinv2. constructor; assumption. }
  destruct Hinv3 as (Hinv3 & Hi3 & Hfi3 & Hmo3 & Hfo3).
  destruct (at_index_in_range (inputs m3) 2) as [i2 Hi2'];
    [rewrite (inv_inputs Hinv3); lia|].
  rewrite Hi2'.
  destruct (parseHexColor (ti_Value C i2)) as [c2 ok2].
  do 2 eexists. split; [reflexivity|].
  destruct ok2.
  - cbn [set_baseEnd fontIndex mode focusIndex].
    split; [destruct Hinv3; constructor; assumption|].
    subst m1. cbn [set_inputs fontIndex mode focusIndex] in *.
    repeat split; congruence.
  - split; [exact Hinv3|].
    subst m1. cbn [set_inputs fontIndex mode focusIndex] in *.
    repeat split; congruence.
Qed.

End Transitions.

Lemma key_in_spec (s : gostring) (keys : list gostring) :
  key_in s keys = true <-> In s keys.
Proof.
  unfold key_in. rewrite existsb_exists. split.
  - intros [x [Hin Heq]]. apply gostring_eqb_eq in Heq. now subst.
  - intros Hin. exists s. split; [exact Hin|apply gostring_eqb_refl].
Qed.

(** Evaluates the tests of a key that is known against the lists of
    bindings. *)
Ltac eval_keys :=
  cbv zeta;
  repeat match goal with
         | |- context [key_in (go ?s) ?l] =>
           let b := eval vm_compute in (key_in (go s) l) in
           change (key_in (go s) l) with b
         | |- context [gostring_eqb (go ?s) (go ?t)] =>
           let b := eval vm_compute in (gostring_eqb (go s) (go t)) in
           change (gostring_eqb (go s) (go t)) with b
         end;
  cbv iota.

Lemma llen_figFonts : llen figFonts = 148.
Proof. reflexivity. Qed.

Lemma llen_modeNames : llen modeNames = 4.
Proof. reflexivity. Qed.

Lemma go_rem_nonneg (a b : Z) :
  0 <= a -> 0 < b -> go_rem a b = Some (a mod b).
Proof.
  intros Ha Hb. unfold go_rem. destruct (Z.eqb_spec b 0); [lia|].
  now rewrite Z.rem_mod_nonneg by lia.
Qed.

Section Steps.

Variable C : Collaborators.

Lemma refocus_length (ins : list (TI C)) (i f : Z) :
  length (refocus C i f ins) = length ins.
Proof.
  revert i. induction ins as [|ti ins IH]; intros i; cbn [refocus length].
  - reflexivity.
  - now rewrite IH.
Qed.

(** The focus keys: the index moves by one and wraps over three fields. *)
Lemma Update_focus (m : model C) (k : Key C) (back : bool) :
  Inv m ->
  Key_String C k = (if back then go "shift+tab" else go "tab") ->
  exists m', Update m (KeyMsg k) = Some (m', nil_cmd)
             /\ focusIndex m'
                = (if back then focusIndex m - 1 else focusIndex m + 1) mod 3
             /\ fontIndex m' = fontIndex m /\ mode m' = mode m
             /\ Inv m'.
Proof.
  intros Hinv Hk. pose proof Hinv as [Hin Hf Hfi Hmo Hfo Hh Hs].
  unfold Update. rewrite Hk. destruct back; eval_keys.
  - rewrite wrap64_small by lia. rewrite Hin.
    eexists. split; [reflexivity|].
    cbn [set_inputs set_focusIndex focusIndex fontIndex mode inputs].
    assert (Hval : (if (if focusIndex m - 1 <? 0 then 3 - 1 else focusIndex m - 1)
                          >=? 3
                    then 0
                    else if focusIndex m - 1 <? 0 then 3 - 1
                         else focusIndex m - 1)
                   = (focusIndex m - 1) mod 3).
    { destruct (Z.ltb_spec (focusIndex m - 1) 0).
      - replace (focusIndex m - 1) with (-1) by lia. reflexivity.
      - rewrite Z.geb_leb. destruct (Z.leb_spec 3 (focusIndex m - 1)); [lia|].
        rewrite Z.mod_small; lia. }
    rewrite Hval. split; [reflexivity|]. split; [reflexivity|].
    split; [reflexivity|].
    constructor; cbn [set_inputs set_focusIndex focusIndex fontIndex mode
                      inputs fonts hueShift stepDeg]; try assumption.
    + unfold llen in *. now rewrite refocus_length.
    + apply Z.mod_pos_bound. lia.
  - rewrite wrap64_small by lia. rewrite Hin.
    eexists. split; [reflexivity|].
    cbn [set_inputs set_focusIndex focusIndex fontIndex mode inputs].
    assert (Hval : (if (if focusIndex m + 1 <? 0 then 3 - 1 else focusIndex m + 1)
                          >=? 3
                    then 0
                    else if focusIndex m + 1 <? 0 then 3 - 1
                         else focusIndex m + 1)
                   = (focusIndex m + 1) mod 3).
    { destruct (Z.ltb_spec (focusIndex m + 1) 0); [lia|].
      rewrite Z.geb_leb. destruct (Z.leb_spec 3 (focusIndex m + 1)).
      - replace (focusIndex m + 1) with 3 by lia. reflexivity.
      - rewrite Z.mod_small; lia. }
    rewrite Hval. split; [reflexivity|]. split; [reflexivity|].
    split; [reflexivity|].
    constructor; cbn [set_inputs set_focusIndex focusIndex fontIndex mode
                      inputs fonts hueShift stepDeg]; try assumption.
    + unfold llen in *. now rewrite refocus_length.
    + apply Z.mod_pos_bound. lia.
Qed.

Lemma set_fontIndex_Inv (m : model C) (i : Z) :
  Inv m -> 0 <= i < llen figFonts -> Inv (set_fontIndex m i).
Proof.
  intros [Hin Hf Hfi Hmo Hfo Hh Hs] Hi. constructor; assumption.
Qed.

(** The font keys: the index moves by one and wraps over the catalogue,
    and the art is rebuilt. *)
Lemma Update_font (m : model C) (k : Key C) (back : bool) :
  Inv m ->
  In (Key_String C k) (if back then [go "left"; go "["]
                       else [go "right"; go "]"]) ->
  exists m', Update m (KeyMsg k) = Some (m', nil_cmd)
             /\ fontIndex m'
                = (if back then fontIndex m - 1 else fontIndex m + 1) mod 148
             /\ focusIndex m' = focusIndex m /\ mode m' = mode m
             /\ Inv m'.
Proof.
  intros Hinv Hk. pose proof Hinv as [Hin Hf Hfi Hmo Hfo Hh Hs].
  rewrite llen_figFonts in Hfi.
  assert (Hgoal : forall i, 0 <= i < 148 ->
            exists m', match rebuildArt (set_fontIndex m i) with
                       | Some m0 => Some (m0, @nil_cmd C)
                       | None => None
                       end = Some (m', nil_cmd)
                       /\ fontIndex m' = i /\ focusIndex m' = focusIndex m
                       /\ mode m' = mode m /\ Inv m').
  { intros i Hi.
    destruct (rebuildArt_Inv C (set_fontIndex m i))
      as (m' & -> & Hinv' & _ & _ & _ & Hfi' & Hmo' & Hfo').
    { apply set_fontIndex_Inv; [exact Hinv|now rewrite llen_figFonts]. }
    exists m'. cbn [set_fontIndex fontIndex mode focusIndex] in *. auto. }
  unfold Update.
  destruct back; cbn [In] in Hk;
    destruct Hk as [Hk|[Hk|[]]]; rewrite <- Hk; eval_keys;
    rewrite Hf, llen_figFonts.
  1, 2: rewrite (wrap64_small (fontIndex m - 1)) by lia;
        rewrite wrap64_small by lia;
        rewrite go_rem_nonneg by lia;
        replace ((fontIndex m - 1 + 148) mod 148)
          with ((fontIndex m - 1) mod 148)
          by (rewrite <- (Z.mod_add (fontIndex m - 1) 1 148) by lia;
              f_equal; lia);
        apply Hgoal; apply Z.mod_pos_bound; lia.
  1, 2: rewrite wrap64_small by lia;
        rewrite go_rem_nonneg by lia;
        apply Hgoal; apply Z.mod_pos_bound; lia.
Qed.

(** The mode key: the mode advances cyclically through the four modes. *)
Lemma Update_mode (m : model C) (k : Key C) :
  Inv m -> Key_String C k = go "m" ->
  exists m', Update m (KeyMsg k) = Some (m', nil_cmd)
             /\ mode m' = (mode m + 1) mod 4
             /\ fontIndex m' = fontIndex m /\ focusIndex m' = focusIndex m
             /\ Inv m'.
Proof.
  intros Hinv Hk. pose proof Hinv as [Hin Hf Hfi Hmo Hfo Hh Hs].
  unfold Update. rewrite Hk. eval_keys.
  rewrite llen_modeNames, wrap64_small by lia.
  rewrite go_rem_nonneg by lia.
  eexists. split; [reflexivity|].
  cbn [set_mode mode fontIndex focusIndex].
  split; [reflexivity|]. split; [reflexivity|]. split; [reflexivity|].
  constructor; cbn [set_mode mode fontIndex focusIndex inputs fonts hueShift
                    stepDeg]; try assumption.
  apply Z.mod_pos_bound. lia.
Qed.

(** The tick: while the animation is on the hue shift advances by the step
    modulo 360 and exactly one tick is scheduled; while it is off nothing
    changes and nothing is scheduled. *)
Lemma Update_tick (m : model C) :
  Update m tickMsg
  = if animate m
    then Some (set_hueShift m (math.Mod (hueShift m + stepDeg m) 360),
               tickEvery (interval m))
    else Some (m, nil_cmd).
Proof. reflexivity. Qed.

Lemma Update_Inv (m : model C) (e : msg C) :
  Inv m -> exists m' c, Update m e = Some (m', c) /\ Inv m'.
Proof.
  intros Hinv. pose proof Hinv as [Hin Hf Hfi Hmo Hfo Hh Hs].
  destruct e as [W H|k| |o].
  - do 2 eexists. split; [reflexivity|]. constructor; assumption.
  - destruct (key_in (Key_String C k) [go "q"; go "esc"; go "ctrl+c"]) eqn:Eq.
    { unfold Update. cbv zeta. rewrite Eq. eauto. }
    destruct (key_in (Key_String C k) [go "tab"; go "shift+tab"]) eqn:Etab.
    { apply key_in_spec in Etab. cbn [In] in Etab.
      destruct Etab as [Hk|[Hk|[]]].
      - destruct (Update_focus m k false Hinv (eq_sym Hk))
          as (m' & Hup & _ & _ & _ & Hinv'). eauto.
      - destruct (Update_focus m k true Hinv (eq_sym Hk))
          as (m' & Hup & _ & _ & _ & Hinv'). eauto. }
    destruct (key_in (Key_String C k) [go "left"; go "["]) eqn:Eleft.
    { apply key_in_spec in Eleft.
      destruct (Update_font m k true Hinv Eleft)
        as (m' & Hup & _ & _ & _ & Hinv'). eauto. }
    destruct (key_in (Key_String C k) [go "right"; go "]"]) eqn:Eright.
    { apply key_in_spec in Eright.
      destruct (Update_font m k false Hinv Eright)
        as (m' & Hup & _ & _ & _ & Hinv'). eauto. }
    destruct (key_in (Key_String C k) [go "m"]) eqn:Em.
    { apply key_in_spec in Em. cbn [In] in Em. destruct Em as [Hk|[]].
      destruct (Update_mode m k Hinv (eq_sym Hk))
        as (m' & Hup & _ & _ & _ & Hinv'). eauto. }
    unfold Update. cbv zeta. rewrite Eq, Etab, Eleft, Eright, Em.
    destruct (key_in (Key_String C k) [go "a"]).
    { cbn [set_animate animate].
      destruct (negb (animate m)); do 2 eexists;
        (split; [reflexivity|constructor; assumption]). }
    destruct (key_in (Key_String C k) [go "+"; go "="]).
    { do 2 eexists. split; [reflexivity|].
      constructor; cbn [set_stepDeg mode fontIndex focusIndex inputs fonts
                        hueShift stepDeg]; try assumption.
      destruct Hs as (j & Hj & ->).
      exists (Z.min 60 (j + 1)). split; [lia|].
      apply (half_speed j Hj). }
    destruct (key_in (Key_String C k) [go "-"; go "_"]).
    { do 2 eexists. split; [reflexivity|].
      constructor; cbn [set_stepDeg mode fontIndex focusIndex inputs fonts
                        hueShift stepDeg]; try assumption.
      destruct Hs as (j & Hj & ->).
      exists (Z.max 1 (j - 1)). split; [lia|].
      apply (half_speed j Hj). }
    destruct (fieldEdit_Inv C m (KeyMsg k) Hinv) as (m' & c & Hup & Hinv' & _).
    eauto.
  - rewrite Update_tick. destruct (animate m).
    + do 2 eexists. split; [reflexivity|].
      constructor; cbn [set_hueShift mode fontIndex focusIndex inputs fonts
                        hueShift stepDeg]; try assumption.
      destruct Hh as (k & Hk & ->). destruct Hs as (j & Hj & ->).
      exists ((k + j) mod 720). split; [apply Z.mod_pos_bound; lia|].
      now apply half_tick.
    + eauto.
  - destruct (fieldEdit_Inv C m (OtherMsg o) Hinv) as (m' & c & Hup & Hinv' & _).
    unfold Update. eauto.
Qed.

Lemma newModel_Inv : exists m, newModel C = Some m /\ Inv m.
Proof.
  unfold newModel.
  match goal with
  | |- exists m, rebuildArt ?m0 = Some m /\ _ =>
    destruct (rebuildArt_Inv C m0) as (m' & Hre & Hinv & _)
  end.
  - constructor; cbn [mode fontIndex focusIndex inputs fonts hueShift stepDeg].
    + reflexivity.
    + reflexivity.
    + rewrite llen_figFonts. lia.
    + unfold modeGlyph. lia.
    + lia.
    + exists 0. split; [lia|]. vm_compute. reflexivity.
    + exists 6. split; [lia|]. vm_compute. reflexivity.
  - eauto.
Qed.

Lemma reachable_Inv (m : model C) : reachable m -> Inv m.
Proof.
  induction 1 as [m Hnew|m e m' c Hreach IH Hup].
  - destruct newModel_Inv as (m0 & Hm0 & Hinv). congruence.
  - destruct (Update_Inv m e IH) as (m1 & c1 & Hup1 & Hinv1). congruence.
Qed.

End Steps.

(** ** Index wrap-around (C9), last good colour (C3), ticks (C4) *)

Lemma Demo_start_reachable : reachable Demo.start.
Proof. apply reach_init. vm_compute. reflexivity. Qed.

(** C9.  In every state reachable from the initial state by any sequence of
    events the font index is inside the catalogue, the mode index inside the
    four modes and the focus index inside the three fields; no event makes
    [Update] fail on an index; and the keys wrap around at both ends: the
    previous font of index 0 is the last one and the next font of the last
    one is index 0, the mode after the fourth is the first, and the focus
    moves from the third field to the first and back. *)
Theorem indices_in_range_with_wraparound (C : Collaborators) (m : model C) :
  reachable m ->
  (0 <= fontIndex m < llen (fonts m)
   /\ 0 <= mode m < llen modeNames /\ llen modeNames = 4
   /\ 0 <= focusIndex m < llen (inputs m) /\ llen (inputs m) = 3)
  /\ (forall e, exists m' c, Update m e = Some (m', c))
  /\ (forall k, In (Key_String C k) [go "left"; go "["] ->
        exists m', Update m (KeyMsg k) = Some (m', nil_cmd)
                   /\ fontIndex m'
                      = if fontIndex m =? 0 then llen (fonts m) - 1
                        else fontIndex m - 1)
  /\ (forall k, In (Key_String C k) [go "right"; go "]"] ->
        exists m', Update m (KeyMsg k) = Some (m', nil_cmd)
                   /\ fontIndex m'
                      = if fontIndex m =? llen (fonts m) - 1 then 0
                        else fontIndex m + 1)
  /\ (forall k, Key_String C k = go "m" ->
        exists m', Update m (KeyMsg k) = Some (m', nil_cmd)
                   /\ mode m' = if mode m =? 3 then 0 else mode m + 1)
  /\ (forall k, Key_String C k = go "tab" ->
        exists m', Update m (KeyMsg k) = Some (m', nil_cmd)
                   /\ focusIndex m'
                      = if focusIndex m =? 2 then 0 else focusIndex m + 1)
  /\ (forall k, Key_String C k = go "shift+tab" ->
        exists m', Update m (KeyMsg k) = Some (m', nil_cmd)
                   /\ focusIndex m'
                      = if focusIndex m =? 0 then 2 else focusIndex m - 1).
Proof.
  intros Hreach. pose proof (reachable_Inv C m Hreach) as Hinv.
  pose proof Hinv as [Hin Hf Hfi Hmo Hfo Hh Hs].
  rewrite Hf, Hin, llen_modeNames, llen_figFonts in *.
  split; [repeat split; lia|].
  split.
  { intros e. destruct (Update_Inv C m e Hinv) as (m' & c & Hup & _). eauto. }
  split.
  { intros k Hk.
    destruct (Update_font C m k true Hinv Hk) as (m' & Hup & Hval & _).
    exists m'. split; [exact Hup|]. rewrite Hval.
    destruct (Z.eqb_spec (fontIndex m) 0) as [->|Hne]; [reflexivity|].
    rewrite Z.mod_small; lia. }
  split.
  { intros k Hk.
    destruct (Update_font C m k false Hinv Hk) as (m' & Hup & Hval & _).
    exists m'. split; [exact Hup|]. rewrite Hval.
    destruct (Z.eqb_spec (fontIndex m) (148 - 1)) as [->|Hne]; [reflexivity|].
    rewrite Z.mod_small; lia. }
  split.
  { intros k Hk.
    destruct (Update_mode C m k Hinv Hk) as (m' & Hup & Hval & _).
    exists m'. split; [exact Hup|]. rewrite Hval.
    destruct (Z.eqb_spec (mode m) 3) as [->|Hne]; [reflexivity|].
    rewrite Z.mod_small; lia. }
  split.
  { intros k Hk.
    destruct (Update_focus C m k false Hinv Hk) as (m' & Hup & Hval & _).
    exists m'. split; [exact Hup|]. rewrite Hval.
    destruct (Z.eqb_spec (focusIndex m) 2) as [->|Hne]; [reflexivity|].
    rewrite Z.mod_small; lia. }
  { intros k Hk.
    destruct (Update_focus C m k true Hinv Hk) as (m' & Hup & Hval & _).
    exists m'. split; [exact Hup|]. rewrite Hval.
    destruct (Z.eqb_spec (focusIndex m) 0) as [->|Hne]; [reflexivity|].
    rewrite Z.mod_small; lia. }
Qed.

Lemma indices_in_range_with_wraparound_witness :
  reachable Demo.start
  /\ exists m', Update Demo.start (KeyMsg (go "left")) = Some (m', nil_cmd)
                /\ fontIndex m' = 147.
Proof.
  split; [exact Demo_start_reachable|].
  destruct (indices_in_range_with_wraparound Demo.env Demo.start
              Demo_start_reachable) as (_ & _ & Hleft & _).
  destruct (Hleft (go "left") (or_introl eq_refl)) as (m' & Hup & Hval).
  exists m'. split; [exact Hup|exact Hval].
Defined.

Section FieldEdit.

Variable C : Collaborators.

Lemma isFieldEdit_Update (m : model C) (e : msg C) :
  isFieldEdit C e = true -> Update m e = fieldEdit m e.
Proof.
  destruct e as [W H|k| |o]; cbn [isFieldEdit]; try discriminate;
    [|reflexivity].
  intros Hk. apply negb_true_iff in Hk.
  assert (Hsub : forall keys, (forall x, In x keys -> In x boundKeys) ->
                              key_in (Key_String C k) keys = false).
  { intros keys Hincl.
    destruct (key_in (Key_String C k) keys) eqn:E; [|reflexivity].
    apply key_in_spec in E. apply Hincl, key_in_spec in E. congruence. }
  unfold Update. cbv zeta.
  rewrite !Hsub; [reflexivity|..];
    intros x Hx; cbn [In] in Hx; unfold boundKeys; cbn [In]; tauto.
Qed.

(** What the field edit leaves in the model. *)
Lemma fieldEdit_spec (m m' : model C) (e : msg C) (c : Cmd C) :
  fieldEdit m e = Some (m', c) ->
  exists i1 i2,
    inputs m' = map (fun ti => fst (ti_Update C ti e)) (inputs m)
    /\ at_index (inputs m') 1 = Some i1
    /\ at_index (inputs m') 2 = Some i2
    /\ baseStart m' = (if snd (parseHexColor (ti_Value C i1))
                       then fst (parseHexColor (ti_Value C i1))
                       else baseStart m)
    /\ baseEnd m' = (if snd (parseHexColor (ti_Value C i2))
                     then fst (parseHexColor (ti_Value C i2))
                     else baseEnd m)
    /\ c = Batch C (map (fun ti => snd (ti_Update C ti e)) (inputs m)).
Proof.
  unfold fieldEdit. rewrite !map_map.
  set (m1 := set_inputs m _).
  destruct (rebuildArt m1) as [m2|] eqn:Hre; [|discriminate].
  destruct (rebuildArt_spec C m1 m2 Hre) as (ti & font & _ & _ & ->).
  cbn [set_art inputs]. subst m1. cbn [set_inputs inputs].
  set (ins := map (fun ti => fst (ti_Update C ti e)) (inputs m)).
  destruct (at_index ins 1) as [i1|] eqn:Hi1; [|discriminate].
  destruct (parseHexColor (ti_Value C i1)) as [c1 ok1] eqn:Hp1.
  assert (Hins : forall x : model C,
             inputs (if ok1 then set_baseStart x c1 else x) = inputs x)
    by (intros x; now destruct ok1).
  rewrite Hins. cbn [set_art inputs set_inputs].
  destruct (at_index ins 2) as [i2|] eqn:Hi2; [|discriminate].
  destruct (parseHexColor (ti_Value C i2)) as [c2 ok2] eqn:Hp2.
  intros H. inversion H; subst m' c. clear H.
  exists i1, i2. rewrite Hp1, Hp2. cbn [fst snd].
  destruct ok1, ok2; cbn [set_baseEnd set_baseStart set_art set_inputs inputs
                          baseStart baseEnd]; auto 10.
Qed.

End FieldEdit.

(** C3.  After every field edit (a key with no binding of its own, or an
    unknown message) the text of both colour fields is parsed with
    [parseHexColor]: a field that parses sets its base colour to the parsed
    value, a field that does not parse leaves the previous base colour as it
    was, and [Update] produces a model in both cases (on a reachable state
    it never fails).  So with [baseStart] set from [#8A2BE2], an edit that
    leaves the text [#zzzzzz] keeps that colour, and an edit that leaves
    [#000000] sets black. *)
Theorem fieldEdit_last_good_value (C : Collaborators) (m : model C) (e : msg C) :
  isFieldEdit C e = true ->
  (reachable m -> exists m' c, Update m e = Some (m', c))
  /\ (forall m' c, Update m e = Some (m', c) ->
        exists i1 i2,
          inputs m' = map (fun ti => fst (ti_Update C ti e)) (inputs m)
          /\ at_index (inputs m') 1 = Some i1
          /\ at_index (inputs m') 2 = Some i2
          /\ baseStart m' = (if snd (parseHexColor (ti_Value C i1))
                             then fst (parseHexColor (ti_Value C i1))
                             else baseStart m)
          /\ baseEnd m' = (if snd (parseHexColor (ti_Value C i2))
                           then fst (parseHexColor (ti_Value C i2))
                           else baseEnd m)
          /\ (ti_Value C i1 = go "#zzzzzz" -> baseStart m' = baseStart m)
          /\ (ti_Value C i1 = go "#000000" -> baseStart m' = mkColor 0 0 0))
  /\ parseHexColor (go "#8A2BE2") = (mkColor 138 43 226, true).
Proof.
  intros He. split; [|split; [|vm_compute; reflexivity]].
  - intros Hreach.
    destruct (Update_Inv C m e (reachable_Inv C m Hreach)) as (m' & c & Hup & _).
    eauto.
  - intros m' c Hup. rewrite (isFieldEdit_Update C m e He) in Hup.
    destruct (fieldEdit_spec C m m' e c Hup)
      as (i1 & i2 & Hins & Hi1 & Hi2 & Hs & Hend & _).
    exists i1, i2. repeat (split; [assumption|]). split.
    + intros Hv. rewrite Hs, Hv. reflexivity.
    + intros Hv. rewrite Hs, Hv. reflexivity.
Qed.

Lemma Demo_edit_invalid :
  Update (Demo.editing (go "#zzzzz")) (KeyMsg (go "z"))
  = Some (Demo.editing (go "#zzzzzz"), Batch Demo.env [tt; tt; tt]).
Proof. vm_compute. reflexivity. Qed.

Lemma Demo_edit_black :
  Update (Demo.editing (go "#00000")) (KeyMsg (go "0"))
  = Some (set_baseStart (Demo.editing (go "#000000")) (mkColor 0 0 0),
          Batch Demo.env [tt; tt; tt]).
Proof. vm_compute. reflexivity. Qed.

Lemma Demo_key_is_edit (k : gostring) :
  key_in k boundKeys = false -> isFieldEdit Demo.env (KeyMsg k) = true.
Proof. intros Hk. cbn [isFieldEdit Demo.env Key_String]. now rewrite Hk. Qed.

Lemma fieldEdit_last_good_value_witness :
  (exists m' c,
     Update (Demo.editing (go "#zzzzz")) (KeyMsg (go "z")) = Some (m', c)
     /\ baseStart m' = mkColor 138 43 226)
  /\ (exists m' c,
        Update (Demo.editing (go "#00000")) (KeyMsg (go "0")) = Some (m', c)
        /\ baseStart m' = mkColor 0 0 0).
Proof.
  split.
  - destruct (fieldEdit_last_good_value Demo.env (Demo.editing (go "#zzzzz"))
                (KeyMsg (go "z")) (Demo_key_is_edit (go "z") eq_refl))
      as (_ & Hspec & _).
    destruct (Hspec _ _ Demo_edit_invalid)
      as (i1 & i2 & _ & Hi1 & _ & _ & _ & Hkeep & _).
    do 2 eexists. split; [exact Demo_edit_invalid|].
    injection Hi1 as <-. exact (Hkeep eq_refl).
  - destruct (fieldEdit_last_good_value Demo.env (Demo.editing (go "#00000"))
                (KeyMsg (go "0")) (Demo_key_is_edit (go "0") eq_refl))
      as (_ & Hspec & _).
    destruct (Hspec _ _ Demo_edit_black)
      as (i1 & i2 & _ & Hi1 & _ & _ & _ & _ & Hset).
    do 2 eexists. split; [exact Demo_edit_black|].
    injection Hi1 as <-. exact (Hset eq_refl).
Defined.

(** A run of ticks on the grid of halves. *)
Lemma ticks_half (C : Collaborators) (n : nat) :
  forall (m : model C) (k j : Z),
    animate m = true -> 0 <= k < 720 -> 1 <= j <= 60 ->
    hueShift m = half k -> stepDeg m = half j ->
    exists m', ticks n m = Some m'
               /\ hueShift m' = half ((k + Z.of_nat n * j) mod 720)
               /\ animate m' = true /\ stepDeg m' = half j.
Proof.
  induction n as [|n IH]; intros m k j Ha Hk Hj Hh Hs.
  - exists m. cbn [ticks]. repeat split; try assumption.
    rewrite Hh. f_equal. rewrite Z.mod_small; lia.
  - cbn [ticks]. rewrite Update_tick, Ha.
    destruct (IH (set_hueShift m (math.Mod (hueShift m + stepDeg m) 360))
                 ((k + j) mod 720) j)
      as (m' & Ht & Hh' & Ha' & Hs'); try assumption.
    + apply Z.mod_pos_bound. lia.
    + cbn [set_hueShift hueShift]. rewrite Hh, Hs. now apply half_tick.
    + exists m'. split; [exact Ht|]. split; [|auto].
      rewrite Hh'. f_equal.
      rewrite Zplus_mod_idemp_l. f_equal. lia.
Qed.

(** C4.  In every state a tick that arrives while [animate] is false leaves
    the model, and so [hueShift], as it is and schedules nothing; a tick
    that arrives while [animate] is true returns a state whose [hueShift] is
    [(hueShift + stepDeg) mod 360] and whose other fields are those of the
    old state, and schedules exactly one further tick.  From [hueShift = 0]
    with a step of 3 degrees, 120 ticks bring [hueShift] back to 0; and in
    every reachable state [hueShift] is in [[0, 360)]. *)
Theorem tick_advances_hue_when_animating (C : Collaborators) (m : model C) :
  (animate m = false -> Update m tickMsg = Some (m, nil_cmd))
  /\ (animate m = true ->
      exists m',
        Update m tickMsg = Some (m', tickEvery (interval m))
        /\ hueShift m' = math.Mod (hueShift m + stepDeg m) 360
        /\ animate m' = true /\ stepDeg m' = stepDeg m
        /\ interval m' = interval m
        /\ w m' = w m /\ h m' = h m /\ inputs m' = inputs m
        /\ focusIndex m' = focusIndex m /\ fonts m' = fonts m
        /\ fontIndex m' = fontIndex m /\ artLines m' = artLines m
        /\ maxWidth m' = maxWidth m /\ baseStart m' = baseStart m
        /\ baseEnd m' = baseEnd m /\ mode m' = mode m)
  /\ (animate m = true -> hueShift m = 0%float -> stepDeg m = 3%float ->
      exists m', ticks 120 m = Some m' /\ hueShift m' = 0%float)
  /\ (reachable m ->
      (0 <=? hueShift m)%float = true /\ (hueShift m <? 360)%float = true).
Proof.
  split; [|split; [|split]].
  - intros Ha. now rewrite Update_tick, Ha.
  - intros Ha. rewrite Update_tick, Ha. eexists. split; [reflexivity|].
    cbn [set_hueShift hueShift animate stepDeg interval w h inputs focusIndex
         fonts fontIndex artLines maxWidth baseStart baseEnd mode].
    repeat split; try reflexivity. exact Ha.
  - intros Ha Hh Hs.
    assert (Hk : 0 <= 0 < 720) by lia.
    assert (Hj : 1 <= 6 <= 60) by lia.
    assert (Hh0 : hueShift m = half 0) by (rewrite Hh; vm_compute; reflexivity).
    assert (Hs6 : stepDeg m = half 6) by (rewrite Hs; vm_compute; reflexivity).
    destruct (ticks_half C 120 m 0 6 Ha Hk Hj Hh0 Hs6) as (m' & Ht & Hh' & _).
    exists m'. split; [exact Ht|]. rewrite Hh'.
    change ((0 + Z.of_nat 120 * 6) mod 720) with 0.
    vm_compute. reflexivity.
  - intros Hreach. destruct (reachable_Inv C m Hreach) as [_ _ _ _ _ Hh _].
    destruct Hh as (k & Hk & ->). now apply half_range.
Qed.

Lemma tick_advances_hue_when_animating_witness :
  (exists m', ticks 120 Demo.start = Some m' /\ hueShift m' = 0%float)
  /\ (0 <=? hueShift Demo.start)%float = true
  /\ Update (set_animate Demo.start false) tickMsg
     = Some (set_animate Demo.start false, nil_cmd)
  /\ (exists m', Update Demo.start tickMsg = Some (m', tickEvery 60000000)
                 /\ hueShift m' = 3%float /\ stepDeg m' = 3%float).
Proof.
  destruct (tick_advances_hue_when_animating Demo.env Demo.start)
    as (_ & Hon & H120 & Hrange).
  destruct (tick_advances_hue_when_animating Demo.env
              (set_animate Demo.start false)) as (Hoff & _).
  split; [exact (H120 eq_refl eq_refl eq_refl)|].
  split; [exact (proj1 (Hrange Demo_start_reachable))|].
  split; [exact (Hoff eq_refl)|].
  destruct (Hon eq_refl) as (m' & Hup & Hh & _ & Hs & _).
  exists m'. split; [exact Hup|]. split; [exact Hh|exact Hs].
Defined.

(** ** The compositor (C5) *)

Lemma gradientT_spec (maxW x : Z) :
  gradientT maxW x
  = if maxW <=? 1 then 0%float
    else (math.float64 x / math.float64 (maxW - 1))%float.
Proof.
  unfold gradientT. rewrite Z.gtb_ltb.
  destruct (Z.ltb_spec 1 maxW), (Z.leb_spec maxW 1); try reflexivity; lia.
Qed.

Lemma glyphFor_mode (md : Z) (ch : ascii) :
  0 <= md < 4 -> glyphFor md ch = Some (modeGlyphOf md ch).
Proof.
  intros Hmd. unfold glyphFor, modeGlyphOf, modeBlock, modeLight, modeDots,
              modeGlyph.
  destruct (Z.eqb_spec md 0); [reflexivity|].
  destruct (Z.eqb_spec md 2); [reflexivity|].
  destruct (Z.eqb_spec md 3); [reflexivity|].
  destruct (Z.eqb_spec md 1); [reflexivity|lia].
Qed.

Section Compositor.

Variable C : Collaborators.
Variable m : model C.
Hypothesis Hmode : 0 <= mode m < 4.

Lemma renderCell_spec (line : gostring) (x : Z) (ps : list Piece) :
  renderCell (maxWidth m) (mode m) (effStart m) (effEnd m) line x = Some ps ->
  exists ch, index line x = Some ch /\ ps = [specCell m x ch].
Proof.
  unfold renderCell. destruct (index line x) as [ch|]; [|discriminate].
  intros H. exists ch. split; [reflexivity|].
  unfold specCell, columnColor. rewrite <- gradientT_spec.
  fold (effStart m). fold (effEnd m).
  destruct (Ascii.eqb ch space); [now inversion H|].
  rewrite (glyphFor_mode (mode m) ch Hmode) in H. now inversion H.
Qed.

Lemma renderCols_spec (line : gostring) (n : nat) :
  forall (x0 : Z) (ps : list Piece),
    renderCols n (maxWidth m) (mode m) (effStart m) (effEnd m) line x0 = Some ps ->
    length ps = n
    /\ forall i, (i < n)%nat ->
         exists ch, index line (x0 + Z.of_nat i) = Some ch
                    /\ nth_error ps i = Some (specCell m (x0 + Z.of_nat i) ch).
Proof.
  induction n as [|n IH]; intros x0 ps; cbn [renderCols].
  - intros H. inversion H. split; [reflexivity|]. intros i Hi. lia.
  - destruct (renderCell _ _ _ _ line x0) as [cell|] eqn:Hcell; [|discriminate].
    destruct (renderCols n _ _ _ _ line (x0 + 1)) as [rest|] eqn:Hrest;
      [|discriminate].
    intros H. inversion H; subst ps. clear H.
    destruct (renderCell_spec line x0 cell Hcell) as (ch & Hch & ->).
    destruct (IH (x0 + 1) rest Hrest) as (Hlen & Hnth).
    split; [cbn [app length]; now rewrite Hlen|].
    intros [|i] Hi.
    + exists ch. rewrite Z.add_0_r. split; [exact Hch|reflexivity].
    + destruct (Hnth i) as (ch' & Hch' & Hcell'); [lia|].
      exists ch'. replace (x0 + Z.of_nat (S i)) with (x0 + 1 + Z.of_nat i) by lia.
      split; [exact Hch'|exact Hcell'].
Qed.

Lemma renderRows_spec (lines : list gostring) :
  forall rows,
    renderRows (maxWidth m) (mode m) (effStart m) (effEnd m) lines = Some rows ->
    length rows = length lines
    /\ forall y line, nth_error lines y = Some line ->
         exists row, nth_error rows y = Some row
                     /\ renderLine (maxWidth m) (mode m) (effStart m) (effEnd m)
                                   line = Some row.
Proof.
  induction lines as [|l lines IH]; intros rows; cbn [renderRows].
  - intros H. inversion H. split; [reflexivity|].
    intros [|y] line Hy; discriminate.
  - destruct (renderLine _ _ _ _ l) as [row|] eqn:Hrow; [|discriminate].
    destruct (renderRows _ _ _ _ lines) as [rest|] eqn:Hrest; [|discriminate].
    intros H. inversion H; subst rows. clear H.
    destruct (IH rest eq_refl) as (Hlen & Hnth).
    split; [cbn [length]; now rewrite Hlen|].
    intros [|y] line Hy; cbn [nth_error] in *.
    + inversion Hy; subst. eauto.
    + now apply Hnth.
Qed.

End Compositor.

(** C5.  When [View] composes a frame, the art is one row per line of the
    grid; every row has [maxWidth] cells; the cell at column [x] is a blank
    without colour when the byte of the padded line there is a blank, and
    otherwise the glyph of the render mode (full block for BLOCK, medium
    shade for LIGHT, centre dot for DOTS, the source byte as a character for
    GLYPH) in the colour [lerp effStart effEnd t], where [t] is
    [x/(maxWidth-1)] (0 when [maxWidth <= 1]) and the end points are the
    base colours, rotated by [hueShift] when [animate] is true.  The colour
    depends on the column only, not on the row or on the mode. *)
Theorem View_cells (C : Collaborators) (m : model C) (W H : Z)
        (ctl : Controls C) (art : list (list Piece)) :
  View m = Some (Placed W H ctl art) ->
  viewArt m = Some art
  /\ length art = length (artLines m)
  /\ (forall y line row,
        nth_error (artLines m) y = Some line ->
        nth_error art y = Some row ->
        exists padded,
          padLine (maxWidth m) line = Some padded
          /\ length row = Z.to_nat (maxWidth m)
          /\ forall x, 0 <= x < maxWidth m ->
               exists ch, index padded x = Some ch
                          /\ nth_error row (Z.to_nat x) = Some (specCell m x ch))
  /\ (forall x ch,
        specCell m x ch
        = if Ascii.eqb ch space then WriteByte space
          else WriteStyled
                 (Hex (lerp (effStart m) (effEnd m)
                            (if maxWidth m <=? 1 then 0%float
                             else (math.float64 x
                                   / math.float64 (maxWidth m - 1))%float)))
                 (if mode m =? modeBlock then go "█"
                  else if mode m =? modeLight then go "▓"
                  else if mode m =? modeDots then go "·"
                  else utf8.string_of_byte ch))
  /\ (forall ch, bv ch < 128 -> utf8.string_of_byte ch = [ch])
  /\ effStart m = (if animate m then rotateHue (baseStart m) (hueShift m)
                   else baseStart m)
  /\ effEnd m = (if animate m then rotateHue (baseEnd m) (hueShift m)
                 else baseEnd m).
Proof.
  unfold View. destruct ((w m =? 0) || (h m =? 0)); [discriminate|].
  destruct (at_index (inputs m) 0) as [i0|]; [|discriminate].
  destruct (at_index (inputs m) 1) as [i1|]; [|discriminate].
  destruct (at_index (inputs m) 2) as [i2|]; [|discriminate].
  destruct (at_index (fonts m) (fontIndex m)) as [font|]; [|discriminate].
  destruct (at_index modeNames (mode m)) as [mname|] eqn:Hmname; [|discriminate].
  destruct (viewArt m) as [rows|] eqn:Hart; [|discriminate].
  intros Hview. inversion Hview; subst W H ctl art. clear Hview.
  assert (Hmode : 0 <= mode m < 4).
  { apply at_index_Some_range in Hmname. now rewrite llen_modeNames in Hmname. }
  unfold viewArt in Hart.
  destruct (renderRows_spec C m (artLines m) rows Hart) as (Hlen & Hrows).
  split; [reflexivity|]. split; [exact Hlen|]. split; [|split; [|split; [|split]]].
  - intros y line row Hline Hrow.
    destruct (Hrows y line Hline) as (row' & Hrow' & Hrender).
    assert (row' = row) by congruence. subst row'.
    unfold renderLine in Hrender.
    destruct (padLine (maxWidth m) line) as [padded|]; [|discriminate].
    exists padded. split; [reflexivity|].
    destruct (renderCols_spec C m Hmode padded (Z.to_nat (maxWidth m)) 0 row
                Hrender) as (Hlenrow & Hcells).
    split; [exact Hlenrow|].
    intros x Hx. destruct (Hcells (Z.to_nat x)) as (ch & Hch & Hcell); [lia|].
    rewrite Z2Nat.id, Z.add_0_l in * by lia. eauto.
  - intros x ch. reflexivity.
  - intros ch Hch. unfold utf8.string_of_byte, utf8.RuneSelf.
    destruct (Z.ltb_spec (bv ch) 128); [reflexivity|lia].
  - reflexivity.
  - reflexivity.
Qed.

Lemma Demo_view :
  exists ctl art,
    View (set_size Demo.start 80 24) = Some (Placed 80 24 ctl art).
Proof. vm_compute. do 2 eexists. reflexivity. Qed.

Lemma View_cells_witness :
  exists art, viewArt (set_size Demo.start 80 24) = Some art
              /\ length art = 2%nat.
Proof.
  destruct Demo_view as (ctl & art & Hview).
  destruct (View_cells Demo.env (set_size Demo.start 80 24) 80 24 ctl art Hview)
    as (Hart & Hlen & _).
  exists art. split; [exact Hart|exact Hlen].
Defined.

(** ** Interpolation (C6) *)

Lemma lerp_channels (a b : colorRGB) (t : float) :
  lerp a b t
  = mkColor (lerp1 (R a) (R b) t) (lerp1 (G a) (G b) t) (lerp1 (B a) (B b) t).
Proof. reflexivity. Qed.

(** [int(x)] is the exact value of [x] truncated towards zero, whenever that
    fits the 64-bit [int]. *)
Lemma int_truncates (x : float) (q : Q) :
  SF2Q (Prim2SF x) = Some q ->
  - 2 ^ 63 <= Qtrunc q < 2 ^ 63 ->
  math.int x = Qtrunc q.
Proof.
  unfold math.int, SF2Q, math.trunc_SF.
  destruct (Prim2SF x) as [s|s| |s m e]; try discriminate.
  - intros Hq _. inversion Hq. reflexivity.
  - intros Hq. inversion Hq as [Hq']. clear Hq Hq'.
    assert (Hpow : forall k, 0 < 2 ^ k \/ 2 ^ k = 0).
    { intros k. destruct (Z.leb_spec 0 k).
      - left. apply Z.pow_pos_nonneg; lia.
      - right. apply Z.pow_neg_r. lia. }
    assert (Htr : Qtrunc (if 0 <=? e
                          then inject_Z ((if s then Z.neg m else Z.pos m) * 2 ^ e)
                          else Qmake (if s then Z.neg m else Z.pos m)
                                     (Z.to_pos (2 ^ (- e))))
                  = if s
                    then - (if 0 <=? e then Z.pos m * 2 ^ e
                            else Z.pos m / 2 ^ (- e))
                    else (if 0 <=? e then Z.pos m * 2 ^ e
                          else Z.pos m / 2 ^ (- e))).
    { unfold Qtrunc. destruct (Z.leb_spec 0 e) as [He|He].
      - assert (0 < 2 ^ e) by (apply Z.pow_pos_nonneg; lia).
        destruct s.
        + assert (Hneg : Qle_bool 0 (inject_Z (Z.neg m * 2 ^ e)) = false).
          { apply not_true_iff_false. rewrite Qle_bool_iff.
            unfold Qle, inject_Z. cbn [Qnum Qden]. nia. }
          rewrite Hneg, Qceiling_Z. lia.
        + assert (Hpos : Qle_bool 0 (inject_Z (Z.pos m * 2 ^ e)) = true).
          { rewrite Qle_bool_iff.
            unfold Qle, inject_Z. cbn [Qnum Qden]. nia. }
          rewrite Hpos, Qfloor_Z. reflexivity.
      - assert (Hp : 0 < 2 ^ (- e)) by (apply Z.pow_pos_nonneg; lia).
        assert (Hd : Z.pos (Z.to_pos (2 ^ (- e))) = 2 ^ (- e))
          by (apply Z2Pos.id; exact Hp).
        destruct s.
        + assert (Hneg : Qle_bool 0 (Z.neg m # Z.to_pos (2 ^ (- e))) = false).
          { apply not_true_iff_false. rewrite Qle_bool_iff.
            unfold Qle. cbn [Qnum Qden]. lia. }
          rewrite Hneg. unfold Qceiling, Qfloor, Qopp. cbn [Qnum Qden].
          rewrite Hd. reflexivity.
        + assert (Hpos : Qle_bool 0 (Z.pos m # Z.to_pos (2 ^ (- e))) = true).
          { rewrite Qle_bool_iff. unfold Qle. cbn [Qnum Qden]. lia. }
          rewrite Hpos. unfold Qfloor. rewrite Hd. reflexivity. }
    rewrite Htr. intros Hrange.
    destruct (Z.leb_spec (- 2 ^ 63)
                (if s
                 then - (if 0 <=? e then Z.pos m * 2 ^ e else Z.pos m / 2 ^ (- e))
                 else if 0 <=? e then Z.pos m * 2 ^ e else Z.pos m / 2 ^ (- e)));
      [|lia].
    destruct (Z.ltb_spec
                (if s
                 then - (if 0 <=? e then Z.pos m * 2 ^ e else Z.pos m / 2 ^ (- e))
                 else if 0 <=? e then Z.pos m * 2 ^ e else Z.pos m / 2 ^ (- e))
                (2 ^ 63)); [|lia].
    reflexivity.
Qed.

(** The end points of a channel, checked on every pair of channel values. *)
Lemma lerp1_boundary (a b : Z) :
  0 <= a <= 255 -> 0 <= b <= 255 ->
  lerp1 a b 0 = a /\ lerp1 a b 1 = b.
Proof.
  intros Ha Hb.
  assert (Hall : range_all 256
            (fun a => range_all 256
               (fun b => (lerp1 a b 0 =? a) && (lerp1 a b 1 =? b))) = true)
    by (vm_compute; reflexivity).
  pose proof (range_all_spec 256 _ Hall a ltac:(simpl; lia)) as Hrow.
  cbv beta in Hrow.
  pose proof (range_all_spec 256 _ Hrow b ltac:(simpl; lia)) as Hcell.
  cbv beta in Hcell. apply andb_true_iff in Hcell as [H0 H1].
  split; now apply Z.eqb_eq.
Qed.

(** C6.  For all colours [a], [b] with components in [0,255] and every [t],
    each channel of [lerp a b t] is the binary64 value of
    [a + (b - a) * t] converted with [int], and [int] discards the fraction
    (truncation towards zero, not rounding to nearest: 1.5 gives 1 and,
    at [t = 0.999], 254.745 gives 254); at the end points [lerp a b 0] is exactly [a] and
    [lerp a b 1] is exactly [b]. *)
Theorem lerp_truncates_with_exact_endpoints (a b : colorRGB) (t : float) :
  0 <= R a <= 255 -> 0 <= G a <= 255 -> 0 <= B a <= 255 ->
  0 <= R b <= 255 -> 0 <= G b <= 255 -> 0 <= B b <= 255 ->
  lerp a b t
  = mkColor
      (math.int (math.float64 (R a)
                 + (math.float64 (R b) - math.float64 (R a)) * t)%float)
      (math.int (math.float64 (G a)
                 + (math.float64 (G b) - math.float64 (G a)) * t)%float)
      (math.int (math.float64 (B a)
                 + (math.float64 (B b) - math.float64 (B a)) * t)%float)
  /\ (forall x q, SF2Q (Prim2SF x) = Some q ->
                  - 2 ^ 63 <= Qtrunc q < 2 ^ 63 -> math.int x = Qtrunc q)
  /\ lerp (mkColor 0 0 0) (mkColor 3 3 3) 0.5%float = mkColor 1 1 1
  /\ lerp (mkColor 0 0 0) (mkColor 255 255 255) 0x1.ff7ced916872bp-1%float
     = mkColor 254 254 254
  /\ lerp a b 0%float = a
  /\ lerp a b 1%float = b.
Proof.
  intros HRa HGa HBa HRb HGb HBb.
  split; [reflexivity|]. split; [exact int_truncates|].
  split; [vm_compute; reflexivity|]. split; [vm_compute; reflexivity|].
  rewrite !lerp_channels.
  destruct (lerp1_boundary (R a) (R b) HRa HRb) as [-> ->].
  destruct (lerp1_boundary (G a) (G b) HGa HGb) as [-> ->].
  destruct (lerp1_boundary (B a) (B b) HBa HBb) as [-> ->].
  destruct a, b. split; reflexivity.
Qed.

Lemma lerp_truncates_with_exact_endpoints_witness :
  lerp (mkColor 138 43 226) (mkColor 0 255 255) 0%float = mkColor 138 43 226
  /\ lerp (mkColor 138 43 226) (mkColor 0 255 255) 1%float = mkColor 0 255 255.
Proof.
  destruct (lerp_truncates_with_exact_endpoints
              (mkColor 138 43 226) (mkColor 0 255 255) 0.5%float)
    as (_ & _ & _ & _ & H0 & H1); cbn [R G B]; try lia.
  split; [exact H0|exact H1].
Defined.

(** * More of the program: transitions, the screen and the parser *)

Section Keys.

Variable C : Collaborators.

(** What [Update] does with a key, branch by branch. *)
Lemma Update_key_cases (m m' : model C) (k : Key C) (c : Cmd C) :
  Update m (KeyMsg k) = Some (m', c) ->
  let s := Key_String C k in
  (In s [go "q"; go "esc"; go "ctrl+c"] /\ m' = m /\ c = Quit)
  \/ (In s [go "tab"; go "shift+tab"] /\ c = nil_cmd
      /\ exists f, m' = set_inputs (set_focusIndex m f)
                                   (refocus C 0 f (inputs m)))
  \/ (In s [go "left"; go "["; go "right"; go "]"] /\ c = nil_cmd
      /\ exists i, rebuildArt (set_fontIndex m i) = Some m')
  \/ (s = go "m" /\ c = nil_cmd /\ exists i, m' = set_mode m i)
  \/ (s = go "a" /\ m' = set_animate m (negb (animate m))
      /\ c = if animate m then nil_cmd else tickEvery (interval m))
  \/ (In s [go "+"; go "="; go "-"; go "_"] /\ c = nil_cmd
      /\ exists v, m' = set_stepDeg m v)
  \/ (key_in s boundKeys = false /\ fieldEdit m (KeyMsg k) = Some (m', c)).
Proof.
  intros H. cbv zeta. unfold Update in H. cbv zeta in H.
  destruct (key_in (Key_String C k) [go "q"; go "esc"; go "ctrl+c"]) eqn:Eq.
  { apply key_in_spec in Eq. inversion H; subst. left. auto. }
  destruct (key_in (Key_String C k) [go "tab"; go "shift+tab"]) eqn:Etab.
  { apply key_in_spec in Etab. inversion H; subst. right; left.
    split; [exact Etab|]. split; [reflexivity|]. eexists. reflexivity. }
  destruct (key_in (Key_String C k) [go "left"; go "["]) eqn:Eleft.
  { apply key_in_spec in Eleft. right; right; left.
    split; [cbn [In] in *; tauto|].
    destruct (go_rem _ _) as [i|]; [|discriminate].
    destruct (rebuildArt (set_fontIndex m i)) as [m1|] eqn:E; [|discriminate].
    inversion H; subst. split; [reflexivity|]. exists i. exact E. }
  destruct (key_in (Key_String C k) [go "right"; go "]"]) eqn:Eright.
  { apply key_in_spec in Eright. right; right; left.
    split; [cbn [In] in *; tauto|].
    destruct (go_rem _ _) as [i|]; [|discriminate].
    destruct (rebuildArt (set_fontIndex m i)) as [m1|] eqn:E; [|discriminate].
    inversion H; subst. split; [reflexivity|]. exists i. exact E. }
  destruct (key_in (Key_String C k) [go "m"]) eqn:Em.
  { apply key_in_spec in Em. cbn [In] in Em. destruct Em as [Em|[]].
    do 3 right; left. split; [auto|].
    destruct (go_rem _ _) as [i|]; [|discriminate].
    inversion H; subst. split; [reflexivity|]. exists i. reflexivity. }
  destruct (key_in (Key_String C k) [go "a"]) eqn:Ea.
  { apply key_in_spec in Ea. cbn [In] in Ea. destruct Ea as [Ea|[]].
    do 4 right; left. split; [auto|].
    cbn [set_animate animate] in H.
    destruct (animate m); cbn [negb] in H; inversion H; subst; auto. }
  destruct (key_in (Key_String C k) [go "+"; go "="]) eqn:Eplus.
  { apply key_in_spec in Eplus. do 5 right; left.
    split; [cbn [In] in *; tauto|]. inversion H; subst.
    split; [reflexivity|]. eexists. reflexivity. }
  destruct (key_in (Key_String C k) [go "-"; go "_"]) eqn:Eminus.
  { apply key_in_spec in Eminus. do 5 right; left.
    split; [cbn [In] in *; tauto|]. inversion H; subst.
    split; [reflexivity|]. eexists. reflexivity. }
  do 6 right. split; [|exact H].
  apply not_true_iff_false. intros Hb. apply key_in_spec in Hb.
  assert (Hq : ~ In (Key_String C k) [go "q"; go "esc"; go "ctrl+c"])
    by (intros Hc; apply key_in_spec in Hc; congruence).
  assert (Ht : ~ In (Key_String C k) [go "tab"; go "shift+tab"])
    by (intros Hc; apply key_in_spec in Hc; congruence).
  assert (Hl : ~ In (Key_String C k) [go "left"; go "["])
    by (intros Hc; apply key_in_spec in Hc; congruence).
  assert (Hr : ~ In (Key_String C k) [go "right"; go "]"])
    by (intros Hc; apply key_in_spec in Hc; congruence).
  assert (Hm : ~ In (Key_String C k) [go "m"])
    by (intros Hc; apply key_in_spec in Hc; congruence).
  assert (Ha : ~ In (Key_String C k) [go "a"])
    by (intros Hc; apply key_in_spec in Hc; congruence).
  assert (Hp : ~ In (Key_String C k) [go "+"; go "="])
    by (intros Hc; apply key_in_spec in Hc; congruence).
  assert (Hn : ~ In (Key_String C k) [go "-"; go "_"])
    by (intros Hc; apply key_in_spec in Hc; congruence).
  unfold boundKeys in Hb. cbn [In] in *. tauto.
Qed.

(** The art of a state after a field edit is the one [rebuildArt] stored. *)
Lemma fieldEdit_fields (m m' : model C) (e : msg C) (c : Cmd C) :
  fieldEdit m e = Some (m', c) ->
  exists m1,
    rebuildArt (set_inputs m (map (fun ti => fst (ti_Update C ti e)) (inputs m)))
    = Some m1
    /\ m' = set_baseEnd (set_baseStart m1 (baseStart m')) (baseEnd m').
Proof.
  unfold fieldEdit. cbv zeta. rewrite map_map.
  destruct (rebuildArt _) as [m1|] eqn:E; [|discriminate].
  destruct (at_index (inputs m1) 1) as [i1|]; [|discriminate].
  destruct (parseHexColor (ti_Value C i1)) as [c1 ok1].
  destruct ok1.
  - cbn [set_baseStart inputs].
    destruct (at_index (inputs m1) 2) as [i2|]; [|discriminate].
    destruct (parseHexColor (ti_Value C i2)) as [c2 ok2].
    destruct ok2; intros H; injection H as Hm Hc; rewrite <- Hm; exists m1;
      (split; [reflexivity|]); destruct m1; reflexivity.
  - destruct (at_index (inputs m1) 2) as [i2|]; [|discriminate].
    destruct (parseHexColor (ti_Value C i2)) as [c2 ok2].
    destruct ok2; intros H; injection H as Hm Hc; rewrite <- Hm; exists m1;
      (split; [reflexivity|]); destruct m1; reflexivity.
Qed.

End Keys.

Section Cache.

Variable C : Collaborators.

Lemma rebuildArt_art (m m' : model C) :
  rebuildArt m = Some m' -> maxWidth m' = maxLen (artLines m').
Proof.
  intros H. apply rebuildArt_spec in H as (ti & font & _ & _ & ->).
  reflexivity.
Qed.

Lemma fieldEdit_art (m m' : model C) (e : msg C) (c : Cmd C) :
  fieldEdit m e = Some (m', c) -> maxWidth m' = maxLen (artLines m').
Proof.
  intros H. apply fieldEdit_fields in H as (m1 & Hre & Hm').
  apply rebuildArt_art in Hre. rewrite Hm'. exact Hre.
Qed.

(** Every transition keeps the width of the cache equal to the length of
    its longest line. *)
Lemma Update_art (m m' : model C) (e : msg C) (c : Cmd C) :
  Update m e = Some (m', c) ->
  maxWidth m = maxLen (artLines m) -> maxWidth m' = maxLen (artLines m').
Proof.
  intros H Hart. destruct e as [W H0|k| |o].
  - inversion H; subst. exact Hart.
  - apply Update_key_cases in H. cbv zeta in H.
    destruct H as [(_ & -> & _)|[(_ & _ & f & ->)|[(_ & _ & i & Hre)
                  |[(_ & _ & i & ->)|[(_ & -> & _)|[(_ & _ & v & ->)
                  |(_ & Hfe)]]]]]]; try exact Hart.
    + exact (rebuildArt_art _ _ Hre).
    + exact (fieldEdit_art _ _ _ _ Hfe).
  - rewrite Update_tick in H. destruct (animate m); inversion H; subst;
      exact Hart.
  - exact (fieldEdit_art _ _ _ _ H).
Qed.

Lemma reachable_art (m : model C) :
  reachable m -> maxWidth m = maxLen (artLines m).
Proof.
  induction 1 as [m Hnew|m e m' c Hreach IH Hup].
  - exact (rebuildArt_art _ _ Hnew).
  - exact (Update_art _ _ _ _ Hup IH).
Qed.

Lemma renderRows_length (maxW md : Z) (cs ce : colorRGB)
      (lines : list gostring) (rows : list (list Piece)) :
  renderRows maxW md cs ce lines = Some rows -> length rows = length lines.
Proof.
  revert rows. induction lines as [|l lines IH]; intros rows; cbn [renderRows].
  - intros H. inversion H. reflexivity.
  - destruct (renderLine maxW md cs ce l); [|discriminate].
    destruct (renderRows maxW md cs ce lines) as [rs|]; [|discriminate].
    intros H. inversion H. cbn [length]. now rewrite (IH rs).
Qed.

(** [View] on a state that satisfies the invariant and whose cache width
    is right. *)
Lemma View_total (m : model C) :
  Inv m -> maxWidth m = maxLen (artLines m) ->
  if (w m =? 0) || (h m =? 0) then View m = Some Loading
  else exists ctl art,
      View m = Some (Placed (w m) (h m) ctl art)
      /\ length art = length (artLines m)
      /\ at_index (fonts m) (fontIndex m) = Some (ctlFont ctl)
      /\ at_index modeNames (mode m) = Some (ctlMode ctl)
      /\ ctlAnim ctl = (if animate m then Some (stepDeg m) else None).
Proof.
  intros [Hin Hf Hfi Hmo Hfo Hh Hs] Hart. unfold View.
  destruct ((w m =? 0) || (h m =? 0)); [reflexivity|].
  destruct (at_index_in_range (inputs m) 0) as [i0 ->]; [lia|].
  destruct (at_index_in_range (inputs m) 1) as [i1 ->]; [lia|].
  destruct (at_index_in_range (inputs m) 2) as [i2 ->]; [lia|].
  destruct (at_index_in_range (fonts m) (fontIndex m)) as [font ->];
    [now rewrite Hf|].
  destruct (at_index_in_range modeNames (mode m)) as [mname ->];
    [rewrite llen_modeNames; lia|].
  unfold viewArt.
  destruct (renderRows_ok (maxWidth m) (mode m) (effStart m) (effEnd m)
                          (artLines m)) as [rows Hrows].
  { rewrite Hart. apply maxLen_bound. }
  rewrite Hrows. do 2 eexists. split; [reflexivity|].
  cbn [ctlFont ctlMode ctlAnim].
  split; [exact (renderRows_length _ _ _ _ _ _ Hrows)|]. auto.
Qed.

End Cache.

(** X1.  [View] never fails in a reachable state: the indices
    [m.inputs[0..2]], [m.fonts[m.fontIndex]], [modeNames[m.mode]] and every
    [line[x]] of the render loop are in range.  It answers the loading text
    exactly when the width or the height is zero, and otherwise the
    controls (with the name of the current font and mode, and the step when
    the animation is on) above one rendered row per line of the cache. *)
Theorem View_never_fails (C : Collaborators) (m : model C) :
  reachable m ->
  if (w m =? 0) || (h m =? 0) then View m = Some Loading
  else exists ctl art,
      View m = Some (Placed (w m) (h m) ctl art)
      /\ length art = length (artLines m)
      /\ at_index (fonts m) (fontIndex m) = Some (ctlFont ctl)
      /\ at_index modeNames (mode m) = Some (ctlMode ctl)
      /\ ctlAnim ctl = (if animate m then Some (stepDeg m) else None).
Proof.
  intros Hreach. apply View_total.
  - exact (reachable_Inv C m Hreach).
  - exact (reachable_art C m Hreach).
Qed.

Lemma Demo_sized_reachable : reachable (set_size Demo.start 80 24).
Proof.
  apply (reach_step (C := Demo.env) (m := Demo.start) (WindowSizeMsg 80 24)
                    (c := nil_cmd)); [|reflexivity].
  apply reach_init. vm_compute. reflexivity.
Qed.

Lemma View_never_fails_witness :
  reachable (set_size Demo.start 80 24)
  /\ exists ctl art,
      View (set_size Demo.start 80 24) = Some (Placed 80 24 ctl art)
      /\ length art = 2%nat.
Proof.
  split; [exact Demo_sized_reachable|].
  destruct (View_never_fails Demo.env (set_size Demo.start 80 24)
                             Demo_sized_reachable)
    as (ctl & art & Hv & Hlen & _).
  exists ctl, art. split; [exact Hv|exact Hlen].
Defined.

(** ** The cache is never stale *)

Section Fresh.

Variable C : Collaborators.

(** Rebuilding twice is rebuilding once. *)
Lemma rebuildArt_idem (m m' : model C) :
  rebuildArt m = Some m' -> rebuildArt m' = Some m'.
Proof.
  intros H. apply rebuildArt_spec in H as (ti & font & Hti & Hfont & ->).
  unfold rebuildArt. cbn [set_art inputs fonts fontIndex].
  rewrite Hti, Hfont. reflexivity.
Qed.

(** A state whose cache is fresh, with other fields that [rebuildArt] does
    not read. *)
Lemma rebuildArt_same_inputs (m m2 : model C) :
  rebuildArt m = Some m ->
  at_index (inputs m2) 0 = at_index (inputs m) 0 ->
  fonts m2 = fonts m -> fontIndex m2 = fontIndex m ->
  artLines m2 = artLines m -> maxWidth m2 = maxWidth m ->
  rebuildArt m2 = Some m2.
Proof.
  intros H Hin Hf Hfi Hal Hmw. unfold rebuildArt in *.
  rewrite Hin, Hf, Hfi.
  destruct (at_index (inputs m) 0) as [ti|]; [|discriminate].
  destruct (at_index (fonts m) (fontIndex m)) as [font|]; [|discriminate].
  injection H as H.
  assert (Ha : artLines m
               = strings.Split
                   (strings.TrimRight (figure_String C (ti_Value C ti) font)
                                      newline) newline)
    by (rewrite <- H at 1; reflexivity).
  assert (Hw : maxWidth m = maxLen (artLines m)).
  { rewrite <- H at 1. cbn [set_art maxWidth]. now rewrite <- Ha. }
  rewrite <- Ha, <- Hw, <- Hal, <- Hmw. destruct m2; reflexivity.
Qed.

Lemma rebuildArt_same_value (m m2 : model C) (ti ti2 : TI C) :
  rebuildArt m = Some m ->
  at_index (inputs m) 0 = Some ti -> at_index (inputs m2) 0 = Some ti2 ->
  ti_Value C ti2 = ti_Value C ti ->
  fonts m2 = fonts m -> fontIndex m2 = fontIndex m ->
  artLines m2 = artLines m -> maxWidth m2 = maxWidth m ->
  rebuildArt m2 = Some m2.
Proof.
  intros H Hti Hti2 Hv Hf Hfi Hal Hmw. unfold rebuildArt in *.
  rewrite Hti2, Hf, Hfi, Hv. rewrite Hti in H.
  destruct (at_index (fonts m) (fontIndex m)) as [font|]; [|discriminate].
  injection H as H.
  assert (Ha : artLines m
               = strings.Split
                   (strings.TrimRight (figure_String C (ti_Value C ti) font)
                                      newline) newline)
    by (rewrite <- H at 1; reflexivity).
  assert (Hw : maxWidth m = maxLen (artLines m)).
  { rewrite <- H at 1. cbn [set_art maxWidth]. now rewrite <- Ha. }
  rewrite <- Ha, <- Hw, <- Hal, <- Hmw. destruct m2; reflexivity.
Qed.

Hypothesis Focus_Value : forall ti, ti_Value C (ti_Focus C ti) = ti_Value C ti.

Hypothesis Blur_Value : forall ti, ti_Value C (ti_Blur C ti) = ti_Value C ti.

Lemma refocus_head (i f : Z) (ins : list (TI C)) (ti : TI C) :
  at_index ins 0 = Some ti ->
  exists ti2, at_index (refocus C i f ins) 0 = Some ti2
              /\ ti_Value C ti2 = ti_Value C ti.
Proof.
  destruct ins as [|t0 rest]; [discriminate|].
  intros H. injection H as ->. cbn [refocus].
  eexists. split; [reflexivity|].
  destruct (i =? f); [apply Focus_Value|apply Blur_Value].
Qed.

Lemma Update_fresh (m m' : model C) (e : msg C) (c : Cmd C) :
  Update m e = Some (m', c) ->
  rebuildArt m = Some m -> rebuildArt m' = Some m'.
Proof.
  intros H Hfr. destruct e as [W H0|k| |o].
  - inversion H; subst.
    apply (rebuildArt_same_inputs m); auto.
  - apply Update_key_cases in H. cbv zeta in H.
    destruct H as [(_ & -> & _)|[(_ & _ & f & ->)|[(_ & _ & i & Hre)
                  |[(_ & _ & i & ->)|[(_ & -> & _)|[(_ & _ & v & ->)
                  |(_ & Hfe)]]]]]].
    + exact Hfr.
    + destruct (at_index (inputs m) 0) as [ti|] eqn:Eti.
      * destruct (refocus_head 0 f (inputs m) ti Eti) as (ti2 & Hti2 & Hv).
        apply (rebuildArt_same_value m _ ti ti2); auto.
      * unfold rebuildArt in Hfr. rewrite Eti in Hfr. discriminate.
    + exact (rebuildArt_idem _ _ Hre).
    + apply (rebuildArt_same_inputs m); auto.
    + apply (rebuildArt_same_inputs m); auto.
    + apply (rebuildArt_same_inputs m); auto.
    + apply fieldEdit_fields in Hfe as (m1 & Hre & Hm').
      apply rebuildArt_idem in Hre.
      apply (rebuildArt_same_inputs m1); try exact Hre; rewrite Hm';
        reflexivity.
  - rewrite Update_tick in H. destruct (animate m); inversion H; subst.
    + apply (rebuildArt_same_inputs m); auto.
    + exact Hfr.
  - apply fieldEdit_fields in H as (m1 & Hre & Hm').
    apply rebuildArt_idem in Hre.
    apply (rebuildArt_same_inputs m1); try exact Hre; rewrite Hm';
      reflexivity.
Qed.

Lemma reachable_fresh (m : model C) : reachable m -> rebuildArt m = Some m.
Proof.
  induction 1 as [m Hnew|m e m' c Hreach IH Hup].
  - exact (rebuildArt_idem _ _ Hnew).
  - exact (Update_fresh _ _ _ _ Hup IH).
Qed.

End Fresh.

(** X2.  The cache is never stale: when giving or taking the focus does
    not change the value of a text field, rebuilding the art in a reachable
    state changes nothing, that is, [artLines] and [maxWidth] are always the
    banner of the current text in the current font. *)
Theorem cache_never_stale (C : Collaborators) (m : model C) :
  (forall ti, ti_Value C (ti_Focus C ti) = ti_Value C ti) ->
  (forall ti, ti_Value C (ti_Blur C ti) = ti_Value C ti) ->
  reachable m ->
  rebuildArt m = Some m.
Proof. intros Hf Hb Hr. exact (reachable_fresh C Hf Hb m Hr). Qed.

Lemma cache_never_stale_witness :
  (forall ti, ti_Value Demo.env (ti_Focus Demo.env ti) = ti_Value Demo.env ti)
  /\ (forall ti, ti_Value Demo.env (ti_Blur Demo.env ti) = ti_Value Demo.env ti)
  /\ reachable (set_size Demo.start 80 24)
  /\ rebuildArt (set_size Demo.start 80 24) = Some (set_size Demo.start 80 24).
Proof.
  assert (Hf : forall ti,
             ti_Value Demo.env (ti_Focus Demo.env ti) = ti_Value Demo.env ti)
    by (intros ti; reflexivity).
  assert (Hb : forall ti,
             ti_Value Demo.env (ti_Blur Demo.env ti) = ti_Value Demo.env ti)
    by (intros ti; reflexivity).
  split; [exact Hf|]. split; [exact Hb|].
  split; [exact Demo_sized_reachable|].
  exact (cache_never_stale Demo.env (set_size Demo.start 80 24) Hf Hb
                           Demo_sized_reachable).
Defined.

(** ** Keys with a binding of their own *)

(** X3.  A key with a binding of its own never reaches the text fields:
    the base colours stay as they are, no command of a widget is returned,
    and the fields are the old ones, apart from the focus keys, which only
    give and take the focus.  So [q], [m], [a], [+], [=], [-], [_], [[] and
    []] cannot be typed into a field. *)
Theorem bound_keys_skip_fields (C : Collaborators) (m m' : model C)
        (k : Key C) (c : Cmd C) :
  key_in (Key_String C k) boundKeys = true ->
  Update m (KeyMsg k) = Some (m', c) ->
  baseStart m' = baseStart m /\ baseEnd m' = baseEnd m
  /\ (forall cmds, c <> Batch C cmds)
  /\ (if key_in (Key_String C k) [go "tab"; go "shift+tab"]
      then inputs m' = refocus C 0 (focusIndex m') (inputs m)
      else inputs m' = inputs m).
Proof.
  intros Hb H. pose proof H as Hup.
  apply Update_key_cases in H. cbv zeta in H.
  unfold Update in Hup. cbv zeta in Hup.
  destruct (key_in (Key_String C k) [go "q"; go "esc"; go "ctrl+c"]) eqn:Eq.
  { inversion Hup; subst.
    assert (Et : key_in (Key_String C k) [go "tab"; go "shift+tab"] = false).
    { apply not_true_iff_false. intros Ht.
      apply key_in_spec in Eq, Ht. cbn [In] in Eq, Ht.
      destruct Eq as [E|[E|[E|[]]]], Ht as [E'|[E'|[]]];
        rewrite <- E in E'; discriminate. }
    rewrite Et. repeat split; try reflexivity. intros cmds; discriminate. }
  destruct (key_in (Key_String C k) [go "tab"; go "shift+tab"]) eqn:Etab.
  { inversion Hup; subst. repeat split; try reflexivity.
    intros cmds; discriminate. }
  destruct H as [(Hin & _)|[(Hin & _)|[(_ & -> & i & Hre)
                |[(_ & -> & i & ->)|[(_ & -> & ->)|[(_ & -> & v & ->)
                |(Hnb & _)]]]]]].
  - apply key_in_spec in Hin. congruence.
  - apply key_in_spec in Hin. congruence.
  - apply rebuildArt_spec in Hre as (ti & font & _ & _ & ->).
    repeat split; try reflexivity. intros cmds; discriminate.
  - repeat split; try reflexivity. intros cmds; discriminate.
  - repeat split; try reflexivity. intros cmds.
    destruct (animate m); discriminate.
  - repeat split; try reflexivity. intros cmds; discriminate.
  - congruence.
Qed.

Lemma bound_keys_skip_fields_witness :
  key_in (Key_String Demo.env (go "q")) boundKeys = true
  /\ Update (Demo.editing (go "#12")) (KeyMsg (go "q"))
     = Some (Demo.editing (go "#12"), Quit)
  /\ inputs (Demo.editing (go "#12"))
     = inputs (Demo.editing (go "#12")).
Proof.
  assert (Hk : key_in (Key_String Demo.env (go "q")) boundKeys = true)
    by reflexivity.
  assert (Hu : Update (Demo.editing (go "#12")) (KeyMsg (go "q"))
               = Some (Demo.editing (go "#12"), Quit)) by reflexivity.
  split; [exact Hk|]. split; [exact Hu|].
  exact (proj2 (proj2 (proj2
           (bound_keys_skip_fields Demo.env _ _ (go "q") _ Hk Hu)))).
Defined.

(** ** The speed keys *)

Lemma half_lt_30 (j : Z) :
  1 <= j <= 60 -> (half j <? 30)%float = true -> j < 60.
Proof.
  intros Hj Hlt. destruct (Z.eq_dec j 60) as [->|]; [|lia].
  vm_compute in Hlt. discriminate.
Qed.

Lemma half_gt_half (j : Z) :
  1 <= j <= 60 -> (0.5 <? half j)%float = true -> 1 < j.
Proof.
  intros Hj Hlt. destruct (Z.eq_dec j 1) as [->|]; [|lia].
  vm_compute in Hlt. discriminate.
Qed.

Lemma half_succ (j : Z) :
  1 <= j < 60 ->
  (half j + 0.5)%float = half (j + 1) /\ (half (j + 1) - 0.5)%float = half j.
Proof.
  intros Hj.
  assert (Hall : range_all 60
                   (fun j => (j <? 1)
                             || (feq (half j + 0.5)%float (half (j + 1))
                                 && feq (half (j + 1) - 0.5)%float (half j)))
                 = true) by (vm_compute; reflexivity).
  pose proof (range_all_spec 60 _ Hall j ltac:(lia)) as H. cbv beta in H.
  destruct (Z.ltb_spec j 1); [lia|]. cbn [orb] in H.
  apply andb_true_iff in H as [H1 H2]. split; now apply feq_eq.
Qed.

Section Speed.

Variable C : Collaborators.

Lemma Update_plus (m : model C) (k : Key C) :
  In (Key_String C k) [go "+"; go "="] ->
  Update m (KeyMsg k)
  = Some (set_stepDeg m (math.Min 30 (stepDeg m + 0.5)), nil_cmd).
Proof.
  intros Hk. unfold Update. cbv zeta.
  cbn [In] in Hk. destruct Hk as [<-|[<-|[]]]; eval_keys; reflexivity.
Qed.

Lemma Update_minus (m : model C) (k : Key C) :
  In (Key_String C k) [go "-"; go "_"] ->
  Update m (KeyMsg k)
  = Some (set_stepDeg m (math.Max 0.5 (stepDeg m - 0.5)), nil_cmd).
Proof.
  intros Hk. unfold Update. cbv zeta.
  cbn [In] in Hk. destruct Hk as [<-|[<-|[]]]; eval_keys; reflexivity.
Qed.

Lemma set_stepDeg_same (m : model C) : set_stepDeg m (stepDeg m) = m.
Proof. destruct m; reflexivity. Qed.

Lemma set_stepDeg_twice (m : model C) (u v : float) :
  set_stepDeg (set_stepDeg m u) v = set_stepDeg m v.
Proof. reflexivity. Qed.

End Speed.

(** X4.  The step of the animation stays between 0.5 and 30 degrees in
    every reachable state; after [+] (or [=]) the step is half a degree more
    when it was below 30 and the same at 30, after [-] (or [_]) it is half a
    degree less when it was above 0.5 and the same at 0.5; the new step is
    in range again, no other field changes and no command is returned. *)
Theorem stepDeg_stays_in_range (C : Collaborators) (m : model C)
        (kp km : Key C) :
  reachable m ->
  In (Key_String C kp) [go "+"; go "="] ->
  In (Key_String C km) [go "-"; go "_"] ->
  (0.5 <=? stepDeg m)%float = true /\ (stepDeg m <=? 30)%float = true
  /\ (exists m',
        Update m (KeyMsg kp) = Some (m', nil_cmd)
        /\ stepDeg m' = (if (stepDeg m <? 30)%float
                         then (stepDeg m + 0.5)%float else stepDeg m)
        /\ (0.5 <=? stepDeg m')%float = true
        /\ (stepDeg m' <=? 30)%float = true
        /\ animate m' = animate m /\ hueShift m' = hueShift m
        /\ interval m' = interval m
        /\ w m' = w m /\ h m' = h m /\ inputs m' = inputs m
        /\ focusIndex m' = focusIndex m /\ fonts m' = fonts m
        /\ fontIndex m' = fontIndex m /\ artLines m' = artLines m
        /\ maxWidth m' = maxWidth m /\ baseStart m' = baseStart m
        /\ baseEnd m' = baseEnd m /\ mode m' = mode m)
  /\ (exists m',
        Update m (KeyMsg km) = Some (m', nil_cmd)
        /\ stepDeg m' = (if (0.5 <? stepDeg m)%float
                         then (stepDeg m - 0.5)%float else stepDeg m)
        /\ (0.5 <=? stepDeg m')%float = true
        /\ (stepDeg m' <=? 30)%float = true
        /\ animate m' = animate m /\ hueShift m' = hueShift m
        /\ interval m' = interval m
        /\ w m' = w m /\ h m' = h m /\ inputs m' = inputs m
        /\ focusIndex m' = focusIndex m /\ fonts m' = fonts m
        /\ fontIndex m' = fontIndex m /\ artLines m' = artLines m
        /\ maxWidth m' = maxWidth m /\ baseStart m' = baseStart m
        /\ baseEnd m' = baseEnd m /\ mode m' = mode m).
Proof.
  intros Hr Hp Hm.
  destruct (inv_step (reachable_Inv C m Hr)) as (j & Hj & Hs).
  destruct (half_step_range j Hj) as [Hlo Hhi].
  destruct (half_speed j Hj) as [Hmin Hmax].
  rewrite Hs. split; [exact Hlo|]. split; [exact Hhi|]. split.
  - eexists. split; [exact (Update_plus C m kp Hp)|].
    cbn [set_stepDeg hueShift animate stepDeg interval w h inputs focusIndex
         fonts fontIndex artLines maxWidth baseStart baseEnd mode].
    rewrite Hs, Hmin.
    assert (Hj' : 1 <= Z.min 60 (j + 1) <= 60) by lia.
    destruct (half_step_range _ Hj') as [Hlo' Hhi'].
    split; [|repeat split; try reflexivity; assumption].
    destruct (half j <? 30)%float eqn:Elt.
    + pose proof (half_lt_30 j Hj Elt) as Hj60.
      destruct (half_succ j ltac:(lia)) as [Hsucc _].
      rewrite Hsucc. f_equal. lia.
    + assert (j = 60).
      { destruct (Z.eq_dec j 60) as [|Hne]; [assumption|exfalso].
        assert (Hall : range_all 60
                         (fun j => (j <? 1) || (half j <? 30)%float) = true)
          by (vm_compute; reflexivity).
        pose proof (range_all_spec 60 _ Hall j ltac:(lia)) as H.
        cbv beta in H. destruct (Z.ltb_spec j 1); [lia|]. cbn [orb] in H.
        congruence. }
      subst j. reflexivity.
  - eexists. split; [exact (Update_minus C m km Hm)|].
    cbn [set_stepDeg hueShift animate stepDeg interval w h inputs focusIndex
         fonts fontIndex artLines maxWidth baseStart baseEnd mode].
    rewrite Hs, Hmax.
    assert (Hj' : 1 <= Z.max 1 (j - 1) <= 60) by lia.
    destruct (half_step_range _ Hj') as [Hlo' Hhi'].
    split; [|repeat split; try reflexivity; assumption].
    destruct (0.5 <? half j)%float eqn:Elt.
    + pose proof (half_gt_half j Hj Elt) as Hj1.
      destruct (half_succ (j - 1) ltac:(lia)) as [_ Hpred].
      replace (j - 1 + 1) with j in Hpred by lia.
      rewrite Hpred. f_equal. lia.
    + assert (j = 1).
      { destruct (Z.eq_dec j 1) as [|Hne]; [assumption|exfalso].
        assert (Hall : range_all 61
                         (fun j => (j <? 2) || (0.5 <? half j)%float) = true)
          by (vm_compute; reflexivity).
        pose proof (range_all_spec 61 _ Hall j ltac:(lia)) as H.
        cbv beta in H. destruct (Z.ltb_spec j 2); [lia|]. cbn [orb] in H.
        congruence. }
      subst j. reflexivity.
Qed.

Lemma stepDeg_stays_in_range_witness :
  reachable Demo.start
  /\ (0.5 <=? stepDeg Demo.start)%float = true
  /\ (stepDeg Demo.start <=? 30)%float = true
  /\ (exists m', Update Demo.start (KeyMsg (go "+")) = Some (m', nil_cmd)
                 /\ stepDeg m' = 3.5%float)
  /\ (exists m', Update Demo.start (KeyMsg (go "-")) = Some (m', nil_cmd)
                 /\ stepDeg m' = 2.5%float).
Proof.
  assert (Hr : reachable Demo.start)
    by (apply reach_init; vm_compute; reflexivity).
  split; [exact Hr|].
  destruct (stepDeg_stays_in_range Demo.env Demo.start (go "+") (go "-") Hr)
    as (H1 & H2 & (mp & Hup & Hsp & _) & (mm & Hum & Hsm & _)).
  - left. reflexivity.
  - left. reflexivity.
  - split; [exact H1|]. split; [exact H2|]. split.
    + exists mp. split; [exact Hup|]. rewrite Hsp. vm_compute. reflexivity.
    + exists mm. split; [exact Hum|]. rewrite Hsm. vm_compute. reflexivity.
Defined.

(** X5.  The speed keys undo each other away from the two ends: in a
    reachable state whose step is below 30, [+] and then [-] gives the
    state back, and so does [-] and then [+] when the step is above 0.5. *)
Theorem speed_keys_undo (C : Collaborators) (m : model C) (kp km : Key C) :
  reachable m ->
  In (Key_String C kp) [go "+"; go "="] ->
  In (Key_String C km) [go "-"; go "_"] ->
  ((stepDeg m <? 30)%float = true ->
   run [KeyMsg kp; KeyMsg km] m = Some m)
  /\ ((0.5 <? stepDeg m)%float = true ->
      run [KeyMsg km; KeyMsg kp] m = Some m).
Proof.
  intros Hr Hp Hm.
  destruct (inv_step (reachable_Inv C m Hr)) as (j & Hj & Hs).
  cbn [run]. split; intros Hlt; rewrite Hs in Hlt.
  - pose proof (half_lt_30 j Hj Hlt) as Hj60.
    rewrite (Update_plus C m kp Hp), (Update_minus C _ km Hm).
    cbn [set_stepDeg stepDeg]. rewrite Hs.
    destruct (half_speed j Hj) as [Hmin _]. rewrite Hmin.
    replace (Z.min 60 (j + 1)) with (j + 1) by lia.
    destruct (half_speed (j + 1) ltac:(lia)) as [_ Hmax]. rewrite Hmax.
    replace (Z.max 1 (j + 1 - 1)) with j by lia.
    rewrite <- Hs. f_equal. destruct m; reflexivity.
  - pose proof (half_gt_half j Hj Hlt) as Hj1.
    rewrite (Update_minus C m km Hm), (Update_plus C _ kp Hp).
    cbn [set_stepDeg stepDeg]. rewrite Hs.
    destruct (half_speed j Hj) as [_ Hmax]. rewrite Hmax.
    replace (Z.max 1 (j - 1)) with (j - 1) by lia.
    destruct (half_speed (j - 1) ltac:(lia)) as [Hmin _]. rewrite Hmin.
    replace (Z.min 60 (j - 1 + 1)) with j by lia.
    rewrite <- Hs. f_equal. destruct m; reflexivity.
Qed.

Lemma speed_keys_undo_witness :
  reachable Demo.start
  /\ @run Demo.env [KeyMsg (go "+"); KeyMsg (go "-")] Demo.start
     = Some Demo.start.
Proof.
  assert (Hr : reachable Demo.start)
    by (apply reach_init; vm_compute; reflexivity).
  split; [exact Hr|].
  refine (proj1 (speed_keys_undo Demo.env Demo.start (go "+") (go "-") Hr _ _) _).
  - left. reflexivity.
  - left. reflexivity.
  - reflexivity.
Defined.

(** ** Mode, font, animation and focus keys *)

Section Cycles.

Variable C : Collaborators.

Lemma Update_m_key (m : model C) (k : Key C) :
  Key_String C k = go "m" -> 0 <= mode m < 4 ->
  Update m (KeyMsg k) = Some (set_mode m ((mode m + 1) mod 4), nil_cmd).
Proof.
  intros Hk Hmo. unfold Update. cbv zeta. rewrite Hk. eval_keys.
  rewrite wrap64_small by lia. rewrite llen_modeNames.
  rewrite go_rem_nonneg by lia. reflexivity.
Qed.

Lemma set_mode_same (m : model C) : set_mode m (mode m) = m.
Proof. destruct m; reflexivity. Qed.

Lemma Update_a_key (m : model C) (k : Key C) :
  Key_String C k = go "a" ->
  Update m (KeyMsg k)
  = Some (set_animate m (negb (animate m)),
          if animate m then nil_cmd else tickEvery (interval m)).
Proof.
  intros Hk. unfold Update. cbv zeta. rewrite Hk. eval_keys.
  cbn [set_animate animate interval]. destruct (animate m); reflexivity.
Qed.

Lemma Update_font_key (m : model C) (k : Key C) (back : bool) :
  In (Key_String C k)
     (if back then [go "left"; go "["] else [go "right"; go "]"]) ->
  fonts m = figFonts -> 0 <= fontIndex m < 148 ->
  Update m (KeyMsg k)
  = match rebuildArt
            (set_fontIndex m ((if back then fontIndex m - 1
                               else fontIndex m + 1) mod 148)) with
    | Some m' => Some (m', nil_cmd)
    | None => None
    end.
Proof.
  intros Hk Hf Hfi. unfold Update. cbv zeta. rewrite Hf, llen_figFonts.
  destruct back; cbn [In] in Hk; destruct Hk as [<-|[<-|[]]]; eval_keys.
  - rewrite (wrap64_small (fontIndex m - 1)) by lia.
    rewrite wrap64_small by lia. rewrite go_rem_nonneg by lia.
    replace ((fontIndex m - 1 + 148) mod 148) with ((fontIndex m - 1) mod 148).
    + reflexivity.
    + rewrite <- (Z.mod_add (fontIndex m - 1) 1 148) by lia. reflexivity.
  - rewrite (wrap64_small (fontIndex m - 1)) by lia.
    rewrite wrap64_small by lia. rewrite go_rem_nonneg by lia.
    replace ((fontIndex m - 1 + 148) mod 148) with ((fontIndex m - 1) mod 148).
    + reflexivity.
    + rewrite <- (Z.mod_add (fontIndex m - 1) 1 148) by lia. reflexivity.
  - rewrite wrap64_small by lia. rewrite go_rem_nonneg by lia. reflexivity.
  - rewrite wrap64_small by lia. rewrite go_rem_nonneg by lia. reflexivity.
Qed.

(** A font key and then the opposite one, from a state whose cache is
    fresh. *)
Lemma font_keys_back (m : model C) (k1 k2 : Key C) (back : bool) :
  Inv m -> rebuildArt m = Some m ->
  In (Key_String C k1)
     (if back then [go "left"; go "["] else [go "right"; go "]"]) ->
  In (Key_String C k2)
     (if back then [go "right"; go "]"] else [go "left"; go "["]) ->
  run [KeyMsg k1; KeyMsg k2] m = Some m.
Proof.
  intros Hinv Hfr Hk1 Hk2. pose proof Hinv as [Hin Hf Hfi Hmo Hfo Hh Hs].
  rewrite llen_figFonts in Hfi. cbn [run].
  rewrite (Update_font_key m k1 back Hk1 Hf Hfi).
  set (i1 := (if back then fontIndex m - 1 else fontIndex m + 1) mod 148).
  assert (Hi1 : 0 <= i1 < 148) by (apply Z.mod_pos_bound; lia).
  destruct (rebuildArt_Inv C (set_fontIndex m i1))
    as (m1 & Hre1 & Hinv1 & _).
  { apply set_fontIndex_Inv; [exact Hinv|rewrite llen_figFonts; exact Hi1]. }
  rewrite Hre1.
  pose proof Hre1 as Hspec1.
  apply rebuildArt_spec in Hspec1 as (ti1 & font1 & Hti1 & Hfont1 & Hm1).
  assert (Hf1 : fonts m1 = figFonts) by (rewrite Hm1; exact Hf).
  assert (Hfi1 : fontIndex m1 = i1) by (rewrite Hm1; reflexivity).
  rewrite (Update_font_key m1 k2 (negb back)); try assumption.
  - assert (Hback : (if negb back then fontIndex m1 - 1 else fontIndex m1 + 1)
                      mod 148 = fontIndex m).
    { rewrite Hfi1. unfold i1. destruct back; cbn [negb].
      - rewrite Zplus_mod_idemp_l.
        replace (fontIndex m - 1 + 1) with (fontIndex m) by lia.
        apply Z.mod_small. lia.
      - rewrite Zminus_mod_idemp_l.
        replace (fontIndex m + 1 - 1) with (fontIndex m) by lia.
        apply Z.mod_small. lia. }
    rewrite Hback.
    assert (Hsame : rebuildArt (set_fontIndex m1 (fontIndex m)) = Some m).
    { unfold rebuildArt in *.
      cbn [set_fontIndex inputs fonts fontIndex] in *.
      rewrite Hm1. cbn [set_art set_fontIndex inputs fonts fontIndex].
      destruct (at_index (inputs m) 0) as [ti|]; [|discriminate].
      destruct (at_index (fonts m) (fontIndex m)) as [font|]; [|discriminate].
      injection Hfr as Hfr. rewrite <- Hfr at 3. f_equal. }
    rewrite Hsame. reflexivity.
  - destruct back; exact Hk2.
  - rewrite Hfi1. exact Hi1.
Qed.

End Cycles.

(** X6.  The mode key walks through the four render modes and comes
    back: in a reachable state one [m] returns a state whose mode is the
    next one ([DOTS] being followed by [BLOCK]), which is never the old
    mode, and whose other fields are those of the old state; four of them
    give the state back. *)
Theorem mode_key_cycles (C : Collaborators) (m : model C) (k : Key C) :
  reachable m -> Key_String C k = go "m" ->
  (exists m',
     Update m (KeyMsg k) = Some (m', nil_cmd)
     /\ mode m' = (mode m + 1) mod 4
     /\ mode m' <> mode m
     /\ w m' = w m /\ h m' = h m /\ inputs m' = inputs m
     /\ focusIndex m' = focusIndex m /\ fonts m' = fonts m
     /\ fontIndex m' = fontIndex m /\ artLines m' = artLines m
     /\ maxWidth m' = maxWidth m /\ baseStart m' = baseStart m
     /\ baseEnd m' = baseEnd m /\ animate m' = animate m
     /\ hueShift m' = hueShift m /\ stepDeg m' = stepDeg m
     /\ interval m' = interval m)
  /\ run [KeyMsg k; KeyMsg k; KeyMsg k; KeyMsg k] m = Some m.
Proof.
  intros Hr Hk. pose proof (inv_mode (reachable_Inv C m Hr)) as Hmo.
  split.
  - eexists. split; [exact (Update_m_key C m k Hk Hmo)|].
    cbn [set_mode hueShift animate stepDeg interval w h inputs focusIndex
         fonts fontIndex artLines maxWidth baseStart baseEnd mode].
    split; [reflexivity|]. split; [|repeat split; reflexivity].
    assert (H : mode m = 0 \/ mode m = 1 \/ mode m = 2 \/ mode m = 3) by lia.
    destruct H as [-> | [-> | [-> | -> ]]]; discriminate.
  - cbn [run].
    rewrite (Update_m_key C m k Hk Hmo).
    rewrite (Update_m_key C _ k Hk) by (apply Z.mod_pos_bound; lia).
    rewrite (Update_m_key C _ k Hk) by (apply Z.mod_pos_bound; lia).
    rewrite (Update_m_key C _ k Hk) by (apply Z.mod_pos_bound; lia).
    cbn [set_mode mode].
    assert (Hback : ((((mode m + 1) mod 4 + 1) mod 4 + 1) mod 4 + 1) mod 4
                    = mode m).
    { assert (H : mode m = 0 \/ mode m = 1 \/ mode m = 2 \/ mode m = 3) by lia.
      destruct H as [-> | [-> | [-> | -> ]]]; reflexivity. }
    rewrite Hback. f_equal. destruct m; reflexivity.
Qed.

Lemma mode_key_cycles_witness :
  reachable Demo.start
  /\ Key_String Demo.env (go "m") = go "m"
  /\ (exists m', Update Demo.start (KeyMsg (go "m")) = Some (m', nil_cmd)
                 /\ mode m' = modeLight)
  /\ @run Demo.env [KeyMsg (go "m"); KeyMsg (go "m"); KeyMsg (go "m");
                    KeyMsg (go "m")] Demo.start = Some Demo.start.
Proof.
  assert (Hr : reachable Demo.start)
    by (apply reach_init; vm_compute; reflexivity).
  split; [exact Hr|]. split; [reflexivity|].
  destruct (mode_key_cycles Demo.env Demo.start (go "m") Hr eq_refl)
    as ((m' & Hup & Hmode & _) & Hrun).
  split; [|exact Hrun].
  exists m'. split; [exact Hup|]. rewrite Hmode. reflexivity.
Defined.

(** X7.  The font keys undo each other: when giving or taking the focus
    does not change the value of a text field, the next font and then the
    previous one (or the other way round) gives a reachable state back,
    cache included, also across the two ends of the catalogue. *)
Theorem font_keys_undo (C : Collaborators) (m : model C) (kn kp : Key C) :
  (forall ti, ti_Value C (ti_Focus C ti) = ti_Value C ti) ->
  (forall ti, ti_Value C (ti_Blur C ti) = ti_Value C ti) ->
  reachable m ->
  In (Key_String C kn) [go "right"; go "]"] ->
  In (Key_String C kp) [go "left"; go "["] ->
  run [KeyMsg kn; KeyMsg kp] m = Some m
  /\ run [KeyMsg kp; KeyMsg kn] m = Some m.
Proof.
  intros Hf Hb Hr Hn Hp.
  pose proof (reachable_Inv C m Hr) as Hinv.
  pose proof (reachable_fresh C Hf Hb m Hr) as Hfr.
  split.
  - exact (font_keys_back C m kn kp false Hinv Hfr Hn Hp).
  - exact (font_keys_back C m kp kn true Hinv Hfr Hp Hn).
Qed.

Lemma font_keys_undo_witness :
  reachable Demo.start
  /\ @run Demo.env [KeyMsg (go "right"); KeyMsg (go "left")] Demo.start
     = Some Demo.start
  /\ @run Demo.env [KeyMsg (go "["); KeyMsg (go "]")] Demo.start
     = Some Demo.start.
Proof.
  assert (Hr : reachable Demo.start)
    by (apply reach_init; vm_compute; reflexivity).
  split; [exact Hr|]. split.
  - refine (proj1 (font_keys_undo Demo.env Demo.start (go "right") (go "left")
                                  _ _ Hr _ _)).
    + intros ti. reflexivity.
    + intros ti. reflexivity.
    + left. reflexivity.
    + left. reflexivity.
  - refine (proj2 (font_keys_undo Demo.env Demo.start (go "]") (go "[")
                                  _ _ Hr _ _)).
    + intros ti. reflexivity.
    + intros ti. reflexivity.
    + right. left. reflexivity.
    + right. left. reflexivity.
Defined.

(** X8.  The animation key is a switch: in any state [a] flips [animate]
    and nothing else, a second [a] gives the state back, and of the two
    presses exactly the one that turns the animation on schedules a tick
    after the interval. *)
Theorem animate_key_toggles (C : Collaborators) (m : model C) (k : Key C) :
  Key_String C k = go "a" ->
  Update m (KeyMsg k)
  = Some (set_animate m (negb (animate m)),
          if animate m then nil_cmd else tickEvery (interval m))
  /\ Update (set_animate m (negb (animate m))) (KeyMsg k)
     = Some (m, if animate m then tickEvery (interval m) else nil_cmd).
Proof.
  intros Hk. split; [exact (Update_a_key C m k Hk)|].
  rewrite (Update_a_key C _ k Hk).
  destruct m as [a1 a2 a3 a4 a5 a6 a7 a8 a9 a10 a11 an a13 a14 a15].
  cbn. destruct an; reflexivity.
Qed.

Lemma animate_key_toggles_witness :
  Key_String Demo.env (go "a") = go "a"
  /\ Update (set_animate Demo.start false) (KeyMsg (go "a"))
     = Some (Demo.start, tickEvery 60000000).
Proof.
  split; [reflexivity|].
  exact (proj2 (animate_key_toggles Demo.env Demo.start (go "a") eq_refl)).
Defined.

(** ** Window size, ticks and focus *)

Section Frame.

Variable C : Collaborators.

Lemma View_Loading_iff (m : model C) :
  View m = Some Loading <-> (w m =? 0) || (h m =? 0) = true.
Proof.
  unfold View. destruct ((w m =? 0) || (h m =? 0)).
  - split; reflexivity.
  - split; [|discriminate].
    destruct (at_index (inputs m) 0); [|discriminate].
    destruct (at_index (inputs m) 1); [|discriminate].
    destruct (at_index (inputs m) 2); [|discriminate].
    destruct (at_index (fonts m) (fontIndex m)); [|discriminate].
    destruct (at_index modeNames (mode m)); [|discriminate].
    destruct (viewArt m); discriminate.
Qed.

(** The fields that only one kind of message changes. *)
Lemma fieldEdit_frame (m m' : model C) (e : msg C) (c : Cmd C) :
  fieldEdit m e = Some (m', c) ->
  w m' = w m /\ h m' = h m /\ hueShift m' = hueShift m
  /\ interval m' = interval m /\ animate m' = animate m
  /\ stepDeg m' = stepDeg m /\ fonts m' = fonts m
  /\ exists cmds, c = Batch C cmds.
Proof.
  intros H. pose proof H as H'.
  apply fieldEdit_fields in H as (m1 & Hre & Hm').
  apply rebuildArt_spec in Hre as (ti & font & _ & _ & Hm1).
  apply fieldEdit_spec in H' as (_ & _ & _ & _ & _ & _ & _ & Hc).
  rewrite Hm', Hm1. repeat split. eexists. exact Hc.
Qed.

Lemma Update_frame (m m' : model C) (e : msg C) (c : Cmd C) :
  Update m e = Some (m', c) ->
  interval m' = interval m /\ fonts m' = fonts m
  /\ ((forall W H, e <> WindowSizeMsg W H) -> w m' = w m /\ h m' = h m)
  /\ (e <> tickMsg -> hueShift m' = hueShift m)
  /\ (forall d, c = tickEvery d -> d = interval m /\ animate m' = true).
Proof.
  intros H. destruct e as [W H0|k| |o].
  - inversion H; subst.
    split; [reflexivity|]. split; [reflexivity|].
    split; [intros Hne; now elim (Hne W H0)|].
    split; [intros _; reflexivity|]. intros d Hd; discriminate.
  - apply Update_key_cases in H. cbv zeta in H.
    destruct H as [(_ & -> & ->)|[(_ & -> & f & ->)|[(_ & -> & i & Hre)
                  |[(_ & -> & i & ->)|[(_ & -> & ->)|[(_ & -> & v & ->)
                  |(_ & Hfe)]]]]]].
    + split; [reflexivity|]. split; [reflexivity|].
      split; [intros _; split; reflexivity|].
      split; [intros _; reflexivity|]. intros d Hd; discriminate.
    + split; [reflexivity|]. split; [reflexivity|].
      split; [intros _; split; reflexivity|].
      split; [intros _; reflexivity|]. intros d Hd; discriminate.
    + apply rebuildArt_spec in Hre as (ti & font & _ & _ & ->).
      split; [reflexivity|]. split; [reflexivity|].
      split; [intros _; split; reflexivity|].
      split; [intros _; reflexivity|]. intros d Hd; discriminate.
    + split; [reflexivity|]. split; [reflexivity|].
      split; [intros _; split; reflexivity|].
      split; [intros _; reflexivity|]. intros d Hd; discriminate.
    + split; [reflexivity|]. split; [reflexivity|].
      split; [intros _; split; reflexivity|].
      split; [intros _; reflexivity|]. intros d Hd.
      cbn [set_animate animate].
      destruct (animate m); [discriminate|]. injection Hd as <-. auto.
    + split; [reflexivity|]. split; [reflexivity|].
      split; [intros _; split; reflexivity|].
      split; [intros _; reflexivity|]. intros d Hd; discriminate.
    + apply fieldEdit_frame in Hfe
        as (Hw & Hh & Hhue & Hint & _ & _ & Hfonts & cmds & ->).
      split; [exact Hint|]. split; [exact Hfonts|].
      split; [intros _; split; assumption|].
      split; [intros _; exact Hhue|]. intros d Hd; discriminate.
  - rewrite Update_tick in H. destruct (animate m) eqn:Ea; inversion H; subst.
    + split; [reflexivity|]. split; [reflexivity|].
      split; [intros _; split; reflexivity|].
      split; [intros Hne; now elim Hne|]. intros d Hd.
      injection Hd as <-. split; [reflexivity|exact Ea].
    + split; [reflexivity|]. split; [reflexivity|].
      split; [intros _; split; reflexivity|].
      split; [intros _; reflexivity|]. intros d Hd; discriminate.
  - apply fieldEdit_frame in H
      as (Hw & Hh & Hhue & Hint & _ & _ & Hfonts & cmds & ->).
    split; [exact Hint|]. split; [exact Hfonts|].
    split; [intros _; split; assumption|].
    split; [intros _; exact Hhue|]. intros d Hd; discriminate.
Qed.

Lemma reachable_interval (m : model C) :
  reachable m -> interval m = 60000000.
Proof.
  induction 1 as [m Hnew|m e m' c Hreach IH Hup].
  - unfold newModel in Hnew.
    apply rebuildArt_spec in Hnew as (ti & font & _ & _ & ->). reflexivity.
  - destruct (Update_frame _ _ _ _ Hup) as (Hi & _). congruence.
Qed.

End Frame.

(** X9.  Only a window size message changes the size the program knows:
    every other message leaves [w] and [h] alone, so [View] keeps
    answering the loading text until a size with a width and a height
    other than zero arrives, and never goes back to it otherwise. *)
Theorem only_resize_changes_size (C : Collaborators) (m m' : model C)
        (e : msg C) (c : Cmd C) :
  (forall W H, e <> WindowSizeMsg W H) ->
  Update m e = Some (m', c) ->
  w m' = w m /\ h m' = h m
  /\ (View m' = Some Loading <-> View m = Some Loading).
Proof.
  intros Hne Hup.
  destruct (Update_frame C _ _ _ _ Hup) as (_ & _ & Hsize & _).
  destruct (Hsize Hne) as [Hw Hh]. split; [exact Hw|]. split; [exact Hh|].
  rewrite !View_Loading_iff, Hw, Hh. reflexivity.
Qed.

Lemma only_resize_changes_size_witness :
  (forall W H, @tickMsg gostring unit <> WindowSizeMsg W H)
  /\ View (set_hueShift Demo.start 3) = Some Loading.
Proof.
  assert (Hne : forall W H, @tickMsg gostring unit <> WindowSizeMsg W H)
    by (intros W H; discriminate).
  split; [exact Hne|].
  refine (proj2 (proj2 (proj2 (only_resize_changes_size Demo.env Demo.start _
                                 tickMsg (tickEvery 60000000) Hne _))) _).
  - vm_compute. reflexivity.
  - reflexivity.
Defined.

(** X10.  The hue shift moves only on a tick, and a tick is only ever
    scheduled 60 ms ahead and into a state whose animation is on: in a
    reachable state the interval is 60 ms, a message other than a tick leaves
    [hueShift] as it is, and when [Update] returns a tick command its delay
    is the interval and [animate] holds in the new state. *)
Theorem ticks_only_while_animating (C : Collaborators) (m m' : model C)
        (e : msg C) (c : Cmd C) :
  reachable m ->
  Update m e = Some (m', c) ->
  interval m = 60000000 /\ interval m' = 60000000
  /\ (e <> tickMsg -> hueShift m' = hueShift m)
  /\ (forall d, c = tickEvery d -> d = 60000000 /\ animate m' = true).
Proof.
  intros Hr Hup. pose proof (reachable_interval C m Hr) as Hi.
  destruct (Update_frame C _ _ _ _ Hup) as (Hi' & _ & _ & Hhue & Htick).
  split; [exact Hi|]. split; [congruence|]. split; [exact Hhue|].
  intros d Hd. destruct (Htick d Hd) as [-> Ha]. auto.
Qed.

Lemma ticks_only_while_animating_witness :
  reachable Demo.start
  /\ Update Demo.start tickMsg
     = Some (set_hueShift Demo.start 3, tickEvery 60000000)
  /\ animate (set_hueShift Demo.start 3) = true.
Proof.
  assert (Hr : reachable Demo.start)
    by (apply reach_init; vm_compute; reflexivity).
  assert (Hu : Update Demo.start tickMsg
               = Some (set_hueShift Demo.start 3, tickEvery 60000000))
    by (vm_compute; reflexivity).
  split; [exact Hr|]. split; [exact Hu|].
  destruct (ticks_only_while_animating Demo.env Demo.start _ tickMsg _ Hr Hu)
    as (_ & _ & _ & Ht).
  exact (proj2 (Ht 60000000 eq_refl)).
Defined.

(** X11.  The focus keys: in a reachable state [tab] moves the focus one
    field on and [shift+tab] one field back, around the three fields; the
    field that gets the focus is told so with [Focus] and the two others
    with [Blur]; no other field of the state changes, and the opposite key
    pressed next brings the focus index back. *)
Theorem focus_keys_refocus (C : Collaborators) (m : model C) (k k' : Key C)
        (back : bool) :
  reachable m ->
  Key_String C k = (if back then go "shift+tab" else go "tab") ->
  Key_String C k' = (if back then go "tab" else go "shift+tab") ->
  let f := (if back then focusIndex m - 1 else focusIndex m + 1) mod 3 in
  exists m' i0 i1 i2,
    inputs m = [i0; i1; i2]
    /\ Update m (KeyMsg k) = Some (m', nil_cmd)
    /\ focusIndex m' = f
    /\ inputs m' = [focusAt C f 0 i0; focusAt C f 1 i1; focusAt C f 2 i2]
    /\ (w m' = w m /\ h m' = h m /\ fonts m' = fonts m
        /\ fontIndex m' = fontIndex m /\ artLines m' = artLines m
        /\ maxWidth m' = maxWidth m /\ baseStart m' = baseStart m
        /\ baseEnd m' = baseEnd m /\ mode m' = mode m
        /\ animate m' = animate m /\ hueShift m' = hueShift m
        /\ stepDeg m' = stepDeg m /\ interval m' = interval m)
    /\ exists m'', Update m' (KeyMsg k') = Some (m'', nil_cmd)
                   /\ focusIndex m'' = focusIndex m.
Proof.
  intros Hr Hk Hk' f. pose proof (reachable_Inv C m Hr) as Hinv.
  pose proof Hinv as [Hin _ _ _ Hfo _ _].
  destruct (inputs m) as [|i0 [|i1 [|i2 [|i3 rest]]]] eqn:Ein;
    try (unfold llen in Hin; cbn [length] in Hin; lia).
  destruct (Update_focus C m k back Hinv Hk) as (m1 & Hup & Hf1 & _ & _ & Hinv1).
  exists m1, i0, i1, i2. split; [reflexivity|]. split; [exact Hup|].
  fold f in Hf1. split; [exact Hf1|].
  pose proof Hup as Hcase. apply Update_key_cases in Hcase. cbv zeta in Hcase.
  destruct Hcase as [(Hq & _)|[(_ & _ & f' & Hm1)|[(Hq & _)|[(Hq & _)
                    |[(Hq & _)|[(Hq & _)|(Hq & _)]]]]]];
    try (rewrite Hk in Hq; destruct back; cbn [In] in Hq;
         try discriminate; try congruence;
         repeat (destruct Hq as [Hq|Hq]; try discriminate); contradiction).
  assert (Hff : f' = f) by (rewrite <- Hf1, Hm1; reflexivity).
  subst f'. split; [rewrite Hm1, Ein; reflexivity|].
  split; [rewrite Hm1; repeat split; reflexivity|].
  assert (Hk2 : Key_String C k'
                = (if negb back then go "shift+tab" else go "tab"))
    by (rewrite Hk'; destruct back; reflexivity).
  destruct (Update_focus C m1 k' (negb back) Hinv1 Hk2)
    as (m2 & Hup2 & Hf2 & _).
  exists m2. split; [exact Hup2|]. rewrite Hf2, Hf1. unfold f.
  destruct back; cbn [negb].
  - rewrite Zplus_mod_idemp_l.
    replace (focusIndex m - 1 + 1) with (focusIndex m) by lia.
    apply Z.mod_small. lia.
  - rewrite Zminus_mod_idemp_l.
    replace (focusIndex m + 1 - 1) with (focusIndex m) by lia.
    apply Z.mod_small. lia.
Qed.

Lemma focus_keys_refocus_witness :
  reachable Demo.start
  /\ exists m' i0 i1 i2,
      inputs Demo.start = [i0; i1; i2]
      /\ Update Demo.start (KeyMsg (go "tab")) = Some (m', nil_cmd)
      /\ focusIndex m' = 1
      /\ inputs m' = [focusAt Demo.env 1 0 i0; focusAt Demo.env 1 1 i1;
                      focusAt Demo.env 1 2 i2].
Proof.
  assert (Hr : reachable Demo.start)
    by (apply reach_init; vm_compute; reflexivity).
  split; [exact Hr|].
  destruct (focus_keys_refocus Demo.env Demo.start (go "tab")
                               (go "shift+tab") false Hr eq_refl eq_refl)
    as (m' & i0 & i1 & i2 & Hin & Hup & Hf & Hins & _).
  exists m', i0, i1, i2.
  split; [exact Hin|]. split; [exact Hup|]. split; [exact Hf|exact Hins].
Defined.

(** ** The speed keys, pressed many times *)

Section Saturation.

Variable C : Collaborators.

Lemma run_plus (kp : Key C) (n : nat) :
  In (Key_String C kp) [go "+"; go "="] ->
  forall (m : model C) (j : Z),
    1 <= j <= 60 -> stepDeg m = half j ->
    run (repeat (KeyMsg kp) n) m
    = Some (set_stepDeg m (half (Z.min 60 (j + Z.of_nat n)))).
Proof.
  intros Hk. induction n as [|n IH]; intros m j Hj Hs.
  - cbn [repeat run]. replace (Z.min 60 (j + Z.of_nat 0)) with j by lia.
    rewrite <- Hs. now rewrite set_stepDeg_same.
  - cbn [repeat run]. rewrite (Update_plus C m kp Hk), Hs.
    destruct (half_speed j Hj) as [Hmin _]. rewrite Hmin.
    rewrite (IH _ (Z.min 60 (j + 1))); [|lia|reflexivity].
    rewrite set_stepDeg_twice. do 3 f_equal. lia.
Qed.

Lemma run_minus (km : Key C) (n : nat) :
  In (Key_String C km) [go "-"; go "_"] ->
  forall (m : model C) (j : Z),
    1 <= j <= 60 -> stepDeg m = half j ->
    run (repeat (KeyMsg km) n) m
    = Some (set_stepDeg m (half (Z.max 1 (j - Z.of_nat n)))).
Proof.
  intros Hk. induction n as [|n IH]; intros m j Hj Hs.
  - cbn [repeat run]. replace (Z.max 1 (j - Z.of_nat 0)) with j by lia.
    rewrite <- Hs. now rewrite set_stepDeg_same.
  - cbn [repeat run]. rewrite (Update_minus C m km Hk), Hs.
    destruct (half_speed j Hj) as [_ Hmax]. rewrite Hmax.
    rewrite (IH _ (Z.max 1 (j - 1))); [|lia|reflexivity].
    rewrite set_stepDeg_twice. do 3 f_equal. lia.
Qed.

End Saturation.

(** X16.  The speed saturates: from any reachable state 59 or more
    presses of [+] (or [=]) end in a state whose step is 30 degrees, and 59
    or more presses of [-] (or [_]) in one whose step is half a degree; no
    other field changes. *)
Theorem speed_keys_saturate (C : Collaborators) (m : model C)
        (kp km : Key C) (n : nat) :
  reachable m -> (59 <= n)%nat ->
  In (Key_String C kp) [go "+"; go "="] ->
  In (Key_String C km) [go "-"; go "_"] ->
  (exists m',
     run (repeat (KeyMsg kp) n) m = Some m'
     /\ stepDeg m' = 30%float
     /\ w m' = w m /\ h m' = h m /\ inputs m' = inputs m
     /\ focusIndex m' = focusIndex m /\ fonts m' = fonts m
     /\ fontIndex m' = fontIndex m /\ artLines m' = artLines m
     /\ maxWidth m' = maxWidth m /\ baseStart m' = baseStart m
     /\ baseEnd m' = baseEnd m /\ mode m' = mode m
     /\ animate m' = animate m /\ hueShift m' = hueShift m
     /\ interval m' = interval m)
  /\ (exists m',
        run (repeat (KeyMsg km) n) m = Some m'
        /\ stepDeg m' = 0.5%float
        /\ w m' = w m /\ h m' = h m /\ inputs m' = inputs m
        /\ focusIndex m' = focusIndex m /\ fonts m' = fonts m
        /\ fontIndex m' = fontIndex m /\ artLines m' = artLines m
        /\ maxWidth m' = maxWidth m /\ baseStart m' = baseStart m
        /\ baseEnd m' = baseEnd m /\ mode m' = mode m
        /\ animate m' = animate m /\ hueShift m' = hueShift m
        /\ interval m' = interval m).
Proof.
  intros Hr Hn Hp Hm.
  destruct (inv_step (reachable_Inv C m Hr)) as (j & Hj & Hs).
  split.
  - eexists. split; [exact (run_plus C kp n Hp m j Hj Hs)|].
    cbn [set_stepDeg hueShift animate stepDeg interval w h inputs focusIndex
         fonts fontIndex artLines maxWidth baseStart baseEnd mode].
    replace (Z.min 60 (j + Z.of_nat n)) with 60 by lia.
    split; [vm_compute; reflexivity|repeat split; reflexivity].
  - eexists. split; [exact (run_minus C km n Hm m j Hj Hs)|].
    cbn [set_stepDeg hueShift animate stepDeg interval w h inputs focusIndex
         fonts fontIndex artLines maxWidth baseStart baseEnd mode].
    replace (Z.max 1 (j - Z.of_nat n)) with 1 by lia.
    split; [vm_compute; reflexivity|repeat split; reflexivity].
Qed.

Lemma speed_keys_saturate_witness :
  reachable Demo.start
  /\ exists m', @run Demo.env (repeat (KeyMsg (go "+")) 100) Demo.start
                = Some m'
                /\ stepDeg m' = 30%float.
Proof.
  assert (Hr : reachable Demo.start)
    by (apply reach_init; vm_compute; reflexivity).
  split; [exact Hr|].
  destruct (speed_keys_saturate Demo.env Demo.start (go "+") (go "-")
                                100 Hr) as ((m' & Hrun & Hs & _) & _).
  - repeat constructor.
  - left. reflexivity.
  - left. reflexivity.
  - exists m'. split; [exact Hrun|exact Hs].
Defined.

(** ** [parseHexColor]: the accepted forms with blanks around them *)

Lemma asciiSpace_ascii (c : ascii) : strings.asciiSpace c = true -> bv c < 128.
Proof.
  unfold strings.asciiSpace. cbv zeta. intros H. zprop H. lia.
Qed.

Lemma trimStop_blanks (bl r : list ascii) (d : ascii) (r0 : list ascii) :
  Forall (fun c => strings.asciiSpace c = true) bl ->
  r = d :: r0 -> bv d < 128 -> strings.asciiSpace d = false ->
  strings.trimStop (bl ++ r) = rev r.
Proof.
  intros Hbl -> Hd Hds. induction Hbl as [|c bl Hc _ IH].
  - cbn [app strings.trimStop]. unfold utf8.RuneSelf.
    destruct (Z.leb_spec 128 (bv d)); [lia|]. now rewrite Hds.
  - cbn [app strings.trimStop]. unfold utf8.RuneSelf.
    pose proof (asciiSpace_ascii c Hc).
    destruct (Z.leb_spec 128 (bv c)); [lia|]. now rewrite Hc.
Qed.

Lemma TrimSpace_blanks (pre post t : list ascii) (c d : ascii) :
  Forall (fun c => strings.asciiSpace c = true) pre ->
  Forall (fun c => strings.asciiSpace c = true) post ->
  bv c < 128 -> strings.asciiSpace c = false ->
  bv d < 128 -> strings.asciiSpace d = false ->
  strings.TrimSpace (pre ++ (c :: t ++ [d]) ++ post) = c :: t ++ [d].
Proof.
  intros Hpre Hpost Hc Hcs Hd Hds. induction Hpre as [|b pre Hb _ IH].
  - cbn [app strings.TrimSpace]. unfold utf8.RuneSelf.
    destruct (Z.leb_spec 128 (bv c)); [lia|]. rewrite Hcs.
    change (c :: (t ++ [d]) ++ post) with ((c :: t ++ [d]) ++ post).
    rewrite rev_app_distr.
    assert (Hrev : rev (c :: t ++ [d]) = d :: rev (c :: t)).
    { change (c :: t ++ [d]) with ((c :: t) ++ [d]). now rewrite rev_unit. }
    rewrite (trimStop_blanks (rev post) (rev (c :: t ++ [d])) d (rev (c :: t)));
      try assumption.
    + apply rev_involutive.
    + apply Forall_rev. exact Hpost.
  - cbn [app strings.TrimSpace]. unfold utf8.RuneSelf.
    pose proof (asciiSpace_ascii b Hb).
    destruct (Z.leb_spec 128 (bv b)); [lia|]. now rewrite Hb.
Qed.

Lemma hash_facts : bv "#"%char < 128 /\ strings.asciiSpace "#"%char = false.
Proof. split; reflexivity. Qed.

Lemma parseHexColor_trim (pre post body : list ascii) (d : ascii) :
  Forall (fun c => strings.asciiSpace c = true) pre ->
  Forall (fun c => strings.asciiSpace c = true) post ->
  bv d < 128 -> strings.asciiSpace d = false ->
  parseHexColor (pre ++ ("#"%char :: body ++ [d]) ++ post)
  = parseHexColor ("#"%char :: body ++ [d]).
Proof.
  intros Hpre Hpost Hd Hds. destruct hash_facts as [Hh Hhs].
  unfold parseHexColor.
  rewrite (TrimSpace_blanks pre post body "#"%char d); try assumption.
  rewrite (TrimSpace_id "#"%char d body) by assumption.
  reflexivity.
Qed.

(** X17.  The two accepted forms, with blanks around them: after any ASCII
    blanks (space, tab, carriage return, ...), [#] and six hexadecimal
    digits of either case give the colour with two digits per channel, and
    [#] and three digits give 17 times each digit, which is the colour of
    the six digits with each one doubled; blanks after the digits are
    ignored as well. *)
Theorem parseHexColor_accepts_hex (pre post : gostring)
        (d1 d2 d3 d4 d5 d6 : ascii) :
  Forall (fun c => strings.asciiSpace c = true) pre ->
  Forall (fun c => strings.asciiSpace c = true) post ->
  Forall (fun d => fmt.hexadecimalDigit (bv d) = true) [d1; d2; d3; d4; d5; d6] ->
  parseHexColor (pre ++ ("#"%char :: [d1; d2; d3; d4; d5; d6]) ++ post)
  = (mkColor (fmt.hexval (bv d1) * 16 + fmt.hexval (bv d2))
             (fmt.hexval (bv d3) * 16 + fmt.hexval (bv d4))
             (fmt.hexval (bv d5) * 16 + fmt.hexval (bv d6)), true)
  /\ parseHexColor (pre ++ ("#"%char :: [d1; d2; d3]) ++ post)
     = (mkColor (fmt.hexval (bv d1) * 17) (fmt.hexval (bv d2) * 17)
                (fmt.hexval (bv d3) * 17), true)
  /\ parseHexColor (pre ++ ("#"%char :: [d1; d2; d3]) ++ post)
     = parseHexColor (pre ++ ("#"%char :: [d1; d1; d2; d2; d3; d3]) ++ post).
Proof.
  intros Hpre Hpost Hall.
  assert (H1 : fmt.hexadecimalDigit (bv d1) = true)
    by (inversion Hall; assumption).
  assert (H2 : fmt.hexadecimalDigit (bv d2) = true)
    by (inversion Hall as [|? ? _ Ha]; inversion Ha; assumption).
  assert (H3 : fmt.hexadecimalDigit (bv d3) = true)
    by (inversion Hall as [|? ? _ Ha]; inversion Ha as [|? ? _ Hb];
        inversion Hb; assumption).
  assert (H6 : fmt.hexadecimalDigit (bv d6) = true).
  { rewrite Forall_forall in Hall. apply Hall. cbn [In]. tauto. }
  destruct (hexdigit_byte_facts d6 H6) as [A6 S6].
  destruct (hexdigit_byte_facts d3 H3) as [A3 S3].
  assert (Hall3 : Forall (fun d => fmt.hexadecimalDigit (bv d) = true)
                         [d1; d2; d3]) by (repeat constructor; assumption).
  assert (E6 : parseHexColor (pre ++ ("#"%char :: [d1; d2; d3; d4; d5; d6]) ++ post)
               = parseHexColor ("#"%char :: [d1; d2; d3; d4; d5; d6])).
  { exact (parseHexColor_trim pre post [d1; d2; d3; d4; d5] d6
                              Hpre Hpost A6 S6). }
  assert (E3 : parseHexColor (pre ++ ("#"%char :: [d1; d2; d3]) ++ post)
               = parseHexColor ("#"%char :: [d1; d2; d3])).
  { exact (parseHexColor_trim pre post [d1; d2] d3 Hpre Hpost A3 S3). }
  assert (E33 : parseHexColor
                  (pre ++ ("#"%char :: [d1; d1; d2; d2; d3; d3]) ++ post)
                = parseHexColor ("#"%char :: [d1; d1; d2; d2; d3; d3])).
  { exact (parseHexColor_trim pre post [d1; d1; d2; d2; d3] d3
                              Hpre Hpost A3 S3). }
  split; [|split].
  - rewrite E6. exact (parseHexColor_RRGGBB d1 d2 d3 d4 d5 d6 Hall).
  - rewrite E3. exact (parseHexColor_RGB d1 d2 d3 Hall3).
  - rewrite E3, E33. exact (parseHexColor_shorthand d1 d2 d3 Hall3).
Qed.

Lemma parseHexColor_accepts_hex_witness :
  parseHexColor (go "  #8A2be2 ") = (mkColor 138 43 226, true)
  /\ parseHexColor (go "  #8A2 ") = (mkColor 136 170 34, true).
Proof.
  assert (H := parseHexColor_accepts_hex
                 (go "  ") (go " ") "8" "A" "2" "b" "e" "2").
  destruct H as (H6 & H3 & _).
  - repeat constructor.
  - repeat constructor.
  - repeat constructor.
  - split; [exact H6|exact H3].
Defined.

(** ** The range of a parsed colour *)

Lemma hexval_range (r : Z) :
  fmt.hexadecimalDigit r = true -> 0 <= fmt.hexval r <= 15.
Proof.
  intros H. unfold fmt.hexadecimalDigit in H. unfold fmt.hexval.
  zprop H.
  destruct ((48 <=? r) && (r <=? 57)) eqn:E1; [zprop E1; lia|].
  destruct ((97 <=? r) && (r <=? 102)) eqn:E2; [zprop E2; lia|].
  zprop E1. zprop E2. lia.
Qed.

Lemma acceptAll_facts (ok : Z -> bool) (rs : list Z) :
  forall count lim tok rs' count',
    fmt.acceptAll ok rs count lim = (tok, rs', count') ->
    Forall (fun r => ok r = true) tok
    /\ count' = count + Z.of_nat (length tok)
    /\ (tok <> [] -> count' <= lim).
Proof.
  induction rs as [|r rest IH]; intros count lim tok rs' count' H;
    cbn [fmt.acceptAll] in H.
  - inversion H; subst. cbn [length]. repeat split; [constructor|lia|].
    intros Hne. now elim Hne.
  - destruct (Z.leb_spec lim count).
    + inversion H; subst. cbn [length]. repeat split; [constructor|lia|].
      intros Hne. now elim Hne.
    + destruct (ok r) eqn:Eok.
      * destruct (fmt.acceptAll ok rest (count + 1) lim)
          as [[tok1 rs1] count1] eqn:E.
        inversion H; subst.
        destruct (IH _ _ _ _ _ E) as (Hall & Hc & Hlim).
        split; [constructor; assumption|].
        split; [cbn [length]; lia|].
        intros _. destruct tok1 as [|t tok1].
        -- cbn [length] in Hc. lia.
        -- apply Hlim. discriminate.
      * inversion H; subst. cbn [length]. repeat split; [constructor|lia|].
        intros Hne. now elim Hne.
Qed.

Lemma hexvalue_range (tok : list Z) :
  Forall (fun r => fmt.hexadecimalDigit r = true) tok ->
  0 <= fmt.hexvalue tok < 16 ^ Z.of_nat (length tok).
Proof.
  intros Hall. unfold fmt.hexvalue.
  assert (Hgen : forall acc n,
             0 <= acc < 16 ^ n -> 0 <= n ->
             0 <= fold_left (fun a d => a * 16 + fmt.hexval d) tok acc
             < 16 ^ (n + Z.of_nat (length tok))).
  { induction Hall as [|d tok Hd _ IH]; intros acc n Hacc Hn.
    - cbn [fold_left length]. now rewrite Z.add_0_r.
    - cbn [fold_left]. pose proof (hexval_range d Hd).
      replace (n + Z.of_nat (length (d :: tok)))
        with ((n + 1) + Z.of_nat (length tok)) by (cbn [length]; lia).
      apply IH; [|lia]. rewrite Z.pow_add_r by lia. change (16 ^ 1) with 16.
      lia. }
  apply (Hgen 0 0); lia.
Qed.

Lemma scanNumber_facts (rs : list Z) (count lim : Z)
      (tok rs2 : list Z) (count2 : Z) :
  fmt.scanNumber rs count lim = Some (tok, rs2, count2) ->
  Forall (fun r => fmt.hexadecimalDigit r = true) tok
  /\ tok <> [] /\ count2 = count + Z.of_nat (length tok) /\ count2 <= lim.
Proof.
  unfold fmt.scanNumber, fmt.notEOF, fmt.accept.
  destruct (Z.leb_spec lim count); [discriminate|]. cbn [negb andb].
  destruct rs as [|r rest]; [discriminate|].
  destruct (fmt.hexadecimalDigit r) eqn:Er; [|discriminate].
  destruct (fmt.acceptAll fmt.hexadecimalDigit rest (count + 1) lim)
    as [[tok1 rs1] count1] eqn:E.
  intros Hs. inversion Hs; subst.
  destruct (acceptAll_facts _ _ _ _ _ _ _ E) as (Hall & Hc & Hlim).
  split; [constructor; assumption|]. split; [discriminate|].
  split; [cbn [length]; lia|].
  destruct tok1 as [|t tok1]; [cbn [length] in Hc; lia|].
  apply Hlim. discriminate.
Qed.

Lemma SkipSpace_count (rs : list Z) :
  forall count lim rs0 count0,
    fmt.SkipSpace rs count lim = Some (rs0, count0) -> count <= count0.
Proof.
  induction rs as [|r rest IH]; intros count lim rs0 count0 H;
    cbn [fmt.SkipSpace] in H.
  - inversion H. lia.
  - destruct (lim <=? count); [inversion H; lia|].
    destruct (r =? 10); [discriminate|].
    destruct (unicode.IsSpace r); [|inversion H; lia].
    apply IH in H. lia.
Qed.

(** An operand of [%02x] into an [int] is between -15 and 255. *)
Lemma scanInt_range (rs : list Z) (count lim : Z) (i : Z) (rs2 : list Z)
      (count2 : Z) :
  lim <= count + 2 ->
  fmt.scanInt rs count lim = Some (i, rs2, count2) ->
  - 15 <= i <= 255.
Proof.
  intros Hlim0. unfold fmt.scanInt.
  destruct (fmt.SkipSpace rs count lim) as [[rs0 count0]|] eqn:Esk;
    [|discriminate].
  apply SkipSpace_count in Esk.
  destruct (fmt.notEOF rs0 count0 lim); [|discriminate].
  unfold fmt.accept.
  destruct rs0 as [|r rest].
  - destruct (fmt.scanNumber [] count0 lim) as [[[tok r2] c2]|] eqn:E;
      [|discriminate].
    unfold fmt.scanNumber, fmt.notEOF in E.
    destruct (lim <=? count0); discriminate.
  - destruct (Z.leb_spec lim count0).
    + destruct (fmt.scanNumber (r :: rest) count0 lim)
        as [[[tok r2] c2]|] eqn:E; [|discriminate].
      apply scanNumber_facts in E as (_ & Hne & Hc & Hlim).
      intros _. exfalso.
      (* the width is used up before the first digit *)
      destruct tok as [|t tok]; [now elim Hne|]. cbn [length] in Hc. lia.
    + destruct (fmt.sign r) eqn:Es.
      * destruct (fmt.scanNumber rest (count0 + 1) lim)
          as [[[tok r2] c2]|] eqn:E; [|discriminate].
        apply scanNumber_facts in E as (Hall & Hne & Hc & Hlim).
        pose proof (hexvalue_range tok Hall) as Hv.
        assert (Hlen : length tok = 1%nat).
        { destruct tok as [|t [|t' tok]]; [now elim Hne|reflexivity|].
          cbn [length] in Hc. lia. }
        rewrite Hlen in Hv. change (16 ^ Z.of_nat 1) with 16 in Hv.
        destruct ((- 2 ^ 63 <=? _) && (_ <? 2 ^ 63)); [|discriminate].
        intros Hres. inversion Hres; subst.
        destruct r as [|p|p]; try lia.
        repeat (destruct p as [p|p|]; try lia).
      * destruct (fmt.scanNumber (r :: rest) count0 lim)
          as [[[tok r2] c2]|] eqn:E; [|discriminate].
        apply scanNumber_facts in E as (Hall & Hne & Hc & Hlim).
        pose proof (hexvalue_range tok Hall) as Hv.
        assert (Hlen : (length tok <= 2)%nat) by lia.
        assert (H16 : 16 ^ Z.of_nat (length tok) <= 256).
        { destruct tok as [|t [|t' [|t'' tok]]]; cbn [length] in *;
            try (vm_compute; discriminate). lia. }
        destruct ((- 2 ^ 63 <=? _) && (_ <? 2 ^ 63)); [|discriminate].
        intros Hres. inversion Hres; subst. lia.
Qed.

(** An operand of [%1x] into a [byte] is one digit. *)
Lemma scanUint8_range (rs : list Z) (count lim : Z) (u : Z) (rs2 : list Z)
      (count2 : Z) :
  lim <= count + 1 ->
  fmt.scanUint8 rs count lim = Some (u, rs2, count2) ->
  0 <= u <= 15.
Proof.
  intros Hlim0. unfold fmt.scanUint8.
  destruct (fmt.SkipSpace rs count lim) as [[rs0 count0]|] eqn:Esk;
    [|discriminate].
  apply SkipSpace_count in Esk.
  destruct (fmt.notEOF rs0 count0 lim); [|discriminate].
  destruct (fmt.scanNumber rs0 count0 lim)
    as [[[tok r2] c2]|] eqn:E; [|discriminate].
  apply scanNumber_facts in E as (Hall & Hne & Hc & Hlim).
  pose proof (hexvalue_range tok Hall) as Hv.
  assert (Hlen : length tok = 1%nat).
  { destruct tok as [|t [|t' tok]]; [now elim Hne|reflexivity|].
    cbn [length] in Hc. lia. }
  rewrite Hlen in Hv. change (16 ^ Z.of_nat 1) with 16 in Hv.
  destruct ((_ <? 2 ^ 64) && (_ <? 2 ^ 8)); [|discriminate].
  intros Hres. inversion Hres; subst. lia.
Qed.

Lemma scanVerb_int_range (rs : list Z) (cnt i : Z) (rs' : list Z) (cnt' : Z) :
  fmt.scanVerb fmt.scanInt 2 rs cnt = Some (i, rs', cnt') -> - 15 <= i <= 255.
Proof.
  unfold fmt.scanVerb.
  destruct (fmt.SkipSpace rs cnt fmt.hugeWid) as [[rs0 count0]|];
    [|discriminate].
  apply scanInt_range. lia.
Qed.

Lemma scanVerb_uint8_range (rs : list Z) (cnt u : Z) (rs' : list Z) (cnt' : Z) :
  fmt.scanVerb fmt.scanUint8 1 rs cnt = Some (u, rs', cnt') -> 0 <= u <= 15.
Proof.
  unfold fmt.scanVerb.
  destruct (fmt.SkipSpace rs cnt fmt.hugeWid) as [[rs0 count0]|];
    [|discriminate].
  apply scanUint8_range. lia.
Qed.

Lemma parseHexColor_range (s : gostring) (c : colorRGB) :
  parseHexColor s = (c, true) ->
  - 15 <= R c <= 255 /\ - 15 <= G c <= 255 /\ - 15 <= B c <= 255.
Proof.
  unfold parseHexColor. cbv zeta.
  destruct (negb _); [discriminate|].
  destruct (len _ =? 6).
  - unfold fmt.Sscanf3.
    destruct (fmt.scanVerb fmt.scanInt 2 _ 0) as [[[a rs1] c1]|] eqn:E1;
      [|discriminate].
    destruct (fmt.scanVerb fmt.scanInt 2 rs1 c1) as [[[b rs2] c2]|] eqn:E2;
      [|discriminate].
    destruct (fmt.scanVerb fmt.scanInt 2 rs2 c2) as [[[d rs3] c3]|] eqn:E3;
      [|discriminate].
    intros H. inversion H; subst. cbn [R G B].
    apply scanVerb_int_range in E1, E2, E3. auto.
  - destruct (len _ =? 3); [|discriminate].
    unfold fmt.Sscanf3.
    destruct (fmt.scanVerb fmt.scanUint8 1 _ 0) as [[[a rs1] c1]|] eqn:E1;
      [|discriminate].
    destruct (fmt.scanVerb fmt.scanUint8 1 rs1 c1) as [[[b rs2] c2]|] eqn:E2;
      [|discriminate].
    destruct (fmt.scanVerb fmt.scanUint8 1 rs2 c2) as [[[d rs3] c3]|] eqn:E3;
      [|discriminate].
    intros H. inversion H; subst. cbn [R G B].
    apply scanVerb_uint8_range in E1, E2, E3. lia.
Qed.

Section BaseColours.

Variable C : Collaborators.

Lemma fieldEdit_base (m m' : model C) (e : msg C) (c : Cmd C) :
  fieldEdit m e = Some (m', c) ->
  parsedRange (baseStart m) -> parsedRange (baseEnd m) ->
  parsedRange (baseStart m') /\ parsedRange (baseEnd m').
Proof.
  intros H Hs He.
  apply fieldEdit_spec in H as (i1 & i2 & _ & _ & _ & Hbs & Hbe & _).
  rewrite Hbs, Hbe. split.
  - destruct (parseHexColor (ti_Value C i1)) as [c1 ok] eqn:E.
    cbn [fst snd]. destruct ok; [|exact Hs].
    exact (parseHexColor_range _ _ E).
  - destruct (parseHexColor (ti_Value C i2)) as [c2 ok] eqn:E.
    cbn [fst snd]. destruct ok; [|exact He].
    exact (parseHexColor_range _ _ E).
Qed.

Lemma Update_base (m m' : model C) (e : msg C) (c : Cmd C) :
  Update m e = Some (m', c) ->
  parsedRange (baseStart m) -> parsedRange (baseEnd m) ->
  parsedRange (baseStart m') /\ parsedRange (baseEnd m').
Proof.
  intros H Hs He. destruct e as [W H0|k| |o].
  - inversion H; subst. auto.
  - apply Update_key_cases in H. cbv zeta in H.
    destruct H as [(_ & -> & _)|[(_ & _ & f & ->)|[(_ & _ & i & Hre)
                  |[(_ & _ & i & ->)|[(_ & -> & _)|[(_ & _ & v & ->)
                  |(_ & Hfe)]]]]]]; auto.
    + apply rebuildArt_spec in Hre as (ti & font & _ & _ & ->). auto.
    + exact (fieldEdit_base _ _ _ _ Hfe Hs He).
  - rewrite Update_tick in H. destruct (animate m); inversion H; subst; auto.
  - exact (fieldEdit_base _ _ _ _ H Hs He).
Qed.

Lemma reachable_base (m : model C) :
  reachable m -> parsedRange (baseStart m) /\ parsedRange (baseEnd m).
Proof.
  induction 1 as [m Hnew|m e m' c Hreach IH Hup].
  - unfold newModel in Hnew.
    apply rebuildArt_spec in Hnew as (ti & font & _ & _ & ->).
    cbn [set_art baseStart baseEnd]. unfold parsedRange. cbn [R G B]. lia.
  - destruct IH as [Hs He]. exact (Update_base _ _ _ _ Hup Hs He).
Qed.

End BaseColours.

(** X18.  A colour that [parseHexColor] accepts has its channels between
    -15 and 255 (a channel is negative only when a sign was taken for its
    first digit), so the base colours of every reachable state are in that
    range too. *)
Theorem parsed_colours_range (C : Collaborators) (m : model C)
        (s : gostring) (c : colorRGB) :
  (parseHexColor s = (c, true) ->
   - 15 <= R c <= 255 /\ - 15 <= G c <= 255 /\ - 15 <= B c <= 255)
  /\ (reachable m ->
      (- 15 <= R (baseStart m) <= 255 /\ - 15 <= G (baseStart m) <= 255
       /\ - 15 <= B (baseStart m) <= 255)
      /\ (- 15 <= R (baseEnd m) <= 255 /\ - 15 <= G (baseEnd m) <= 255
          /\ - 15 <= B (baseEnd m) <= 255)).
Proof.
  split.
  - apply parseHexColor_range.
  - intros Hr. exact (reachable_base C m Hr).
Qed.

Lemma parsed_colours_range_witness :
  parseHexColor (go "#-f1080") = (mkColor (-15) 16 128, true)
  /\ - 15 <= R (mkColor (-15) 16 128) <= 255.
Proof.
  assert (E : parseHexColor (go "#-f1080") = (mkColor (-15) 16 128, true))
    by (vm_compute; reflexivity).
  split; [exact E|].
  exact (proj1 (proj1 (parsed_colours_range Demo.env Demo.start _ _) E)).
Defined.

(** * Rounding in binary64 *)

Lemma fexp64_spec (e : Z) : fexp prec emax e = fexp64 e.
Proof. reflexivity. Qed.

Lemma digits2_pos_bounds (p : positive) :
  2 ^ (Z.pos (digits2_pos p) - 1) <= Z.pos p < 2 ^ Z.pos (digits2_pos p).
Proof.
  induction p as [p IH|p IH|]; cbn [digits2_pos].
  - rewrite Pos2Z.inj_succ.
    replace (Z.succ (Z.pos (digits2_pos p)) - 1) with (Z.pos (digits2_pos p)) by lia.
    rewrite Z.pow_succ_r by lia.
    assert (H2 : 2 ^ Z.pos (digits2_pos p)
                 = 2 * 2 ^ (Z.pos (digits2_pos p) - 1)).
    { rewrite <- Z.pow_succ_r by lia. f_equal. lia. }
    lia.
  - rewrite Pos2Z.inj_succ.
    replace (Z.succ (Z.pos (digits2_pos p)) - 1) with (Z.pos (digits2_pos p)) by lia.
    rewrite Z.pow_succ_r by lia.
    assert (H2 : 2 ^ Z.pos (digits2_pos p)
                 = 2 * 2 ^ (Z.pos (digits2_pos p) - 1)).
    { rewrite <- Z.pow_succ_r by lia. f_equal. lia. }
    lia.
  - simpl. lia.
Qed.

Lemma Zdigits2_bounds (m : Z) :
  0 < m -> 2 ^ (Zdigits2 m - 1) <= m < 2 ^ Zdigits2 m.
Proof.
  destruct m as [|p|p]; try lia. intros _. apply digits2_pos_bounds.
Qed.

Lemma Zdigits2_nonneg (m : Z) : 0 <= Zdigits2 m.
Proof. destruct m; simpl; lia. Qed.

Lemma Zdigits2_pos (m : Z) : 0 < m -> 0 < Zdigits2 m.
Proof. destruct m; simpl; lia. Qed.

(** The number of digits is determined by the binade. *)
Lemma Zdigits2_unique (m d : Z) :
  0 < m -> 2 ^ (d - 1) <= m < 2 ^ d -> 0 < d -> Zdigits2 m = d.
Proof.
  intros Hm [Hlo Hhi] Hd.
  destruct (Zdigits2_bounds m Hm) as [Hlo' Hhi'].
  pose proof (Zdigits2_pos m Hm) as Hp.
  destruct (Z.lt_trichotomy (Zdigits2 m) d) as [Hlt|[Heq|Hgt]]; [|exact Heq|].
  - assert (2 ^ Zdigits2 m <= 2 ^ (d - 1)) by (apply Z.pow_le_mono_r; lia). lia.
  - assert (2 ^ d <= 2 ^ (Zdigits2 m - 1)) by (apply Z.pow_le_mono_r; lia). lia.
Qed.

Lemma Zdigits2_le (m d : Z) : 0 <= m -> 0 <= d -> m < 2 ^ d -> Zdigits2 m <= d.
Proof.
  intros Hm Hd Hlt. destruct (Z.eq_dec m 0) as [->|Hne]; [simpl; lia|].
  destruct (Zdigits2_bounds m ltac:(lia)) as [Hlo _].
  destruct (Z.le_gt_cases (Zdigits2 m) d) as [Hle|Hgt]; [exact Hle|].
  assert (2 ^ d <= 2 ^ (Zdigits2 m - 1)) by (apply Z.pow_le_mono_r; lia). lia.
Qed.

Lemma Zdigits2_ge (m d : Z) : 0 < d -> 2 ^ (d - 1) <= m -> d <= Zdigits2 m.
Proof.
  intros Hd Hge.
  assert (0 < 2 ^ (d - 1)) by (apply Z.pow_pos_nonneg; lia).
  destruct (Zdigits2_bounds m ltac:(lia)) as [_ Hhi].
  destruct (Z.le_gt_cases d (Zdigits2 m)) as [Hle|Hgt]; [exact Hle|].
  assert (2 ^ Zdigits2 m <= 2 ^ (d - 1))
    by (apply Z.pow_le_mono_r; [lia|]; pose proof (Zdigits2_nonneg m); lia).
  lia.
Qed.

(** One step of the right shift halves the mantissa and keeps locating the
    same rational over a doubled denominator. *)
Lemma shr_1_locates (m : Z) (r s : bool) (n d : Z) :
  0 <= m -> locates m r s n d ->
  let mrs := shr_1 (Build_shr_record m r s) in
  shr_m mrs = m / 2 /\ locates (shr_m mrs) (shr_r mrs) (shr_s mrs) n (2 * d).
Proof.
  intros Hm [Hd Hloc]. cbv zeta.
  destruct m as [|p|p]; [| |lia].
  - cbn [shr_1 shr_m shr_r shr_s]. split; [reflexivity|]. split; [lia|].
    destruct r, s; cbn [orb]; lia.
  - destruct p as [p|p|]; cbn [shr_1 shr_m shr_r shr_s].
    + split; [rewrite Pos2Z.inj_xI; apply Z.div_unique with 1; lia|].
      split; [lia|]. rewrite Pos2Z.inj_xI in Hloc.
      destruct r, s; cbn [orb]; nia.
    + split; [rewrite Pos2Z.inj_xO; apply Z.div_unique with 0; lia|].
      split; [lia|]. rewrite Pos2Z.inj_xO in Hloc.
      destruct r, s; cbn [orb]; nia.
    + split; [reflexivity|]. split; [lia|].
      destruct r, s; cbn [orb]; nia.
Qed.

Lemma pow2_xI (k : positive) :
  2 ^ Z.pos k~1 = 2 * (2 ^ Z.pos k * 2 ^ Z.pos k).
Proof.
  replace (Z.pos k~1) with (Z.pos k + Z.pos k + 1) by lia.
  rewrite !Z.pow_add_r by lia. change (2 ^ 1) with 2. lia.
Qed.

Lemma pow2_xO (k : positive) : 2 ^ Z.pos k~0 = 2 ^ Z.pos k * 2 ^ Z.pos k.
Proof.
  replace (Z.pos k~0) with (Z.pos k + Z.pos k) by lia.
  now rewrite Z.pow_add_r by lia.
Qed.

Lemma iter_pos_shr_1_locates (k : positive) :
  forall (m : Z) (r s : bool) (n d : Z),
    0 <= m -> locates m r s n d ->
    let mrs := iter_pos shr_1 k (Build_shr_record m r s) in
    shr_m mrs = m / 2 ^ Z.pos k
    /\ locates (shr_m mrs) (shr_r mrs) (shr_s mrs) n (2 ^ Z.pos k * d).
Proof.
  induction k as [k IH|k IH|]; intros m r s n d Hm Hloc; cbn [iter_pos]; cbv zeta.
  - destruct (shr_1_locates m r s n d Hm Hloc) as [Hm1 Hl1].
    destruct (shr_1 (Build_shr_record m r s)) as [m1 r1 s1].
    cbn [shr_m shr_r shr_s] in *.
    assert (Hm1' : 0 <= m1) by (subst m1; apply Z.div_pos; lia).
    destruct (IH m1 r1 s1 n (2 * d) Hm1' Hl1) as [Hm2 Hl2].
    destruct (iter_pos shr_1 k (Build_shr_record m1 r1 s1)) as [m2 r2 s2].
    cbn [shr_m shr_r shr_s] in *.
    assert (Hm2' : 0 <= m2) by (subst m2; apply Z.div_pos; [|apply Z.pow_pos_nonneg]; lia).
    destruct (IH m2 r2 s2 n _ Hm2' Hl2) as [Hm3 Hl3].
    split.
    + rewrite Hm3, Hm2, Hm1. rewrite !Z.div_div by (try apply Z.pow_pos_nonneg; lia).
      f_equal. rewrite pow2_xI. reflexivity.
    + replace (2 ^ Z.pos k~1 * d) with (2 ^ Z.pos k * (2 ^ Z.pos k * (2 * d)));
        [exact Hl3|].
      rewrite pow2_xI. lia.
  - destruct (IH m r s n d Hm Hloc) as [Hm2 Hl2].
    destruct (iter_pos shr_1 k (Build_shr_record m r s)) as [m2 r2 s2].
    cbn [shr_m shr_r shr_s] in *.
    assert (Hm2' : 0 <= m2) by (subst m2; apply Z.div_pos; [|apply Z.pow_pos_nonneg]; lia).
    destruct (IH m2 r2 s2 n _ Hm2' Hl2) as [Hm3 Hl3].
    split.
    + rewrite Hm3, Hm2. rewrite !Z.div_div by (try apply Z.pow_pos_nonneg; lia).
      f_equal. rewrite pow2_xO. reflexivity.
    + replace (2 ^ Z.pos k~0 * d) with (2 ^ Z.pos k * (2 ^ Z.pos k * d));
        [exact Hl3|].
      rewrite pow2_xO. lia.
  - destruct (shr_1_locates m r s n d Hm Hloc) as [Hm1 Hl1].
    split; [exact Hm1|]. exact Hl1.
Qed.

Lemma shr_locates (m : Z) (r s : bool) (n d e k : Z) :
  0 <= m -> locates m r s n d -> 0 <= k ->
  let res := shr (Build_shr_record m r s) e k in
  snd res = e + k
  /\ shr_m (fst res) = m / 2 ^ k
  /\ locates (shr_m (fst res)) (shr_r (fst res)) (shr_s (fst res)) n (2 ^ k * d).
Proof.
  intros Hm Hloc Hk. cbv zeta. destruct k as [|p|p]; [| |lia].
  - cbn [shr fst snd shr_m shr_r shr_s]. rewrite Z.add_0_r, Z.div_1_r.
    change (2 ^ 0) with 1. rewrite Z.mul_1_l. auto.
  - cbn [shr fst snd].
    destruct (iter_pos_shr_1_locates p m r s n d Hm Hloc) as [H1 H2]. auto.
Qed.

Lemma round_locates (m : Z) (r s : bool) (n d : Z) :
  locates m r s n d ->
  let Rm := round_nearest_even m (loc_of_shr_record (Build_shr_record m r s)) in
  (Rm = m \/ Rm = m + 1)
  /\ 2 * (Rm * d - n) <= d /\ 2 * (n - Rm * d) <= d
  /\ m * d <= n < (m + 1) * d
  /\ (Rm = m + 1 -> m * d < n).
Proof.
  intros [Hd Hloc]. cbv zeta.
  destruct r, s; cbn [loc_of_shr_record round_nearest_even];
    try destruct (Z.even m); repeat split; nia.
Qed.

Lemma fexp64_ge_emin (e : Z) : (-1074) <= fexp64 e.
Proof. unfold fexp64. lia. Qed.

Theorem binary_round_aux_spec (sx : bool) (mx ex : Z) (lx : location)
        (n d : Z) :
  0 <= mx ->
  ex <= fexp64 (Zdigits2 mx + ex) ->
  locates mx (shr_r (shr_record_of_loc mx lx)) (shr_s (shr_record_of_loc mx lx))
          n d ->
  exists Rm e1,
    rounded mx ex n d Rm e1
    /\ binary_round_aux prec emax sx mx ex lx = pack sx Rm e1.
Proof.
  intros Hmx Hex Hloc.
  set (e1 := fexp64 (Zdigits2 mx + ex)).
  set (k := e1 - ex).
  assert (Hk : 0 <= k) by (unfold k, e1; lia).
  assert (Hpk : 0 < 2 ^ k) by (apply Z.pow_pos_nonneg; lia).
  (* first shift *)
  assert (Hrec : shr_record_of_loc mx lx
                 = Build_shr_record mx (shr_r (shr_record_of_loc mx lx))
                                    (shr_s (shr_record_of_loc mx lx))).
  { destruct lx as [|[| |]]; reflexivity. }
  destruct (shr_locates mx _ _ n d ex k Hmx Hloc Hk) as (He' & Hm' & Hl').
  rewrite <- Hrec in He', Hm', Hl'.
  unfold binary_round_aux, shr_fexp. change (fexp prec emax) with fexp64.
  fold e1. fold k.
  destruct (shr (shr_record_of_loc mx lx) ex k) as [mrs' e'].
  cbn [fst snd] in He', Hm', Hl'.
  replace e' with e1 in * by (unfold k in He'; lia). clear He'.
  destruct mrs' as [m r s]. cbn [shr_m shr_r shr_s] in Hm', Hl'.
  cbn [shr_m].
  destruct (round_locates m r s n (2 ^ k * d) Hl')
    as (Hcand & Hup & Hdown & Hfloor & Hstrict).
  set (Rm := round_nearest_even m (loc_of_shr_record (Build_shr_record m r s))) in *.
  (* digits of the shifted mantissa *)
  assert (Hm53 : m < 2 ^ 53).
  { subst m. destruct (Z.eq_dec mx 0) as [->|Hne].
    - rewrite Z.div_0_l by lia. lia.
    - destruct (Zdigits2_bounds mx ltac:(lia)) as [_ Hhi].
      apply Z.div_lt_upper_bound; [exact Hpk|].
      assert (Hle : Zdigits2 mx <= 53 + k) by (unfold k, e1, fexp64; lia).
      assert (2 ^ Zdigits2 mx <= 2 ^ (53 + k)).
      { apply Z.pow_le_mono_r; [lia|exact Hle]. }
      rewrite Z.pow_add_r in H by lia. lia. }
  assert (Hm0 : 0 <= m) by (subst m; apply Z.div_pos; lia).
  assert (Hnorm : 2 ^ 52 <= m \/ e1 = (-1074)).
  { destruct (Z.eq_dec e1 (-1074)) as [Heq|Hne]; [now right|left].
    assert (He1 : e1 = Zdigits2 mx + ex - 53) by (unfold e1, fexp64 in *; lia).
    assert (Hmxpos : 0 < mx).
    { destruct (Z.eq_dec mx 0) as [->|]; [|lia].
      cbn [Zdigits2] in *. unfold e1, fexp64 in *. lia. }
    destruct (Zdigits2_bounds mx Hmxpos) as [Hlo _].
    subst m. apply Z.div_le_lower_bound; [exact Hpk|].
    replace (Zdigits2 mx - 1) with (k + 52) in Hlo by (unfold k; lia).
    rewrite Z.pow_add_r in Hlo by lia. lia. }
  exists Rm, e1. split.
  { constructor; fold k; rewrite <- ?Hm'; solve [assumption|reflexivity]. }
  (* second shift *)
  assert (He1min : (-1074) <= e1) by apply fexp64_ge_emin.
  unfold pack.
  destruct (Z.eqb_spec Rm 0) as [HR0|HR0].
  { rewrite HR0. cbn [Zdigits2 shr_record_of_loc].
    assert (Hk2 : fexp64 (0 + e1) - e1 <= 0) by (unfold fexp64; lia).
    destruct (fexp64 (0 + e1) - e1) as [|p|p] eqn:E; try lia; reflexivity. }
  assert (HRpos : 0 < Rm) by lia.
  destruct (Z.eqb_spec Rm (2 ^ 53)) as [HR53|HR53].
  { rewrite HR53.
    assert (Hd54 : Zdigits2 (2 ^ 53) = 54) by reflexivity.
    rewrite Hd54.
    assert (Hk2 : fexp64 (54 + e1) - e1 = 1) by (unfold fexp64; lia).
    rewrite Hk2. cbn [shr_record_of_loc shr iter_pos].
    change (shr_1 {| shr_m := 2 ^ 53; shr_r := false; shr_s := false |})
      with {| shr_m := 2 ^ 52; shr_r := false; shr_s := false |}.
    cbn [shr_m]. change (2 ^ 52) with (Z.pos (Z.to_pos (2 ^ 52))) at 1.
    cbv iota. reflexivity. }
  assert (HR53' : Rm < 2 ^ 53) by lia.
  assert (Hk2 : fexp64 (Zdigits2 Rm + e1) - e1 <= 0).
  { assert (Zdigits2 Rm <= 53) by (apply Zdigits2_le; lia).
    unfold fexp64. lia. }
  assert (Hshr : shr (shr_record_of_loc Rm loc_Exact) e1
                     (fexp64 (Zdigits2 Rm + e1) - e1)
                 = (shr_record_of_loc Rm loc_Exact, e1)).
  { destruct (fexp64 (Zdigits2 Rm + e1) - e1) as [|p|p]; try lia; reflexivity. }
  rewrite Hshr. cbn [shr_record_of_loc shr_m].
  destruct Rm as [|p|p]; try lia. cbn [Z.to_pos]. reflexivity.
Qed.

Lemma canon_bounds (m0 e0 : Z) :
  canon m0 e0 -> m0 < 2 ^ 53 /\ (-1074) <= e0 /\ (2 ^ 52 <= m0 \/ e0 = (-1074)).
Proof.
  intros (Hm & Hc & He).
  pose proof (Zdigits2_pos m0 Hm) as Hd.
  destruct (Zdigits2_bounds m0 Hm) as [Hlo Hhi].
  assert (Hd53 : Zdigits2 m0 <= 53) by (unfold fexp64 in Hc; lia).
  split; [|split].
  - assert (2 ^ Zdigits2 m0 <= 2 ^ 53) by (apply Z.pow_le_mono_r; lia). lia.
  - unfold fexp64 in Hc. lia.
  - destruct (Z.eq_dec e0 (-1074)) as [|Hne]; [now right|left].
    assert (Zdigits2 m0 = 53) by (unfold fexp64 in Hc; lia).
    replace (Zdigits2 m0 - 1) with 52 in Hlo by lia. exact Hlo.
Qed.

Lemma mul_cancel_le (a b D : Z) : 0 < D -> a * D <= b * D -> a <= b.
Proof. intros HD H. nia. Qed.

Lemma mul_cancel_lt (a b D : Z) : 0 < D -> a * D < b * D -> a < b.
Proof. intros HD H. nia. Qed.

Section Grid.

Variables (mx ex n d Rm e1 O : Z).

Hypothesis Hr : rounded mx ex n d Rm e1.

Hypothesis Hmx : 0 <= mx.

Hypothesis Hd : 0 < d.

Hypothesis HO : 1074 <= O.

Hypothesis HexO : 0 <= ex + O.

Hypothesis Hex : ex <= e1.

Let k := e1 - ex.

Let m := mx / 2 ^ k.

Let D := 2 ^ k * d.

Let U := 2 ^ (e1 + O).

Lemma grid_facts :
  0 < 2 ^ k /\ 0 < D /\ 0 < U /\ 0 <= m /\ 2 ^ (ex + O) * 2 ^ k = U
  /\ (Rm = m \/ Rm = m + 1) /\ m * D <= n < (m + 1) * D
  /\ (Rm = m + 1 -> m * D < n)
  /\ (2 ^ 52 <= m \/ e1 = (-1074)) /\ m < 2 ^ 53.
Proof.
  destruct Hr as [He1 Hcand _ _ Hfloor Hup Hnorm Hdig].
  fold k in Hcand, Hfloor, Hup, Hnorm, Hdig.
  fold m in Hcand, Hfloor, Hup, Hnorm, Hdig. fold D in Hfloor, Hup.
  assert (Hpk : 0 < 2 ^ k) by (apply Z.pow_pos_nonneg; unfold k; lia).
  assert (HD : 0 < D) by (unfold D; nia).
  assert (HU : 0 < U) by (apply Z.pow_pos_nonneg; lia).
  assert (Hm : 0 <= m) by (apply Z.div_pos; lia).
  assert (HUk : 2 ^ (ex + O) * 2 ^ k = U).
  { unfold U, k. rewrite <- Z.pow_add_r by lia. f_equal. lia. }
  auto 12.
Qed.

(** No value of the format lies strictly between the two candidates. *)
Lemma grid_gap (M0 : Z) :
  gridval O M0 -> m * U < M0 -> (m + 1) * U <= M0.
Proof.
  destruct grid_facts as (Hpk & HD & HU & Hm & HUk & _ & _ & _ & Hnorm & _).
  intros [->|(m0 & e0 & Hc & ->)] Hgt; [nia|].
  destruct (canon_bounds m0 e0 Hc) as (Hm53 & Hemin & _).
  destruct Hc as (Hm0 & _ & _).
  destruct (Z.le_gt_cases e1 e0) as [Hle|Hlt].
  - assert (HM0 : m0 * 2 ^ (e0 + O) = m0 * 2 ^ (e0 - e1) * U).
    { unfold U. rewrite <- Z.mul_assoc, <- Z.pow_add_r by lia.
      do 2 f_equal. lia. }
    rewrite HM0 in *.
    assert (m < m0 * 2 ^ (e0 - e1)) by (apply (mul_cancel_lt _ _ U); lia).
    assert (m + 1 <= m0 * 2 ^ (e0 - e1)) by lia.
    apply Z.mul_le_mono_nonneg_r; lia.
  - exfalso. destruct Hnorm as [Hn|Hn]; [|lia].
    assert (H1 : 2 ^ (e0 + O + 1) <= U).
    { unfold U. apply Z.pow_le_mono_r; lia. }
    rewrite Z.pow_add_r in H1 by lia. change (2 ^ 1) with 2 in H1.
    assert (0 < 2 ^ (e0 + O)) by (apply Z.pow_pos_nonneg; lia).
    assert (m0 * 2 ^ (e0 + O) < 2 ^ 53 * 2 ^ (e0 + O))
      by (apply Z.mul_lt_mono_pos_r; lia).
    assert (2 ^ 52 * U <= m * U) by (apply Z.mul_le_mono_nonneg_r; lia).
    change (2 ^ 53) with (2 ^ 52 * 2) in *. nia.
Qed.

(** A bound from above by a value of the format is kept by the rounding. *)
Lemma rounded_le (M0 : Z) :
  gridval O M0 -> n * 2 ^ (ex + O) <= M0 * d -> Rm * U <= M0.
Proof.
  destruct grid_facts as (Hpk & HD & HU & Hm & HUk & Hcand & Hfloor & Hup & _).
  intros Hg Hle.
  assert (HnU : n * U <= M0 * D).
  { rewrite <- HUk. unfold D. nia. }
  destruct Hcand as [HR|HR]; rewrite HR.
  - apply (mul_cancel_le _ _ D); [exact HD|]. nia.
  - apply grid_gap; [exact Hg|].
    apply (mul_cancel_lt _ _ D); [exact HD|]. specialize (Hup HR). nia.
Qed.

(** A bound from below by a value of the format is kept by the rounding. *)
Lemma rounded_ge (M0 : Z) :
  gridval O M0 -> M0 * d <= n * 2 ^ (ex + O) -> M0 <= Rm * U.
Proof.
  destruct grid_facts as (Hpk & HD & HU & Hm & HUk & Hcand & Hfloor & Hup & _).
  intros Hg Hge.
  assert (HnU : M0 * D <= n * U).
  { rewrite <- HUk. unfold D. nia. }
  destruct Hcand as [HR|HR]; rewrite HR.
  - destruct (Z.le_gt_cases M0 (m * U)) as [Hle|Hgt]; [exact Hle|].
    pose proof (grid_gap M0 Hg Hgt) as Hgap.
    exfalso. assert ((m + 1) * U * D <= n * U) by nia.
    assert (n * U < (m + 1) * D * U) by (apply Z.mul_lt_mono_pos_r; lia).
    lia.
  - apply (mul_cancel_le _ _ D); [exact HD|]. nia.
Qed.

(** The packed result has the value of the candidate, unless it is
    infinite, and is infinite only from [2^1024] on. *)
Lemma pack_value (sx : bool) :
  0 <= Rm <= 2 ^ 53 ->
  (is_fin (pack sx Rm e1) = true /\ magO O (pack sx Rm e1) = Rm * U)
  \/ (is_inf (pack sx Rm e1) = true /\ 2 ^ (1024 + O) <= Rm * U).
Proof.
  destruct grid_facts as (Hpk & HD & HU & Hm & HUk & Hcand & _ & _ & Hnorm & Hm53).
  intros HR. unfold pack.
  destruct (Z.eqb_spec Rm 0) as [HR0|HR0];
    [left; split; [reflexivity|rewrite HR0; simpl; lia]|].
  destruct (Z.eqb_spec Rm (2 ^ 53)) as [HR53|HR53].
  - destruct (Z.leb_spec (e1 + 1) 971).
    + left. split; [reflexivity|]. cbn [magO]. rewrite HR53.
      rewrite Z2Pos.id by lia. unfold U.
      replace (e1 + 1 + O) with (1 + (e1 + O)) by lia.
      rewrite Z.pow_add_r by lia. change (2 ^ 53) with (2 ^ 52 * 2 ^ 1). lia.
    + right. split; [reflexivity|]. rewrite HR53.
      assert (2 ^ (971 + O) <= U) by (unfold U; apply Z.pow_le_mono_r; lia).
      replace (1024 + O) with (53 + (971 + O)) by lia.
      rewrite Z.pow_add_r by lia. nia.
  - destruct (Z.leb_spec e1 971).
    + left. split; [reflexivity|]. cbn [magO]. rewrite Z2Pos.id by lia.
      reflexivity.
    + right. split; [reflexivity|].
      destruct Hnorm as [Hn|Hn]; [|lia].
      assert (2 ^ (972 + O) <= U) by (unfold U; apply Z.pow_le_mono_r; lia).
      replace (1024 + O) with (52 + (972 + O)) by lia.
      rewrite Z.pow_add_r by lia.
      assert (2 ^ 52 <= Rm) by lia. nia.
Qed.

End Grid.

Lemma gridval_lt_top (O M0 : Z) : 1074 <= O -> gridval O M0 -> M0 < 2 ^ (1024 + O).
Proof.
  intros HO [->|(m0 & e0 & Hc & ->)]; [apply Z.pow_pos_nonneg; lia|].
  destruct (canon_bounds m0 e0 Hc) as (Hm53 & Hemin & _).
  destruct Hc as (Hm0 & _ & He0).
  assert (2 ^ (e0 + O) <= 2 ^ (971 + O)) by (apply Z.pow_le_mono_r; idtac; lia).
  assert (0 < 2 ^ (e0 + O)) by (apply Z.pow_pos_nonneg; idtac; lia).
  replace (1024 + O) with (53 + (971 + O)) by lia.
  rewrite (Z.pow_add_r 2 53 (971 + O)) by lia.
  assert (m0 * 2 ^ (e0 + O) <= m0 * 2 ^ (971 + O))
    by (apply Z.mul_le_mono_nonneg_l; lia).
  assert (m0 * 2 ^ (971 + O) < 2 ^ 53 * 2 ^ (971 + O))
    by (apply Z.mul_lt_mono_pos_r; lia).
  lia.
Qed.

Lemma sgn_pack (sx : bool) (Rm e1 : Z) : sgn (pack sx Rm e1) = sx.
Proof.
  unfold pack. destruct (Rm =? 0); [reflexivity|].
  destruct (Rm =? 2 ^ 53).
  - destruct (e1 + 1 <=? 971); reflexivity.
  - destruct (e1 <=? 971); reflexivity.
Qed.

Lemma expo_pack (sx : bool) (Rm e1 : Z) : -1074 <= e1 -> -1074 <= expo (pack sx Rm e1).
Proof.
  intros He. unfold pack. destruct (Rm =? 0); [simpl; lia|].
  destruct (Rm =? 2 ^ 53).
  - destruct (e1 + 1 <=? 971); simpl; lia.
  - destruct (e1 <=? 971); simpl; lia.
Qed.

Lemma is_fin_not_inf (x : spec_float) :
  is_fin x = true -> is_inf x = true -> False.
Proof. destruct x; discriminate. Qed.

(** Bounds on the exact value by values of the format are bounds on the
    rounded result, which is then finite. *)
Theorem binary_round_aux_bounds (sx : bool) (mx ex : Z) (lx : location)
        (n d O lo hi : Z) :
  0 <= mx ->
  ex <= fexp64 (Zdigits2 mx + ex) ->
  locates mx (shr_r (shr_record_of_loc mx lx)) (shr_s (shr_record_of_loc mx lx))
          n d ->
  1074 <= O -> 0 <= ex + O ->
  gridval O (Z.abs lo) -> gridval O (Z.abs hi) ->
  lo * d <= (if sx then - n else n) * 2 ^ (ex + O) <= hi * d ->
  let z := binary_round_aux prec emax sx mx ex lx in
  is_fin z = true /\ lo <= svalO O z <= hi /\ sgn z = sx /\ -1074 <= expo z.
Proof.
  intros Hmx Hex Hloc HO HexO Hglo Hghi Hb. cbv zeta.
  destruct (binary_round_aux_spec sx mx ex lx n d Hmx Hex Hloc)
    as (Rm & e1 & Hr & ->).
  assert (Hd : 0 < d) by (destruct Hloc; assumption).
  assert (He1 : ex <= e1) by (rewrite (rd_exp _ _ _ _ _ _ Hr); exact Hex).
  destruct (grid_facts mx ex n d Rm e1 O Hr Hmx Hd HexO He1)
    as (Hpk & HD & HU & Hm & HUk & Hcand & Hfloor & Hup & Hnorm & Hm53).
  assert (HR : 0 <= Rm <= 2 ^ 53) by lia.
  assert (Hn : 0 <= n) by nia.
  assert (Hp : 0 < 2 ^ (ex + O)) by (apply Z.pow_pos_nonneg; lia).
  pose proof (pack_value mx ex n d Rm e1 O Hr Hmx Hd HO HexO He1 sx HR) as Hpack.
  assert (Hexpo : -1074 <= expo (pack sx Rm e1)).
  { apply expo_pack. rewrite (rd_exp _ _ _ _ _ _ Hr). apply fexp64_ge_emin. }
  unfold svalO. rewrite sgn_pack.
  destruct sx.
  - (* negative result *)
    assert (Hlo0 : lo <= 0) by nia.
    assert (Habs : Z.abs lo = - lo) by lia. rewrite Habs in Hglo.
    assert (Hle : Rm * 2 ^ (e1 + O) <= - lo).
    { apply (rounded_le mx ex n d Rm e1 O Hr Hmx Hd HO HexO He1 (- lo) Hglo). nia. }
    pose proof (gridval_lt_top O (- lo) HO Hglo) as Htop.
    destruct Hpack as [[Hfin Hmag]|[Hinf Hbig]]; [|lia].
    split; [exact Hfin|]. split; [|split; [reflexivity|exact Hexpo]].
    rewrite Hmag. split; [lia|].
    destruct (Z.le_gt_cases 0 hi) as [Hhi|Hhi]; [nia|].
    assert (Habsh : Z.abs hi = - hi) by lia. rewrite Habsh in Hghi.
    assert (Hge : - hi <= Rm * 2 ^ (e1 + O)).
    { apply (rounded_ge mx ex n d Rm e1 O Hr Hmx Hd HO HexO He1 (- hi) Hghi). nia. }
    lia.
  - (* positive result *)
    assert (Hhi0 : 0 <= hi) by nia.
    assert (Habs : Z.abs hi = hi) by lia. rewrite Habs in Hghi.
    assert (Hle : Rm * 2 ^ (e1 + O) <= hi).
    { apply (rounded_le mx ex n d Rm e1 O Hr Hmx Hd HO HexO He1 hi Hghi). nia. }
    pose proof (gridval_lt_top O hi HO Hghi) as Htop.
    destruct Hpack as [[Hfin Hmag]|[Hinf Hbig]]; [|lia].
    split; [exact Hfin|]. split; [|split; [reflexivity|exact Hexpo]].
    rewrite Hmag. split; [|lia].
    destruct (Z.le_gt_cases lo 0) as [Hlo|Hlo]; [nia|].
    assert (Habsl : Z.abs lo = lo) by lia. rewrite Habsl in Hglo.
    apply (rounded_ge mx ex n d Rm e1 O Hr Hmx Hd HO HexO He1 lo Hglo). nia.
Qed.

(** ** [binary_round] and [binary_normalize] *)

Lemma iter_xO_spec (d mx : positive) :
  Z.pos (Pos.iter xO mx d) = Z.pos mx * 2 ^ Z.pos d.
Proof.
  induction d as [|d IH] using Pos.peano_ind.
  - cbn [Pos.iter]. lia.
  - rewrite Pos.iter_succ, Pos2Z.inj_xO, IH, Pos2Z.inj_succ.
    rewrite Z.pow_succ_r by lia. lia.
Qed.

Lemma shl_align_spec (mx : positive) (ex ex' : Z) :
  snd (shl_align mx ex ex') = Z.min ex ex'
  /\ Z.pos (fst (shl_align mx ex ex'))
     = Z.pos mx * 2 ^ (ex - Z.min ex ex').
Proof.
  unfold shl_align. destruct (ex' - ex) as [|p|p] eqn:E; cbn [fst snd].
  - split; [lia|]. replace (ex - Z.min ex ex') with 0 by lia. lia.
  - split; [lia|]. replace (ex - Z.min ex ex') with 0 by lia. lia.
  - split; [lia|]. rewrite iter_xO_spec. f_equal. f_equal. lia.
Qed.

Lemma Zdigits2_shift (m j : Z) :
  0 < m -> 0 <= j -> Zdigits2 (m * 2 ^ j) = Zdigits2 m + j.
Proof.
  intros Hm Hj. pose proof (Zdigits2_pos m Hm) as Hd.
  destruct (Zdigits2_bounds m Hm) as [Hlo Hhi].
  assert (Hp : 0 < 2 ^ j) by (apply Z.pow_pos_nonneg; lia).
  apply Zdigits2_unique; [nia| |lia].
  replace (Zdigits2 m + j - 1) with (Zdigits2 m - 1 + j) by lia.
  rewrite !Z.pow_add_r by lia. split; nia.
Qed.

Theorem binary_round_bounds (sx : bool) (mx : positive) (ex O lo hi : Z) :
  1074 <= O -> 0 <= ex + O ->
  gridval O (Z.abs lo) -> gridval O (Z.abs hi) ->
  lo <= (if sx then - Z.pos mx else Z.pos mx) * 2 ^ (ex + O) <= hi ->
  let z := binary_round prec emax sx mx ex in
  is_fin z = true /\ lo <= svalO O z <= hi /\ sgn z = sx /\ -1074 <= expo z.
Proof.
  intros HO HexO Hglo Hghi Hb. cbv zeta. unfold binary_round.
  change (fexp prec emax) with fexp64.
  destruct (shl_align_spec mx ex (fexp64 (Z.pos (digits2_pos mx) + ex)))
    as [Hez Hmz].
  destruct (shl_align mx ex (fexp64 (Z.pos (digits2_pos mx) + ex))) as [mz ez].
  cbn [fst snd] in Hez, Hmz.
  assert (Hj : 0 <= ex - ez) by lia.
  assert (Hdig : Zdigits2 (Z.pos mz) + ez = Z.pos (digits2_pos mx) + ex).
  { rewrite Hmz, Hez.
    rewrite Zdigits2_shift by lia. cbn [Zdigits2]. lia. }
  assert (Hemin : -1074 <= fexp64 (Z.pos (digits2_pos mx) + ex))
    by apply fexp64_ge_emin.
  apply (binary_round_aux_bounds sx (Z.pos mz) ez loc_Exact (Z.pos mz) 1 O lo hi);
    try assumption; try lia.
  - rewrite Hdig. lia.
  - cbn [shr_record_of_loc shr_r shr_s]. split; lia.
  - rewrite !Z.mul_1_r.
    assert (Hval : Z.pos mz * 2 ^ (ez + O) = Z.pos mx * 2 ^ (ex + O)).
    { rewrite Hmz, <- Hez, <- Z.mul_assoc, <- Z.pow_add_r by lia.
      do 2 f_equal. lia. }
    destruct sx; lia.
Qed.

Theorem binary_normalize_bounds (m e O lo hi : Z) (sz : bool) :
  1074 <= O -> 0 <= e + O ->
  gridval O (Z.abs lo) -> gridval O (Z.abs hi) ->
  lo <= m * 2 ^ (e + O) <= hi ->
  let z := binary_normalize prec emax m e sz in
  is_fin z = true /\ lo <= svalO O z <= hi
  /\ (m <> 0 -> sgn z = (m <? 0)) /\ (m = 0 -> z = S754_zero sz).
Proof.
  intros HO HeO Hglo Hghi Hb. cbv zeta. destruct m as [|p|p]; cbn [binary_normalize].
  - split; [reflexivity|]. unfold svalO. cbn [magO sgn].
    split; [destruct sz; lia|]. split; [intros H; now elim H|reflexivity].
  - destruct (binary_round_bounds false p e O lo hi HO HeO Hglo Hghi Hb)
      as (Hfin & Hval & Hsgn & _).
    split; [exact Hfin|]. split; [exact Hval|].
    split; [intros _; exact Hsgn|discriminate].
  - destruct (binary_round_bounds true p e O lo hi HO HeO Hglo Hghi)
      as (Hfin & Hval & Hsgn & _); [rewrite <- Pos2Z.opp_pos in Hb; exact Hb|].
    split; [exact Hfin|]. split; [exact Hval|].
    split; [intros _; exact Hsgn|discriminate].
Qed.

Lemma Sc_pos : 0 < Sc.
Proof. unfold Sc. apply Z.pow_pos_nonneg; lia. Qed.

Lemma valid_canon (s : bool) (m : positive) (e : Z) :
  valid_binary (S754_finite s m e) = true -> canon (Z.pos m) e.
Proof.
  cbn [SpecFloat.valid_binary]. unfold bounded, canonical_mantissa.
  change (fexp prec emax) with fexp64. change (emax - prec) with 971.
  intros H. apply andb_true_iff in H as [Hc He].
  apply Z.eqb_eq in Hc. apply Z.leb_le in He.
  split; [lia|]. split; [exact Hc|exact He].
Qed.

Lemma fin64_gridval (x : spec_float) :
  fin64 x -> gridval 1074 (Z.abs (sval x)).
Proof.
  intros [Hfin Hval]. destruct x as [s|s| |s m e]; try discriminate.
  - left. unfold sval, svalO. cbn [sgn magO]. destruct s; reflexivity.
  - right. exists (Z.pos m), e. split; [now apply valid_canon in Hval|].
    unfold sval, svalO. cbn [sgn magO].
    assert (0 <= 2 ^ (e + 1074)) by (apply Z.pow_nonneg; lia).
    destruct s; lia.
Qed.

Lemma gridval_scale (O j M0 : Z) :
  1074 <= O -> 0 <= j -> gridval O M0 -> gridval (O + j) (M0 * 2 ^ j).
Proof.
  intros HO Hj [->|(m0 & e0 & Hc & ->)]; [now left|right].
  exists m0, e0. split; [exact Hc|].
  destruct (canon_bounds m0 e0 Hc) as (_ & Hemin & _).
  rewrite <- Z.mul_assoc, <- Z.pow_add_r by lia. do 2 f_equal. lia.
Qed.

Lemma fin64_exp (s : bool) (m : positive) (e : Z) :
  fin64 (S754_finite s m e) -> -1074 <= e <= 971 /\ Z.pos m < 2 ^ 53.
Proof.
  intros [_ Hval]. apply valid_canon in Hval.
  destruct (canon_bounds _ _ Hval) as (H1 & H2 & _).
  destruct Hval as (_ & _ & H3). lia.
Qed.

Lemma sval_finite (s : bool) (m : positive) (e : Z) :
  sval (S754_finite s m e)
  = (if s then - Z.pos m else Z.pos m) * 2 ^ (e + 1074).
Proof. unfold sval, svalO. cbn [sgn magO]. destruct s; lia. Qed.

Lemma sval_zero (s : bool) : sval (S754_zero s) = 0.
Proof. unfold sval, svalO. cbn [sgn magO]. destruct s; reflexivity. Qed.

Lemma cond_Zopp_spec (s : bool) (m : Z) :
  cond_Zopp s m = if s then - m else m.
Proof. reflexivity. Qed.

Lemma aligned_value (s : bool) (m : positive) (e ez : Z) :
  -1074 <= ez <= e ->
  cond_Zopp s (Z.pos (fst (shl_align m e ez))) * 2 ^ (ez + 1074)
  = sval (S754_finite s m e).
Proof.
  intros He. destruct (shl_align_spec m e ez) as [_ Hm].
  rewrite Hm, sval_finite, cond_Zopp_spec.
  replace (Z.min e ez) with ez by lia.
  assert (Hp : 2 ^ (e - ez) * 2 ^ (ez + 1074) = 2 ^ (e + 1074)).
  { rewrite <- Z.pow_add_r by lia. f_equal. lia. }
  destruct s; rewrite <- Hp; ring.
Qed.

Theorem SFadd_bounds (x y : spec_float) (lo hi : Z) :
  fin64 x -> fin64 y ->
  gridval 1074 (Z.abs lo) -> gridval 1074 (Z.abs hi) ->
  lo <= sval x + sval y <= hi ->
  is_fin (SFadd prec emax x y) = true
  /\ lo <= sval (SFadd prec emax x y) <= hi.
Proof.
  intros Hx Hy Hglo Hghi Hb.
  destruct x as [sx|sx| |sx mx ex]; try (destruct Hx; discriminate);
    destruct y as [sy|sy| |sy my ey]; try (destruct Hy; discriminate).
  - rewrite !sval_zero in Hb. cbn [SFadd].
    destruct sx, sy; (split; [reflexivity|rewrite sval_zero; lia]).
  - rewrite sval_zero in Hb. cbn [SFadd]. split; [reflexivity|lia].
  - rewrite sval_zero in Hb. cbn [SFadd]. split; [reflexivity|lia].
  - cbn [SFadd]. cbv zeta.
    destruct (fin64_exp _ _ _ Hx) as [Hex _].
    destruct (fin64_exp _ _ _ Hy) as [Hey _].
    set (ez := Z.min ex ey).
    edestruct (binary_normalize_bounds
                 (cond_Zopp sx (Z.pos (fst (shl_align mx ex ez)))
                  + cond_Zopp sy (Z.pos (fst (shl_align my ey ez))))
                 ez 1074 lo hi false) as (Hfin & Hval & _);
      try eassumption; try (unfold ez; lia).
    + rewrite Z.mul_add_distr_r, !aligned_value by (unfold ez; lia). exact Hb.
    + split; assumption.
Qed.

Lemma SFopp_fin64 (x : spec_float) : fin64 x -> fin64 (SFopp x).
Proof. intros [H1 H2]. destruct x; try discriminate; split; assumption. Qed.

Lemma sval_SFopp (x : spec_float) : sval (SFopp x) = - sval x.
Proof.
  destruct x as [s|s| |s m e]; cbn [SFopp]; try reflexivity;
    try (destruct s; reflexivity).
  rewrite !sval_finite. destruct s; cbn [negb]; lia.
Qed.

Theorem SFsub_bounds (x y : spec_float) (lo hi : Z) :
  fin64 x -> fin64 y ->
  gridval 1074 (Z.abs lo) -> gridval 1074 (Z.abs hi) ->
  lo <= sval x - sval y <= hi ->
  is_fin (SFsub prec emax x y) = true
  /\ lo <= sval (SFsub prec emax x y) <= hi.
Proof.
  intros Hx Hy Hglo Hghi Hb.
  destruct x as [sx|sx| |sx mx ex]; try (destruct Hx; discriminate);
    destruct y as [sy|sy| |sy my ey]; try (destruct Hy; discriminate).
  - rewrite !sval_zero in Hb. cbn [SFsub].
    destruct sx, sy; (split; [reflexivity|rewrite sval_zero; lia]).
  - rewrite sval_zero in Hb. cbn [SFsub]. split; [reflexivity|].
    change (S754_finite (negb sy) my ey) with (SFopp (S754_finite sy my ey)).
    rewrite sval_SFopp. lia.
  - rewrite sval_zero in Hb. cbn [SFsub]. split; [reflexivity|lia].
  - cbn [SFsub]. cbv zeta.
    destruct (fin64_exp _ _ _ Hx) as [Hex _].
    destruct (fin64_exp _ _ _ Hy) as [Hey _].
    set (ez := Z.min ex ey).
    edestruct (binary_normalize_bounds
                 (cond_Zopp sx (Z.pos (fst (shl_align mx ex ez)))
                  - cond_Zopp sy (Z.pos (fst (shl_align my ey ez))))
                 ez 1074 lo hi false) as (Hfin & Hval & _);
      try eassumption; try (unfold ez; lia).
    + rewrite Z.mul_sub_distr_r, !aligned_value by (unfold ez; lia). exact Hb.
    + split; assumption.
Qed.

Lemma svalO_rescale (x : spec_float) (j : Z) :
  0 <= j -> -1074 <= expo x -> svalO (1074 + j) x = sval x * 2 ^ j.
Proof.
  intros Hj He. unfold sval, svalO.
  destruct x as [s|s| |s m e]; cbn [sgn magO expo] in *;
    try (destruct s; reflexivity); try reflexivity.
  replace (e + (1074 + j)) with (e + 1074 + j) by lia.
  rewrite Z.pow_add_r by lia. destruct s; ring.
Qed.

Lemma canon_digits (m e : Z) :
  canon m e -> Zdigits2 m = 53 \/ (e = -1074 /\ Zdigits2 m <= 53).
Proof.
  intros (Hm & Hc & _). unfold fexp64 in Hc. lia.
Qed.

Lemma Zdigits2_mul_ge (a b : Z) :
  0 < a -> 0 < b -> Zdigits2 a + Zdigits2 b - 1 <= Zdigits2 (a * b).
Proof.
  intros Ha Hb.
  destruct (Zdigits2_bounds a Ha) as [Hla _].
  destruct (Zdigits2_bounds b Hb) as [Hlb _].
  pose proof (Zdigits2_pos a Ha). pose proof (Zdigits2_pos b Hb).
  destruct (Z.eq_dec (Zdigits2 a + Zdigits2 b - 1) 0) as [E|E];
    [rewrite E; apply Zdigits2_nonneg|].
  apply Zdigits2_ge; [lia|].
  replace (Zdigits2 a + Zdigits2 b - 1 - 1)
    with ((Zdigits2 a - 1) + (Zdigits2 b - 1)) by lia.
  rewrite Z.pow_add_r by lia.
  apply Z.mul_le_mono_nonneg; try assumption; apply Z.pow_nonneg; lia.
Qed.

Theorem SFmul_bounds (x y : spec_float) (lo hi : Z) :
  fin64 x -> fin64 y ->
  gridval 1074 (Z.abs lo) -> gridval 1074 (Z.abs hi) ->
  lo * Sc <= sval x * sval y <= hi * Sc ->
  is_fin (SFmul prec emax x y) = true
  /\ lo <= sval (SFmul prec emax x y) <= hi.
Proof.
  intros Hx Hy Hglo Hghi Hb. pose proof Sc_pos as HSc.
  destruct x as [sx|sx| |sx mx ex]; try (destruct Hx; discriminate);
    destruct y as [sy|sy| |sy my ey]; try (destruct Hy; discriminate);
    cbn [SFmul];
    try (rewrite ?sval_zero, ?Z.mul_0_l, ?Z.mul_0_r in Hb;
         split; [reflexivity|rewrite sval_zero; nia]).
  destruct (fin64_exp _ _ _ Hx) as [Hex _].
  destruct (fin64_exp _ _ _ Hy) as [Hey _].
  pose proof (valid_canon _ _ _ (proj2 Hx)) as Hcx.
  pose proof (valid_canon _ _ _ (proj2 Hy)) as Hcy.
  destruct (binary_round_aux_bounds (xorb sx sy) (Z.pos (mx * my)) (ex + ey)
              loc_Exact (Z.pos (mx * my)) 1 (1074 + 1074) (lo * Sc) (hi * Sc))
    as (Hfin & Hval & _ & Hexpo); try lia.
  - pose proof (Zdigits2_mul_ge (Z.pos mx) (Z.pos my) ltac:(lia) ltac:(lia)) as Hd.
    rewrite <- Pos2Z.inj_mul in Hd.
    pose proof (Zdigits2_pos (Z.pos mx) ltac:(lia)).
    pose proof (Zdigits2_pos (Z.pos my) ltac:(lia)).
    destruct (canon_digits _ _ Hcx), (canon_digits _ _ Hcy); unfold fexp64; lia.
  - cbn [shr_record_of_loc shr_r shr_s]. split; lia.
  - rewrite Z.abs_mul, (Z.abs_eq Sc) by lia.
    apply (gridval_scale 1074 1074); [lia|lia|exact Hglo].
  - rewrite Z.abs_mul, (Z.abs_eq Sc) by lia.
    apply (gridval_scale 1074 1074); [lia|lia|exact Hghi].
  - rewrite !Z.mul_1_r.
    assert (Hprod : (if xorb sx sy then - Z.pos (mx * my) else Z.pos (mx * my))
                    * 2 ^ (ex + ey + (1074 + 1074))
                    = sval (S754_finite sx mx ex) * sval (S754_finite sy my ey)).
    { rewrite !sval_finite, Pos2Z.inj_mul.
      replace (ex + ey + (1074 + 1074)) with ((ex + 1074) + (ey + 1074)) by lia.
      rewrite Z.pow_add_r by lia. destruct sx, sy; cbn [xorb]; ring. }
    rewrite Hprod. exact Hb.
  - split; [exact Hfin|].
    rewrite svalO_rescale in Hval by (try exact Hexpo; lia).
    fold Sc in Hval. nia.
Qed.

Lemma new_location_locates (q r d : Z) :
  0 <= r < d ->
  locates q (shr_r (shr_record_of_loc q (new_location d r)))
          (shr_s (shr_record_of_loc q (new_location d r))) (q * d + r) d.
Proof.
  intros Hr. split; [lia|].
  unfold new_location, new_location_even, new_location_odd.
  destruct (Z.even d) eqn:Ev.
  - destruct (Z.eqb_spec r 0) as [->|Hr0];
      [cbn [shr_record_of_loc shr_r shr_s]; lia|].
    destruct (Z.compare_spec (2 * r) d);
      cbn [shr_record_of_loc shr_r shr_s]; nia.
  - destruct (Z.eqb_spec r 0) as [->|Hr0];
      [cbn [shr_record_of_loc shr_r shr_s]; lia|].
    assert (Hodd : Z.odd d = true) by (rewrite <- Z.negb_even, Ev; reflexivity).
    apply Z.odd_spec in Hodd. destruct Hodd as [c Hc].
    destruct (Z.compare_spec (2 * r + 1) d);
      cbn [shr_record_of_loc shr_r shr_s]; nia.
Qed.

(** The quotient the division hands to the rounding. *)
Lemma SFdiv_core_spec (m1 m2 : positive) (e1 e2 : Z) :
  canon (Z.pos m1) e1 -> canon (Z.pos m2) e2 ->
  let '(q, e', l) := SFdiv_core_binary prec emax (Z.pos m1) e1 (Z.pos m2) e2 in
  0 <= q /\ e' <= e1 - e2 /\ -2148 <= e'
  /\ e' <= fexp64 (Zdigits2 q + e')
  /\ locates q (shr_r (shr_record_of_loc q l)) (shr_s (shr_record_of_loc q l))
             (Z.pos m1 * 2 ^ (e1 - e2 - e')) (Z.pos m2).
Proof.
  intros Hc1 Hc2. unfold SFdiv_core_binary.
  change (fexp prec emax) with fexp64.
  set (d1 := Zdigits2 (Z.pos m1)). set (d2 := Zdigits2 (Z.pos m2)).
  set (e' := Z.min (fexp64 (d1 + e1 - (d2 + e2))) (e1 - e2)).
  set (s := e1 - e2 - e').
  assert (Hs : 0 <= s) by (unfold s, e'; lia).
  destruct (canon_bounds _ _ Hc1) as (_ & Hemin1 & _).
  destruct (canon_bounds _ _ Hc2) as (_ & Hemin2 & _).
  assert (He2 : e2 <= 971) by (destruct Hc2 as (_ & _ & H); exact H).
  assert (Hm' : match s with
                | Z.pos _ => Z.shiftl (Z.pos m1) s
                | 0 => Z.pos m1
                | Z.neg _ => 0
                end = Z.pos m1 * 2 ^ s).
  { destruct s as [|p|p] eqn:E; [lia| |lia].
    rewrite Z.shiftl_mul_pow2 by lia. reflexivity. }
  rewrite Hm'.
  assert (Hps : 0 < 2 ^ s) by (apply Z.pow_pos_nonneg; lia).
  pose proof (Z.div_eucl_eq (Z.pos m1 * 2 ^ s) (Z.pos m2) ltac:(lia)) as Heq.
  pose proof (Z.mod_pos_bound (Z.pos m1 * 2 ^ s) (Z.pos m2) ltac:(lia)) as Hmod.
  unfold Z.modulo in Hmod.
  destruct (Z.div_eucl (Z.pos m1 * 2 ^ s) (Z.pos m2)) as [q r] eqn:Ediv.
  assert (Hq : 0 <= q) by nia.
  split; [exact Hq|]. split; [unfold e'; lia|]. split; [unfold e', fexp64; lia|].
  split.
  - destruct (Z.le_gt_cases e' (-1074)) as [Hle|Hgt];
      [unfold fexp64; lia|].
    assert (Hf : fexp64 (d1 + e1 - (d2 + e2)) = d1 + e1 - (d2 + e2) - 53)
      by (unfold e', fexp64 in *; lia).
    assert (Hs53 : 53 + d2 - d1 <= s) by (unfold s, e'; lia).
    assert (Hd1 : 0 < d1) by (apply Zdigits2_pos; lia).
    assert (Hd2 : 0 < d2) by (apply Zdigits2_pos; lia).
    destruct (Zdigits2_bounds (Z.pos m1) ltac:(lia)) as [Hl1 _].
    destruct (Zdigits2_bounds (Z.pos m2) ltac:(lia)) as [_ Hh2].
    fold d1 in Hl1. fold d2 in Hh2.
    assert (Hqbig : 2 ^ 52 <= q).
    { assert (H1 : 2 ^ (d1 - 1) * 2 ^ s <= Z.pos m1 * 2 ^ s)
        by (apply Z.mul_le_mono_nonneg_r; lia).
      assert (H2 : 2 ^ (52 + d2) <= 2 ^ (d1 - 1 + s))
        by (apply Z.pow_le_mono_r; lia).
      rewrite (Z.pow_add_r 2 (d1 - 1) s) in H2 by lia.
      rewrite (Z.pow_add_r 2 52 d2) in H2 by lia.
      destruct (Z.le_gt_cases (2 ^ 52) q) as [|Hlt]; [assumption|exfalso].
      assert (q + 1 <= 2 ^ 52) by lia.
      assert ((q + 1) * Z.pos m2 <= 2 ^ 52 * Z.pos m2)
        by (apply Z.mul_le_mono_nonneg_r; lia).
      assert (2 ^ 52 * Z.pos m2 < 2 ^ 52 * 2 ^ d2)
        by (apply Z.mul_lt_mono_pos_l; lia).
      nia. }
    assert (53 <= Zdigits2 q) by (apply Zdigits2_ge; lia).
    unfold fexp64. lia.
  - replace (Z.pos m1 * 2 ^ (e1 - e2 - e')) with (q * Z.pos m2 + r)
      by (fold s; lia).
    apply new_location_locates. lia.
Qed.

Theorem SFdiv_bounds (x y : spec_float) (lo hi : Z) :
  fin64 x -> fin64 y -> 0 < sval y ->
  gridval 1074 (Z.abs lo) -> gridval 1074 (Z.abs hi) ->
  lo * sval y <= sval x * Sc <= hi * sval y ->
  is_fin (SFdiv prec emax x y) = true
  /\ lo <= sval (SFdiv prec emax x y) <= hi.
Proof.
  intros Hx Hy Hypos Hglo Hghi Hb. pose proof Sc_pos as HSc.
  destruct y as [sy|sy| |sy my ey]; try (destruct Hy; discriminate);
    [rewrite sval_zero in Hypos; lia|].
  assert (Hsy : sy = false).
  { destruct sy; [|reflexivity]. rewrite sval_finite in Hypos.
    assert (0 < 2 ^ (ey + 1074))
      by (apply Z.pow_pos_nonneg; destruct (fin64_exp _ _ _ Hy); lia).
    nia. }
  subst sy.
  destruct x as [sx|sx| |sx mx ex]; try (destruct Hx; discriminate);
    cbn [SFdiv].
  { rewrite sval_zero, Z.mul_0_l in Hb.
    split; [reflexivity|rewrite sval_zero; nia]. }
  destruct (fin64_exp _ _ _ Hx) as [Hex _].
  destruct (fin64_exp _ _ _ Hy) as [Hey _].
  pose proof (valid_canon _ _ _ (proj2 Hx)) as Hcx.
  pose proof (valid_canon _ _ _ (proj2 Hy)) as Hcy.
  pose proof (SFdiv_core_spec mx my ex ey Hcx Hcy) as Hcore.
  destruct (SFdiv_core_binary prec emax (Z.pos mx) ex (Z.pos my) ey)
    as [[q e'] l].
  destruct Hcore as (Hq & He' & Hlow & Hfexp & Hloc).
  rewrite sval_finite in Hypos. rewrite !sval_finite in Hb.
  assert (Hpy : 0 < 2 ^ (ey + 1074)) by (apply Z.pow_pos_nonneg; lia).
  assert (Hpx : 0 < 2 ^ (ex + 1074)) by (apply Z.pow_pos_nonneg; lia).
  assert (Hpow : 2 ^ (ex - ey - e') * 2 ^ (e' + (1074 + 1074)) * 2 ^ (ey + 1074)
                 = 2 ^ (ex + 1074) * Sc * Sc).
  { unfold Sc. rewrite <- !Z.pow_add_r by lia. f_equal. lia. }
  assert (Hp1 : 0 < 2 ^ (ex - ey - e')) by (apply Z.pow_pos_nonneg; lia).
  assert (Hp2 : 0 < 2 ^ (e' + (1074 + 1074))) by (apply Z.pow_pos_nonneg; lia).
  destruct (binary_round_aux_bounds (xorb sx false) q e' l
              (Z.pos mx * 2 ^ (ex - ey - e')) (Z.pos my) (1074 + 1074)
              (lo * Sc) (hi * Sc))
    as (Hfin & Hval & _ & Hexpo); try assumption; try lia.
  - rewrite Z.abs_mul, (Z.abs_eq Sc) by lia.
    apply (gridval_scale 1074 1074); [lia|lia|exact Hglo].
  - rewrite Z.abs_mul, (Z.abs_eq Sc) by lia.
    apply (gridval_scale 1074 1074); [lia|lia|exact Hghi].
  - rewrite xorb_false_r.
    set (v := (if sx then - (Z.pos mx * 2 ^ (ex - ey - e'))
               else Z.pos mx * 2 ^ (ex - ey - e')) * 2 ^ (e' + (1074 + 1074))).
    assert (Hv : v * 2 ^ (ey + 1074)
                 = (if sx then - Z.pos mx else Z.pos mx) * 2 ^ (ex + 1074)
                   * Sc * Sc).
    { unfold v. destruct sx.
      - replace (- (Z.pos mx * 2 ^ (ex - ey - e')) * 2 ^ (e' + (1074 + 1074))
                 * 2 ^ (ey + 1074))
          with (- Z.pos mx * (2 ^ (ex - ey - e') * 2 ^ (e' + (1074 + 1074))
                              * 2 ^ (ey + 1074))) by ring.
        rewrite Hpow. ring.
      - replace (Z.pos mx * 2 ^ (ex - ey - e') * 2 ^ (e' + (1074 + 1074))
                 * 2 ^ (ey + 1074))
          with (Z.pos mx * (2 ^ (ex - ey - e') * 2 ^ (e' + (1074 + 1074))
                            * 2 ^ (ey + 1074))) by ring.
        rewrite Hpow. ring. }
    set (X := (if sx then - Z.pos mx else Z.pos mx) * 2 ^ (ex + 1074)) in *.
    split.
    + apply (mul_cancel_le _ _ (2 ^ (ey + 1074))); [exact Hpy|].
      rewrite Hv.
      replace (lo * Sc * Z.pos my * 2 ^ (ey + 1074))
        with (lo * (Z.pos my * 2 ^ (ey + 1074)) * Sc) by ring.
      apply Z.mul_le_mono_nonneg_r; [lia|]. lia.
    + apply (mul_cancel_le _ _ (2 ^ (ey + 1074))); [exact Hpy|].
      rewrite Hv.
      replace (hi * Sc * Z.pos my * 2 ^ (ey + 1074))
        with (hi * (Z.pos my * 2 ^ (ey + 1074)) * Sc) by ring.
      apply Z.mul_le_mono_nonneg_r; [lia|]. lia.
  - split; [exact Hfin|].
    rewrite svalO_rescale in Hval by (try exact Hexpo; lia).
    fold Sc in Hval. nia.
Qed.

(** ** Overflow *)

(** Below the middle of the largest number and [2^1024] a rounding is
    finite. *)
Lemma rounded_finite (sx : bool) (mx ex n d Rm e1 O : Z) :
  rounded mx ex n d Rm e1 -> 0 <= mx -> 0 < d -> 1074 <= O -> 0 <= ex + O ->
  ex <= e1 ->
  n * 2 ^ (ex + O) < (2 ^ 54 - 1) * 2 ^ (970 + O) * d ->
  is_fin (pack sx Rm e1) = true.
Proof.
  intros Hr Hmx Hd HO HexO He1 Hlt.
  destruct (grid_facts mx ex n d Rm e1 O Hr Hmx Hd HexO He1)
    as (Hpk & HD & HU & Hm & HUk & Hcand & Hfloor & Hup & Hnorm & Hm53).
  assert (HR : 0 <= Rm <= 2 ^ 53) by lia.
  destruct (pack_value mx ex n d Rm e1 O Hr Hmx Hd HO HexO He1 sx HR)
    as [[Hfin _]|[_ Hbig]]; [exact Hfin|exfalso].
  pose proof (rd_near_up _ _ _ _ _ _ Hr) as Hnear.
  set (k := e1 - ex) in *. set (m := mx / 2 ^ k) in *.
  set (D := 2 ^ k * d) in *. set (U := 2 ^ (e1 + O)) in *.
  set (P := 2 ^ (970 + O)) in *.
  assert (HP : 0 < P) by (apply Z.pow_pos_nonneg; lia).
  assert (HnU : n * U < (2 ^ 54 - 1) * P * D).
  { rewrite <- HUk. unfold D.
    replace (n * (2 ^ (ex + O) * 2 ^ k)) with (n * 2 ^ (ex + O) * 2 ^ k) by ring.
    replace ((2 ^ 54 - 1) * P * (2 ^ k * d))
      with ((2 ^ 54 - 1) * P * d * 2 ^ k) by ring.
    apply Z.mul_lt_mono_pos_r; assumption. }
  assert (HmU : m * U < (2 ^ 54 - 1) * P).
  { apply (mul_cancel_lt _ _ D); [exact HD|].
    apply Z.le_lt_trans with (n * U); [|exact HnU].
    replace (m * U * D) with (m * D * U) by ring.
    apply Z.mul_le_mono_nonneg_r; lia. }
  assert (H54 : 2 ^ 54 * P = 2 ^ (1024 + O)).
  { unfold P. rewrite <- Z.pow_add_r by lia. f_equal. lia. }
  assert (He971 : e1 <= 971).
  { destruct (Z.le_gt_cases e1 971) as [|Hgt]; [assumption|exfalso].
    destruct Hnorm as [Hn|Hn]; [|lia].
    assert (HU' : 2 ^ (972 + O) <= U) by (unfold U; apply Z.pow_le_mono_r; lia).
    replace (972 + O) with (2 + (970 + O)) in HU' by lia.
    rewrite Z.pow_add_r in HU' by lia. fold P in HU'.
    assert (H1 : 2 ^ 52 * U <= m * U) by (apply Z.mul_le_mono_nonneg_r; lia).
    change (2 ^ 2) with 4 in HU'. clear - HmU HU' H1 HP. lia. }
  assert (HU2 : U <= 2 * P).
  { unfold U, P. replace (2 * 2 ^ (970 + O)) with (2 ^ (1 + (970 + O))).
    - apply Z.pow_le_mono_r; lia.
    - rewrite Z.pow_add_r by lia. reflexivity. }
  assert (HRU : (2 * Rm - 1) * U < 2 * ((2 ^ 54 - 1) * P)).
  { apply (mul_cancel_lt _ _ D); [exact HD|].
    replace ((2 * Rm - 1) * U * D) with ((2 * (Rm * D) - D) * U) by ring.
    apply Z.le_lt_trans with (2 * n * U).
    - apply Z.mul_le_mono_nonneg_r; lia.
    - clear - HnU. lia. }
  change (2 ^ 54) with (2 * 2 ^ 53) in *.
  assert (Rm * U <= 2 ^ 53 * U) by (apply Z.mul_le_mono_nonneg_r; lia).
  assert (2 ^ 53 * U <= 2 ^ 53 * (2 * P))
    by (apply Z.mul_le_mono_nonneg_l; lia).
  assert (HUeq : 2 ^ 53 * U = 2 ^ 53 * (2 * P)) by lia.
  assert (HReq : Rm * U = 2 ^ 53 * U) by lia.
  assert (U = 2 * P) by lia.
  assert (Rm = 2 ^ 53) by (apply (mul_cancel_le _ _ U) in H; nia).
  subst Rm. nia.
Qed.

Theorem binary_round_aux_finite (sx : bool) (mx ex : Z) (lx : location)
        (n d O : Z) :
  0 <= mx ->
  ex <= fexp64 (Zdigits2 mx + ex) ->
  locates mx (shr_r (shr_record_of_loc mx lx)) (shr_s (shr_record_of_loc mx lx))
          n d ->
  1074 <= O -> 0 <= ex + O ->
  n * 2 ^ (ex + O) < (2 ^ 54 - 1) * 2 ^ (970 + O) * d ->
  is_fin (binary_round_aux prec emax sx mx ex lx) = true.
Proof.
  intros Hmx Hex Hloc HO HexO Hlt.
  destruct (binary_round_aux_spec sx mx ex lx n d Hmx Hex Hloc)
    as (Rm & e1 & Hr & ->).
  assert (Hd : 0 < d) by (destruct Hloc; assumption).
  assert (He1 : ex <= e1) by (rewrite (rd_exp _ _ _ _ _ _ Hr); exact Hex).
  exact (rounded_finite sx mx ex n d Rm e1 O Hr Hmx Hd HO HexO He1 Hlt).
Qed.

Theorem binary_round_finite (sx : bool) (mx : positive) (ex O : Z) :
  1074 <= O -> 0 <= ex + O ->
  Z.pos mx * 2 ^ (ex + O) < (2 ^ 54 - 1) * 2 ^ (970 + O) ->
  is_fin (binary_round prec emax sx mx ex) = true.
Proof.
  intros HO HexO Hb. unfold binary_round.
  change (fexp prec emax) with fexp64.
  destruct (shl_align_spec mx ex (fexp64 (Z.pos (digits2_pos mx) + ex)))
    as [Hez Hmz].
  destruct (shl_align mx ex (fexp64 (Z.pos (digits2_pos mx) + ex))) as [mz ez].
  cbn [fst snd] in Hez, Hmz.
  assert (Hj : 0 <= ex - ez) by lia.
  assert (Hdig : Zdigits2 (Z.pos mz) + ez = Z.pos (digits2_pos mx) + ex).
  { rewrite Hmz, Hez.
    rewrite Zdigits2_shift by lia. cbn [Zdigits2]. lia. }
  assert (Hemin : -1074 <= fexp64 (Z.pos (digits2_pos mx) + ex))
    by apply fexp64_ge_emin.
  apply (binary_round_aux_finite sx (Z.pos mz) ez loc_Exact (Z.pos mz) 1 O);
    try assumption; try lia.
  - rewrite Hdig. lia.
  - cbn [shr_record_of_loc shr_r shr_s]. split; lia.
  - rewrite !Z.mul_1_r.
    assert (Hval : Z.pos mz * 2 ^ (ez + O) = Z.pos mx * 2 ^ (ex + O)).
    { rewrite Hmz, <- Hez, <- Z.mul_assoc, <- Z.pow_add_r by lia.
      do 2 f_equal. lia. }
    lia.
Qed.

Theorem binary_normalize_finite (m e O : Z) (sz : bool) :
  1074 <= O -> 0 <= e + O ->
  Z.abs m * 2 ^ (e + O) < (2 ^ 54 - 1) * 2 ^ (970 + O) ->
  is_fin (binary_normalize prec emax m e sz) = true.
Proof.
  intros HO HeO Hb. destruct m as [|p|p]; cbn [binary_normalize].
  - reflexivity.
  - apply (binary_round_finite false p e O HO HeO). exact Hb.
  - apply (binary_round_finite true p e O HO HeO). exact Hb.
Qed.

(** The sum of two finite numbers is finite below the overflow
    threshold. *)
Theorem SFadd_finite (x y : spec_float) :
  fin64 x -> fin64 y ->
  Z.abs (sval x + sval y) < (2 ^ 54 - 1) * 2 ^ (970 + 1074) ->
  is_fin (SFadd prec emax x y) = true.
Proof.
  intros Hx Hy Hb.
  destruct x as [sx|sx| |sx mx ex]; try (destruct Hx; discriminate);
    destruct y as [sy|sy| |sy my ey]; try (destruct Hy; discriminate);
    cbn [SFadd]; try reflexivity.
  - destruct sx, sy; reflexivity.
  - cbv zeta.
    destruct (fin64_exp _ _ _ Hx) as [Hex _].
    destruct (fin64_exp _ _ _ Hy) as [Hey _].
    set (ez := Z.min ex ey).
    apply (binary_normalize_finite _ ez 1074); try (unfold ez; lia).
    assert (Hp : 0 <= 2 ^ (ez + 1074)) by (apply Z.pow_nonneg; unfold ez; lia).
    rewrite <- (Z.abs_eq (2 ^ (ez + 1074))) at 1 by exact Hp.
    rewrite <- Z.abs_mul.
    rewrite Z.mul_add_distr_r, !aligned_value by (unfold ez; lia). exact Hb.
Qed.

(** ** The results of a rounding are numbers of the format *)

Lemma canon_valid (s : bool) (m : positive) (e : Z) :
  canon (Z.pos m) e -> valid_binary (S754_finite s m e) = true.
Proof.
  intros (_ & Hc & He). cbn [SpecFloat.valid_binary].
  unfold bounded, canonical_mantissa.
  change (fexp prec emax) with fexp64. change (emax - prec) with 971.
  apply andb_true_iff. split; [apply Z.eqb_eq; exact Hc|apply Z.leb_le; exact He].
Qed.

Lemma pack_valid (sx : bool) (mx ex n d Rm e1 : Z) :
  rounded mx ex n d Rm e1 -> 0 <= mx -> ex <= e1 ->
  valid_binary (pack sx Rm e1) = true.
Proof.
  intros Hr Hmx He1.
  pose proof (rd_exp _ _ _ _ _ _ Hr) as Hexp.
  pose proof (rd_cand _ _ _ _ _ _ Hr) as Hcand.
  pose proof (rd_normal _ _ _ _ _ _ Hr) as Hnorm.
  pose proof (rd_digits _ _ _ _ _ _ Hr) as Hdig.
  assert (Hemin : -1074 <= e1) by (rewrite Hexp; apply fexp64_ge_emin).
  assert (Hpk : 0 < 2 ^ (e1 - ex)) by (apply Z.pow_pos_nonneg; lia).
  assert (Hm : 0 <= mx / 2 ^ (e1 - ex)) by (apply Z.div_pos; lia).
  unfold pack.
  destruct (Z.eqb_spec Rm 0) as [HR0|HR0]; [reflexivity|].
  destruct (Z.eqb_spec Rm (2 ^ 53)) as [HR53|HR53].
  - destruct (Z.leb_spec (e1 + 1) 971); [|reflexivity].
    assert (Hpos : Z.pos (Z.to_pos (2 ^ 52)) = 2 ^ 52) by reflexivity.
    apply canon_valid. rewrite Hpos. split; [lia|]. split; [|lia].
    assert (Hd53 : Zdigits2 (2 ^ 52) = 53) by reflexivity.
    rewrite Hd53. unfold fexp64. lia.
  - destruct (Z.leb_spec e1 971); [|reflexivity].
    assert (HRpos : 0 < Rm) by lia.
    apply canon_valid. rewrite Z2Pos.id by exact HRpos.
    split; [exact HRpos|]. split; [|assumption].
    assert (HR53' : Rm < 2 ^ 53) by lia.
    assert (Hle : Zdigits2 Rm <= 53) by (apply Zdigits2_le; lia).
    destruct (Z.le_gt_cases (2 ^ 52) Rm) as [Hbig|Hsmall].
    + assert (53 <= Zdigits2 Rm) by (apply Zdigits2_ge; lia).
      unfold fexp64. lia.
    + destruct Hnorm as [Hn|Hn]; [lia|]. unfold fexp64. lia.
Qed.

Lemma binary_round_aux_valid (sx : bool) (mx ex : Z) (lx : location) (n d : Z) :
  0 <= mx ->
  ex <= fexp64 (Zdigits2 mx + ex) ->
  locates mx (shr_r (shr_record_of_loc mx lx)) (shr_s (shr_record_of_loc mx lx))
          n d ->
  valid_binary (binary_round_aux prec emax sx mx ex lx) = true.
Proof.
  intros Hmx Hex Hloc.
  destruct (binary_round_aux_spec sx mx ex lx n d Hmx Hex Hloc)
    as (Rm & e1 & Hr & ->).
  apply (pack_valid sx mx ex n d Rm e1 Hr Hmx).
  rewrite (rd_exp _ _ _ _ _ _ Hr). exact Hex.
Qed.

Lemma binary_round_valid (sx : bool) (mx : positive) (ex : Z) :
  valid_binary (binary_round prec emax sx mx ex) = true.
Proof.
  unfold binary_round. change (fexp prec emax) with fexp64.
  destruct (shl_align_spec mx ex (fexp64 (Z.pos (digits2_pos mx) + ex)))
    as [Hez Hmz].
  destruct (shl_align mx ex (fexp64 (Z.pos (digits2_pos mx) + ex))) as [mz ez].
  cbn [fst snd] in Hez, Hmz.
  assert (Hj : 0 <= ex - ez) by lia.
  assert (Hdig : Zdigits2 (Z.pos mz) + ez = Z.pos (digits2_pos mx) + ex).
  { rewrite Hmz, Hez.
    rewrite Zdigits2_shift by lia. cbn [Zdigits2]. lia. }
  apply (binary_round_aux_valid sx (Z.pos mz) ez loc_Exact (Z.pos mz) 1).
  - lia.
  - rewrite Hdig. lia.
  - cbn [shr_record_of_loc shr_r shr_s]. split; lia.
Qed.

Lemma binary_normalize_valid (m e : Z) (sz : bool) :
  valid_binary (binary_normalize prec emax m e sz) = true.
Proof.
  destruct m as [|p|p]; cbn [binary_normalize];
    [reflexivity|apply binary_round_valid|apply binary_round_valid].
Qed.

(** ** Comparisons *)

Lemma canon_lt (m1 e1 m2 e2 : Z) :
  canon m1 e1 -> canon m2 e2 -> e1 < e2 ->
  m1 * 2 ^ (e1 + 1074) < m2 * 2 ^ (e2 + 1074).
Proof.
  intros H1 H2 Hlt.
  destruct (canon_bounds _ _ H1) as (Hm1 & Hemin1 & _).
  destruct (canon_bounds _ _ H2) as (_ & _ & Hn2).
  destruct H1 as (Hp1 & _ & _). destruct H2 as (Hp2 & _ & _).
  destruct Hn2 as [Hn2|Hn2]; [|lia].
  assert (Hp : 0 < 2 ^ (e1 + 1074)) by (apply Z.pow_pos_nonneg; lia).
  assert (Hle : 2 ^ (e1 + 1074 + 1) <= 2 ^ (e2 + 1074))
    by (apply Z.pow_le_mono_r; lia).
  rewrite Z.pow_add_r in Hle by lia. change (2 ^ 1) with 2 in Hle.
  assert (H3 : 2 ^ 52 * 2 ^ (e2 + 1074) <= m2 * 2 ^ (e2 + 1074))
    by (apply Z.mul_le_mono_nonneg_r; lia).
  assert (H4 : m1 * 2 ^ (e1 + 1074) < 2 ^ 53 * 2 ^ (e1 + 1074))
    by (apply Z.mul_lt_mono_pos_r; lia).
  change (2 ^ 53) with (2 ^ 52 * 2) in H4.
  assert (H5 : 2 ^ 52 * (2 ^ (e1 + 1074) * 2) <= 2 ^ 52 * 2 ^ (e2 + 1074))
    by (apply Z.mul_le_mono_nonneg_l; lia).
  lia.
Qed.

Lemma compare_pos_finite (m1 m2 : positive) (e1 e2 : Z) :
  canon (Z.pos m1) e1 -> canon (Z.pos m2) e2 ->
  match e1 ?= e2 with
  | Lt => Lt
  | Gt => Gt
  | Eq => Pos.compare_cont Eq m1 m2
  end = (Z.pos m1 * 2 ^ (e1 + 1074) ?= Z.pos m2 * 2 ^ (e2 + 1074)).
Proof.
  intros H1 H2. destruct (Z.compare_spec e1 e2) as [->|Hlt|Hgt].
  - destruct (canon_bounds _ _ H2) as (_ & Hemin & _).
    assert (Hp : 0 < 2 ^ (e2 + 1074)) by (apply Z.pow_pos_nonneg; lia).
    rewrite Pos.compare_cont_spec. cbn [Pos.switch_Eq].
    change (Pos.compare m1 m2) with (Z.pos m1 ?= Z.pos m2).
    destruct (Z.compare_spec (Z.pos m1) (Z.pos m2)) as [E|E|E]; symmetry.
    + apply Z.compare_eq_iff. now rewrite E.
    + apply Z.compare_lt_iff. now apply Z.mul_lt_mono_pos_r.
    + apply Z.compare_gt_iff. now apply Z.mul_lt_mono_pos_r.
  - symmetry. apply Z.compare_lt_iff. now apply canon_lt.
  - symmetry. apply Z.compare_gt_iff. now apply canon_lt.
Qed.

Theorem SFcompare_fin (x y : spec_float) :
  fin64 x -> fin64 y -> SFcompare x y = Some (sval x ?= sval y).
Proof.
  intros Hx Hy.
  destruct x as [sx|sx| |sx mx ex]; try (destruct Hx; discriminate);
    destruct y as [sy|sy| |sy my ey]; try (destruct Hy; discriminate);
    cbn [SFcompare]; rewrite ?sval_zero, ?sval_finite.
  - reflexivity.
  - destruct (fin64_exp _ _ _ Hy) as [Hey _].
    assert (Hp : 0 < 2 ^ (ey + 1074)) by (apply Z.pow_pos_nonneg; lia).
    f_equal. symmetry. destruct sy.
    + apply Z.compare_gt_iff. nia.
    + apply Z.compare_lt_iff. nia.
  - destruct (fin64_exp _ _ _ Hx) as [Hex _].
    assert (Hp : 0 < 2 ^ (ex + 1074)) by (apply Z.pow_pos_nonneg; lia).
    f_equal. symmetry. destruct sx.
    + apply Z.compare_lt_iff. nia.
    + apply Z.compare_gt_iff. nia.
  - destruct (fin64_exp _ _ _ Hx) as [Hex _].
    destruct (fin64_exp _ _ _ Hy) as [Hey _].
    pose proof (valid_canon _ _ _ (proj2 Hx)) as Hcx.
    pose proof (valid_canon _ _ _ (proj2 Hy)) as Hcy.
    assert (Hpx : 0 < 2 ^ (ex + 1074)) by (apply Z.pow_pos_nonneg; lia).
    assert (Hpy : 0 < 2 ^ (ey + 1074)) by (apply Z.pow_pos_nonneg; lia).
    f_equal. destruct sx, sy.
    + rewrite !Z.mul_opp_l, Z.compare_opp.
      rewrite <- (compare_pos_finite my mx ey ex Hcy Hcx).
      rewrite (Z.compare_antisym ey ex).
      destruct (ey ?= ex); cbn [CompOpp]; try reflexivity.
      rewrite !Pos.compare_cont_spec.
      rewrite (Pos.compare_antisym my mx).
      destruct (my ?= mx)%positive; reflexivity.
    + symmetry. apply Z.compare_lt_iff. nia.
    + symmetry. apply Z.compare_gt_iff. nia.
    + apply compare_pos_finite; assumption.
Qed.

(** ** Numbers of the format *)

(** A number with at most 53 digits, times a power of two. *)
Lemma gridval_pow (k i : Z) :
  0 < k < 2 ^ 53 -> 0 <= i -> Zdigits2 k + i <= 2098 ->
  gridval 1074 (k * 2 ^ i).
Proof.
  intros Hk Hi Hd. right.
  pose proof (Zdigits2_pos k ltac:(lia)) as Hdg.
  assert (Hdg53 : Zdigits2 k <= 53) by (apply Zdigits2_le; lia).
  set (E := Z.max (Zdigits2 k + i - 53) 0).
  exists (k * 2 ^ (i - E)), (E - 1074).
  assert (HE : 0 <= E <= i) by (unfold E; lia).
  assert (Hp : 0 < 2 ^ (i - E)) by (apply Z.pow_pos_nonneg; lia).
  split.
  - split; [nia|]. split; [|unfold E; lia].
    rewrite Zdigits2_shift by lia. unfold fexp64, E. lia.
  - rewrite <- Z.mul_assoc, <- Z.pow_add_r by lia. do 2 f_equal. lia.
Qed.

Lemma gridval_int (k : Z) : 0 <= k < 2 ^ 53 -> gridval 1074 (k * Sc).
Proof.
  intros Hk. destruct (Z.eq_dec k 0) as [->|Hne]; [now left|].
  unfold Sc. apply gridval_pow; [lia|lia|].
  assert (Zdigits2 k <= 53) by (apply Zdigits2_le; lia). lia.
Qed.

Lemma gridval_le_max (O M0 : Z) :
  1074 <= O -> gridval O M0 -> 0 <= M0 <= (2 ^ 53 - 1) * 2 ^ (971 + O).
Proof.
  intros HO [->|(m0 & e0 & Hc & ->)].
  - split; [lia|]. assert (0 < 2 ^ (971 + O)) by (apply Z.pow_pos_nonneg; lia).
    lia.
  - destruct (canon_bounds m0 e0 Hc) as (Hm53 & Hemin & _).
    destruct Hc as (Hm0 & _ & He0).
    assert (Hp : 0 < 2 ^ (e0 + O)) by (apply Z.pow_pos_nonneg; lia).
    assert (Hle : 2 ^ (e0 + O) <= 2 ^ (971 + O))
      by (apply Z.pow_le_mono_r; lia).
    split; [nia|].
    apply Z.le_trans with (m0 * 2 ^ (971 + O)).
    + apply Z.mul_le_mono_nonneg_l; lia.
    + apply Z.mul_le_mono_nonneg_r; lia.
Qed.

Lemma sval_zero_iff (x : spec_float) :
  fin64 x -> (sval x = 0 <-> exists s, x = S754_zero s).
Proof.
  intros Hx. destruct x as [s|s| |s m e]; try (destruct Hx; discriminate).
  - rewrite sval_zero. split; [eauto|reflexivity].
  - destruct (fin64_exp _ _ _ Hx) as [He _].
    assert (Hp : 0 < 2 ^ (e + 1074)) by (apply Z.pow_pos_nonneg; lia).
    rewrite sval_finite. split.
    + intros H. exfalso. destruct s; nia.
    + intros [s' H]. discriminate.
Qed.

(** * The colour functions on binary64 numbers *)

Lemma finite_fin64 (x : float) : finite x -> fin64 (Prim2SF x).
Proof. intros H. split; [exact H|apply Prim2SF_valid]. Qed.

Lemma finite_gridval (x : float) : finite x -> gridval 1074 (Z.abs (fval x)).
Proof. intros H. apply fin64_gridval. now apply finite_fin64. Qed.

Lemma add_between (x y : float) (lo hi : Z) :
  finite x -> finite y ->
  gridval 1074 (Z.abs lo) -> gridval 1074 (Z.abs hi) ->
  lo <= fval x + fval y <= hi ->
  between (x + y) lo hi.
Proof.
  intros Hx Hy Hlo Hhi Hb. unfold between, finite, fval.
  rewrite add_spec.
  apply SFadd_bounds; try assumption; now apply finite_fin64.
Qed.

Lemma sub_between (x y : float) (lo hi : Z) :
  finite x -> finite y ->
  gridval 1074 (Z.abs lo) -> gridval 1074 (Z.abs hi) ->
  lo <= fval x - fval y <= hi ->
  between (x - y) lo hi.
Proof.
  intros Hx Hy Hlo Hhi Hb. unfold between, finite, fval.
  rewrite sub_spec.
  apply SFsub_bounds; try assumption; now apply finite_fin64.
Qed.

Lemma mul_between (x y : float) (lo hi : Z) :
  finite x -> finite y ->
  gridval 1074 (Z.abs lo) -> gridval 1074 (Z.abs hi) ->
  lo * Sc <= fval x * fval y <= hi * Sc ->
  between (x * y) lo hi.
Proof.
  intros Hx Hy Hlo Hhi Hb. unfold between, finite, fval.
  rewrite mul_spec.
  apply SFmul_bounds; try assumption; now apply finite_fin64.
Qed.

Lemma div_between (x y : float) (lo hi : Z) :
  finite x -> finite y -> 0 < fval y ->
  gridval 1074 (Z.abs lo) -> gridval 1074 (Z.abs hi) ->
  lo * fval y <= fval x * Sc <= hi * fval y ->
  between (x / y) lo hi.
Proof.
  intros Hx Hy Hpos Hlo Hhi Hb. unfold between, finite, fval.
  rewrite div_spec.
  apply SFdiv_bounds; try assumption; now apply finite_fin64.
Qed.

Lemma add_finite (x y : float) :
  finite x -> finite y ->
  Z.abs (fval x + fval y) < (2 ^ 54 - 1) * 2 ^ (970 + 1074) ->
  finite (x + y).
Proof.
  intros Hx Hy Hb. unfold finite. rewrite add_spec.
  apply SFadd_finite; try assumption; now apply finite_fin64.
Qed.

(** Comparisons of finite numbers are comparisons of their values. *)
Lemma compare_fval (x y : float) :
  finite x -> finite y ->
  SFcompare (Prim2SF x) (Prim2SF y) = Some (fval x ?= fval y).
Proof.
  intros Hx Hy. apply SFcompare_fin; now apply finite_fin64.
Qed.

Lemma ltb_fval (x y : float) :
  finite x -> finite y -> (x <? y)%float = (fval x <? fval y).
Proof.
  intros Hx Hy. rewrite ltb_spec. unfold SFltb.
  rewrite (compare_fval x y Hx Hy). unfold Z.ltb.
  destruct (fval x ?= fval y); reflexivity.
Qed.

Lemma leb_fval (x y : float) :
  finite x -> finite y -> (x <=? y)%float = (fval x <=? fval y).
Proof.
  intros Hx Hy. rewrite leb_spec. unfold SFleb.
  rewrite (compare_fval x y Hx Hy). unfold Z.leb.
  destruct (fval x ?= fval y); reflexivity.
Qed.

Lemma eqb_fval (x y : float) :
  finite x -> finite y -> (x =? y)%float = (fval x =? fval y).
Proof.
  intros Hx Hy. rewrite FloatAxioms.eqb_spec. unfold SFeqb.
  rewrite (compare_fval x y Hx Hy).
  destruct (Z.compare_spec (fval x) (fval y)) as [E|E|E]; symmetry;
    [apply Z.eqb_eq; exact E|apply Z.eqb_neq; lia|apply Z.eqb_neq; lia].
Qed.

(** A number between two finite numbers is finite. *)
Lemma leb_finite (a x b : float) :
  finite a -> finite b ->
  (a <=? x)%float = true -> (x <=? b)%float = true -> finite x.
Proof.
  unfold finite. rewrite !leb_spec. unfold SFleb.
  destruct (Prim2SF a) as [sa|sa| |sa ma ea]; try discriminate;
    destruct (Prim2SF b) as [sb|sb| |sb mb eb]; try discriminate;
    destruct (Prim2SF x) as [s|[|]| |s m e]; cbn [SFcompare is_fin];
    try reflexivity; try discriminate;
    try (destruct sa; discriminate); try (destruct sb; discriminate).
Qed.

Lemma abs_between (x : float) :
  finite x -> finite (abs x) /\ fval (abs x) = Z.abs (fval x).
Proof.
  unfold finite, fval. rewrite abs_spec.
  pose proof (Prim2SF_valid x) as Hv.
  destruct (Prim2SF x) as [s|s| |s m e]; try discriminate; intros _;
    cbn [SFabs is_fin].
  - split; [reflexivity|]. now rewrite !sval_zero.
  - split; [reflexivity|].
    assert (Hf : fin64 (S754_finite s m e)) by (split; [reflexivity|exact Hv]).
    destruct (fin64_exp _ _ _ Hf) as [He _].
    assert (Hp : 0 < 2 ^ (e + 1074)) by (apply Z.pow_pos_nonneg; lia).
    rewrite !sval_finite. destruct s; nia.
Qed.

(** [float64(n)] is exact below [2^53]. *)
Lemma float64_exact (n : Z) :
  Z.abs n < 2 ^ 53 ->
  finite (math.float64 n) /\ fval (math.float64 n) = n * Sc.
Proof.
  intros Hn. unfold finite, fval, math.float64.
  rewrite Prim2SF_SF2Prim by apply binary_normalize_valid.
  destruct (binary_normalize_bounds n 0 1074 (n * Sc) (n * Sc) false)
    as (Hfin & Hval & _); try lia.
  - rewrite Z.abs_mul, (Z.abs_eq Sc) by (pose proof Sc_pos; lia).
    apply gridval_int. lia.
  - rewrite Z.abs_mul, (Z.abs_eq Sc) by (pose proof Sc_pos; lia).
    apply gridval_int. lia.
  - unfold Sc. cbn [Z.add]. lia.
  - split; [exact Hfin|]. unfold sval. lia.
Qed.

(** [int(x)] of a finite number that is not negative. *)
Lemma int_between (x : float) (lo hi : Z) :
  finite x -> 0 <= lo -> hi < 2 ^ 63 ->
  lo * Sc <= fval x < (hi + 1) * Sc ->
  lo <= math.int x <= hi.
Proof.
  intros Hx Hlo Hhi Hb. pose proof Sc_pos as HSc.
  pose proof (finite_fin64 x Hx) as Hf.
  unfold math.int, fval in *.
  destruct (Prim2SF x) as [s|s| |s m e]; try (destruct Hf; discriminate).
  - rewrite sval_zero in Hb. cbn [math.trunc_SF].
    assert (lo = 0) by nia. subst lo.
    assert (0 <= hi) by nia.
    destruct (Z.leb_spec (- 2 ^ 63) 0); [|lia].
    destruct (Z.ltb_spec 0 (2 ^ 63)); [|lia]. cbn [andb]. lia.
  - destruct (fin64_exp _ _ _ Hf) as [He _].
    assert (Hp : 0 < 2 ^ (e + 1074)) by (apply Z.pow_pos_nonneg; lia).
    rewrite sval_finite in Hb.
    assert (Hs : s = false) by (destruct s; [nia|reflexivity]). subst s.
    cbn [math.trunc_SF].
    set (v := if 0 <=? e then Z.pos m * 2 ^ e else Z.pos m / 2 ^ (- e)).
    assert (Hv : v = Z.pos m * 2 ^ (e + 1074) / Sc).
    { unfold v, Sc. destruct (Z.leb_spec 0 e).
      - rewrite Z.pow_add_r by lia. rewrite Z.mul_assoc.
        rewrite Z.div_mul by lia. reflexivity.
      - replace (2 ^ 1074) with (2 ^ (- e) * 2 ^ (e + 1074))
          by (rewrite <- Z.pow_add_r by lia; f_equal; lia).
        assert (0 < 2 ^ (- e)) by (apply Z.pow_pos_nonneg; lia).
        rewrite Z.div_mul_cancel_r by lia. reflexivity. }
    assert (Hrange : lo <= v <= hi).
    { rewrite Hv. split.
      - apply Z.div_le_lower_bound; lia.
      - assert (Z.pos m * 2 ^ (e + 1074) / Sc < hi + 1); [|lia].
        apply Z.div_lt_upper_bound; lia. }
    destruct (Z.leb_spec (- 2 ^ 63) v); [|lia].
    destruct (Z.ltb_spec v (2 ^ 63)); [|lia]. cbn [andb]. exact Hrange.
Qed.

Lemma fval_0 : finite 0 /\ fval 0 = 0.
Proof. split; reflexivity. Qed.

Lemma fval_1 : finite 1 /\ fval 1 = 1 * Sc.
Proof. split; [reflexivity|vm_compute; reflexivity]. Qed.

(** A fraction between 0 and 1. *)
Lemma unit_between (t : float) :
  (0 <=? t)%float = true -> (t <=? 1)%float = true -> between t 0 Sc.
Proof.
  intros H0 H1. destruct fval_0 as [F0 V0]. destruct fval_1 as [F1 V1].
  assert (Ht : finite t) by exact (leb_finite 0 t 1 F0 F1 H0 H1).
  rewrite (leb_fval 0 t F0 Ht) in H0. rewrite (leb_fval t 1 Ht F1) in H1.
  apply Z.leb_le in H0, H1. split; [exact Ht|]. lia.
Qed.

(** One channel of [lerp] lies between the two end points. *)
Lemma lerp1_between (A B : Z) (t : float) :
  0 <= A < 2 ^ 52 -> 0 <= B < 2 ^ 52 ->
  (0 <=? t)%float = true -> (t <=? 1)%float = true ->
  Z.min A B <= lerp1 A B t <= Z.max A B.
Proof.
  intros HA HB H0 H1. pose proof Sc_pos as HSc.
  destruct (unit_between t H0 H1) as [Ft Vt].
  destruct (float64_exact A ltac:(lia)) as [FA VA].
  destruct (float64_exact B ltac:(lia)) as [FB VB].
  assert (Hg : forall k, 0 <= k < 2 ^ 53 -> gridval 1074 (Z.abs (k * Sc))).
  { intros k Hk. rewrite Z.abs_mul, (Z.abs_eq Sc), (Z.abs_eq k) by lia.
    now apply gridval_int. }
  assert (Hgn : forall k, - 2 ^ 53 < k <= 0 -> gridval 1074 (Z.abs (k * Sc))).
  { intros k Hk. rewrite Z.abs_mul, (Z.abs_eq Sc), (Z.abs_neq k) by lia.
    apply gridval_int. lia. }
  assert (Hgz : forall k, Z.abs k < 2 ^ 53 -> gridval 1074 (Z.abs (k * Sc))).
  { intros k Hk. destruct (Z.le_gt_cases 0 k); [apply Hg|apply Hgn]; lia. }
  destruct (sub_between (math.float64 B) (math.float64 A)
                        ((B - A) * Sc) ((B - A) * Sc) FB FA)
    as [Fs Vs]; try (apply Hgz; lia); [lia|].
  assert (Vs' : fval (math.float64 B - math.float64 A) = (B - A) * Sc) by lia.
  destruct (mul_between (math.float64 B - math.float64 A) t
                        (Z.min 0 (B - A) * Sc) (Z.max 0 (B - A) * Sc) Fs Ft)
    as [Fp Vp]; try (apply Hgz; lia).
  { rewrite Vs'. destruct (Z.le_gt_cases 0 (B - A)).
    - replace (Z.min 0 (B - A)) with 0 by lia.
      replace (Z.max 0 (B - A)) with (B - A) by lia.
      assert (HX : 0 <= (B - A) * Sc) by (apply Z.mul_nonneg_nonneg; lia).
      split.
      + rewrite Z.mul_0_l. apply Z.mul_nonneg_nonneg; lia.
      + apply Z.mul_le_mono_nonneg_l; lia.
    - replace (Z.min 0 (B - A)) with (B - A) by lia.
      replace (Z.max 0 (B - A)) with 0 by lia.
      assert (HX : (B - A) * Sc <= 0) by (apply Z.mul_nonpos_nonneg; lia).
      split.
      + apply Z.mul_le_mono_nonpos_l; lia.
      + rewrite Z.mul_0_l. apply Z.mul_nonpos_nonneg; lia. }
  destruct (add_between (math.float64 A)
                        ((math.float64 B - math.float64 A) * t)
                        (Z.min A B * Sc) (Z.max A B * Sc) FA Fp)
    as [Fq Vq]; try (apply Hgz; lia).
  { rewrite VA. split; nia. }
  unfold lerp1. apply int_between; try assumption; try lia.
Qed.

(** [math.Mod] by a positive number: finite, not beyond the divisor, with
    the sign of the dividend. *)
Lemma Mod_between (x y : float) :
  finite x -> finite y -> 0 < fval y ->
  finite (math.Mod x y)
  /\ (0 <= fval x -> 0 <= fval (math.Mod x y) <= fval y)
  /\ (fval x <= 0 -> - fval y <= fval (math.Mod x y) <= 0).
Proof.
  intros Hx Hy Hpos. pose proof (finite_fin64 x Hx) as Fx.
  pose proof (finite_fin64 y Hy) as Fy.
  pose proof (finite_gridval y Hy) as Gy.
  unfold math.Mod. unfold finite, fval in *.
  destruct (Prim2SF y) as [sy|sy| |sy my ey] eqn:Ey;
    try (destruct Fy; discriminate).
  { rewrite sval_zero in Hpos. lia. }
  destruct (fin64_exp _ _ _ Fy) as [Hey _].
  assert (Hpy : 0 < 2 ^ (ey + 1074)) by (apply Z.pow_pos_nonneg; lia).
  assert (Hsy : sy = false).
  { destruct sy; [|reflexivity]. rewrite sval_finite in Hpos. nia. }
  subst sy.
  destruct (Prim2SF x) as [sx|sx| |sx mx ex] eqn:Ex;
    try (destruct Fx; discriminate).
  - rewrite Ex. split; [reflexivity|]. rewrite sval_zero. lia.
  - destruct (fin64_exp _ _ _ Fx) as [Hex _].
    rewrite Prim2SF_SF2Prim by apply binary_normalize_valid.
    set (e := Z.min ex ey).
    set (r := (Z.pos mx * 2 ^ (ex - e)) mod (Z.pos my * 2 ^ (ey - e))).
    assert (Hpe : 0 < 2 ^ (ey - e)) by (apply Z.pow_pos_nonneg; unfold e; lia).
    assert (Hr : 0 <= r < Z.pos my * 2 ^ (ey - e))
      by (apply Z.mod_pos_bound; nia).
    assert (Hp : 0 < 2 ^ (e + 1074))
      by (apply Z.pow_pos_nonneg; unfold e; lia).
    assert (Hy' : sval (S754_finite false my ey)
                  = Z.pos my * 2 ^ (ey - e) * 2 ^ (e + 1074)).
    { rewrite sval_finite, <- Z.mul_assoc, <- Z.pow_add_r
        by (unfold e; lia).
      do 2 f_equal. lia. }
    assert (Hrv : 0 <= r * 2 ^ (e + 1074) <= sval (S754_finite false my ey)).
    { rewrite Hy'. split; [nia|].
      apply Z.mul_le_mono_nonneg_r; lia. }
    rewrite Z.abs_eq in Gy by lia.
    rewrite !sval_finite. fold (sval (S754_finite false my ey)).
    destruct sx.
    + destruct (binary_normalize_bounds (- r) e 1074
                  (- sval (S754_finite false my ey)) 0 true)
        as (Hfin & Hval & _); try (unfold e; lia).
      * rewrite Z.abs_opp, Z.abs_eq by lia. exact Gy.
      * now left.
      * rewrite Z.mul_opp_l. lia.
      * split; [exact Hfin|]. unfold sval. split; [nia|]. intros _. exact Hval.
    + destruct (binary_normalize_bounds r e 1074
                  0 (sval (S754_finite false my ey)) false)
        as (Hfin & Hval & _); try (unfold e; lia).
      * now left.
      * rewrite Z.abs_eq by lia. exact Gy.
      * lia.
      * split; [exact Hfin|]. unfold sval. split; [intros _; exact Hval|nia].
Qed.

Lemma Prim2SF_infinity : Prim2SF infinity = S754_infinity false.
Proof. reflexivity. Qed.

Lemma Prim2SF_neg_infinity : Prim2SF neg_infinity = S754_infinity true.
Proof. reflexivity. Qed.

Lemma finite_not_infinity (x : float) :
  finite x -> (x =? infinity)%float = false
              /\ (x =? neg_infinity)%float = false.
Proof.
  unfold finite. rewrite !FloatAxioms.eqb_spec.
  rewrite Prim2SF_infinity, Prim2SF_neg_infinity. unfold SFeqb.
  destruct (Prim2SF x) as [s|s| |s m e]; try discriminate; intros _;
    cbn [SFcompare]; split; reflexivity.
Qed.

Lemma finite_not_nan (x : float) : finite x -> math.IsNaN x = false.
Proof.
  intros Hx. unfold math.IsNaN. rewrite (eqb_fval x x Hx Hx).
  now rewrite Z.eqb_refl.
Qed.

(** [math.Max] and [math.Min] of finite numbers. *)
Lemma Max_fin (x y : float) :
  finite x -> finite y ->
  (math.Max x y = x \/ math.Max x y = y)
  /\ fval (math.Max x y) = Z.max (fval x) (fval y).
Proof.
  intros Hx Hy. unfold math.Max.
  destruct (finite_not_infinity x Hx) as [-> _].
  destruct (finite_not_infinity y Hy) as [-> _].
  rewrite (finite_not_nan x Hx), (finite_not_nan y Hy). cbn [orb].
  destruct fval_0 as [F0 V0].
  rewrite (eqb_fval x 0 Hx F0), (eqb_fval x y Hx Hy), V0.
  rewrite (ltb_fval y x Hy Hx).
  destruct (Z.eqb_spec (fval x) 0) as [E0|E0]; cbn [andb].
  - destruct (Z.eqb_spec (fval x) (fval y)) as [E|E].
    + destruct (get_sign x); split; auto; lia.
    + destruct (Z.ltb_spec (fval y) (fval x)); split; auto; lia.
  - destruct (Z.ltb_spec (fval y) (fval x)); split; auto; lia.
Qed.

Lemma Min_fin (x y : float) :
  finite x -> finite y ->
  (math.Min x y = x \/ math.Min x y = y)
  /\ fval (math.Min x y) = Z.min (fval x) (fval y).
Proof.
  intros Hx Hy. unfold math.Min.
  destruct (finite_not_infinity x Hx) as [_ ->].
  destruct (finite_not_infinity y Hy) as [_ ->].
  rewrite (finite_not_nan x Hx), (finite_not_nan y Hy). cbn [orb].
  destruct fval_0 as [F0 V0].
  rewrite (eqb_fval x 0 Hx F0), (eqb_fval x y Hx Hy), V0.
  rewrite (ltb_fval x y Hx Hy).
  destruct (Z.eqb_spec (fval x) 0) as [E0|E0]; cbn [andb].
  - destruct (Z.eqb_spec (fval x) (fval y)) as [E|E].
    + destruct (get_sign x); split; auto; lia.
    + destruct (Z.ltb_spec (fval x) (fval y)); split; auto; lia.
  - destruct (Z.ltb_spec (fval x) (fval y)); split; auto; lia.
Qed.

(** The values of the constants of the colour code. *)
Lemma fval_consts :
  (finite 2 /\ fval 2 = 2 * Sc) /\ (finite 4 /\ fval 4 = 4 * Sc)
  /\ (finite 6 /\ fval 6 = 6 * Sc) /\ (finite 60 /\ fval 60 = 60 * Sc)
  /\ (finite 255 /\ fval 255 = 255 * Sc)
  /\ (finite 360 /\ fval 360 = 360 * Sc).
Proof.
  repeat split; try reflexivity; vm_compute; reflexivity.
Qed.

Lemma fval_chromaTop :
  finite chromaTop /\ fval chromaTop = (2 ^ 50 + 1) * 2 ^ 1024.
Proof. split; [reflexivity|vm_compute; reflexivity]. Qed.

Lemma Sc_split : Sc = 2 ^ 50 * 2 ^ 1024.
Proof. vm_compute. reflexivity. Qed.

(** One channel of [hsvToRgb]. *)
Lemma channel_range (r1 m : float) (cv : Z) :
  finite r1 -> finite m -> 0 <= fval r1 <= cv -> 0 <= fval m ->
  cv + fval m < fval chromaTop ->
  0 <= math.int ((r1 + m) * 255) <= 255.
Proof.
  intros Fr Fm Hr Hm Hsum.
  destruct fval_chromaTop as [FT VT].
  destruct fval_consts as (_ & _ & _ & _ & [F255 V255] & _).
  pose proof (finite_gridval chromaTop FT) as GT.
  assert (HP : 0 < 2 ^ 1024) by (apply Z.pow_pos_nonneg; lia).
  pose proof Sc_split as HSc.
  destruct (add_between r1 m 0 (fval chromaTop) Fr Fm) as [Fa Va];
    [now left|exact GT|lia|].
  assert (G2 : gridval 1074 (Z.abs (511 * 2 ^ 1073))).
  { rewrite Z.abs_eq by (assert (0 < 2 ^ 1073) by (apply Z.pow_pos_nonneg; lia);
                         lia).
    apply gridval_pow; [lia|lia|]. vm_compute. discriminate. }
  assert (H1073 : 2 ^ 1073 = 2 ^ 49 * 2 ^ 1024) by (vm_compute; reflexivity).
  destruct (mul_between (r1 + m) 255 0 (511 * 2 ^ 1073) Fa F255) as [Fp Vp];
    [now left|exact G2| |].
  { rewrite V255, VT in *. rewrite H1073, HSc.
    generalize dependent (2 ^ 1024). intros P. intros. split.
    - apply Z.mul_nonneg_nonneg; lia.
    - assert (fval (r1 + m) * (255 * (2 ^ 50 * P))
              <= (2 ^ 50 + 1) * P * (255 * (2 ^ 50 * P)))
        by (apply Z.mul_le_mono_nonneg_r; lia).
      assert ((2 ^ 50 + 1) * P * (255 * (2 ^ 50 * P))
              <= 511 * (2 ^ 49 * P) * (2 ^ 50 * P)).
      { replace ((2 ^ 50 + 1) * P * (255 * (2 ^ 50 * P)))
          with ((2 ^ 50 + 1) * 255 * (P * (2 ^ 50 * P))) by ring.
        replace (511 * (2 ^ 49 * P) * (2 ^ 50 * P))
          with (511 * 2 ^ 49 * (P * (2 ^ 50 * P))) by ring.
        apply Z.mul_le_mono_nonneg_r; [|lia].
        apply Z.mul_nonneg_nonneg; lia. }
      lia. }
  apply int_between; [exact Fp|lia|lia|].
  rewrite H1073 in Vp. rewrite HSc.
  generalize dependent (2 ^ 1024). intros P. intros. lia.
Qed.

(** The factor of the second largest channel in [hsvToRgb] is between 0
    and 1 for every finite hue. *)
Lemma hue_factor (H : float) :
  finite H ->
  let h1 := math.Mod H 360 in
  let h2 := if (h1 <? 0)%float then (h1 + 360)%float else h1 in
  between (1 - math.Abs (math.Mod (h2 / 60) 2 - 1)) 0 Sc.
Proof.
  intros FH. pose proof Sc_pos as HSc.
  destruct fval_0 as [F0 V0]. destruct fval_1 as [F1 V1].
  destruct fval_consts
    as ([F2 V2] & _ & [F6 V6] & [F60 V60] & _ & [F360 V360]).
  assert (Hg : forall k, 0 <= k < 2 ^ 53 -> gridval 1074 (Z.abs (k * Sc))).
  { intros k Hk. rewrite Z.abs_mul, (Z.abs_eq Sc), (Z.abs_eq k) by lia.
    now apply gridval_int. }
  assert (Hgn : forall k, 0 <= k < 2 ^ 53 -> gridval 1074 (Z.abs (- k * Sc))).
  { intros k Hk. rewrite Z.abs_mul, (Z.abs_eq Sc), Z.abs_opp, (Z.abs_eq k) by lia.
    now apply gridval_int. }
  cbv zeta.
  (* the hue, brought into [0, 360] *)
  destruct (Mod_between H 360 FH F360 ltac:(lia)) as (Fh1 & Hpos & Hneg).
  set (h1 := math.Mod H 360) in *.
  assert (Hh1 : - (360 * Sc) <= fval h1 <= 360 * Sc).
  { destruct (Z.le_gt_cases 0 (fval H)); [specialize (Hpos ltac:(lia))
                                         |specialize (Hneg ltac:(lia))]; lia. }
  set (h2 := if (h1 <? 0)%float then (h1 + 360)%float else h1).
  assert (Bh2 : between h2 0 (360 * Sc)).
  { unfold h2. rewrite (ltb_fval h1 0 Fh1 F0), V0.
    destruct (Z.ltb_spec (fval h1) 0).
    - apply add_between; try assumption; [now left|apply (Hg 360); lia|lia].
    - split; [exact Fh1|lia]. }
  destruct Bh2 as [Fh2 Vh2].
  destruct (div_between h2 60 0 (6 * Sc) Fh2 F60) as [Fu Vu];
    [lia|now left|apply (Hg 6); lia| |].
  { rewrite V60. split; [rewrite Z.mul_0_l; apply Z.mul_nonneg_nonneg; lia|].
    replace (6 * Sc * (60 * Sc)) with (360 * Sc * Sc) by ring.
    apply Z.mul_le_mono_nonneg_r; lia. }
  destruct (Mod_between (h2 / 60) 2 Fu F2 ltac:(lia)) as (Fk & Hk & _).
  specialize (Hk ltac:(lia)).
  destruct (sub_between (math.Mod (h2 / 60) 2) 1 (- 1 * Sc) (1 * Sc) Fk F1)
    as [Fk1 Vk1]; [apply (Hgn 1); lia|apply (Hg 1); lia|lia|].
  destruct (abs_between _ Fk1) as [Fk2 Vk2].
  unfold math.Abs. replace Sc with (1 * Sc) at 2 by lia.
  apply sub_between; try assumption; [now left|apply (Hg 1); lia|lia].
Qed.

Lemma hsvToRgb_range (H s v : float) :
  finite H -> finite (v * s) -> finite (v - v * s) ->
  0 <= fval (v * s) -> 0 <= fval (v - v * s) ->
  fval (v * s) + fval (v - v * s) < fval chromaTop ->
  0 <= R (hsvToRgb H s v) <= 255
  /\ 0 <= G (hsvToRgb H s v) <= 255
  /\ 0 <= B (hsvToRgb H s v) <= 255.
Proof.
  intros FH Fc Fm Hc Hm Hsum. pose proof Sc_pos as HSc.
  destruct fval_0 as [F0 V0].
  pose proof (hue_factor H FH) as Bf. cbv zeta in Bf.
  unfold hsvToRgb. cbv zeta.
  set (c := (v * s)%float) in *. set (m := (v - c)%float) in *.
  set (h1 := math.Mod H 360) in *.
  set (h2 := if (h1 <? 0)%float then (h1 + 360)%float else h1) in *.
  set (f := (1 - math.Abs (math.Mod (h2 / 60) 2 - 1))%float) in *.
  destruct Bf as [Ff Vf].
  destruct (mul_between c f 0 (fval c) Fc Ff) as [Fx Vx];
    [now left|now apply finite_gridval| |].
  { split; [rewrite Z.mul_0_l; apply Z.mul_nonneg_nonneg; lia|].
    apply Z.mul_le_mono_nonneg_l; lia. }
  set (x := (c * f)%float) in *.
  (* every channel *)
  assert (Hch : forall r1, finite r1 -> 0 <= fval r1 <= fval c ->
                           0 <= math.int ((r1 + m) * 255) <= 255).
  { intros r1 Fr Hr. apply (channel_range r1 m (fval c)); assumption. }
  assert (Ec : 0 <= math.int ((c + m) * 255) <= 255) by (apply Hch; [|lia]; exact Fc).
  assert (Ex : 0 <= math.int ((x + m) * 255) <= 255) by (apply Hch; [|lia]; exact Fx).
  assert (E0 : 0 <= math.int ((0 + m) * 255) <= 255)
    by (apply Hch; [exact F0|lia]).
  destruct (h2 <? 60)%float; [cbn [R G B]; auto|].
  destruct (h2 <? 120)%float; [cbn [R G B]; auto|].
  destruct (h2 <? 180)%float; [cbn [R G B]; auto|].
  destruct (h2 <? 240)%float; [cbn [R G B]; auto|].
  destruct (h2 <? 300)%float; cbn [R G B]; auto.
Qed.

Lemma hsv_pairs :
  forallb (fun v => forallb (fun w => hsvPairOk v w) unitTable) unitTable
  = true.
Proof. vm_compute. reflexivity. Qed.

Lemma unitTable_In (n : Z) : 0 <= n <= 255 -> In (unit255 n) unitTable.
Proof.
  intros Hn. unfold unitTable. apply in_map_iff. exists (Z.to_nat n).
  split; [f_equal; lia|apply in_seq; lia].
Qed.

Lemma hsvPairOk_table (v w : float) :
  In v unitTable -> In w unitTable -> hsvPairOk v w = true.
Proof.
  intros Hv Hw. pose proof hsv_pairs as H.
  rewrite forallb_forall in H. specialize (H v Hv).
  rewrite forallb_forall in H. exact (H w Hw).
Qed.

Lemma unit255_between (n : Z) : 0 <= n <= 255 -> between (unit255 n) 0 Sc.
Proof.
  intros Hn. pose proof Sc_pos as HSc.
  destruct (float64_exact n ltac:(lia)) as [Fn Vn].
  destruct fval_consts as (_ & _ & _ & _ & [F255 V255] & _).
  unfold unit255. apply div_between; try assumption;
    try (rewrite V255; lia); [now left| |].
  - rewrite Z.abs_eq by lia. replace Sc with (1 * Sc) by lia.
    apply gridval_int. lia.
  - rewrite Vn, V255. split.
    + rewrite Z.mul_0_l. apply Z.mul_nonneg_nonneg; lia.
    + replace (Sc * (255 * Sc)) with (255 * Sc * Sc) by ring.
      apply Z.mul_le_mono_nonneg_r; [lia|].
      apply Z.mul_le_mono_nonneg_r; lia.
Qed.

Lemma chromaOk_pair (v w : float) :
  between v 0 Sc -> between w 0 Sc -> fval w <= fval v -> 0 < fval v ->
  hsvPairOk v w = true ->
  between (v - w) 0 (fval v)
  /\ ((v - w =? 0)%float = true \/ 2 ^ 1065 <= fval (v - w))
  /\ between ((v - w) / v) 0 Sc
  /\ chromaOk ((v - w) / v) v.
Proof.
  intros [Fv Vv] [Fw Vw] Hle Hpos Hok. pose proof Sc_pos as HSc.
  destruct fval_0 as [F0 V0]. destruct fval_chromaTop as [FT VT].
  pose proof (finite_gridval v Fv) as Gv. rewrite Z.abs_eq in Gv by lia.
  assert (G0 : gridval 1074 (Z.abs 0)) by now left.
  assert (Gv' : gridval 1074 (Z.abs (fval v))) by (rewrite Z.abs_eq by lia; exact Gv).
  destruct (sub_between v w 0 (fval v) Fv Fw G0 Gv' ltac:(lia)) as [Fd Vd].
  destruct (div_between (v - w) v 0 Sc Fd Fv Hpos G0) as [Fs Vs].
  { rewrite Z.abs_eq by lia. replace Sc with (1 * Sc) by lia.
    apply gridval_int. lia. }
  { split; [rewrite Z.mul_0_l; apply Z.mul_nonneg_nonneg; lia|].
    rewrite (Z.mul_comm Sc). apply Z.mul_le_mono_nonneg_r; lia. }
  destruct (mul_between v ((v - w) / v) 0 (fval v) Fv Fs G0 Gv') as [Fc Vc].
  { split; [rewrite Z.mul_0_l; apply Z.mul_nonneg_nonneg; lia|].
    apply Z.mul_le_mono_nonneg_l; lia. }
  destruct (sub_between v (v * ((v - w) / v)) 0 (fval v) Fv Fc G0 Gv'
                        ltac:(lia)) as [Fm Vm].
  unfold hsvPairOk in Hok. cbv zeta in Hok.
  rewrite (leb_fval w v Fw Fv) in Hok.
  rewrite (eqb_fval v 0 Fv F0), V0 in Hok.
  destruct (Z.leb_spec (fval w) (fval v)); [|lia].
  destruct (Z.eqb_spec (fval v) 0); [lia|]. cbn [negb orb] in Hok.
  apply andb_true_iff in Hok as [Hsum Hd].
  split; [split; [exact Fd|exact Vd]|]. split.
  - apply orb_true_iff in Hd as [Hd|Hd]; [now left|right].
    assert (F9 : finite 0x1p-9) by reflexivity.
    assert (V9 : fval 0x1p-9 = 2 ^ 1065) by (vm_compute; reflexivity).
    rewrite (leb_fval _ _ F9 Fd), V9 in Hd. now apply Z.leb_le in Hd.
  - split; [split; [exact Fs|exact Vs]|].
    split; [exact Fc|]. split; [exact Fm|]. split; [lia|]. split; [lia|].
    destruct (Z.lt_ge_cases
                (fval (v * ((v - w) / v)) + fval (v - v * ((v - w) / v)))
                (fval chromaTop)) as [Hlt|Hge]; [exact Hlt|exfalso].
    destruct (add_between (v * ((v - w) / v)) (v - v * ((v - w) / v))
                          (fval chromaTop) (2 * Sc) Fc Fm) as [Fa Va].
    + now apply finite_gridval.
    + rewrite Z.abs_eq by lia. apply gridval_int. lia.
    + lia.
    + rewrite (ltb_fval _ _ Fa FT) in Hsum. apply Z.ltb_lt in Hsum. lia.
Qed.

Lemma chromaOk_black : chromaOk 0 0.
Proof.
  unfold chromaOk. repeat split; try reflexivity; vm_compute; congruence.
Qed.

(** The hue, saturation and value of a colour whose channels are in
    range. *)
Lemma rgbToHsv_ok (c : colorRGB) :
  0 <= R c <= 255 -> 0 <= G c <= 255 -> 0 <= B c <= 255 ->
  let '(h, s, v) := rgbToHsv c in
  between h (- (2 ^ 15) * Sc) (2 ^ 15 * Sc) /\ chromaOk s v
  /\ between s 0 Sc /\ between v 0 Sc.
Proof.
  intros HR HG HB. pose proof Sc_pos as HSc.
  destruct fval_0 as [F0 V0].
  destruct fval_consts
    as ([F2 V2] & [F4 V4] & [F6 V6] & [F60 V60] & _ & _).
  assert (Hg : forall k, Z.abs k < 2 ^ 53 -> gridval 1074 (Z.abs (k * Sc))).
  { intros k Hk. rewrite Z.abs_mul, (Z.abs_eq Sc) by lia.
    apply gridval_int. lia. }
  assert (Bzero : between 0 (- 2 ^ 15 * Sc) (2 ^ 15 * Sc))
    by (split; [exact F0|rewrite V0; lia]).
  unfold rgbToHsv. cbv zeta.
  fold (unit255 (R c)). fold (unit255 (G c)). fold (unit255 (B c)).
  destruct (unit255_between (R c) HR) as [Fr Vr].
  destruct (unit255_between (G c) HG) as [Fg Vg].
  destruct (unit255_between (B c) HB) as [Fb Vb].
  pose proof (unitTable_In (R c) HR) as Ir.
  pose proof (unitTable_In (G c) HG) as Ig.
  pose proof (unitTable_In (B c) HB) as Ib.
  set (r := unit255 (R c)) in *. set (g := unit255 (G c)) in *.
  set (b := unit255 (B c)) in *.
  destruct (Max_fin g b Fg Fb) as [Hgb Vgb].
  assert (Fgb : finite (math.Max g b)) by (destruct Hgb as [->| ->]; assumption).
  destruct (Max_fin r (math.Max g b) Fr Fgb) as [Hmax Vmax].
  destruct (Min_fin g b Fg Fb) as [Hgb' Vgb'].
  assert (Fgb' : finite (math.Min g b))
    by (destruct Hgb' as [->| ->]; assumption).
  destruct (Min_fin r (math.Min g b) Fr Fgb') as [Hmin Vmin].
  set (maxv := math.Max r (math.Max g b)) in *.
  set (minv := math.Min r (math.Min g b)) in *.
  assert (Imax : In maxv unitTable)
    by (destruct Hmax as [->| ->]; [|destruct Hgb as [->| ->]]; assumption).
  assert (Imin : In minv unitTable)
    by (destruct Hmin as [->| ->]; [|destruct Hgb' as [->| ->]]; assumption).
  assert (Fmax : finite maxv)
    by (destruct Hmax as [->| ->]; assumption).
  assert (Fmin : finite minv)
    by (destruct Hmin as [->| ->]; assumption).
  assert (Bmax : between maxv 0 Sc) by (split; [exact Fmax|lia]).
  assert (Bmin : between minv 0 Sc) by (split; [exact Fmin|lia]).
  rewrite (eqb_fval maxv 0 Fmax F0), V0.
  destruct (Z.eqb_spec (fval maxv) 0) as [E0|E0].
  { split; [exact Bzero|]. split; [exact chromaOk_black|].
    split; split; try exact F0; rewrite V0; lia. }
  cbn [negb].
  destruct (chromaOk_pair maxv minv Bmax Bmin ltac:(lia) ltac:(lia)
                          (hsvPairOk_table maxv minv Imax Imin))
    as ([Fd Vd] & Hd & Bs & Hchroma).
  split; [|split; [exact Hchroma|split; [exact Bs|exact Bmax]]].
  destruct (maxv - minv =? 0)%float eqn:Ed; [exact Bzero|].
  destruct Hd as [Hd|Hd]; [discriminate|].
  set (d := (maxv - minv)%float) in *.
  assert (H512 : 2 ^ 1065 * 512 = Sc) by (vm_compute; reflexivity).
  (* a difference of two channels over the spread *)
  assert (Hq : forall x y, between x 0 Sc -> between y 0 Sc ->
                           between ((x - y) / d) (- 512 * Sc) (512 * Sc)).
  { intros x y [Fx Vx] [Fy Vy].
    destruct (sub_between x y (- 1 * Sc) (1 * Sc) Fx Fy) as [Fs Vs];
      [apply Hg; lia|apply Hg; lia|lia|].
    apply div_between; try assumption; try lia; try (apply Hg; lia). }
  assert (Hadd : forall x k, between x (- 512 * Sc) (512 * Sc) ->
                             finite k -> 0 <= fval k <= 6 * Sc ->
                             between (x + k) (- 512 * Sc) (518 * Sc)).
  { intros x k [Fx Vx] Fk Vk.
    apply add_between; try assumption; try (apply Hg; lia). lia. }
  assert (Hmul : forall x, between x (- 512 * Sc) (518 * Sc) ->
                           between (x * 60) (- 2 ^ 15 * Sc) (2 ^ 15 * Sc)).
  { intros x [Fx Vx].
    apply mul_between; try assumption; try (apply Hg; lia).
    rewrite V60. split.
    - apply Z.le_trans with (- 512 * Sc * (60 * Sc)).
      + replace (- 2 ^ 15 * Sc * Sc) with (- 32768 * Sc * Sc) by reflexivity.
        replace (- 512 * Sc * (60 * Sc)) with (- 30720 * Sc * Sc) by ring.
        apply Z.mul_le_mono_nonneg_r; [lia|]. lia.
      + apply Z.mul_le_mono_nonneg_r; lia.
    - apply Z.le_trans with (518 * Sc * (60 * Sc)).
      + apply Z.mul_le_mono_nonneg_r; lia.
      + replace (2 ^ 15 * Sc * Sc) with (32768 * Sc * Sc) by reflexivity.
        replace (518 * Sc * (60 * Sc)) with (31080 * Sc * Sc) by ring.
        apply Z.mul_le_mono_nonneg_r; [lia|]. lia. }
  assert (Hwide : forall x, between x (- 512 * Sc) (512 * Sc) ->
                            between x (- 512 * Sc) (518 * Sc)).
  { intros x [Fx Vx]. split; [exact Fx|lia]. }
  assert (Br : between r 0 Sc) by (split; [exact Fr|exact Vr]).
  assert (Bg : between g 0 Sc) by (split; [exact Fg|exact Vg]).
  assert (Bb : between b 0 Sc) by (split; [exact Fb|exact Vb]).
  destruct (maxv =? r)%float.
  { apply Hmul. destruct (g <? b)%float.
    - apply Hadd; [apply Hq; assumption|exact F6|lia].
    - apply Hwide. apply Hq; assumption. }
  destruct (maxv =? g)%float.
  { apply Hmul. apply Hadd; [apply Hq; assumption|exact F2|lia]. }
  destruct (maxv =? b)%float.
  { apply Hmul. apply Hadd; [apply Hq; assumption|exact F4|lia]. }
  apply Hmul. apply Hwide. split; [exact F0|lia].
Qed.

(** The sum of a bounded hue and any finite number of degrees is finite. *)
Lemma hue_plus_delta_finite (h delta : float) :
  between h (- 2 ^ 15 * Sc) (2 ^ 15 * Sc) -> finite delta ->
  finite (h + delta).
Proof.
  intros [Fh Vh] Fd. apply add_finite; try assumption.
  pose proof (finite_gridval delta Fd) as Gd.
  apply (gridval_le_max 1074) in Gd; [|lia].
  assert (HSc : Sc = 2 ^ 1074) by reflexivity.
  assert (H1 : 2 ^ (971 + 1074) = 2 ^ 971 * 2 ^ 1074) by (vm_compute; reflexivity).
  assert (H2 : 2 ^ (970 + 1074) = 2 ^ 970 * 2 ^ 1074) by (vm_compute; reflexivity).
  rewrite H1 in Gd. rewrite H2. rewrite HSc in Vh.
  assert (HP : 0 < 2 ^ 1074) by (apply Z.pow_pos_nonneg; lia).
  generalize dependent (2 ^ 1074). intros P. intros.
  assert (H971 : 2 ^ 971 = 2 * 2 ^ 970) by (vm_compute; reflexivity).
  rewrite H971 in Gd.
  assert (H970 : 2 ^ 16 <= 2 ^ 970) by (apply Z.pow_le_mono_r; lia).
  generalize dependent (2 ^ 970). intros Q. intros.
  assert (2 ^ 16 * P <= Q * P) by (apply Z.mul_le_mono_nonneg_r; lia).
  lia.
Qed.

(** X12.  Interpolation stays between its end points: for colours with
    channels in [[0, 255]] and a fraction [0 <= t <= 1], every channel of
    [lerp a b t] lies between the channels of [a] and [b], and so in
    [[0, 255]]. *)
Theorem lerp_between_endpoints (a b : colorRGB) (t : float) :
  0 <= R a <= 255 -> 0 <= G a <= 255 -> 0 <= B a <= 255 ->
  0 <= R b <= 255 -> 0 <= G b <= 255 -> 0 <= B b <= 255 ->
  (0 <=? t)%float = true -> (t <=? 1)%float = true ->
  (Z.min (R a) (R b) <= R (lerp a b t) <= Z.max (R a) (R b)
   /\ Z.min (G a) (G b) <= G (lerp a b t) <= Z.max (G a) (G b)
   /\ Z.min (B a) (B b) <= B (lerp a b t) <= Z.max (B a) (B b))
  /\ (0 <= R (lerp a b t) <= 255 /\ 0 <= G (lerp a b t) <= 255
      /\ 0 <= B (lerp a b t) <= 255).
Proof.
  intros HRa HGa HBa HRb HGb HBb H0 H1.
  assert (H52 : 255 < 2 ^ 52) by reflexivity.
  pose proof (lerp1_between (R a) (R b) t ltac:(lia) ltac:(lia) H0 H1) as Hr.
  pose proof (lerp1_between (G a) (G b) t ltac:(lia) ltac:(lia) H0 H1) as Hg.
  pose proof (lerp1_between (B a) (B b) t ltac:(lia) ltac:(lia) H0 H1) as Hb.
  unfold lerp1 in Hr, Hg, Hb. unfold lerp. cbn [R G B].
  split; [auto|]. repeat split; lia.
Qed.

Lemma lerp_between_endpoints_witness :
  (0 <=? 0.25)%float = true /\ (0.25 <=? 1)%float = true
  /\ 0 <= R (lerp (mkColor 138 43 226) (mkColor 0 255 255) 0.25) <= 138
  /\ 43 <= G (lerp (mkColor 138 43 226) (mkColor 0 255 255) 0.25) <= 255.
Proof.
  assert (H0 : (0 <=? 0.25)%float = true) by reflexivity.
  assert (H1 : (0.25 <=? 1)%float = true) by reflexivity.
  split; [exact H0|]. split; [exact H1|].
  pose proof (lerp_between_endpoints (mkColor 138 43 226) (mkColor 0 255 255)
                                     0.25) as H.
  cbn [R G B] in H.
  specialize (H ltac:(lia) ltac:(lia) ltac:(lia) ltac:(lia) ltac:(lia)
                ltac:(lia) H0 H1).
  destruct H as ((Hr & Hg & _) & _).
  split; [exact Hr|exact Hg].
Defined.

(** X13.  Hue rotation keeps the channels in range: for a colour with
    channels in [[0, 255]] and any finite number of degrees, every channel
    of [rotateHue c delta] is in [[0, 255]]. *)
Theorem rotateHue_in_range (c : colorRGB) (delta : float) :
  0 <= R c <= 255 -> 0 <= G c <= 255 -> 0 <= B c <= 255 ->
  finite delta ->
  0 <= R (rotateHue c delta) <= 255
  /\ 0 <= G (rotateHue c delta) <= 255
  /\ 0 <= B (rotateHue c delta) <= 255.
Proof.
  intros HR HG HB Fd. unfold rotateHue.
  pose proof (rgbToHsv_ok c HR HG HB) as Hok.
  destruct (rgbToHsv c) as [[h s] v].
  destruct Hok as (Bh & (Fc & Fm & Hc & Hm & Hsum) & _).
  apply hsvToRgb_range; try assumption.
  exact (hue_plus_delta_finite h delta Bh Fd).
Qed.

Lemma rotateHue_in_range_witness :
  finite 90
  /\ 0 <= R (rotateHue (mkColor 138 43 226) 90) <= 255
  /\ 0 <= G (rotateHue (mkColor 138 43 226) 90) <= 255
  /\ 0 <= B (rotateHue (mkColor 138 43 226) 90) <= 255.
Proof.
  assert (F : finite 90) by reflexivity.
  split; [exact F|].
  refine (rotateHue_in_range (mkColor 138 43 226) 90 _ _ _ F);
    cbn [R G B]; lia.
Defined.

(** ** Greys *)

Lemma finite_zero (x : float) :
  finite x -> fval x = 0 -> exists s, Prim2SF x = S754_zero s.
Proof.
  intros Fx Vx. apply (sval_zero_iff (Prim2SF x)); [now apply finite_fin64|].
  exact Vx.
Qed.

Lemma finite_nonzero (x : float) :
  finite x -> fval x <> 0 -> exists s m e, Prim2SF x = S754_finite s m e.
Proof.
  unfold finite, fval. destruct (Prim2SF x) as [s|s| |s m e]; try discriminate.
  - rewrite sval_zero. intros _ H. now elim H.
  - eauto.
Qed.

(** A zero added to, or taken from, a number that is not zero. *)
Lemma add_zero_l (z x : float) :
  finite z -> fval z = 0 -> finite x -> fval x <> 0 -> (z + x)%float = x.
Proof.
  intros Fz Vz Fx Vx. apply Prim2SF_inj. rewrite add_spec.
  destruct (finite_zero z Fz Vz) as [s ->].
  destruct (finite_nonzero x Fx Vx) as (sx & mx & ex & ->). reflexivity.
Qed.

Lemma sub_zero_r (x z : float) :
  finite z -> fval z = 0 -> finite x -> fval x <> 0 -> (x - z)%float = x.
Proof.
  intros Fz Vz Fx Vx. apply Prim2SF_inj. rewrite sub_spec.
  destruct (finite_zero z Fz Vz) as [s ->].
  destruct (finite_nonzero x Fx Vx) as (sx & mx & ex & ->). reflexivity.
Qed.

Lemma between_zero (x : float) : between x 0 0 -> finite x /\ fval x = 0.
Proof. intros [F V]. split; [exact F|lia]. Qed.

Lemma int_zero (x : float) : finite x -> fval x = 0 -> math.int x = 0.
Proof.
  intros Fx Vx. pose proof Sc_pos.
  assert (0 <= math.int x <= 0); [|lia].
  apply int_between; try assumption; lia.
Qed.

(** [hsvToRgb] without chroma: every channel is the value. *)
Lemma hsvToRgb_grey (H s v : float) :
  finite H -> finite v -> finite (v * s) -> fval (v * s) = 0 ->
  hsvToRgb H s v
  = mkColor (math.int (v * 255)) (math.int (v * 255)) (math.int (v * 255)).
Proof.
  intros FH Fv Fc Vc. pose proof Sc_pos as HSc.
  destruct fval_0 as [F0 V0].
  destruct fval_consts as (_ & _ & _ & _ & [F255 V255] & _).
  assert (G0 : gridval 1074 (Z.abs 0)) by now left.
  pose proof (hue_factor H FH) as Bf. cbv zeta in Bf.
  unfold hsvToRgb. cbv zeta.
  set (c := (v * s)%float) in *.
  set (h1 := math.Mod H 360) in *.
  set (h2 := if (h1 <? 0)%float then (h1 + 360)%float else h1) in *.
  set (f := (1 - math.Abs (math.Mod (h2 / 60) 2 - 1))%float) in *.
  destruct Bf as [Ff Vf].
  destruct (between_zero (c * f))
    as [Fx Vx].
  { apply mul_between; try assumption. rewrite Vc. lia. }
  assert (Hch : forall r1, finite r1 -> fval r1 = 0 ->
                           math.int ((r1 + (v - c)) * 255) = math.int (v * 255)).
  { intros r1 Fr Vr. destruct (Z.eq_dec (fval v) 0) as [Ev|Ev].
    - destruct (between_zero (v - c)) as [Fm Vm].
      { apply sub_between; try assumption. lia. }
      destruct (between_zero (r1 + (v - c))) as [Fa Va].
      { apply add_between; try assumption. lia. }
      destruct (between_zero ((r1 + (v - c)) * 255)) as [Fp Vp].
      { apply mul_between; try assumption. rewrite Va. lia. }
      destruct (between_zero (v * 255)) as [Fq Vq].
      { apply mul_between; try assumption. rewrite Ev. lia. }
      rewrite (int_zero _ Fp Vp), (int_zero _ Fq Vq). reflexivity.
    - rewrite (sub_zero_r v c Fc Vc Fv Ev).
      rewrite (add_zero_l r1 v Fr Vr Fv Ev). reflexivity. }
  pose proof (Hch c Fc Vc) as Ec. pose proof (Hch (c * f)%float Fx Vx) as Ex.
  pose proof (Hch 0%float F0 V0) as Ez.
  destruct (h2 <? 60)%float; [now rewrite Ec, Ex, Ez|].
  destruct (h2 <? 120)%float; [now rewrite Ec, Ex, Ez|].
  destruct (h2 <? 180)%float; [now rewrite Ec, Ex, Ez|].
  destruct (h2 <? 240)%float; [now rewrite Ec, Ex, Ez|].
  destruct (h2 <? 300)%float; now rewrite Ec, Ex, Ez.
Qed.

Lemma unit255_back (n : Z) :
  0 <= n <= 255 -> math.int (unit255 n * 255) = n.
Proof.
  intros Hn.
  assert (Hall : range_all 256 (fun n => math.int (unit255 n * 255) =? n)
                 = true) by (vm_compute; reflexivity).
  pose proof (range_all_spec 256 _ Hall n ltac:(lia)) as H. cbv beta in H.
  now apply Z.eqb_eq in H.
Qed.

Lemma Max_same (x : float) : finite x -> math.Max x x = x.
Proof. intros Fx. destruct (Max_fin x x Fx Fx) as [[H|H] _]; exact H. Qed.

Lemma Min_same (x : float) : finite x -> math.Min x x = x.
Proof. intros Fx. destruct (Min_fin x x Fx Fx) as [[H|H] _]; exact H. Qed.

(** X14.  Hue rotation leaves greys alone: a colour whose three channels
    are the same value in [[0, 255]] (black and white included) is returned
    unchanged for any finite number of degrees. *)
Theorem rotateHue_keeps_greys (n : Z) (delta : float) :
  0 <= n <= 255 -> finite delta ->
  rotateHue (mkColor n n n) delta = mkColor n n n.
Proof.
  intros Hn Fd. pose proof Sc_pos as HSc.
  destruct fval_0 as [F0 V0].
  assert (G0 : gridval 1074 (Z.abs 0)) by now left.
  assert (Bzero : between 0 (- 2 ^ 15 * Sc) (2 ^ 15 * Sc))
    by (split; [exact F0|rewrite V0; lia]).
  pose proof (hue_plus_delta_finite 0 delta Bzero Fd) as FH.
  destruct (unit255_between n Hn) as [Fq Vq].
  unfold rotateHue, rgbToHsv. cbv zeta. cbn [R G B].
  fold (unit255 n). set (q := unit255 n) in *.
  rewrite !(Max_same q Fq), !(Min_same q Fq).
  rewrite (eqb_fval q 0 Fq F0), V0.
  destruct (between_zero (q - q)) as [Fdd Vdd].
  { apply sub_between; try assumption. lia. }
  destruct (Z.eqb_spec (fval q) 0) as [E0|E0].
  - (* black *)
    rewrite (hsvToRgb_grey (0 + delta) 0 0 FH F0); [|reflexivity|reflexivity].
    assert (Hq0 : math.int (0 * 255) = 0) by (vm_compute; reflexivity).
    rewrite Hq0.
    assert (n = 0).
    { destruct (Z.eq_dec n 0) as [|Hne]; [assumption|exfalso].
      destruct (float64_exact n ltac:(lia)) as [Fn Vn].
      destruct fval_consts as (_ & _ & _ & _ & [F255 V255] & _).
      assert (G1 : gridval 1074 (Z.abs (2 ^ 1065))).
      { apply (gridval_pow 1 1065); [lia|lia|]. vm_compute. discriminate. }
      assert (G2 : gridval 1074 (Z.abs Sc)).
      { rewrite Z.abs_eq by lia. replace Sc with (1 * Sc) by lia.
        apply gridval_int. lia. }
      assert (H512 : 2 ^ 1065 * 512 = Sc) by (vm_compute; reflexivity).
      destruct (div_between (math.float64 n) 255 (2 ^ 1065) Sc Fn F255)
        as [_ Vq']; try assumption; try (rewrite V255; lia).
      fold (unit255 n) in Vq'. fold q in Vq'.
      assert (0 < 2 ^ 1065) by (apply Z.pow_pos_nonneg; lia). lia. }
    subst n. reflexivity.
  - cbn [negb]. rewrite (eqb_fval (q - q) 0 Fdd F0), V0, Vdd. cbn [Z.eqb].
    destruct (between_zero ((q - q) / q)) as [Fs Vs].
    { apply div_between; try assumption; lia. }
    destruct (between_zero (q * ((q - q) / q))) as [Fc Vc].
    { apply mul_between; try assumption. rewrite Vs. lia. }
    rewrite (hsvToRgb_grey (0 + delta) ((q - q) / q) q FH Fq Fc Vc).
    unfold q. now rewrite (unit255_back n Hn).
Qed.

Lemma rotateHue_keeps_greys_witness :
  finite 123.5
  /\ rotateHue (mkColor 200 200 200) 123.5 = mkColor 200 200 200.
Proof.
  assert (F : finite 123.5) by reflexivity.
  split; [exact F|].
  exact (rotateHue_keeps_greys 200 123.5 ltac:(lia) F).
Defined.

(** ** [clamp01] *)

Lemma float_cases (x : float) :
  finite x \/ x = infinity \/ x = neg_infinity \/ x = nan.
Proof.
  unfold finite. destruct (Prim2SF x) as [s|s| |s m e] eqn:E; cbn [is_fin];
    auto.
  - right. destruct s; [right; left|left]; apply Prim2SF_inj; rewrite E;
      reflexivity.
  - do 3 right. apply Prim2SF_inj. rewrite E. reflexivity.
Qed.

Lemma IsNaN_nan (x : float) : math.IsNaN x = true <-> x = nan.
Proof.
  split.
  - intros H. destruct (float_cases x) as [F|[-> |[-> | -> ]]];
      try reflexivity; try (vm_compute in H; discriminate).
    rewrite (finite_not_nan x F) in H. discriminate.
  - intros ->. reflexivity.
Qed.

(** X15.  [clamp01] brings every number into [[0, 1]]: the result is
    between 0 and 1 unless the argument is not a number (which it returns),
    and a number that is already between 0 and 1 is returned with its
    value. *)
Theorem clamp01_range (x : float) :
  (math.IsNaN x = false ->
   (0 <=? clamp01 x)%float = true /\ (clamp01 x <=? 1)%float = true)
  /\ ((0 <=? x)%float = true -> (x <=? 1)%float = true ->
      (clamp01 x =? x)%float = true)
  /\ (math.IsNaN x = true -> math.IsNaN (clamp01 x) = true).
Proof.
  destruct fval_0 as [F0 V0]. destruct fval_1 as [F1 V1].
  pose proof Sc_pos as HSc.
  assert (Hfin : finite x ->
                 finite (clamp01 x)
                 /\ fval (clamp01 x) = Z.max 0 (Z.min Sc (fval x))).
  { intros Fx. unfold clamp01.
    destruct (Min_fin 1 x F1 Fx) as [Hm Vm].
    assert (Fm : finite (math.Min 1 x)) by (destruct Hm as [->| ->]; assumption).
    destruct (Max_fin 0 (math.Min 1 x) F0 Fm) as [HM VM].
    split; [destruct HM as [->| ->]; assumption|].
    rewrite VM, Vm, V0, V1. replace (1 * Sc) with Sc by lia. reflexivity. }
  split; [|split].
  - intros Hn. destruct (float_cases x) as [F|[-> |[-> | -> ]]];
      try (vm_compute; split; reflexivity); [|vm_compute in Hn; discriminate].
    destruct (Hfin F) as [Fc Vc].
    rewrite (leb_fval _ _ F0 Fc), (leb_fval _ _ Fc F1), V0, V1, Vc.
    split; apply Z.leb_le; lia.
  - intros H0 H1.
    pose proof (leb_finite 0 x 1 F0 F1 H0 H1) as F.
    destruct (Hfin F) as [Fc Vc].
    rewrite (leb_fval _ _ F0 F), V0 in H0. rewrite (leb_fval _ _ F F1), V1 in H1.
    apply Z.leb_le in H0, H1.
    rewrite (eqb_fval _ _ Fc F), Vc. apply Z.eqb_eq. lia.
  - intros Hn. apply IsNaN_nan in Hn. subst x. reflexivity.
Qed.

Lemma clamp01_range_witness :
  math.IsNaN 1.5 = false /\ (clamp01 1.5 <=? 1)%float = true.
Proof.
  split; [reflexivity|].
  exact (proj2 (proj1 (clamp01_range 1.5) eq_refl)).
Defined.

Lemma lerp_inRange (a b : colorRGB) (t : float) :
  inRange a -> inRange b ->
  (0 <=? t)%float = true -> (t <=? 1)%float = true ->
  inRange (lerp a b t).
Proof.
  intros (HRa & HGa & HBa) (HRb & HGb & HBb) H0 H1.
  assert (H52 : 255 < 2 ^ 52) by reflexivity.
  pose proof (lerp1_between (R a) (R b) t ltac:(lia) ltac:(lia) H0 H1) as Hr.
  pose proof (lerp1_between (G a) (G b) t ltac:(lia) ltac:(lia) H0 H1) as Hg.
  pose proof (lerp1_between (B a) (B b) t ltac:(lia) ltac:(lia) H0 H1) as Hb.
  unfold lerp1 in Hr, Hg, Hb. unfold inRange, lerp. cbn [R G B].
  repeat split; lia.
Qed.

Lemma rotateHue_inRange (c : colorRGB) (delta : float) :
  inRange c -> finite delta -> inRange (rotateHue c delta).
Proof.
  intros (HR & HG & HB) Fd. unfold rotateHue.
  pose proof (rgbToHsv_ok c HR HG HB) as Hok.
  destruct (rgbToHsv c) as [[h s] v].
  destruct Hok as (Bh & (Fc & Fm & Hc & Hm & Hsum) & _).
  apply hsvToRgb_range; try assumption.
  exact (hue_plus_delta_finite h delta Bh Fd).
Qed.

Lemma half_finite (k : Z) : 0 <= k < 2 ^ 52 -> finite (half k).
Proof.
  intros Hk. pose proof Sc_pos as HSc.
  destruct (float64_exact k ltac:(lia)) as [Fk Vk].
  assert (Fh : finite 0.5) by reflexivity.
  assert (Vh : fval 0.5 = 2 ^ 1073) by (vm_compute; reflexivity).
  assert (HSc2 : Sc = 2 * 2 ^ 1073) by (vm_compute; reflexivity).
  assert (HP : 0 < 2 ^ 1073) by (apply Z.pow_pos_nonneg; lia).
  assert (G : gridval 1074 (Z.abs (k * 2 ^ 1073))).
  { rewrite Z.abs_eq by (apply Z.mul_nonneg_nonneg; lia).
    destruct (Z.eq_dec k 0) as [->|Hne]; [now left|].
    apply gridval_pow; [lia|lia|].
    assert (Zdigits2 k <= 53) by (apply Zdigits2_le; lia). lia. }
  unfold half.
  destruct (mul_between (math.float64 k) 0.5 (k * 2 ^ 1073) (k * 2 ^ 1073)
                        Fk Fh G G) as [F _]; [|exact F].
  rewrite Vk, Vh. lia.
Qed.

Lemma gradientT_unit (maxW x : Z) :
  0 <= x < maxW -> maxW <= 2 ^ 53 ->
  (0 <=? gradientT maxW x)%float = true
  /\ (gradientT maxW x <=? 1)%float = true.
Proof.
  intros Hx Hw. pose proof Sc_pos as HSc.
  destruct fval_0 as [F0 V0]. destruct fval_1 as [F1 V1].
  unfold gradientT. rewrite Z.gtb_ltb.
  destruct (Z.ltb_spec 1 maxW); [|split; reflexivity].
  destruct (float64_exact x ltac:(lia)) as [Fx Vx].
  destruct (float64_exact (maxW - 1) ltac:(lia)) as [Fw Vw].
  destruct (div_between (math.float64 x) (math.float64 (maxW - 1)) 0 Sc Fx Fw)
    as [Ft Vt].
  - rewrite Vw. nia.
  - now left.
  - rewrite Z.abs_eq by lia. replace Sc with (1 * Sc) by lia.
    apply gridval_int. lia.
  - rewrite Vx, Vw. split.
    + rewrite Z.mul_0_l. apply Z.mul_nonneg_nonneg; nia.
    + replace (Sc * ((maxW - 1) * Sc)) with ((maxW - 1) * Sc * Sc) by ring.
      apply Z.mul_le_mono_nonneg_r; [lia|].
      apply Z.mul_le_mono_nonneg_r; lia.
  - rewrite (leb_fval _ _ F0 Ft), (leb_fval _ _ Ft F1), V0, V1.
    split; apply Z.leb_le; lia.
Qed.

Lemma Hex_lower (c : colorRGB) :
  inRange c ->
  exists d1 d2 d3 d4 d5 d6,
    Hex c = "#"%char :: [d1; d2; d3; d4; d5; d6]
    /\ Forall (fun d => lowerHex d = true) [d1; d2; d3; d4; d5; d6].
Proof.
  intros (HR & HG & HB).
  assert (Hq : forall v, 0 <= v <= 255 -> 0 <= v / 16 < 16).
  { intros v Hv. split; [apply Z.div_pos; lia|].
    apply Z.div_lt_upper_bound; lia. }
  assert (Hm : forall v, 0 <= v mod 16 < 16).
  { intros v. apply Z.mod_pos_bound. lia. }
  rewrite (Hex_digits c HR HG HB). do 6 eexists. split; [reflexivity|].
  repeat constructor;
    first [apply (hexdigit_facts _ (Hq _ HR)) | apply (hexdigit_facts _ (Hq _ HG))
          | apply (hexdigit_facts _ (Hq _ HB)) | apply (hexdigit_facts _ (Hm _))].
Qed.

(** X19.  The colours [View] writes are well formed: in a reachable state
    whose base colours have their channels in [[0, 255]] and whose art is
    less than [2^53] columns wide, the colour of every column (the end
    points rotated by the hue shift when the animation is on, interpolated
    at the column) has its channels in [[0, 255]], and its text is [#]
    followed by six lowercase hexadecimal digits. *)
Theorem cell_colours_wellformed (C : Collaborators) (m : model C) (x : Z) :
  reachable m ->
  inRange (baseStart m) -> inRange (baseEnd m) ->
  maxWidth m <= 2 ^ 53 -> 0 <= x < maxWidth m ->
  let c := lerp (effStart m) (effEnd m) (gradientT (maxWidth m) x) in
  inRange c
  /\ exists d1 d2 d3 d4 d5 d6,
       Hex c = "#"%char :: [d1; d2; d3; d4; d5; d6]
       /\ Forall (fun d => lowerHex d = true) [d1; d2; d3; d4; d5; d6].
Proof.
  intros Hr Hs He Hw Hx c.
  destruct (inv_hue (reachable_Inv C m Hr)) as (k & Hk & Hh).
  assert (Fh : finite (hueShift m)) by (rewrite Hh; apply half_finite; lia).
  destruct (gradientT_unit (maxWidth m) x Hx Hw) as [H0 H1].
  assert (Hc : inRange c).
  { unfold c. apply lerp_inRange; try assumption.
    - unfold effStart. destruct (animate m); [|exact Hs].
      now apply rotateHue_inRange.
    - unfold effEnd. destruct (animate m); [|exact He].
      now apply rotateHue_inRange. }
  split; [exact Hc|]. now apply Hex_lower.
Qed.

Lemma cell_colours_wellformed_witness :
  reachable Demo.start
  /\ inRange (lerp (effStart Demo.start) (effEnd Demo.start)
                   (gradientT (maxWidth Demo.start) 3)).
Proof.
  assert (Hr : reachable Demo.start)
    by (apply reach_init; vm_compute; reflexivity).
  split; [exact Hr|].
  refine (proj1 (cell_colours_wellformed Demo.env Demo.start 3 Hr _ _ _ _)).
  - unfold inRange. cbn. lia.
  - unfold inRange. cbn. lia.
  - cbn. lia.
  - cbn. lia.
Defined.

(** X20.  [rgbToHsv] on a colour with channels in [[0, 255]]: the
    saturation and the value are between 0 and 1 and the hue is a finite
    number; black gives [(0, 0, 0)]. *)
Theorem rgbToHsv_ranges (c : colorRGB) :
  0 <= R c <= 255 -> 0 <= G c <= 255 -> 0 <= B c <= 255 ->
  let '(h, s, v) := rgbToHsv c in
  finite h
  /\ (0 <=? s)%float = true /\ (s <=? 1)%float = true
  /\ (0 <=? v)%float = true /\ (v <=? 1)%float = true
  /\ (R c = 0 -> G c = 0 -> B c = 0 ->
      h = 0%float /\ s = 0%float /\ v = 0%float).
Proof.
  intros HR HG HB. pose proof (rgbToHsv_ok c HR HG HB) as Hok.
  destruct fval_0 as [F0 V0]. destruct fval_1 as [F1 V1].
  destruct (rgbToHsv c) as [[h s] v] eqn:E.
  destruct Hok as ([Fh _] & _ & [Fs Vs] & [Fv Vv]).
  split; [exact Fh|].
  rewrite (leb_fval _ _ F0 Fs), (leb_fval _ _ Fs F1).
  rewrite (leb_fval _ _ F0 Fv), (leb_fval _ _ Fv F1), V0, V1.
  repeat split; try (apply Z.leb_le; lia);
    destruct c as [r g b]; cbn [R G B] in *; subst;
    vm_compute in E; congruence.
Qed.

Lemma rgbToHsv_ranges_witness :
  (0 <=? snd (fst (rgbToHsv (mkColor 138 43 226))))%float = true
  /\ (snd (rgbToHsv (mkColor 138 43 226)) <=? 1)%float = true.
Proof.
  pose proof (rgbToHsv_ranges (mkColor 138 43 226)) as H.
  cbn [R G B] in H.
  specialize (H ltac:(lia) ltac:(lia) ltac:(lia)).
  destruct (rgbToHsv (mkColor 138 43 226)) as [[h s] v].
  destruct H as (_ & Hs & _ & _ & Hv & _).
  split; [exact Hs|exact Hv].
Defined.

(** ** The ends of the gradient *)

(** One channel of [lerp] at the two ends of the gradient. *)
Lemma lerp1_ends (A B : Z) (t : float) :
  0 <= A < 2 ^ 52 -> 0 <= B < 2 ^ 52 -> finite t ->
  (fval t = 0 -> lerp1 A B t = A) /\ (fval t = Sc -> lerp1 A B t = B).
Proof.
  intros HA HB Ft. pose proof Sc_pos as HSc.
  destruct (float64_exact A ltac:(lia)) as [FA VA].
  destruct (float64_exact B ltac:(lia)) as [FB VB].
  assert (Hgz : forall k, Z.abs k < 2 ^ 53 -> gridval 1074 (Z.abs (k * Sc))).
  { intros k Hk. rewrite Z.abs_mul, (Z.abs_eq Sc) by lia.
    apply gridval_int. lia. }
  destruct (sub_between (math.float64 B) (math.float64 A)
                        ((B - A) * Sc) ((B - A) * Sc) FB FA)
    as [Fs Vs]; try (apply Hgz; lia); [lia|].
  assert (Vs' : fval (math.float64 B - math.float64 A) = (B - A) * Sc) by lia.
  assert (Hend : forall k, (k = 0 \/ k = B - A) ->
                           fval (math.float64 B - math.float64 A) * fval t
                           = k * Sc * Sc ->
                           lerp1 A B t = A + k).
  { intros k Hk Hprod.
    destruct (mul_between (math.float64 B - math.float64 A) t
                          (k * Sc) (k * Sc) Fs Ft)
      as [Fp Vp]; try (apply Hgz; lia); [lia|].
    destruct (add_between (math.float64 A)
                          ((math.float64 B - math.float64 A) * t)
                          ((A + k) * Sc) ((A + k) * Sc) FA Fp)
      as [Fq Vq]; try (apply Hgz; lia); [lia|].
    assert (A + k <= lerp1 A B t <= A + k); [|lia].
    unfold lerp1. apply int_between; try assumption; lia. }
  split; intros Vt.
  - rewrite (Hend 0); [lia|now left|]. rewrite Vt. lia.
  - rewrite (Hend (B - A)); [lia|now right|]. rewrite Vs', Vt. lia.
Qed.

Lemma gradientT_ends (maxW : Z) :
  2 <= maxW <= 2 ^ 53 ->
  (finite (gradientT maxW 0) /\ fval (gradientT maxW 0) = 0)
  /\ (finite (gradientT maxW (maxW - 1))
      /\ fval (gradientT maxW (maxW - 1)) = Sc).
Proof.
  intros Hw. pose proof Sc_pos as HSc.
  unfold gradientT. rewrite Z.gtb_ltb.
  destruct (Z.ltb_spec 1 maxW); [|lia].
  destruct (float64_exact 0 ltac:(lia)) as [F0 V0].
  destruct (float64_exact (maxW - 1) ltac:(lia)) as [Fw Vw].
  assert (G1 : gridval 1074 (Z.abs Sc)).
  { rewrite Z.abs_eq by lia. replace Sc with (1 * Sc) by lia.
    apply gridval_int. lia. }
  assert (Hpos : 0 < fval (math.float64 (maxW - 1))) by (rewrite Vw; nia).
  split.
  - destruct (div_between (math.float64 0) (math.float64 (maxW - 1)) 0 0 F0 Fw)
      as [Ft Vt]; try assumption; try (now left); [rewrite V0; lia|].
    split; [exact Ft|lia].
  - destruct (div_between (math.float64 (maxW - 1)) (math.float64 (maxW - 1))
                          Sc Sc Fw Fw)
      as [Ft Vt]; try assumption; [lia|].
    split; [exact Ft|lia].
Qed.

(** X21.  The gradient starts and ends exactly on its end points: for end
    colours with channels in [[0, 255]] and an art of 2 to [2^53] columns,
    the colour of the first column is the start colour and the colour of the
    last column is the end colour. *)
Theorem gradient_reaches_both_ends (cs ce : colorRGB) (maxW : Z) :
  inRange cs -> inRange ce -> 2 <= maxW <= 2 ^ 53 ->
  lerp cs ce (gradientT maxW 0) = cs
  /\ lerp cs ce (gradientT maxW (maxW - 1)) = ce.
Proof.
  intros (HRs & HGs & HBs) (HRe & HGe & HBe) Hw.
  destruct (gradientT_ends maxW Hw) as [[F0 V0] [F1 V1]].
  assert (H52 : 255 < 2 ^ 52) by reflexivity.
  destruct cs as [rs gs bs], ce as [re ge be]. cbn [R G B] in *.
  pose proof (proj1 (lerp1_ends rs re _ ltac:(lia) ltac:(lia) F0) V0) as E1.
  pose proof (proj1 (lerp1_ends gs ge _ ltac:(lia) ltac:(lia) F0) V0) as E2.
  pose proof (proj1 (lerp1_ends bs be _ ltac:(lia) ltac:(lia) F0) V0) as E3.
  pose proof (proj2 (lerp1_ends rs re _ ltac:(lia) ltac:(lia) F1) V1) as E4.
  pose proof (proj2 (lerp1_ends gs ge _ ltac:(lia) ltac:(lia) F1) V1) as E5.
  pose proof (proj2 (lerp1_ends bs be _ ltac:(lia) ltac:(lia) F1) V1) as E6.
  unfold lerp1 in *. unfold lerp. cbn [R G B].
  rewrite E1, E2, E3, E4, E5, E6. split; reflexivity.
Qed.

Lemma gradient_reaches_both_ends_witness :
  inRange (mkColor 138 43 226) /\ inRange (mkColor 0 255 255)
  /\ lerp (mkColor 138 43 226) (mkColor 0 255 255) (gradientT 7 6)
     = mkColor 0 255 255.
Proof.
  assert (Hs : inRange (mkColor 138 43 226)) by (unfold inRange; cbn; lia).
  assert (He : inRange (mkColor 0 255 255)) by (unfold inRange; cbn; lia).
  split; [exact Hs|]. split; [exact He|].
  exact (proj2 (gradient_reaches_both_ends (mkColor 138 43 226)
                  (mkColor 0 255 255) 7 Hs He ltac:(lia))).
Defined.

(** ** The hue *)

(** A finite number other than zero is determined by its value. *)
Lemma sval_inj (x y : spec_float) :
  fin64 x -> fin64 y -> sval x = sval y -> sval x <> 0 -> x = y.
Proof.
  intros Hx Hy Heq Hne.
  destruct x as [sx|sx| |sx mx ex]; try (destruct Hx; discriminate);
    [rewrite sval_zero in Hne; now elim Hne|].
  destruct y as [sy|sy| |sy my ey]; try (destruct Hy; discriminate);
    [rewrite sval_zero in Heq; congruence|].
  destruct (fin64_exp _ _ _ Hx) as [Hex _].
  destruct (fin64_exp _ _ _ Hy) as [Hey _].
  pose proof (valid_canon _ _ _ (proj2 Hx)) as Hcx.
  pose proof (valid_canon _ _ _ (proj2 Hy)) as Hcy.
  assert (Hpx : 0 < 2 ^ (ex + 1074)) by (apply Z.pow_pos_nonneg; lia).
  assert (Hpy : 0 < 2 ^ (ey + 1074)) by (apply Z.pow_pos_nonneg; lia).
  rewrite !sval_finite in Heq.
  assert (Hs : sx = sy) by (destruct sx, sy; try reflexivity; nia).
  subst sy.
  assert (Hmag : Z.pos mx * 2 ^ (ex + 1074) = Z.pos my * 2 ^ (ey + 1074))
    by (destruct sx; lia).
  assert (He : ex = ey).
  { destruct (Z.lt_trichotomy ex ey) as [Hlt|[E|Hgt]]; [exfalso|exact E|exfalso].
    - pose proof (canon_lt _ _ _ _ Hcx Hcy Hlt). lia.
    - pose proof (canon_lt _ _ _ _ Hcy Hcx Hgt). lia. }
  subst ey. assert (Z.pos mx = Z.pos my) by nia.
  congruence.
Qed.

Lemma fval_inj (x y : float) :
  finite x -> finite y -> fval x = fval y -> fval x <> 0 -> x = y.
Proof.
  intros Fx Fy Heq Hne. apply Prim2SF_inj.
  apply sval_inj; try assumption; now apply finite_fin64.
Qed.

Lemma opp_between (x : float) :
  finite x -> finite (- x) /\ fval (- x) = - fval x.
Proof.
  unfold finite, fval. rewrite opp_spec. intros Fx.
  split; [|apply sval_SFopp].
  destruct (Prim2SF x); try discriminate; reflexivity.
Qed.

(** A channel other than zero is at least [2^-9] as a fraction. *)
Lemma unit255_pos (n : Z) : 1 <= n <= 255 -> 2 ^ 1065 <= fval (unit255 n).
Proof.
  intros Hn. pose proof Sc_pos as HSc.
  destruct (float64_exact n ltac:(lia)) as [Fn Vn].
  destruct fval_consts as (_ & _ & _ & _ & [F255 V255] & _).
  assert (G1 : gridval 1074 (Z.abs (2 ^ 1065))).
  { apply (gridval_pow 1 1065); [lia|lia|]. vm_compute. discriminate. }
  assert (G2 : gridval 1074 (Z.abs Sc)).
  { rewrite Z.abs_eq by lia. replace Sc with (1 * Sc) by lia.
    apply gridval_int. lia. }
  assert (H512 : 2 ^ 1065 * 512 = Sc) by (vm_compute; reflexivity).
  destruct (div_between (math.float64 n) 255 (2 ^ 1065) Sc Fn F255)
    as [_ Vq]; try assumption; try (rewrite V255; lia).
  unfold unit255. lia.
Qed.

Lemma unitTable_inv (x : float) :
  In x unitTable -> exists n, 0 <= n <= 255 /\ x = unit255 n.
Proof.
  unfold unitTable. intros H. apply in_map_iff in H as (k & <- & Hk).
  apply in_seq in Hk. exists (Z.of_nat k). split; [lia|reflexivity].
Qed.

(** Two channel fractions with the same value are the same number. *)
Lemma unitTable_inj (x y : float) :
  In x unitTable -> In y unitTable -> fval x = fval y -> x = y.
Proof.
  intros Hx Hy Heq.
  destruct (unitTable_inv x Hx) as (n & Hn & ->).
  destruct (unitTable_inv y Hy) as (n' & Hn' & ->).
  destruct (unit255_between n Hn) as [Fx Vx].
  destruct (unit255_between n' Hn') as [Fy Vy].
  assert (HP : 0 < 2 ^ 1065) by (apply Z.pow_pos_nonneg; lia).
  destruct (Z.eq_dec n 0) as [->|Hne].
  - destruct (Z.eq_dec n' 0) as [->|Hne']; [reflexivity|exfalso].
    pose proof (unit255_pos n' ltac:(lia)).
    assert (fval (unit255 0) = 0) by (vm_compute; reflexivity). lia.
  - pose proof (unit255_pos n ltac:(lia)).
    apply fval_inj; try assumption. lia.
Qed.

Lemma hsv_pairs_sym :
  forallb (fun v => forallb (fun w => hsvPairSym v w) unitTable) unitTable
  = true.
Proof. vm_compute. reflexivity. Qed.

Lemma hsvPairSym_table (v w : float) :
  In v unitTable -> In w unitTable ->
  fval (w - v) = - fval (v - w) \/ ~ (finite (w - v) /\ finite (v - w)).
Proof.
  intros Hv Hw. pose proof hsv_pairs_sym as H.
  rewrite forallb_forall in H. specialize (H v Hv).
  rewrite forallb_forall in H. specialize (H w Hw). unfold hsvPairSym in H.
  destruct (float_cases (w - v)) as [F1|F1].
  - destruct (float_cases (v - w)) as [F2|F2].
    + left. destruct (opp_between _ F2) as [F3 V3].
      rewrite (eqb_fval _ _ F1 F3), V3 in H. now apply Z.eqb_eq in H.
    + right. intros [_ F2']. unfold finite in F2'.
      destruct F2 as [E|[E|E]]; rewrite E in F2'; discriminate.
  - right. intros [F1' _]. unfold finite in F1'.
    destruct F1 as [E|[E|E]]; rewrite E in F1'; discriminate.
Qed.

Lemma unitTable_between (x : float) : In x unitTable -> between x 0 Sc.
Proof.
  intros H. destruct (unitTable_inv x H) as (n & Hn & ->).
  now apply unit255_between.
Qed.

Lemma gridval_Sc : gridval 1074 (Z.abs Sc).
Proof.
  pose proof Sc_pos. rewrite Z.abs_eq by lia.
  replace Sc with (1 * Sc) by lia. apply gridval_int. lia.
Qed.

Lemma gridval_opp_Sc : gridval 1074 (Z.abs (- Sc)).
Proof. rewrite Z.abs_opp. exact gridval_Sc. Qed.

Lemma gridval_1064 : gridval 1074 (Z.abs (2 ^ 1064)).
Proof.
  apply (gridval_pow 1 1064); [lia|lia|]. vm_compute. discriminate.
Qed.

(** Two channel fractions that differ are more than [2^-10] apart. *)
Lemma table_gap (x y : float) :
  In x unitTable -> In y unitTable -> fval y < fval x ->
  2 ^ 1064 < fval x - fval y.
Proof.
  intros Ix Iy Hlt.
  pose proof (unitTable_between x Ix) as Bx.
  pose proof (unitTable_between y Iy) as By.
  pose proof Bx as [Fx Vx]. pose proof By as [Fy Vy].
  assert (HP : 0 < 2 ^ 1064) by (apply Z.pow_pos_nonneg; lia).
  assert (HQ : 2 ^ 1065 = 2 * 2 ^ 1064) by (vm_compute; reflexivity).
  destruct (chromaOk_pair x y Bx By ltac:(lia) ltac:(lia)
                          (hsvPairOk_table x y Ix Iy))
    as ([Fd Vd] & Hd & _).
  destruct fval_0 as [F0 V0].
  destruct Hd as [Hd|Hd].
  - exfalso. rewrite (eqb_fval _ _ Fd F0), V0 in Hd. apply Z.eqb_eq in Hd.
    assert (G1 : gridval 1074 (Z.abs 1)).
    { apply (gridval_pow 1 0); [lia|lia|]. vm_compute. discriminate. }
    destruct (sub_between x y 1 Sc Fx Fy G1 gridval_Sc ltac:(lia)) as [_ V].
    lia.
  - destruct (Z.lt_ge_cases (2 ^ 1064) (fval x - fval y)) as [H|H];
      [exact H|exfalso].
    assert (G0 : gridval 1074 (Z.abs 0)) by now left.
    destruct (sub_between x y 0 (2 ^ 1064) Fx Fy G0 gridval_1064 ltac:(lia))
      as [_ V].
    lia.
Qed.

(** The computed spread of two channel fractions is within [2^-10] of the
    exact one. *)
Lemma spread_below (v w : float) :
  between v 0 Sc -> between w 0 Sc -> fval w <= fval v ->
  finite (v - w) /\ fval v - fval w - 2 ^ 1064 <= fval (v - w).
Proof.
  intros [Fv Vv] [Fw Vw] Hle.
  assert (HSc : Sc = 2 ^ 52 * 2 ^ 1022) by (vm_compute; reflexivity).
  assert (H64 : 2 ^ 1064 = 2 ^ 42 * 2 ^ 1022) by (vm_compute; reflexivity).
  assert (HP : 0 < 2 ^ 1022) by (apply Z.pow_pos_nonneg; lia).
  set (E := fval v - fval w) in *.
  set (k := E / 2 ^ 1022).
  assert (Hk : 0 <= k <= 2 ^ 52).
  { unfold k. split; [apply Z.div_pos; lia|].
    apply Z.div_le_upper_bound; [lia|]. lia. }
  assert (HE : k * 2 ^ 1022 <= E < k * 2 ^ 1022 + 2 ^ 1022).
  { pose proof (Z.div_mod E (2 ^ 1022) ltac:(lia)) as Hdm.
    pose proof (Z.mod_pos_bound E (2 ^ 1022) HP). fold k in Hdm. lia. }
  assert (Gk : gridval 1074 (Z.abs (k * 2 ^ 1022))).
  { rewrite Z.abs_eq by (apply Z.mul_nonneg_nonneg; lia).
    destruct (Z.eq_dec k 0) as [->|Hne]; [now left|].
    apply gridval_pow; [lia|lia|].
    assert (Zdigits2 k <= 53) by (apply Zdigits2_le; lia). lia. }
  destruct (sub_between v w (k * 2 ^ 1022) Sc Fv Fw Gk gridval_Sc)
    as [Fd Vd]; [fold E; lia|].
  split; [exact Fd|].
  assert (2 ^ 1022 <= 2 ^ 42 * 2 ^ 1022) by nia. lia.
Qed.

(** No difference of two channels exceeds the computed spread of the
    largest and the smallest. *)
Lemma spread_upper (x y hi lo : float) :
  In x unitTable -> In y unitTable -> In hi unitTable -> In lo unitTable ->
  fval lo <= fval x <= fval hi -> fval lo <= fval y <= fval hi ->
  finite (x - y) /\ fval (x - y) <= fval (hi - lo).
Proof.
  intros Ix Iy Ih Il Hx Hy.
  pose proof (unitTable_between x Ix) as [Fx Vx].
  pose proof (unitTable_between y Iy) as [Fy Vy].
  pose proof (unitTable_between hi Ih) as Bh.
  pose proof (unitTable_between lo Il) as Bl.
  destruct (spread_below hi lo Bh Bl ltac:(lia)) as [Fd Vd].
  destruct (Z.eq_dec (fval x) (fval hi)) as [Exh|Nxh].
  - destruct (Z.eq_dec (fval y) (fval lo)) as [Eyl|Nyl].
    + rewrite (unitTable_inj x hi Ix Ih Exh), (unitTable_inj y lo Iy Il Eyl).
      split; [exact Fd|lia].
    + pose proof (table_gap y lo Iy Il ltac:(lia)) as Hgap.
      destruct (sub_between x y (- Sc) (fval (hi - lo)) Fx Fy gridval_opp_Sc
                            (finite_gridval _ Fd) ltac:(lia)) as [F V].
      split; [exact F|lia].
  - pose proof (table_gap hi x Ih Ix ltac:(lia)) as Hgap.
    destruct (sub_between x y (- Sc) (fval (hi - lo)) Fx Fy gridval_opp_Sc
                          (finite_gridval _ Fd) ltac:(lia)) as [F V].
    split; [exact F|lia].
Qed.

Lemma spread_dominates (x y hi lo : float) :
  In x unitTable -> In y unitTable -> In hi unitTable -> In lo unitTable ->
  fval lo <= fval x <= fval hi -> fval lo <= fval y <= fval hi ->
  between (x - y) (- fval (hi - lo)) (fval (hi - lo)).
Proof.
  intros Ix Iy Ih Il Hx Hy.
  destruct (spread_upper x y hi lo Ix Iy Ih Il Hx Hy) as [F1 V1].
  destruct (spread_upper y x hi lo Iy Ix Ih Il Hy Hx) as [F2 V2].
  split; [exact F1|].
  destruct (hsvPairSym_table x y Ix Iy) as [E|N]; [lia|].
  elim N. now split.
Qed.

(** The hue of a colour whose channels are in range: at least 0 and at most
    [360 - 60 * 2^-10]. *)
Lemma rgbToHsv_hue (c : colorRGB) :
  0 <= R c <= 255 -> 0 <= G c <= 255 -> 0 <= B c <= 255 ->
  between (fst (fst (rgbToHsv c))) 0 (368580 * 2 ^ 1064).
Proof.
  intros HR HG HB. pose proof Sc_pos as HSc.
  destruct fval_0 as [F0 V0].
  destruct fval_consts
    as ([F2 V2] & [F4 V4] & [F6 V6] & [F60 V60] & _ & _).
  assert (H1024 : Sc = 1024 * 2 ^ 1064) by (vm_compute; reflexivity).
  assert (HP : 0 < 2 ^ 1064) by (apply Z.pow_pos_nonneg; lia).
  assert (Hg : forall k, Z.abs k < 2 ^ 53 -> gridval 1074 (Z.abs (k * Sc))).
  { intros k Hk. rewrite Z.abs_mul, (Z.abs_eq Sc) by lia.
    apply gridval_int. lia. }
  assert (Hg' : forall k, 0 < k < 2 ^ 53 ->
                          gridval 1074 (Z.abs (k * 2 ^ 1064))).
  { intros k Hk. rewrite Z.abs_eq by (apply Z.mul_nonneg_nonneg; lia).
    apply gridval_pow; [lia|lia|].
    assert (Zdigits2 k <= 53) by (apply Zdigits2_le; lia). lia. }
  assert (Bzero : between 0 0 (368580 * 2 ^ 1064))
    by (split; [exact F0|rewrite V0; lia]).
  unfold rgbToHsv. cbv zeta.
  fold (unit255 (R c)). fold (unit255 (G c)). fold (unit255 (B c)).
  destruct (unit255_between (R c) HR) as [Fr Vr].
  destruct (unit255_between (G c) HG) as [Fg Vg].
  destruct (unit255_between (B c) HB) as [Fb Vb].
  pose proof (unitTable_In (R c) HR) as Ir.
  pose proof (unitTable_In (G c) HG) as Ig.
  pose proof (unitTable_In (B c) HB) as Ib.
  set (r := unit255 (R c)) in *. set (g := unit255 (G c)) in *.
  set (b := unit255 (B c)) in *.
  destruct (Max_fin g b Fg Fb) as [Hgb Vgb].
  assert (Fgb : finite (math.Max g b)) by (destruct Hgb as [->| ->]; assumption).
  destruct (Max_fin r (math.Max g b) Fr Fgb) as [Hmax Vmax].
  destruct (Min_fin g b Fg Fb) as [Hgb' Vgb'].
  assert (Fgb' : finite (math.Min g b))
    by (destruct Hgb' as [->| ->]; assumption).
  destruct (Min_fin r (math.Min g b) Fr Fgb') as [Hmin Vmin].
  set (maxv := math.Max r (math.Max g b)) in *.
  set (minv := math.Min r (math.Min g b)) in *.
  assert (Imax : In maxv unitTable)
    by (destruct Hmax as [->| ->]; [|destruct Hgb as [->| ->]]; assumption).
  assert (Imin : In minv unitTable)
    by (destruct Hmin as [->| ->]; [|destruct Hgb' as [->| ->]]; assumption).
  pose proof (unitTable_between maxv Imax) as Bmax.
  pose proof (unitTable_between minv Imin) as Bmin.
  pose proof Bmax as [Fmax Wmax].
  rewrite (eqb_fval maxv 0 Fmax F0), V0.
  destruct (Z.eqb_spec (fval maxv) 0) as [E0|E0]; [exact Bzero|].
  cbn [negb fst].
  destruct (chromaOk_pair maxv minv Bmax Bmin ltac:(lia) ltac:(lia)
                          (hsvPairOk_table maxv minv Imax Imin))
    as ([Fd Vd] & Hd & _).
  destruct (maxv - minv =? 0)%float eqn:Ed; [exact Bzero|].
  destruct Hd as [Hd|Hd]; [discriminate|].
  assert (H1065 : 2 ^ 1065 = 2 * 2 ^ 1064) by (vm_compute; reflexivity).
  set (d := (maxv - minv)%float) in *.
  assert (Hdpos : 0 < fval d) by lia.
  assert (HdSc : fval d <= Sc) by lia.
  (* a difference of two channels over the spread is between -1 and 1 *)
  assert (Hq : forall x y, In x unitTable -> In y unitTable ->
                           fval minv <= fval x <= fval maxv ->
                           fval minv <= fval y <= fval maxv ->
                           finite (x - y)
                           /\ between ((x - y) / d) (- 1 * Sc) (1 * Sc)).
  { intros x y Ix Iy Hx Hy.
    destruct (spread_dominates x y maxv minv Ix Iy Imax Imin Hx Hy)
      as [Fs Vs].
    fold d in Vs. split; [exact Fs|].
    apply div_between; try assumption; try (apply Hg; lia).
    split.
    - replace (- 1 * Sc * fval d) with ((- fval d) * Sc) by ring.
      apply Z.mul_le_mono_nonneg_r; lia.
    - replace (1 * Sc * fval d) with (fval d * Sc) by ring.
      apply Z.mul_le_mono_nonneg_r; lia. }
  assert (Hadd : forall x k n, between x (- 1 * Sc) (1 * Sc) ->
                               finite k -> fval k = n * Sc -> 2 <= n <= 6 ->
                               between (x + k) ((n - 1) * Sc) ((n + 1) * Sc)).
  { intros x k n [Fx Vx] Fk Vk Hn.
    apply add_between; try assumption; try (apply Hg; lia). lia. }
  assert (Hmul : forall x lo hi,
             between x (lo * 2 ^ 1064) (hi * 2 ^ 1064) ->
             0 <= lo -> lo <= hi -> hi <= 6143 ->
             between (x * 60) 0 (368580 * 2 ^ 1064)).
  { intros x lo hi [Fx Vx] Hlo Hlh Hhi.
    apply mul_between; try assumption; [now left|apply Hg'; lia|].
    rewrite V60. split.
    - rewrite Z.mul_0_l. apply Z.mul_nonneg_nonneg; [|lia].
      apply Z.le_trans with (lo * 2 ^ 1064); [|lia].
      apply Z.mul_nonneg_nonneg; lia.
    - replace (368580 * 2 ^ 1064 * Sc) with (6143 * 2 ^ 1064 * (60 * Sc))
        by ring.
      apply Z.mul_le_mono_nonneg_r; [lia|].
      apply Z.le_trans with (hi * 2 ^ 1064); [lia|].
      apply Z.mul_le_mono_nonneg_r; lia. }
  assert (Or : fval minv <= fval r <= fval maxv) by lia.
  assert (Og : fval minv <= fval g <= fval maxv) by lia.
  assert (Ob : fval minv <= fval b <= fval maxv) by lia.
  destruct (maxv =? r)%float.
  { destruct (Hq g b Ig Ib Og Ob) as [Fs [Fq Vq]].
    rewrite (ltb_fval g b Fg Fb).
    destruct (Z.ltb_spec (fval g) (fval b)) as [Hlt|Hge].
    - pose proof (table_gap b g Ib Ig Hlt) as Hgap.
      destruct (sub_between g b (- Sc) (- 2 ^ 1064) Fg Fb gridval_opp_Sc)
        as [_ Vs]; [rewrite Z.abs_opp; exact gridval_1064|lia|].
      destruct (div_between (g - b) d (- 1 * Sc) (- 1 * 2 ^ 1064) Fs Fd Hdpos)
        as [_ Vq'].
      + apply Hg. lia.
      + replace (- 1 * 2 ^ 1064) with (- (1 * 2 ^ 1064)) by ring.
        rewrite Z.abs_opp. apply Hg'. lia.
      + split.
        * replace (- 1 * Sc * fval d) with ((- fval d) * Sc) by ring.
          apply Z.mul_le_mono_nonneg_r; [lia|].
          destruct (spread_dominates g b maxv minv Ig Ib Imax Imin Og Ob)
            as [_ V]. fold d in V. lia.
        * apply Z.le_trans with (- 2 ^ 1064 * Sc).
          -- apply Z.mul_le_mono_nonneg_r; lia.
          -- replace (- 1 * 2 ^ 1064 * fval d) with (- (2 ^ 1064 * fval d))
               by ring.
             replace (- 2 ^ 1064 * Sc) with (- (2 ^ 1064 * Sc)) by ring.
             apply Z.opp_le_mono. rewrite !Z.opp_involutive.
             apply Z.mul_le_mono_nonneg_l; lia.
      + destruct (add_between ((g - b) / d) 6 (5120 * 2 ^ 1064)
                              (6143 * 2 ^ 1064) Fq F6) as [Fa Va];
          [apply Hg'; lia|apply Hg'; lia|lia|].
        apply (Hmul _ 5120 6143); [split; assumption|lia|lia|lia].
    - destruct (sub_between g b 0 Sc Fg Fb ltac:(now left) gridval_Sc
                            ltac:(lia)) as [_ Vs].
      destruct (div_between (g - b) d 0 (1 * Sc) Fs Fd Hdpos)
        as [_ Vq']; [now left|apply Hg; lia| |].
      + split; [rewrite Z.mul_0_l; apply Z.mul_nonneg_nonneg; lia|].
        destruct (spread_dominates g b maxv minv Ig Ib Imax Imin Og Ob)
          as [_ V]. fold d in V.
        replace (1 * Sc * fval d) with (fval d * Sc) by ring.
        apply Z.mul_le_mono_nonneg_r; lia.
      + apply (Hmul _ 0 1024); [split; [exact Fq|lia]|lia|lia|lia]. }
  destruct (maxv =? g)%float.
  { destruct (Hq b r Ib Ir Ob Or) as [_ Bq].
    destruct (Hadd _ 2%float 2 Bq F2 V2 ltac:(lia)) as [Fa Va].
    apply (Hmul _ 1024 3072); [split; [exact Fa|lia]|lia|lia|lia]. }
  destruct (maxv =? b)%float.
  { destruct (Hq r g Ir Ig Or Og) as [_ Bq].
    destruct (Hadd _ 4%float 4 Bq F4 V4 ltac:(lia)) as [Fa Va].
    apply (Hmul _ 3072 5120); [split; [exact Fa|lia]|lia|lia|lia]. }
  apply (Hmul _ 0 0); [split; [exact F0|lia]|lia|lia|lia].
Qed.

(** X22.  The hue that [rgbToHsv] gives for a colour with channels in
    [[0, 255]] is a number of degrees in [[0, 360)]. *)
Theorem rgbToHsv_hue_range (c : colorRGB) :
  0 <= R c <= 255 -> 0 <= G c <= 255 -> 0 <= B c <= 255 ->
  let '(h, _, _) := rgbToHsv c in
  (0 <=? h)%float = true /\ (h <? 360)%float = true.
Proof.
  intros HR HG HB. pose proof (rgbToHsv_hue c HR HG HB) as [Fh Vh].
  destruct (rgbToHsv c) as [[h s] v]. cbn [fst] in Fh, Vh.
  destruct fval_0 as [F0 V0].
  destruct fval_consts as (_ & _ & _ & _ & _ & [F360 V360]).
  assert (H1024 : Sc = 1024 * 2 ^ 1064) by (vm_compute; reflexivity).
  assert (HP : 0 < 2 ^ 1064) by (apply Z.pow_pos_nonneg; lia).
  rewrite (leb_fval _ _ F0 Fh), (ltb_fval _ _ Fh F360), V0, V360.
  split; [apply Z.leb_le; lia|apply Z.ltb_lt; lia].
Qed.

Lemma rgbToHsv_hue_range_witness :
  (0 <=? fst (fst (rgbToHsv (mkColor 138 43 226))))%float = true
  /\ (fst (fst (rgbToHsv (mkColor 138 43 226))) <? 360)%float = true.
Proof.
  pose proof (rgbToHsv_hue_range (mkColor 138 43 226)) as H.
  cbn [R G B] in H.
  specialize (H ltac:(lia) ltac:(lia) ltac:(lia)).
  destruct (rgbToHsv (mkColor 138 43 226)) as [[h s] v].
  exact H.
Defined.

(** ** Derived colours stay in range (C8) *)

(** C8.  For colours [a] and [b] with channels in [[0, 255]] and a fraction
    [0 <= t <= 1], every channel of [lerp a b t] is in [[0, 255]]; for a
    colour [c] with channels in [[0, 255]] and every number of degrees
    [delta] (a finite binary64 number), every channel of [rotateHue c delta]
    is in [[0, 255]].  The program only ever rotates by [hueShift], which is
    finite in every reachable state, so there the rotated colour is in
    range too.  Neither function clamps: the channels are in range by the
    arithmetic alone. *)
Theorem derived_channels_in_range (a b c : colorRGB) (t delta : float) :
  (0 <= R a <= 255 /\ 0 <= G a <= 255 /\ 0 <= B a <= 255 ->
   0 <= R b <= 255 /\ 0 <= G b <= 255 /\ 0 <= B b <= 255 ->
   (0 <=? t)%float = true -> (t <=? 1)%float = true ->
   0 <= R (lerp a b t) <= 255
   /\ 0 <= G (lerp a b t) <= 255
   /\ 0 <= B (lerp a b t) <= 255)
  /\ (0 <= R c <= 255 /\ 0 <= G c <= 255 /\ 0 <= B c <= 255 ->
      finite delta ->
      0 <= R (rotateHue c delta) <= 255
      /\ 0 <= G (rotateHue c delta) <= 255
      /\ 0 <= B (rotateHue c delta) <= 255)
  /\ (0 <= R c <= 255 /\ 0 <= G c <= 255 /\ 0 <= B c <= 255 ->
      forall (C : Collaborators) (m : model C),
        reachable m ->
        finite (hueShift m)
        /\ 0 <= R (rotateHue c (hueShift m)) <= 255
        /\ 0 <= G (rotateHue c (hueShift m)) <= 255
        /\ 0 <= B (rotateHue c (hueShift m)) <= 255).
Proof.
  split; [|split].
  - intros Ha Hb H0 H1. exact (lerp_inRange a b t Ha Hb H0 H1).
  - intros Hc Fd. exact (rotateHue_inRange c delta Hc Fd).
  - intros Hc C m Hr.
    destruct (inv_hue (reachable_Inv C m Hr)) as (k & Hk & Hh).
    assert (Fh : finite (hueShift m)).
    { rewrite Hh. apply half_finite.
      assert (720 < 2 ^ 52) by reflexivity. lia. }
    split; [exact Fh|]. exact (rotateHue_inRange c (hueShift m) Hc Fh).
Qed.

Lemma derived_channels_in_range_witness :
  ((0 <=? 0.25)%float = true /\ (0.25 <=? 1)%float = true
   /\ 0 <= R (lerp (mkColor 138 43 226) (mkColor 0 255 255) 0.25) <= 255
   /\ 0 <= G (lerp (mkColor 138 43 226) (mkColor 0 255 255) 0.25) <= 255
   /\ 0 <= B (lerp (mkColor 138 43 226) (mkColor 0 255 255) 0.25) <= 255)
  /\ (finite 90
      /\ 0 <= R (rotateHue (mkColor 138 43 226) 90) <= 255
      /\ 0 <= G (rotateHue (mkColor 138 43 226) 90) <= 255
      /\ 0 <= B (rotateHue (mkColor 138 43 226) 90) <= 255)
  /\ (reachable Demo.start
      /\ 0 <= R (rotateHue (mkColor 0 255 255) (hueShift Demo.start)) <= 255).
Proof.
  assert (H0 : (0 <=? 0.25)%float = true) by reflexivity.
  assert (H1 : (0.25 <=? 1)%float = true) by reflexivity.
  assert (F : finite 90) by reflexivity.
  assert (Ha : 0 <= R (mkColor 138 43 226) <= 255
               /\ 0 <= G (mkColor 138 43 226) <= 255
               /\ 0 <= B (mkColor 138 43 226) <= 255) by (cbn [R G B]; lia).
  assert (Hb : 0 <= R (mkColor 0 255 255) <= 255
               /\ 0 <= G (mkColor 0 255 255) <= 255
               /\ 0 <= B (mkColor 0 255 255) <= 255) by (cbn [R G B]; lia).
  destruct (derived_channels_in_range (mkColor 138 43 226) (mkColor 0 255 255)
                                      (mkColor 138 43 226) 0.25 90)
    as (Hl & Hrot & _).
  destruct (derived_channels_in_range (mkColor 138 43 226) (mkColor 0 255 255)
                                      (mkColor 0 255 255) 0.25 90)
    as (_ & _ & Hprog).
  split; [split; [exact H0|split; [exact H1|exact (Hl Ha Hb H0 H1)]]|].
  split; [split; [exact F|exact (Hrot Ha F)]|].
  split; [exact Demo_start_reachable|].
  exact (proj1 (proj2 (Hprog Hb Demo.env Demo.start Demo_start_reachable))).
Defined.
